(** * SPH interpolation to a pixel grid: [interpolate2D] and [SarracenDataFrame]

    A shallow embedding of [sarracen/interpolate.py] and of the constructor,
    the column roles and the methods [calc_density], [create_mass_column],
    [calc_one_fluid_quantities] and [centre_of_mass] of
    [sarracen/sarracen_dataframe.py].

    Python floats, NumPy [float64] arrays and pandas columns all carry IEEE 754
    binary64 numbers.  The embedding is written once over an interface [Arith]
    listing the arithmetic the two files use; [binary64] instantiates it with
    Rocq's primitive floats, which evaluate exactly as the Python code does.
    Exceptions are values of type [exn]; a computation that may raise has type
    [Result X]. *)

From Stdlib Require Import ZArith List String Bool Lia Floats DecimalString.
Import ListNotations.

Local Open Scope string_scope.
Local Open Scope list_scope.
Local Open Scope Z_scope.

(** ** Exceptions and the error monad *)

Inductive exn : Type :=
| ValueError (msg : string)
| KeyError (key : string)
| TypeError (msg : string)
| IndexError
| ZeroDivisionError
| OverflowError.

Definition Result (X : Type) : Type := (exn + X)%type.

Definition ret {X : Type} (x : X) : Result X := inr x.

Definition raise {X : Type} (e : exn) : Result X := inl e.

Definition bind {X Y : Type} (m : Result X) (f : X -> Result Y) : Result Y :=
  match m with
  | inl e => inl e
  | inr x => f x
  end.

Notation "x <- m ;; k" := (bind m (fun x => k))
  (at level 61, m at next level, right associativity).

(** [for b in l: a = f(a, b)], stopping at the first exception. *)
Fixpoint foldM {X Y : Type} (f : X -> Y -> Result X) (l : list Y) (a : X)
  : Result X :=
  match l with
  | [] => ret a
  | b :: l' => a' <- f a b ;; foldM f l' a'
  end.

(** [[f(b) for b in l]], stopping at the first exception. *)
Fixpoint mapM {X Y : Type} (f : X -> Result Y) (l : list X) : Result (list Y) :=
  match l with
  | [] => ret []
  | b :: l' => v <- f b ;; vs <- mapM f l' ;; ret (v :: vs)
  end.

(** ** The arithmetic of the program *)

(** The operations on floating-point numbers that the two source files use.
    [div], [add], [sub], [mul] are the IEEE operations (NumPy's and, for
    [add], [sub], [mul], Python's own).  Python's scalar [x ** 2] and [a / b]
    differ from NumPy's in that they raise: [pow2_overflows] and [is_zero]
    say when. *)
Record Arith : Type := {
  num : Type;
  of_int : Z -> num;                (* float(n), an int promoted to float *)
  half : num;                       (* the literal 0.5 *)
  add : num -> num -> num;
  sub : num -> num -> num;
  mul : num -> num -> num;
  div : num -> num -> num;
  square : num -> num;              (* Series ** 2 *)
  power : num -> Z -> num;          (* Series ** n *)
  pow2 : num -> num;                (* the value of a Python float ** 2 *)
  pow2_overflows : num -> bool;     (* ... when it does not raise OverflowError *)
  rint : num -> num;                (* np.rint *)
  sqrt : num -> num;                (* np.sqrt *)
  ltb : num -> num -> bool;         (* a < b, False when unordered *)
  leb : num -> num -> bool;         (* a <= b, False when unordered *)
  is_zero : num -> bool;            (* b == 0.0 *)
  py_int : num -> Result Z          (* int(a) *)
}.

Arguments of_int {_} _.
Arguments half {_}.
Arguments add {_} _ _.
Arguments sub {_} _ _.
Arguments mul {_} _ _.
Arguments div {_} _ _.
Arguments square {_} _.
Arguments power {_} _ _.
Arguments pow2 {_} _.
Arguments pow2_overflows {_} _.
Arguments rint {_} _.
Arguments sqrt {_} _.
Arguments ltb {_} _ _.
Arguments leb {_} _ _.
Arguments is_zero {_} _.
Arguments py_int {_} _.

Declare Scope arith_scope.
Delimit Scope arith_scope with ar.
Notation "x + y" := (add x y) : arith_scope.
Notation "x - y" := (sub x y) : arith_scope.
Notation "x * y" := (mul x y) : arith_scope.
Notation "x / y" := (div x y) : arith_scope.
Notation "x <? y" := (ltb x y) : arith_scope.
Notation "x <=? y" := (leb x y) : arith_scope.

(** ** Lists as NumPy arrays and pandas columns *)

Fixpoint zip_with {X Y V : Type} (f : X -> Y -> V) (l1 : list X) (l2 : list Y)
  : list V :=
  match l1, l2 with
  | a :: l1', b :: l2' => f a b :: zip_with f l1' l2'
  | _, _ => []
  end.

(** Boolean-mask selection, [s[mask]]. *)
Fixpoint select {X : Type} (mask : list bool) (s : list X) : list X :=
  match mask, s with
  | b :: mask', v :: s' => if b then v :: select mask' s' else select mask' s'
  | _, _ => []
  end.

Fixpoint list_set {X : Type} (k : nat) (v : X) (l : list X) : list X :=
  match l, k with
  | [], _ => []
  | _ :: l', O => v :: l'
  | a :: l', S k' => a :: list_set k' v l'
  end.

(** [range(a, b)] *)
Definition range (a b : Z) : list Z :=
  map (fun k => a + Z.of_nat k) (seq 0 (Z.to_nat (b - a))).

(** NumPy's reading of an index into an axis of length [len]: negative
    indices count from the end, anything else out of range raises. *)
Definition normalize_index (len idx : Z) : Result nat :=
  if (0 <=? idx) && (idx <? len) then ret (Z.to_nat idx)
  else if (- len <=? idx) && (idx <? 0) then ret (Z.to_nat (len + idx))
  else raise IndexError.

(** [a[idx]] *)
Definition ndarray_get {X : Type} (a : list X) (idx : Z) : Result X :=
  k <- normalize_index (Z.of_nat (List.length a)) idx ;;
  match nth_error a k with
  | Some v => ret v
  | None => raise IndexError
  end.

(** [a[idx] = v] *)
Definition ndarray_set {X : Type} (a : list X) (idx : Z) (v : X)
  : Result (list X) :=
  k <- normalize_index (Z.of_nat (List.length a)) idx ;;
  ret (list_set k v a).

(** ** pandas data frames *)

Section Columns.

Variable C : Type.

(** [df[key]], for a frame given as its columns in order, each with its
    label. *)
Fixpoint getitem (df : list (string * C)) (key : string) : Result C :=
  match df with
  | [] => raise (KeyError key)
  | (k, s) :: df' => if String.eqb k key then ret s else getitem df' key
  end.

(** [df[key] = s]: replaces the column [key], or adds it after the others. *)
Fixpoint setitem (df : list (string * C)) (key : string) (s : C)
  : list (string * C) :=
  match df with
  | [] => [(key, s)]
  | (k, s0) :: df' =>
      if String.eqb k key then (k, s) :: df' else (k, s0) :: setitem df' key s
  end.

(** [key in df] *)
Definition has_column (df : list (string * C)) (key : string) : bool :=
  existsb (String.eqb key) (map fst df).

End Columns.

Arguments getitem {C} df key.
Arguments setitem {C} df key s.
Arguments has_column {C} df key.

(** A frame whose columns hold values of type [V]. *)
Definition Frame (V : Type) : Type := list (string * list V).

(** [df[mask]]: the rows at which the mask holds. *)
Definition getitem_mask {V : Type} (df : Frame V) (mask : list bool) : Frame V :=
  map (fun c => (fst c, select mask (snd c))) df.

(** ** [interpolate.py] *)

Section Interpolate.

Context {A : Arith}.

Local Abbreviation zero := (of_int 0 : num A).
Local Abbreviation one := (of_int 1 : num A).

(** The part of [sarracen.kernels.BaseKernel] that [interpolate2D] reads. *)
Record BaseKernel : Type := {
  ndims : Z;
  radkernel : num A;
  w : num A -> num A
}.

(** A Python float [a ** 2]. *)
Definition py_pow2 (a : num A) : Result (num A) :=
  if pow2_overflows a then raise OverflowError else ret (pow2 a).

(** A Python float [a / b]. *)
Definition py_truediv (a b : num A) : Result (num A) :=
  if is_zero b then raise ZeroDivisionError else ret (a / b)%ar.

(** [np.zeros(n)] and [np.zeros((rows, cols))] *)
Definition np_zeros (n : Z) : list (num A) := repeat zero (Z.to_nat n).

Definition np_zeros2 (rows cols : Z) : list (list (num A)) :=
  repeat (np_zeros cols) (Z.to_nat rows).

(** [Series.clip(lower=lower, upper=upper)] at one entry: pandas compares the
    entry itself with each bound and leaves NaN alone. *)
Definition clip (lower upper : Z) (v : num A) : num A :=
  if (v <? of_int lower)%ar then of_int lower
  else if (of_int upper <? v)%ar then of_int upper
  else v.

(** [image[jpix][ipix] += v] *)
Definition image_iadd (image : list (list (num A))) (jpix ipix : Z) (v : num A)
  : Result (list (list (num A))) :=
  row <- ndarray_get image jpix ;;
  old <- ndarray_get row ipix ;;
  row' <- ndarray_set row ipix (old + v)%ar ;;
  ndarray_set image jpix row'.

(** A row of [parts] as [parts.itertuples()] yields it (the fields the loop
    reads). *)
Record Part : Type := {
  part_x : num A;
  part_y : num A;
  part_h : num A;
  part_term : num A;
  part_ipixmin : num A;
  part_jpixmin : num A;
  part_ipixmax : num A;
  part_jpixmax : num A
}.

Definition ap {X Y : Type} (fs : list (X -> Y)) (vs : list X) : list Y :=
  zip_with (fun f v => f v) fs vs.

Definition itertuples (parts : Frame (num A)) : Result (list Part) :=
  xs <- getitem parts "x" ;;
  ys <- getitem parts "y" ;;
  hs <- getitem parts "h" ;;
  terms <- getitem parts "term" ;;
  ipixmins <- getitem parts "ipixmin" ;;
  jpixmins <- getitem parts "jpixmin" ;;
  ipixmaxs <- getitem parts "ipixmax" ;;
  jpixmaxs <- getitem parts "jpixmax" ;;
  ret (ap (ap (ap (ap (ap (ap (ap (map Build_Part xs) ys) hs) terms)
                 ipixmins) jpixmins) ipixmaxs) jpixmaxs).

Section Call.

Variable data : Frame (num A).
Variables x y target : string.
Variable kernel : BaseKernel.
Variables pixwidthx pixwidthy xmin ymin : num A.
Variables pixcountx pixcounty : Z.

(** Lines 50-69: the working frame [parts]. *)
Definition build_parts : Result (Frame (num A)) :=
  let parts : Frame (num A) := [] in
  data_x <- getitem data x ;;
  let parts := setitem parts "x" data_x in
  data_y <- getitem data y ;;
  let parts := setitem parts "y" data_y in
  data_h <- getitem data "h" ;;
  let parts := setitem parts "h" data_h in
  data_m <- getitem data "m" ;;
  data_rho <- getitem data "rho" ;;
  data_h <- getitem data "h" ;;
  let parts :=
    setitem parts "weight"
      (zip_with div data_m (zip_with mul data_rho (map square data_h))) in
  weight <- getitem parts "weight" ;;
  data_target <- getitem data target ;;
  let parts := setitem parts "term" (zip_with mul weight data_target) in
  (* filter out particles with 0 weight *)
  weight <- getitem parts "weight" ;;
  let parts := getitem_mask parts (map (fun v => zero <? v)%ar weight) in
  (* parts.drop(['weight'], axis=1) builds a frame that is thrown away *)
  parts_x <- getitem parts x ;;
  parts_h <- getitem parts "h" ;;
  let parts :=
    setitem parts "ipixmin"
      (map (clip 0 pixcountx)
         (map rint
            (map (fun v => (v - xmin) / pixwidthx)%ar
               (zip_with sub parts_x (map (mul (radkernel kernel)) parts_h))))) in
  parts_y <- getitem parts y ;;
  parts_h <- getitem parts "h" ;;
  let parts :=
    setitem parts "jpixmin"
      (map (clip 0 pixcounty)
         (map rint
            (map (fun v => (v - ymin) / pixwidthy)%ar
               (zip_with sub parts_y (map (mul (radkernel kernel)) parts_h))))) in
  parts_x <- getitem parts x ;;
  parts_h <- getitem parts "h" ;;
  let parts :=
    setitem parts "ipixmax"
      (map (clip 0 pixcountx)
         (map rint
            (map (fun v => (v - xmin) / pixwidthx)%ar
               (zip_with add parts_x (map (mul (radkernel kernel)) parts_h))))) in
  parts_y <- getitem parts y ;;
  parts_h <- getitem parts "h" ;;
  let parts :=
    setitem parts "jpixmax"
      (map (clip 0 pixcounty)
         (map rint
            (map (fun v => (v - ymin) / pixwidthy)%ar
               (zip_with add parts_y (map (mul (radkernel kernel)) parts_h))))) in
  ret parts.

(** [range(int(part.ipixmin), int(part.ipixmax))] and
    [range(int(part.jpixmin), int(part.jpixmax))], the pixels the loops of
    lines 75, 79 and 85 run over. *)
Definition ipix_range (part : Part) : Result (list Z) :=
  lo <- py_int (part_ipixmin part) ;;
  hi <- py_int (part_ipixmax part) ;;
  ret (range lo hi).

Definition jpix_range (part : Part) : Result (list Z) :=
  lo <- py_int (part_jpixmin part) ;;
  hi <- py_int (part_jpixmax part) ;;
  ret (range lo hi).

(** Lines 74-76: the table [dx2i] of one particle. *)
Definition precompute_dx2i (part : Part) : Result (list (num A)) :=
  let dx2i := np_zeros pixcountx in
  ipixs <- ipix_range part ;;
  foldM (fun dx2i ipix =>
           d2 <- py_pow2 (xmin + (of_int ipix + half) * pixwidthx - part_x part)%ar ;;
           h2 <- py_pow2 (part_h part) ;;
           inv <- py_truediv one h2 ;;
           ndarray_set dx2i ipix (d2 * inv)%ar)
        ipixs dx2i.

(** Lines 73-91: the body of the loop over particles. *)
Definition process_part (image : list (list (num A))) (part : Part)
  : Result (list (list (num A))) :=
  dx2i <- precompute_dx2i part ;;
  jpixs <- jpix_range part ;;
  foldM (fun image jpix =>
           let ypix := (ymin + (of_int jpix + half) * pixwidthy)%ar in
           let dy := (ypix - part_y part)%ar in
           h2 <- py_pow2 (part_h part) ;;
           inv <- py_truediv one h2 ;;
           let dy2 := (dy * dy * inv)%ar in
           ipixs <- ipix_range part ;;
           foldM (fun image ipix =>
                    d <- ndarray_get dx2i ipix ;;
                    let q2 := (d + dy2)%ar in
                    let wab := w kernel (sqrt q2) in
                    image_iadd image jpix ipix (part_term part * wab)%ar)
                 ipixs image)
        jpixs image.

Definition interpolate2D : Result (list (list (num A))) :=
  if (pixwidthx <=? zero)%ar then
    raise (ValueError "pixwidthx must be greater than zero!")
  else if (pixwidthy <=? zero)%ar then
    raise (ValueError "pixwidthy must be greater than zero!")
  else if pixcountx <=? 0 then
    raise (ValueError "pixcountx must be greater than zero!")
  else if pixcounty <=? 0 then
    raise (ValueError "pixcounty must be greater than zero!")
  else if negb (ndims kernel =? 2) then
    raise (ValueError "Kernel must be two-dimensional!")
  else
    let image := np_zeros2 pixcounty pixcountx in
    parts <- build_parts ;;
    rows <- itertuples parts ;;
    foldM process_part rows image.

(** *** The particle view of a call

    What follows restates the call one particle at a time, in the words of the
    specification; the theorems relate it to [interpolate2D] above. *)

(** The attributes of one particle that [interpolate2D] reads. *)
Record Particle : Type := {
  r_x : num A;
  r_y : num A;
  r_h : num A;
  r_m : num A;
  r_rho : num A;
  r_target : num A
}.

(** The frame [data] holds the particles [rows] under the labels of the call:
    every column read exists, and row [k] of each is particle [k]. *)
Definition holds (rows : list Particle) : Prop :=
  getitem data x = inr (map r_x rows) /\
  getitem data y = inr (map r_y rows) /\
  getitem data "h" = inr (map r_h rows) /\
  getitem data "m" = inr (map r_m rows) /\
  getitem data "rho" = inr (map r_rho rows) /\
  getitem data target = inr (map r_target rows).

(** weight = m / (rho * h^2) and term = weight * target_value *)
Definition weight (r : Particle) : num A :=
  (r_m r / (r_rho r * square (r_h r)))%ar.

Definition term (r : Particle) : num A := (weight r * r_target r)%ar.

(** A particle is retained when its weight is strictly positive. *)
Definition retained (r : Particle) : bool := (zero <? weight r)%ar.

(** round((center -/+ radkernel * h - origin) / cell_width), clamped to
    [0, pixel_count]. *)
Definition pixel_index_min (center h origin cell_width : num A) (pixel_count : Z)
  : num A :=
  clip 0 pixel_count (rint ((center - radkernel kernel * h - origin) / cell_width)%ar).

Definition pixel_index_max (center h origin cell_width : num A) (pixel_count : Z)
  : num A :=
  clip 0 pixel_count (rint ((center + radkernel kernel * h - origin) / cell_width)%ar).

(** The columns of [parts] after line 58, each as a function of the particle
    in its row. *)
Definition parts_columns : list (string * (Particle -> num A)) :=
  [("x", r_x); ("y", r_y); ("h", r_h); ("weight", weight); ("term", term)].

(** The row of [parts] for a retained particle, once lines 62-69 have added
    the four bounds; [cx] and [cy] are the columns that [parts[x]] and
    [parts[y]] name. *)
Definition part_of (cx cy : Particle -> num A) (r : Particle) : Part := {|
  part_x := r_x r;
  part_y := r_y r;
  part_h := r_h r;
  part_term := term r;
  part_ipixmin := pixel_index_min (cx r) (r_h r) xmin pixwidthx pixcountx;
  part_jpixmin := pixel_index_min (cy r) (r_h r) ymin pixwidthy pixcounty;
  part_ipixmax := pixel_index_max (cx r) (r_h r) xmin pixwidthx pixcountx;
  part_jpixmax := pixel_index_max (cy r) (r_h r) ymin pixwidthy pixcounty
|}.

(** The rows the particle loop runs over, for a frame holding [rows]. *)
Definition retained_parts (rows : list Particle) : Result (list Part) :=
  cx <- getitem parts_columns x ;;
  cy <- getitem
          (setitem parts_columns "ipixmin"
             (fun r => pixel_index_min (cx r) (r_h r) xmin pixwidthx pixcountx))
          y ;;
  ret (map (part_of cx cy) (filter retained rows)).

(** Squared distance along an axis from the centre of a cell to the particle,
    over h^2 (the source multiplies by the reciprocal [1 / h ** 2]). *)
Definition dx2 (part : Part) (ipix : Z) : num A :=
  (pow2 (xmin + (of_int ipix + half) * pixwidthx - part_x part)
   * (one / pow2 (part_h part)))%ar.

Definition dy2 (part : Part) (jpix : Z) : num A :=
  ((ymin + (of_int jpix + half) * pixwidthy - part_y part)
   * (ymin + (of_int jpix + half) * pixwidthy - part_y part)
   * (one / pow2 (part_h part)))%ar.

(** term * w(sqrt(q2)), the value a particle adds to the cell in column
    [ipix] of row [jpix]. *)
Definition contribution (part : Part) (jpix ipix : Z) : num A :=
  (part_term part * w kernel (sqrt (dx2 part ipix + dy2 part jpix)))%ar.

(** The exceptions Python's scalar arithmetic raises on the way. *)
Definition inv_h2_check (part : Part) : Result unit :=
  h2 <- py_pow2 (part_h part) ;;
  _ <- py_truediv one h2 ;;
  ret tt.

Definition dx2_check (part : Part) (ipix : Z) : Result unit :=
  _ <- py_pow2 (xmin + (of_int ipix + half) * pixwidthx - part_x part)%ar ;;
  inv_h2_check part.

(** The candidate cells of a particle, rows then columns, when no exception
    stops the particle's turn. *)
Definition part_cells (part : Part) : Result (list Z * list Z) :=
  ipixs <- ipix_range part ;;
  _ <- mapM (dx2_check part) ipixs ;;
  jpixs <- jpix_range part ;;
  _ <- mapM (fun _ : Z => inv_h2_check part) jpixs ;;
  ret (jpixs, ipixs).

(** [image[jpix][ipix] += v] for indices within the image. *)
Definition image_add (image : list (list (num A))) (jpix ipix : Z) (v : num A)
  : list (list (num A)) :=
  let row := nth (Z.to_nat jpix) image [] in
  list_set (Z.to_nat jpix)
    (list_set (Z.to_nat ipix) (nth (Z.to_nat ipix) row zero + v)%ar row) image.

(** One particle's contributions added to an image, cell by cell. *)
Definition accumulate_part (image : list (list (num A)))
  (pc : Part * (list Z * list Z)) : list (list (num A)) :=
  fold_left
    (fun image jpix =>
       fold_left
         (fun image ipix =>
            image_add image jpix ipix (contribution (fst pc) jpix ipix))
         (snd (snd pc)) image)
    (fst (snd pc)) image.

(** The five checks of lines 35-45. *)
Definition invalid_call : bool :=
  (pixwidthx <=? zero)%ar || (pixwidthy <=? zero)%ar
  || (pixcountx <=? 0) || (pixcounty <=? 0) || negb (ndims kernel =? 2).

(** The grid as the sum of all contributions over a zero array. *)
Definition interpolate2D_sum : Result (list (list (num A))) :=
  parts <- build_parts ;;
  rows <- itertuples parts ;;
  cells <- mapM part_cells rows ;;
  ret (fold_left accumulate_part (combine rows cells)
         (np_zeros2 pixcounty pixcountx)).

(** The cell in column [ipix] of row [jpix]. *)
Definition cell (image : list (list (num A))) (jpix ipix : Z) : num A :=
  nth (Z.to_nat ipix) (nth (Z.to_nat jpix) image []) zero.

(** An image of [pixcounty] rows of [pixcountx] cells. *)
Definition image_shape (image : list (list (num A))) : Prop :=
  List.length image = Z.to_nat pixcounty /\
  Forall (fun row => List.length row = Z.to_nat pixcountx) image.

(** The table [dx2i] after lines 74-76. *)
Definition dx2_table (part : Part) (ipixs : list Z) : list (num A) :=
  fold_left (fun t i => list_set (Z.to_nat i) (dx2 part i) t) ipixs
    (np_zeros pixcountx).

(** A row whose four bounds came out of [clip]. *)
Definition clipped (part : Part) : Prop :=
  (exists v, part_ipixmin part = clip 0 pixcountx v) /\
  (exists v, part_jpixmin part = clip 0 pixcounty v) /\
  (exists v, part_ipixmax part = clip 0 pixcountx v) /\
  (exists v, part_jpixmax part = clip 0 pixcounty v).

End Call.

End Interpolate.

Arguments BaseKernel A : clear implicits.
Arguments Part A : clear implicits.
Arguments Particle A : clear implicits.

(** A frame all of whose columns are computed from the same rows. *)
Definition realize {X V : Type} (rows : list X) (cols : list (string * (X -> V)))
  : Frame V :=
  map (fun c => (fst c, map (snd c) rows)) cols.

(** The five errors of lines 35-45, in the order of the checks. *)
Definition validation_errors : list exn :=
  [ValueError "pixwidthx must be greater than zero!";
   ValueError "pixwidthy must be greater than zero!";
   ValueError "pixcountx must be greater than zero!";
   ValueError "pixcounty must be greater than zero!";
   ValueError "Kernel must be two-dimensional!"].

(** ** Laws of the arithmetic *)

Definition nan_to_int : string := "cannot convert float NaN to integer".

(** What the index computations need of [int()]: it is exact on the integers
    up to [bound], it is monotone, and it raises only on infinities and NaN. *)
Record IntConv (A : Arith) (bound : Z) : Prop := {
  int_of_int : forall n : Z,
    0 <= n <= bound -> py_int (of_int n : num A) = inr n;
  int_mono : forall (u v : num A) (a b : Z),
    ltb u v = false -> py_int u = inr a -> py_int v = inr b -> b <= a;
  int_raises : forall (v : num A) (e : exn),
    py_int v = inl e -> e = OverflowError \/ e = ValueError nan_to_int
}.

(** ** IEEE 754 binary64 *)

Module B64.

Definition of_int (n : Z) : float := SF2Prim (binary_normalize prec emax n 0 false).

(** Round half to even, on the integer reading [m * 2^e] of a finite float. *)
Definition rint (a : float) : float :=
  match Prim2SF a with
  | S754_finite s m e =>
      if 0 <=? e then a
      else
        let d := 2 ^ (- e) in
        let q := Z.pos m / d in
        let n := match 2 * (Z.pos m mod d) ?= d with
                 | Lt => q
                 | Gt => q + 1
                 | Eq => if Z.even q then q else q + 1
                 end in
        if n =? 0 then SF2Prim (S754_zero s) else of_int (cond_Zopp s n)
  | _ => a
  end.

(** [int(a)]: truncation toward zero. *)
Definition py_int (a : float) : Result Z :=
  match Prim2SF a with
  | S754_zero _ => ret 0
  | S754_finite s m e => ret (cond_Zopp s (Z.shiftl (Z.pos m) e))
  | S754_infinity _ => raise OverflowError
  | S754_nan => raise (ValueError nan_to_int)
  end.

Definition power (a : float) (n : Z) : float :=
  Nat.iter (Z.to_nat n) (fun acc => PrimFloat.mul acc a) PrimFloat.one.

Definition pow2_overflows (a : float) : bool :=
  PrimFloat.is_finite a && PrimFloat.is_infinity (PrimFloat.mul a a).

End B64.

(** [square] is NumPy's [Series ** 2], which multiplies.  [pow2] and [power]
    stand for a Python [float ** 2] and for [Series ** n], which go through
    the C library's [pow]: that function is not required to round correctly,
    and can differ from the product in the last bit.  They are taken here as
    the correctly rounded products.  The general theorems are stated over any
    [Arith] and do not depend on this choice; the examples evaluated in
    binary64 do. *)
Definition binary64 : Arith := {|
  num := float;
  of_int := B64.of_int;
  half := 0.5%float;
  add := PrimFloat.add;
  sub := PrimFloat.sub;
  mul := PrimFloat.mul;
  div := PrimFloat.div;
  square := fun a => PrimFloat.mul a a;
  power := B64.power;
  pow2 := fun a => PrimFloat.mul a a;
  pow2_overflows := B64.pow2_overflows;
  rint := B64.rint;
  sqrt := PrimFloat.sqrt;
  ltb := PrimFloat.ltb;
  leb := PrimFloat.leb;
  is_zero := PrimFloat.is_zero;
  py_int := B64.py_int
|}.

(** ** Inputs for the examples *)

(** A kernel of radius 2 whose weight falls linearly from 2 at the particle to
    0 at the edge of its support. *)
Definition tent_kernel : BaseKernel binary64 :=
  @Build_BaseKernel binary64 2 2%float
    (fun q => if PrimFloat.ltb q 2 then PrimFloat.sub 2 q else 0%float).

(** A frame with the columns x, y, h, m, rho and a target column A. *)
Definition frame_of (xs ys hs ms rhos targets : list (num binary64))
  : Frame (num binary64) :=
  [("x", xs); ("y", ys); ("h", hs); ("m", ms); ("rho", rhos); ("A", targets)].

(** One particle at the origin with h = m = rho = A = 1. *)
Definition one_particle : Frame (num binary64) :=
  frame_of [0%float] [0%float] [1%float] [1%float] [1%float] [1%float].

(** The particles of a frame built by [frame_of], one per row. *)
Definition particle (px py ph pm prho ptarget : float) : Particle binary64 :=
  @Build_Particle binary64 px py ph pm prho ptarget.

(** Two particles, the second of mass 0 and density 0: its weight is NaN. *)
Definition two_particles : Frame (num binary64) :=
  frame_of [0%float; 1%float] [0%float; 1%float] [1%float; 1%float]
    [1%float; 0%float] [1%float; 0%float] [1%float; 1%float].

(** The inclusive range of indices [lo, hi]. *)
Definition inclusive_range (lo hi : Z) : list Z := range lo (hi + 1).

(** A kernel of radius 2 whose weight is 1 everywhere: the grid it produces
    counts the visits of each cell. *)
Definition flat_kernel : BaseKernel binary64 :=
  @Build_BaseKernel binary64 2 2%float (fun _ => 1%float).

(** ** [sarracen_dataframe.py] *)

Section DataFrame.

Context {A : Arith}.

(** The default kernel, [CubicSplineKernel()] of [sarracen.kernels]. *)
Variable CubicSplineKernel : BaseKernel A.

(** A Python dictionary with string keys and float values. *)
Definition dict : Type := list (string * num A).

(** The objects a caller may hand to the [params] and [kernel] setters. *)
Inductive PyObject : Type :=
| PyNone
| PyStr (s : string)
| PyFloat (v : num A)
| PyDict (d : dict)
| PyKernel (k : BaseKernel A).

(** [isinstance(obj, BaseKernel)] *)
Definition isinstance_BaseKernel (obj : PyObject) : bool :=
  match obj with
  | PyKernel _ => true
  | _ => false
  end.

(** The state of a [SarracenDataFrame]: the columns of the pandas frame and
    the attributes of lines 114-126 (units and backend, which nothing below
    reads, are left out).  A column label is a string; an attribute that holds
    a label or [None] is an [option]. *)
Record SarracenDataFrame : Type := {
  columns : Frame (num A);
  _params : option dict;
  _xcol : option string;
  _ycol : option string;
  _zcol : option string;
  _hcol : option string;
  _mcol : option string;
  _rhocol : option string;
  _vxcol : option string;
  _vycol : option string;
  _vzcol : option string;
  _dustfracscol : list string;
  _kernel : PyObject
}.

(** Assignments to one attribute. *)
Definition with_columns (self : SarracenDataFrame) (v : Frame (num A)) :=
  {| columns := v; _params := _params self; _xcol := _xcol self;
     _ycol := _ycol self; _zcol := _zcol self; _hcol := _hcol self;
     _mcol := _mcol self; _rhocol := _rhocol self; _vxcol := _vxcol self;
     _vycol := _vycol self; _vzcol := _vzcol self;
     _dustfracscol := _dustfracscol self; _kernel := _kernel self |}.

Definition with_params (self : SarracenDataFrame) (v : option dict) :=
  {| columns := columns self; _params := v; _xcol := _xcol self;
     _ycol := _ycol self; _zcol := _zcol self; _hcol := _hcol self;
     _mcol := _mcol self; _rhocol := _rhocol self; _vxcol := _vxcol self;
     _vycol := _vycol self; _vzcol := _vzcol self;
     _dustfracscol := _dustfracscol self; _kernel := _kernel self |}.

Definition with_xcol (self : SarracenDataFrame) (v : option string) :=
  {| columns := columns self; _params := _params self; _xcol := v;
     _ycol := _ycol self; _zcol := _zcol self; _hcol := _hcol self;
     _mcol := _mcol self; _rhocol := _rhocol self; _vxcol := _vxcol self;
     _vycol := _vycol self; _vzcol := _vzcol self;
     _dustfracscol := _dustfracscol self; _kernel := _kernel self |}.

Definition with_ycol (self : SarracenDataFrame) (v : option string) :=
  {| columns := columns self; _params := _params self; _xcol := _xcol self;
     _ycol := v; _zcol := _zcol self; _hcol := _hcol self;
     _mcol := _mcol self; _rhocol := _rhocol self; _vxcol := _vxcol self;
     _vycol := _vycol self; _vzcol := _vzcol self;
     _dustfracscol := _dustfracscol self; _kernel := _kernel self |}.

Definition with_zcol (self : SarracenDataFrame) (v : option string) :=
  {| columns := columns self; _params := _params self; _xcol := _xcol self;
     _ycol := _ycol self; _zcol := v; _hcol := _hcol self;
     _mcol := _mcol self; _rhocol := _rhocol self; _vxcol := _vxcol self;
     _vycol := _vycol self; _vzcol := _vzcol self;
     _dustfracscol := _dustfracscol self; _kernel := _kernel self |}.

Definition with_hcol (self : SarracenDataFrame) (v : option string) :=
  {| columns := columns self; _params := _params self; _xcol := _xcol self;
     _ycol := _ycol self; _zcol := _zcol self; _hcol := v;
     _mcol := _mcol self; _rhocol := _rhocol self; _vxcol := _vxcol self;
     _vycol := _vycol self; _vzcol := _vzcol self;
     _dustfracscol := _dustfracscol self; _kernel := _kernel self |}.

Definition with_mcol (self : SarracenDataFrame) (v : option string) :=
  {| columns := columns self; _params := _params self; _xcol := _xcol self;
     _ycol := _ycol self; _zcol := _zcol self; _hcol := _hcol self;
     _mcol := v; _rhocol := _rhocol self; _vxcol := _vxcol self;
     _vycol := _vycol self; _vzcol := _vzcol self;
     _dustfracscol := _dustfracscol self; _kernel := _kernel self |}.

Definition with_rhocol (self : SarracenDataFrame) (v : option string) :=
  {| columns := columns self; _params := _params self; _xcol := _xcol self;
     _ycol := _ycol self; _zcol := _zcol self; _hcol := _hcol self;
     _mcol := _mcol self; _rhocol := v; _vxcol := _vxcol self;
     _vycol := _vycol self; _vzcol := _vzcol self;
     _dustfracscol := _dustfracscol self; _kernel := _kernel self |}.

Definition with_vxcol (self : SarracenDataFrame) (v : option string) :=
  {| columns := columns self; _params := _params self; _xcol := _xcol self;
     _ycol := _ycol self; _zcol := _zcol self; _hcol := _hcol self;
     _mcol := _mcol self; _rhocol := _rhocol self; _vxcol := v;
     _vycol := _vycol self; _vzcol := _vzcol self;
     _dustfracscol := _dustfracscol self; _kernel := _kernel self |}.

Definition with_vycol (self : SarracenDataFrame) (v : option string) :=
  {| columns := columns self; _params := _params self; _xcol := _xcol self;
     _ycol := _ycol self; _zcol := _zcol self; _hcol := _hcol self;
     _mcol := _mcol self; _rhocol := _rhocol self; _vxcol := _vxcol self;
     _vycol := v; _vzcol := _vzcol self;
     _dustfracscol := _dustfracscol self; _kernel := _kernel self |}.

Definition with_vzcol (self : SarracenDataFrame) (v : option string) :=
  {| columns := columns self; _params := _params self; _xcol := _xcol self;
     _ycol := _ycol self; _zcol := _zcol self; _hcol := _hcol self;
     _mcol := _mcol self; _rhocol := _rhocol self; _vxcol := _vxcol self;
     _vycol := _vycol self; _vzcol := v;
     _dustfracscol := _dustfracscol self; _kernel := _kernel self |}.

Definition with_dustfracscol (self : SarracenDataFrame) (v : list string) :=
  {| columns := columns self; _params := _params self; _xcol := _xcol self;
     _ycol := _ycol self; _zcol := _zcol self; _hcol := _hcol self;
     _mcol := _mcol self; _rhocol := _rhocol self; _vxcol := _vxcol self;
     _vycol := _vycol self; _vzcol := _vzcol self;
     _dustfracscol := v; _kernel := _kernel self |}.

Definition with_kernel (self : SarracenDataFrame) (v : PyObject) :=
  {| columns := columns self; _params := _params self; _xcol := _xcol self;
     _ycol := _ycol self; _zcol := _zcol self; _hcol := _hcol self;
     _mcol := _mcol self; _rhocol := _rhocol self; _vxcol := _vxcol self;
     _vycol := _vycol self; _vzcol := _vzcol self;
     _dustfracscol := _dustfracscol self; _kernel := v |}.

(** [label in self] and [label in self.columns], for a label that may be
    [None]: no column is labelled [None]. *)
Definition contains (self : SarracenDataFrame) (label : option string) : bool :=
  match label with
  | Some c => has_column (columns self) c
  | None => false
  end.

Definition is_None {X : Type} (v : option X) : bool :=
  match v with
  | None => true
  | Some _ => false
  end.

(** The [params] setter, lines 589-596. *)
Definition set_params (self : SarracenDataFrame) (new_params : PyObject)
  : Result SarracenDataFrame :=
  match new_params with
  | PyNone => ret (with_params self None)
  | PyDict d => ret (with_params self (Some d))
  | _ => raise (TypeError "Parameters not a dictionary")
  end.

(** The nine column setters, lines 617-743. *)
Definition set_xcol (self : SarracenDataFrame) (new_col : option string) :=
  if contains self new_col || is_None new_col then with_xcol self new_col
  else self.

Definition set_ycol (self : SarracenDataFrame) (new_col : option string) :=
  if contains self new_col || is_None new_col then with_ycol self new_col
  else self.

Definition set_zcol (self : SarracenDataFrame) (new_col : option string) :=
  if contains self new_col || is_None new_col then with_zcol self new_col
  else self.

Definition set_hcol (self : SarracenDataFrame) (new_col : option string) :=
  if contains self new_col || is_None new_col then with_hcol self new_col
  else self.

Definition set_mcol (self : SarracenDataFrame) (new_col : option string) :=
  if contains self new_col || is_None new_col then with_mcol self new_col
  else self.

Definition set_rhocol (self : SarracenDataFrame) (new_col : option string) :=
  if contains self new_col || is_None new_col then with_rhocol self new_col
  else self.

Definition set_vxcol (self : SarracenDataFrame) (new_col : option string) :=
  if contains self new_col || is_None new_col then with_vxcol self new_col
  else self.

Definition set_vycol (self : SarracenDataFrame) (new_col : option string) :=
  if contains self new_col || is_None new_col then with_vycol self new_col
  else self.

Definition set_vzcol (self : SarracenDataFrame) (new_col : option string) :=
  if contains self new_col || is_None new_col then with_vzcol self new_col
  else self.

(** The [kernel] setter, lines 765-768. *)
Definition set_kernel (self : SarracenDataFrame) (new_kernel : PyObject) :=
  if isinstance_BaseKernel new_kernel then with_kernel self new_kernel
  else self.

(** The blocks of [_identify_special_columns], lines 149-198, one per
    attribute. *)

(* First look for 'x', then 'rx', and then default to the first column. *)
Definition identify_xcol (self : SarracenDataFrame) : SarracenDataFrame :=
  if has_column (columns self) "x" then set_xcol self (Some "x")
  else if has_column (columns self) "rx" then set_xcol self (Some "rx")
  else match map fst (columns self) with
       | c :: _ => set_xcol self (Some c)
       | [] => self
       end.

(* First look for 'y', then 'ry', and then default to the second column. *)
Definition identify_ycol (self : SarracenDataFrame) : SarracenDataFrame :=
  if has_column (columns self) "y" then set_ycol self (Some "y")
  else if has_column (columns self) "ry" then set_ycol self (Some "ry")
  else match map fst (columns self) with
       | _ :: c :: _ => set_ycol self (Some c)
       | _ => self
       end.

(* First look for 'z', then 'rz', and then assume data is 2-dimensional. *)
Definition identify_zcol (self : SarracenDataFrame) : SarracenDataFrame :=
  if has_column (columns self) "z" then set_zcol self (Some "z")
  else if has_column (columns self) "rz" then set_zcol self (Some "rz")
  else self.

Definition identify_hcol (self : SarracenDataFrame) : SarracenDataFrame :=
  if has_column (columns self) "h" then set_hcol self (Some "h") else self.

Definition identify_mcol (self : SarracenDataFrame) : SarracenDataFrame :=
  if has_column (columns self) "m" then set_mcol self (Some "m")
  else if has_column (columns self) "mass" then set_mcol self (Some "mass")
  else self.

Definition identify_rhocol (self : SarracenDataFrame) : SarracenDataFrame :=
  if has_column (columns self) "rho" then set_rhocol self (Some "rho")
  else if has_column (columns self) "density" then
    set_rhocol self (Some "density")
  else self.

Definition identify_vxcol (self : SarracenDataFrame) : SarracenDataFrame :=
  if has_column (columns self) "vx" then set_vxcol self (Some "vx") else self.

Definition identify_vycol (self : SarracenDataFrame) : SarracenDataFrame :=
  if has_column (columns self) "vy" then set_vycol self (Some "vy") else self.

Definition identify_vzcol (self : SarracenDataFrame) : SarracenDataFrame :=
  if has_column (columns self) "vz" then set_vzcol self (Some "vz") else self.

(* for column in self.columns: if column.startswith('dustfrac'): ... *)
Definition identify_dustfracscol (self : SarracenDataFrame) : SarracenDataFrame :=
  with_dustfracscol self
    (_dustfracscol self
     ++ filter (String.prefix "dustfrac") (map fst (columns self))).

(** Lines 133-198: the blocks in the order of the source. *)
Definition _identify_special_columns (self : SarracenDataFrame)
  : SarracenDataFrame :=
  identify_dustfracscol
    (identify_vzcol
       (identify_vycol
          (identify_vxcol
             (identify_rhocol
                (identify_mcol
                   (identify_hcol
                      (identify_zcol (identify_ycol (identify_xcol self))))))))).

(** [SarracenDataFrame(data, params)], lines 108-126.  [_kernel] is assigned
    last; until then the attribute does not exist, and nothing reads it. *)
Definition init (data : Frame (num A)) (params : PyObject)
  : Result SarracenDataFrame :=
  let params := match params with PyNone => PyDict [] | _ => params end in
  let self :=
    {| columns := data; _params := None; _xcol := None; _ycol := None;
       _zcol := None; _hcol := None; _mcol := None; _rhocol := None;
       _vxcol := None; _vycol := None; _vzcol := None; _dustfracscol := [];
       _kernel := PyNone |} in
  self <- set_params self params ;;
  let self := _identify_special_columns self in
  ret (with_kernel self (PyKernel CubicSplineKernel)).

(** Lines 785-793. *)
Definition get_dim (self : SarracenDataFrame) : Z :=
  if negb (is_None (_zcol self)) then 3 else 2.

(** [key in self.params] and [self.params[key]]; both raise [TypeError] when
    [params] is [None]. *)
Definition params_contains (self : SarracenDataFrame) (key : string)
  : Result bool :=
  match _params self with
  | None => raise (TypeError "argument of type 'NoneType' is not iterable")
  | Some d => ret (has_column d key)
  end.

Definition params_getitem (self : SarracenDataFrame) (key : string)
  : Result (num A) :=
  match _params self with
  | None => raise (TypeError "'NoneType' object is not subscriptable")
  | Some d => getitem d key
  end.

(** [self[label]] *)
Definition self_getitem (self : SarracenDataFrame) (label : option string)
  : Result (list (num A)) :=
  match label with
  | Some c => getitem (columns self) c
  | None => raise (KeyError "None")
  end.

(** The mass that [calc_density] multiplies by: a column or a scalar. *)
Inductive Mass : Type :=
| PerParticle (col : list (num A))
| Uniform (m : num A).

(** [mass * (hfact / h) ** dim], elementwise. *)
Definition density (mass : Mass) (hfact : num A) (h : list (num A)) (dim : Z)
  : list (num A) :=
  let p := map (fun hv => power (hfact / hv)%ar dim) h in
  match mass with
  | PerParticle col => zip_with mul col p
  | Uniform m => map (mul m) p
  end.

(** Lines 218-259. *)
Definition calc_density (self : SarracenDataFrame) : Result SarracenDataFrame :=
  if negb (contains self (_hcol self)) then
    raise (KeyError "Missing smoothing length data in this SarracenDataFrame")
  else
    has_hfact <- params_contains self "hfact" ;;
    if negb has_hfact then
      raise (KeyError "hfact missing from params in this SarracenDataFrame.")
    else
      no_mass <- (if negb (contains self (_mcol self)) then
                    has_mass <- params_contains self "mass" ;;
                    ret (negb has_mass)
                  else ret false) ;;
      if no_mass then
        raise (KeyError "Missing particle mass data in this SarracenDataFrame.")
      else
        (* prioritize using mass per particle, if present *)
        mass <- (if contains self (_mcol self) then
                   col <- self_getitem self (_mcol self) ;;
                   ret (PerParticle col)
                 else
                   m <- params_getitem self "mass" ;;
                   ret (Uniform m)) ;;
        hfact <- params_getitem self "hfact" ;;
        h <- self_getitem self (_hcol self) ;;
        let rho := density mass hfact h (get_dim self) in
        let self := with_columns self (setitem (columns self) "rho" rho) in
        ret (set_rhocol self (Some "rho")).

(** The nine column roles, with the property and the setter of each. *)
Inductive ColumnRole : Type :=
| xcol | ycol | zcol | hcol | mcol | rhocol | vxcol | vycol | vzcol.

Definition getter (role : ColumnRole) (self : SarracenDataFrame)
  : option string :=
  match role with
  | xcol => _xcol self
  | ycol => _ycol self
  | zcol => _zcol self
  | hcol => _hcol self
  | mcol => _mcol self
  | rhocol => _rhocol self
  | vxcol => _vxcol self
  | vycol => _vycol self
  | vzcol => _vzcol self
  end.

Definition setter (role : ColumnRole) (self : SarracenDataFrame)
  (new_col : option string) : SarracenDataFrame :=
  match role with
  | xcol => set_xcol self new_col
  | ycol => set_ycol self new_col
  | zcol => set_zcol self new_col
  | hcol => set_hcol self new_col
  | mcol => set_mcol self new_col
  | rhocol => set_rhocol self new_col
  | vxcol => set_vxcol self new_col
  | vycol => set_vycol self new_col
  | vzcol => set_vzcol self new_col
  end.

Definition ColumnRole_eq_dec (a b : ColumnRole) : {a = b} + {a <> b}.
Proof. decide equality. Defined.

(** A label that is [None] or names a column of the frame. *)
Definition valid_label (self : SarracenDataFrame) (label : option string)
  : bool :=
  contains self label || is_None label.

(** Every role holds [None] or the label of a column. *)
Definition all_valid (self : SarracenDataFrame) : Prop :=
  forall role, valid_label self (getter role self) = true.

End DataFrame.

Arguments PyObject A : clear implicits.
Arguments SarracenDataFrame A : clear implicits.
Arguments Mass A : clear implicits.
Arguments dict A : clear implicits.

(** A frame with only a column of smoothing lengths, and the dataframe made
    of it whose [params] was then set to [None]. *)
Definition only_h : Frame (num binary64) := [("h", [1%float])].

Definition only_h_params_none : Result (SarracenDataFrame binary64) :=
  self <- init tent_kernel only_h PyNone ;;
  set_params self PyNone.

(** What the bounds of a particle need of the arithmetic for them to shrink
    with h: the operations of lines 62-69 never turn [a >= b] into [a < b].
    Each law is stated with [ltb _ _ = false], which also holds when a side is
    NaN; binary64 has them all ([B64MonoLaws.binary64_mono_laws]). *)
Record MonoLaws (A : Arith) : Prop := {
  mul_nonpos : forall r h : num A,
    leb (of_int 0) r = true -> leb h (of_int 0) = true ->
    ltb (of_int 0) (mul r h) = false;
  sub_add_nonpos : forall c t : num A,
    ltb (of_int 0) t = false -> ltb (sub c t) (add c t) = false;
  sub_mono : forall a b c : num A,
    ltb a b = false -> ltb (sub a c) (sub b c) = false;
  div_mono : forall a b c : num A,
    leb c (of_int 0) = false -> ltb a b = false ->
    ltb (div a c) (div b c) = false;
  rint_mono : forall a b : num A,
    ltb a b = false -> ltb (rint a) (rint b) = false;
  clip_mono : forall (n : Z) (a b : num A),
    0 <= n -> ltb a b = false -> ltb (clip 0 n a) (clip 0 n b) = false
}.

(** A particle with a NaN position and h = -1. *)
Definition nan_position : Frame (num binary64) :=
  frame_of [nan] [0%float] [(-1)%float] [1%float] [1%float] [1%float].

(** A particle moved by the vector (tx, ty). *)
Definition translate {A : Arith} (tx ty : num A) (r : Particle A) : Particle A :=
  {| r_x := add (r_x r) tx;
     r_y := add (r_y r) ty;
     r_h := r_h r;
     r_m := r_m r;
     r_rho := r_rho r;
     r_target := r_target r |}.

(** The distance along an axis from a particle to the centre of a cell, as
    lines 76 and 81-82 compute it. *)
Definition offset {A : Arith} (origin cell_width center : num A) (index : Z)
  : num A :=
  sub (add origin (mul (add (of_int index) half) cell_width)) center.

(** One particle with h = m = rho = A = 1 at (px, 0). *)
Definition particle_at (px : num binary64) : Frame (num binary64) :=
  frame_of [px] [0%float] [1%float] [1%float] [1%float] [1%float].

(** Whether cell (jpix, ipix) of the first grid is below that of the second;
    false when a call raised. *)
Definition cell_below (jpix ipix : Z) (g g' : Result (list (list (num binary64))))
  : bool :=
  match g, g' with
  | inr image, inr image' => PrimFloat.ltb (cell image jpix ipix) (cell image' jpix ipix)
  | _, _ => false
  end.

(** [a + 0.0 == a] exactly: true of every binary64 number but -0.0. *)
Definition absorbs_zero {A : Arith} (a : num A) : Prop := add a (of_int 0) = a.

(** What additivity needs of the addition: the zeros of a fresh array add
    up to zero, a sum is never a negative zero unless both terms are, and
    adding [0.0 + c] is adding [c]. *)
Record AddLaws (A : Arith) : Prop := {
  add_zero_zero : absorbs_zero (of_int 0 : num A);
  add_keeps : forall a c : num A, absorbs_zero a -> absorbs_zero (add a c);
  add_zero_inner : forall a c : num A,
    absorbs_zero a -> add a (add (of_int 0) c) = add a c
}.

(** The element-wise sum of two grids. *)
Definition image_sum {A : Arith} (a b : list (list (num A)))
  : list (list (num A)) :=
  zip_with (zip_with add) a b.

Section Grids.

Context {A : Arith}.
Variable kernel : BaseKernel A.
Variables pixwidthx pixwidthy xmin ymin : num A.
Variables pixcountx pixcounty : Z.

(** Every cell of the image absorbs an added zero. *)
Definition image_nz (image : list (list (num A))) : Prop :=
  forall j i, 0 <= j < pixcounty -> 0 <= i < pixcountx ->
    absorbs_zero (cell image j i).

(** A grid made from a fresh array: each cell is [0 + c] or [0]. *)
Definition single_grid (g : list (list (num A))) : Prop :=
  image_shape pixcountx pixcounty g
  /\ forall j i, 0 <= j < pixcounty -> 0 <= i < pixcountx ->
       add (of_int 0) (cell g j i) = cell g j i /\ absorbs_zero (cell g j i).

(** The particle loop for one particle taken alone, on a fresh array. *)
Definition single (cx cy : Particle A -> num A) (r : Particle A)
  : Result (list (list (num A))) :=
  foldM (process_part kernel pixwidthx pixwidthy xmin ymin pixcountx)
    (map (part_of kernel pixwidthx pixwidthy xmin ymin pixcountx pixcounty cx cy)
       (filter retained [r]))
    (np_zeros2 pixcounty pixcountx).

(** Whether the cell (jpix, ipix) is in the two ranges of a particle. *)
Definition covers (jpixs ipixs : list Z) (jpix ipix : Z) : bool :=
  existsb (Z.eqb jpix) jpixs && existsb (Z.eqb ipix) ipixs.

End Grids.

(** Two particles with separate footprints: at (-1, -1) and at (1, 1), with
    h = 0.5, and each of them alone. *)
Definition two_apart : Frame (num binary64) :=
  frame_of [(-1)%float; 1%float] [(-1)%float; 1%float] [0.5%float; 0.5%float]
    [1%float; 1%float] [1%float; 1%float] [1%float; 1%float].

Definition lower_left : Frame (num binary64) :=
  frame_of [(-1)%float] [(-1)%float] [0.5%float] [1%float] [1%float] [1%float].

Definition upper_right : Frame (num binary64) :=
  frame_of [1%float] [1%float] [0.5%float] [1%float] [1%float] [1%float].

(** The grid of the two particles: 4 x 4 cells of width 1 from (-2, -2). *)
Definition two_apart_grid : list (list (num binary64)) :=
  Eval vm_compute in
    match interpolate2D two_apart "x" "y" "A" tent_kernel 1%float 1%float
            (-2)%float (-2)%float 4 4 with
    | inr image => image
    | inl _ => []
    end.

(** The labels that lines 51-55 look up in [data], in the order Python
    evaluates them. *)
Definition columns_read (x y target : string) : list string :=
  [x; y; "h"; "m"; "rho"; "h"; target].

(** The first of them that [data] lacks. *)
Definition first_missing {V : Type} (data : Frame V) (x y target : string)
  : option string :=
  find (fun c => negb (has_column data c)) (columns_read x y target).

(** The labels of [parts] when line 62 reads [parts[x]], and when line 64
    reads [parts[y]]. *)
Definition parts_labels : list string := ["x"; "y"; "h"; "weight"; "term"].

Definition parts_labels_y : list string := parts_labels ++ ["ipixmin"].

(** What a block of [_identify_special_columns] keeps: the frame, the list
    of dust columns, [params] and the roles of the other blocks. *)
Definition keeps {A : Arith} (role : ColumnRole) (s s' : SarracenDataFrame A)
  : Prop :=
  columns s' = columns s /\ _dustfracscol s' = _dustfracscol s
  /\ _params s' = _params s
  /\ forall role', role' <> role -> getter role' s' = getter role' s.

Section DataFrameMethods.

Context {A : Arith}.

(** [len(self)], the number of rows.  A frame is given by its columns, so
    one without columns has no rows. *)
Definition len (self : SarracenDataFrame A) : nat :=
  match columns self with
  | [] => 0%nat
  | (_, col) :: _ => List.length col
  end.

(** Every column has [len(self)] entries, as in any pandas frame. *)
Definition rectangular (self : SarracenDataFrame A) : Prop :=
  Forall (fun c => List.length (snd c) = len self) (columns self).

(** Lines 200-216.  A scalar assigned to a column is repeated in every
    row. *)
Definition create_mass_column (self : SarracenDataFrame A)
  : Result (SarracenDataFrame A) :=
  has_mass <- params_contains self "mass" ;;
  if negb has_mass then
    raise (KeyError "'mass' value does not exist in this SarracenDataFrame.")
  else
    mass <- params_getitem self "mass" ;;
    let self :=
      with_columns self (setitem (columns self) "m" (repeat mass (len self))) in
    ret (set_mcol self (Some "m")).

(** [self[key] = col] followed by the setter of a role with [key], as
    [calc_density] and [create_mass_column] end. *)
Definition assign_column (role : ColumnRole) (self : SarracenDataFrame A)
  (key : string) (col : list (num A)) : SarracenDataFrame A :=
  setter role (with_columns self (setitem (columns self) key col)) (Some key).

(** [Series.sum()], of pandas. *)
Variable series_sum : list (num A) -> num A.

(** [column * mass], for a mass that is a column or a number. *)
Definition times_mass (col : list (num A)) (mass : Mass A) : list (num A) :=
  match mass with
  | PerParticle m => zip_with mul col m
  | Uniform m => map (fun v => mul v m) col
  end.

(** Lines 300-318.  [1.0 / mass.sum()] divides NumPy numbers and raises
    nothing; [1.0 / (len(self) * mass)] divides Python floats. *)
Definition centre_of_mass (self : SarracenDataFrame A) : Result (list (num A)) :=
  mass <- (if contains self (_mcol self) then
             col <- self_getitem self (_mcol self) ;;
             ret (PerParticle col)
           else
             m <- params_getitem self "mass" ;;
             ret (Uniform m)) ;;
  xs <- self_getitem self (_xcol self) ;;
  let com_x := series_sum (times_mass xs mass) in
  ys <- self_getitem self (_ycol self) ;;
  let com_y := series_sum (times_mass ys mass) in
  zs <- self_getitem self (_zcol self) ;;
  let com_z := series_sum (times_mass zs mass) in
  mass <- match mass with
          | PerParticle col => ret (div (of_int 1) (series_sum col))
          | Uniform m =>
              py_truediv (of_int 1) (mul (of_int (Z.of_nat (len self))) m)
          end ;;
  ret [mul com_x mass; mul com_y mass; mul com_z mass].

End DataFrameMethods.

(** A dataframe of two particles with smoothing lengths, whose mass and
    hfact are in [params]. *)
Definition uniform_mass_frame : Frame (num binary64) :=
  [("x", [0%float; 1%float]); ("y", [0%float; 1%float]);
   ("h", [1%float; 2%float])].

Definition uniform_mass_params : dict binary64 :=
  [("mass", 0.5%float); ("hfact", 1.5%float)].

(** ** Methods that change [self] in steps

    A method that assigns columns one after the other leaves the dataframe
    changed when it raises halfway.  A step takes the dataframe to the
    dataframe after it, with the value of the step or its exception. *)

Definition Method (A : Arith) (X : Type) : Type :=
  SarracenDataFrame A -> SarracenDataFrame A * Result X.

Definition mret {A : Arith} {X : Type} (v : X) : Method A X :=
  fun self => (self, inr v).

Definition mraise {A : Arith} {X : Type} (e : exn) : Method A X :=
  fun self => (self, inl e).

Definition mbind {A : Arith} {X Y : Type} (m : Method A X) (f : X -> Method A Y)
  : Method A Y :=
  fun self =>
    match m self with
    | (self', inl e) => (self', inl e)
    | (self', inr v) => f v self'
    end.

Notation "x <~ m ;; k" := (mbind m (fun x => k))
  (at level 61, m at next level, right associativity).

(** [for b in l: body(b)], stopping at the first exception. *)
Fixpoint mfor {A : Arith} {Y : Type} (l : list Y) (body : Y -> Method A unit)
  : Method A unit :=
  match l with
  | [] => mret tt
  | b :: l' => _ <~ body b ;; mfor l' body
  end.

(** An expression that reads [self] and leaves it as it is. *)
Definition read {A : Arith} {X : Type} (f : SarracenDataFrame A -> Result X)
  : Method A X :=
  fun self => (self, f self).

(** [self[key]] and [self[key] = col] *)
Definition column {A : Arith} (key : string) : Method A (list (num A)) :=
  read (fun self => getitem (columns self) key).

Definition assign {A : Arith} (key : string) (col : list (num A)) : Method A unit :=
  fun self => (with_columns self (setitem (columns self) key col), inr tt).

(** [self.calc_density()], which assigns nothing when it raises. *)
Definition call_calc_density {A : Arith} : Method A unit :=
  fun self =>
    match calc_density self with
    | inl e => (self, inl e)
    | inr self' => (self', inr tt)
    end.

(** [self.dustfracscol[i]], for an index that is not negative. *)
Definition dustfracscol_at {A : Arith} (i : Z) : Method A string :=
  read (fun self =>
          match nth_error (_dustfracscol self) (Z.to_nat i) with
          | Some c => ret c
          | None => raise IndexError
          end).

(** [int(self.params[key])] *)
Definition int_param {A : Arith} (key : string) : Method A Z :=
  read (fun self => v <- params_getitem self key ;; py_int v).

(** [1 - col] *)
Definition one_minus {A : Arith} (col : list (num A)) : list (num A) :=
  map (fun v => sub (of_int 1) v) col.

(** [f'rho_d_{n}'] *)
Definition rho_d_label (n : Z) : string :=
  String.append "rho_d_" (NilZero.string_of_int (Z.to_int n)).

Section OneFluid.

Context {A : Arith}.

(** [self[labels].sum(axis=1)], of pandas: the sum of the columns [labels]
    along each row. *)
Variable sum_axis1 : Frame (num A) -> list string -> Result (list (num A)).

(** Lines 261-298. *)
Definition calc_one_fluid_quantities : Method A unit :=
  c0 <~ dustfracscol_at 0 ;;
  has_dust <~ read (fun self => ret (has_column (columns self) c0)) ;;
  if negb has_dust then
    mraise (KeyError "Missing dust fraction data in this SarracenDataFrame")
  else
    (* use self[self.dustfrac], check if columns exist *)
    has_rho <~ read (fun self => ret (contains self (_rhocol self))) ;;
    _ <~ (if negb has_rho then call_calc_density else mret tt) ;;
    ndustsmall <~ int_param "ndustsmall" ;;
    not_one_fluid <~ (if ndustsmall =? 0 then mret true
                      else ndustlarge <~ int_param "ndustlarge" ;;
                           mret (negb (ndustlarge =? 0))) ;;
    if not_one_fluid then mraise (ValueError "Not a one-fluid-only dump.")
    else
      ndustsmall <~ int_param "ndustsmall" ;;
      if ndustsmall =? 1 then
        rho <~ column "rho" ;;
        dustfrac <~ column "dustfrac" ;;
        _ <~ assign "rho_g" (zip_with mul rho dustfrac) ;;
        rho <~ column "rho" ;;
        dustfrac <~ column "dustfrac" ;;
        _ <~ assign "rho_d" (zip_with mul rho (one_minus dustfrac)) ;;
        rho_d <~ column "rho_d" ;;
        rho_g <~ column "rho_g" ;;
        assign "dtg" (zip_with div rho_d rho_g)
      else
        total <~ read (fun self =>
                         sum_axis1 (columns self) (_dustfracscol self)) ;;
        _ <~ assign "dustfrac_total" total ;;
        rho <~ column "rho" ;;
        total <~ column "dustfrac_total" ;;
        _ <~ assign "rho_g" (zip_with mul rho (one_minus total)) ;;
        rho <~ column "rho" ;;
        total <~ column "dustfrac_total" ;;
        _ <~ assign "rho_d_total" (zip_with mul rho total) ;;
        rho <~ column "rho" ;;
        c0 <~ dustfracscol_at 0 ;;
        dustfrac0 <~ column c0 ;;
        _ <~ assign "rho_d" (zip_with mul rho dustfrac0) ;;
        ndustsmall <~ int_param "ndustsmall" ;;
        _ <~ mfor (range 1 ndustsmall)
               (fun i =>
                  rho <~ column "rho" ;;
                  ci <~ dustfracscol_at i ;;
                  dustfraci <~ column ci ;;
                  assign (rho_d_label (i + 1)) (zip_with mul rho dustfraci)) ;;
        total <~ column "dustfrac_total" ;;
        total' <~ column "dustfrac_total" ;;
        assign "dtg" (zip_with div total (one_minus total')).

End OneFluid.

(** A dataframe of two particles with a density and one dust fraction. *)
Definition one_dust_frame : Frame (num binary64) :=
  [("x", [0%float; 1%float]); ("y", [0%float; 1%float]);
   ("h", [1%float; 2%float]); ("rho", [2%float; 4%float]);
   ("dustfrac", [0.25%float; 0.5%float])].

Definition one_dust_params : dict binary64 :=
  [("ndustsmall", 1%float); ("ndustlarge", 0%float)].

(** A dataframe without a density column, whose dump has no small dust. *)
Definition no_small_dust_frame : Frame (num binary64) :=
  [("x", [0%float; 1%float]); ("y", [0%float; 1%float]);
   ("h", [1%float; 2%float]); ("dustfrac", [0.25%float; 0.5%float])].

Definition no_small_dust_params : dict binary64 :=
  [("mass", 0.5%float); ("hfact", 1.5%float); ("ndustsmall", 0%float)].

(** [lo <= i < hi], the indices of [range(lo, hi)]. *)
Definition within (lo hi i : Z) : bool := (lo <=? i) && (i <? hi).

(** The four integer bounds of a row: [int(ipixmin)], [int(ipixmax)],
    [int(jpixmin)] and [int(jpixmax)]; and whether the cell in column [ipix]
    of row [jpix] lies between them. *)
Definition inside (b : Z * Z * Z * Z) (jpix ipix : Z) : bool :=
  let '(ilo, ihi, jlo, jhi) := b in
  within jlo jhi jpix && within ilo ihi ipix.

Section CellTotal.

Context {A : Arith}.
Variable kernel : BaseKernel A.
Variables pixwidthx pixwidthy xmin ymin : num A.

(** The bounds of a row of [parts], as integers. *)
Definition int_bounds (part : Part A) (b : Z * Z * Z * Z) : Prop :=
  let '(ilo, ihi, jlo, jhi) := b in
  py_int (part_ipixmin part) = inr ilo /\ py_int (part_ipixmax part) = inr ihi
  /\ py_int (part_jpixmin part) = inr jlo
  /\ py_int (part_jpixmax part) = inr jhi.

(** One cell of the grid: the contributions of the rows between whose bounds
    the cell lies, added to 0.0 in the order of the rows. *)
Definition cell_total (jpix ipix : Z) (pbs : list (Part A * (Z * Z * Z * Z)))
  : num A :=
  fold_left
    (fun acc pb =>
       if inside (snd pb) jpix ipix
       then add acc (contribution kernel pixwidthx pixwidthy xmin ymin (fst pb)
                       jpix ipix)
       else acc)
    pbs (of_int 0).

(** The same for particles.  Along x the squared distance from the centre of
    column [ipix] to the particle, over h^2 (the source multiplies by
    [1 / h ** 2]), and along y the same for row [jpix]; their sum q2; and the
    value term * w(sqrt(q2)) that the particle adds to the cell. *)
Definition x_term (r : Particle A) (ipix : Z) : num A :=
  mul (pow2 (sub (add xmin (mul (add (of_int ipix) half) pixwidthx)) (r_x r)))
    (div (of_int 1) (pow2 (r_h r))).

Definition y_term (r : Particle A) (jpix : Z) : num A :=
  mul (mul (sub (add ymin (mul (add (of_int jpix) half) pixwidthy)) (r_y r))
         (sub (add ymin (mul (add (of_int jpix) half) pixwidthy)) (r_y r)))
    (div (of_int 1) (pow2 (r_h r))).

Definition q2 (r : Particle A) (jpix ipix : Z) : num A :=
  add (x_term r ipix) (y_term r jpix).

Definition accumulated (r : Particle A) (jpix ipix : Z) : num A :=
  mul (term r) (w kernel (sqrt (q2 r jpix ipix))).

Definition particle_total (jpix ipix : Z)
  (rbs : list (Particle A * (Z * Z * Z * Z))) : num A :=
  fold_left
    (fun acc rb =>
       if inside (snd rb) jpix ipix then add acc (accumulated (fst rb) jpix ipix)
       else acc)
    rbs (of_int 0).

End CellTotal.

(** A particle with m = 1 and rho = 0, whose weight is +inf, and a frame
    without particles. *)
Definition infinite_weight : Frame (num binary64) :=
  frame_of [0%float] [0%float] [1%float] [1%float] [0%float] [1%float].

Definition no_particles : Frame (num binary64) := frame_of [] [] [] [] [] [].

(** ** The order and the rounding of binary64 *)

Module B64Round.

(** Where X / Y lies between m and m + 1: at m, below, at or above the
    middle. *)
Definition position (X Y m : Z) : location :=
  if X =? m * Y then loc_Exact else loc_Inexact (2 * X ?= (2 * m + 1) * Y).

Definition bracket (X Y m : Z) (l : location) : Prop :=
  m * Y <= X < (m + 1) * Y /\ l = position X Y m.

Definition loc_rank (l : location) : Z :=
  match l with
  | loc_Exact => 0
  | loc_Inexact Lt => 1
  | loc_Inexact Eq => 2
  | loc_Inexact Gt => 3
  end.

(** A mantissa in its place: below 2^53, and with 53 digits above the least
    exponent. *)
Definition canonical (e m : Z) : Prop :=
  -1074 <= e /\ 0 <= m < 2 ^ 53 /\ (-1074 < e -> 2 ^ 52 <= m).

(** The rank of [m * 2^e] among the magnitudes: the bits of the float read as
    an integer. *)
Definition ordinal (e m : Z) : Z := (e + 1074) * 2 ^ 52 + m.

Definition top : Z := 2047 * 2 ^ 52.

Definition sign_of (f : spec_float) : bool :=
  match f with
  | S754_zero s | S754_infinity s | S754_finite s _ _ => s
  | S754_nan => false
  end.

Definition magnitude (f : spec_float) : Z :=
  match f with
  | S754_zero _ | S754_nan => 0
  | S754_infinity _ => top
  | S754_finite _ m e => ordinal e (Z.pos m)
  end.

Definition ord (f : spec_float) : Z := cond_Zopp (sign_of f) (magnitude f).

(** The value of a finite float, in units of 2^-1074. *)
Definition zval (f : spec_float) : Z :=
  match f with
  | S754_finite s m e => cond_Zopp s (Z.pos m * 2 ^ (e + 1074))
  | _ => 0
  end.

Definition is_nan (f : spec_float) : bool :=
  match f with S754_nan => true | _ => false end.

Definition is_fin (f : spec_float) : bool :=
  match f with S754_zero _ | S754_finite _ _ _ => true | _ => false end.

(** [P / Q >= 0], in units of 2^-1074, rounds to the magnitude of rank [a]:
    to the nearest, ties to even, and to infinity from the top on. *)
Definition rounds_to (P Q a : Z) : Prop :=
  exists e m l,
    canonical e m /\ bracket P (Q * 2 ^ (e + 1074)) m l
    /\ a = Z.min (round_nearest_even (ordinal e m) l) top.

Definition rounds (P Q o : Z) : Prop :=
  exists a, rounds_to (Z.abs P) Q a /\ o = Z.sgn P * a.

End B64Round.

(** A kernel whose support is the whole plane: its radius is +inf and its
    weight is 1 everywhere. *)
Definition wide_kernel : BaseKernel binary64 :=
  @Build_BaseKernel binary64 2 infinity (fun _ => 1%float).

(** One particle at the origin with h = 0 and m = rho = A = 1. *)
Definition zero_h : Frame (num binary64) :=
  frame_of [0%float] [0%float] [0%float] [1%float] [1%float] [1%float].

(** The particle of [one_particle] and a second one with h = -1. *)
Definition negative_h : Frame (num binary64) :=
  frame_of [0%float; 1%float] [0%float; 1%float] [1%float; (-1)%float]
    [1%float; 1%float] [1%float; 1%float] [1%float; 1%float].

(** * Properties *)

(** ** The error monad *)

Lemma bind_ret_l {X Y : Type} (v : X) (f : X -> Result Y) :
  bind (ret v) f = f v.
Proof. reflexivity. Qed.

Lemma bind_assoc {X Y V : Type} (m : Result X) (f : X -> Result Y)
  (g : Y -> Result V) :
  bind (bind m f) g = bind m (fun v => bind (f v) g).
Proof. destruct m; reflexivity. Qed.

Lemma bind_inr {X Y : Type} (m : Result X) (f : X -> Result Y) (v : Y) :
  bind m f = inr v -> exists u, m = inr u /\ f u = inr v.
Proof. destruct m as [e | u]; simpl; [discriminate | eauto]. Qed.

Lemma mapM_inr_length {X Y : Type} (f : X -> Result Y) (l : list X) (vs : list Y) :
  mapM f l = inr vs -> List.length vs = List.length l.
Proof.
  revert vs; induction l as [| a l IH]; simpl; intros vs H.
  - injection H as <-; reflexivity.
  - destruct (f a) as [e | v]; simpl in H; [discriminate |].
    destruct (mapM f l) as [e | vs']; simpl in H; [discriminate |].
    injection H as <-; simpl; f_equal; auto.
Qed.

Lemma mapM_inr_Forall2 {X Y : Type} (f : X -> Result Y) (l : list X) (vs : list Y) :
  mapM f l = inr vs -> Forall2 (fun a v => f a = inr v) l vs.
Proof.
  revert vs; induction l as [| a l IH]; simpl; intros vs H.
  - injection H as <-; constructor.
  - destruct (f a) as [e | v] eqn:Ha; simpl in H; [discriminate |].
    destruct (mapM f l) as [e | vs']; simpl in H; [discriminate |].
    injection H as <-; constructor; auto.
Qed.

(** A loop whose body cannot raise is a plain fold. *)
Lemma foldM_pure {X Y : Type} (f : X -> Y -> Result X) (g : X -> Y -> X)
  (P : X -> Prop) (Q : Y -> Prop) (l : list Y) (a : X) :
  (forall a b, P a -> Q b -> f a b = ret (g a b)) ->
  (forall a b, P a -> Q b -> P (g a b)) ->
  P a -> Forall Q l ->
  foldM f l a = ret (fold_left g l a) /\ P (fold_left g l a).
Proof.
  intros Hf Hg; revert a; induction l as [| b l IH]; simpl; intros a Ha Hl.
  - split; [reflexivity | assumption].
  - inversion Hl as [| ? ? Hb Hl']; subst.
    rewrite Hf by assumption; simpl. apply IH; auto.
Qed.

(** A loop whose body first checks, then updates without raising. *)
Lemma foldM_checked {X Y : Type} (f : X -> Y -> Result X) (c : Y -> Result unit)
  (g : X -> Y -> X) (P : X -> Prop) (Q : Y -> Prop) (l : list Y) (a : X) :
  (forall a b, P a -> Q b -> f a b = (_ <- c b ;; ret (g a b))) ->
  (forall a b, P a -> Q b -> P (g a b)) ->
  P a -> Forall Q l ->
  foldM f l a = (_ <- mapM c l ;; ret (fold_left g l a)).
Proof.
  intros Hf Hg; revert a; induction l as [| b l IH]; simpl; intros a Ha Hl.
  - reflexivity.
  - inversion Hl as [| ? ? Hb Hl']; subst.
    rewrite Hf by assumption.
    destruct (c b) as [e | []]; simpl; [reflexivity |].
    rewrite IH by auto.
    destruct (mapM c l); reflexivity.
Qed.

Lemma fold_left_invariant {X Y : Type} (g : X -> Y -> X) (P : X -> Prop)
  (Q : Y -> Prop) (l : list Y) (a : X) :
  (forall a b, P a -> Q b -> P (g a b)) -> P a -> Forall Q l ->
  P (fold_left g l a).
Proof.
  intros Hg; revert a; induction l as [| b l IH]; simpl; intros a Ha Hl; auto.
  inversion Hl; subst; auto.
Qed.

(** ** Columns and masks *)

Lemma zip_with_map {X Y U V W : Type} (f : U -> V -> W) (g : X -> U)
  (h : Y -> V) (l1 : list X) (l2 : list Y) :
  zip_with f (map g l1) (map h l2) = zip_with (fun a b => f (g a) (h b)) l1 l2.
Proof.
  revert l2; induction l1 as [| a l1 IH]; intros [| b l2]; simpl; f_equal; auto.
Qed.

Lemma zip_with_diag {X W : Type} (f : X -> X -> W) (l : list X) :
  zip_with f l l = map (fun a => f a a) l.
Proof. induction l; simpl; f_equal; auto. Qed.

Lemma zip_with_maps {X U V W : Type} (f : U -> V -> W) (g : X -> U)
  (h : X -> V) (l : list X) :
  zip_with f (map g l) (map h l) = map (fun a => f (g a) (h a)) l.
Proof. rewrite zip_with_map; apply zip_with_diag. Qed.

Lemma select_maps {X V : Type} (b : X -> bool) (g : X -> V) (l : list X) :
  select (map b l) (map g l) = map g (filter b l).
Proof.
  induction l as [| a l IH]; simpl; [reflexivity |].
  destruct (b a); simpl; f_equal; auto.
Qed.

Lemma In_zip_with {X Y V : Type} (f : X -> Y -> V) (l1 : list X) (l2 : list Y)
  (v : V) :
  In v (zip_with f l1 l2) -> exists a b, In a l1 /\ In b l2 /\ v = f a b.
Proof.
  revert l2; induction l1 as [| a l1 IH]; intros [| b l2]; simpl; try tauto.
  intros [<- | H].
  - exists a, b; auto.
  - destruct (IH _ H) as (a' & b' & ? & ? & ?); exists a', b'; auto.
Qed.

Lemma getitem_realize {X V : Type} (rows : list X)
  (cols : list (string * (X -> V))) (key : string) :
  getitem (realize rows cols) key = (f <- getitem cols key ;; ret (map f rows)).
Proof.
  induction cols as [| [k f] cols IH]; simpl; [reflexivity |].
  destruct (String.eqb k key); [reflexivity | exact IH].
Qed.

Lemma setitem_realize {X V : Type} (rows : list X)
  (cols : list (string * (X -> V))) (key : string) (f : X -> V) :
  setitem (realize rows cols) key (map f rows) = realize rows (setitem cols key f).
Proof.
  induction cols as [| [k g] cols IH]; simpl; [reflexivity |].
  destruct (String.eqb k key); simpl; [reflexivity | f_equal; exact IH].
Qed.

Lemma getitem_mask_realize {X V : Type} (rows : list X)
  (cols : list (string * (X -> V))) (b : X -> bool) :
  getitem_mask (realize rows cols) (map b rows) = realize (filter b rows) cols.
Proof.
  unfold getitem_mask, realize; rewrite map_map; apply map_ext; intros [k f];
    simpl; f_equal; apply select_maps.
Qed.

Lemma getitem_setitem {C : Type} (df : list (string * C)) (k key : string) (s : C) :
  getitem (setitem df k s) key
  = if String.eqb k key then ret s else getitem df key.
Proof.
  induction df as [| [k0 s0] df IH]; simpl.
  - destruct (String.eqb k key); reflexivity.
  - destruct (String.eqb k0 k) eqn:E0; simpl.
    + apply String.eqb_eq in E0; subst k0.
      destruct (String.eqb k key); reflexivity.
    + destruct (String.eqb k0 key) eqn:E1; [| exact IH].
      apply String.eqb_eq in E1; subst k0. rewrite String.eqb_sym in E0.
      rewrite E0; reflexivity.
Qed.

Lemma getitem_has_column {C : Type} (df : list (string * C)) (key : string) (s : C) :
  getitem df key = inr s -> has_column df key = true.
Proof.
  unfold has_column; induction df as [| [k s0] df IH]; simpl; [discriminate |].
  destruct (String.eqb k key) eqn:E.
  - rewrite String.eqb_sym, E; reflexivity.
  - intros H; rewrite (IH H); apply orb_true_r.
Qed.

(** A column added under a fresh label leaves every earlier lookup alone. *)
Lemma getitem_setitem_fresh {C : Type} (df : list (string * C)) (k key : string)
  (s c : C) :
  has_column df k = false -> getitem df key = inr c ->
  getitem (setitem df k s) key = inr c.
Proof.
  intros Hk Hc; rewrite getitem_setitem.
  destruct (String.eqb k key) eqn:E; [| exact Hc].
  apply String.eqb_eq in E; subst k.
  rewrite (getitem_has_column _ _ _ Hc) in Hk; discriminate.
Qed.

Lemma getitem_app_l {C : Type} (df df' : list (string * C)) (key : string) (c : C) :
  getitem df key = inr c -> getitem (df ++ df') key = inr c.
Proof.
  induction df as [| [k s] df IH]; simpl; [discriminate |].
  destruct (String.eqb k key); auto.
Qed.

Lemma bind_inr_l {X Y : Type} (v : X) (f : X -> Result Y) :
  bind (inr v) f = f v.
Proof. reflexivity. Qed.

(** Evaluates the lookups and assignments whose label is a literal. *)
Ltac literal_columns :=
  repeat match goal with
    | |- context [@getitem ?C ?c (String ?a ?k)] =>
        let v := eval cbn [getitem setitem app String.eqb Ascii.eqb Bool.eqb] in
                   (@getitem C c (String a k)) in
        replace (@getitem C c (String a k)) with v by reflexivity
    | |- context [@setitem ?C (@cons ?T ?h ?t) ?k ?f] =>
        let v := eval cbn [setitem app String.eqb Ascii.eqb Bool.eqb] in
                   (@setitem C (@cons T h t) k f) in
        replace (@setitem C (@cons T h t) k f) with v by reflexivity
    | |- context [@setitem ?C (@nil ?T) ?k ?f] =>
        replace (@setitem C (@nil T) k f) with [(k, f)] by reflexivity
    end.

Ltac frame_step :=
  repeat first
    [ rewrite bind_assoc
    | rewrite bind_ret_l
    | rewrite bind_inr_l
    | progress cbv beta
    | rewrite map_map
    | rewrite zip_with_maps
    | rewrite setitem_realize
    | rewrite getitem_mask_realize
    | rewrite getitem_realize
    | progress literal_columns ].

(** ** The rows of [parts] *)

Section PartsRows.

Context {A : Arith}.
Variable data : Frame (num A).
Variables x y target : string.
Variable kernel : BaseKernel A.
Variables pixwidthx pixwidthy xmin ymin : num A.
Variables pixcountx pixcounty : Z.

Lemma ap_maps {X U V : Type} (f : X -> U -> V) (g : X -> U) (l : list X) :
  ap (map f l) (map g l) = map (fun r => f r (g r)) l.
Proof. unfold ap; rewrite zip_with_maps; reflexivity. Qed.

(** Lines 50-69 and [itertuples], one particle at a time. *)
Lemma build_parts_rows (rows : list (Particle A)) :
  holds data x y target rows ->
  (parts <- build_parts data x y target kernel pixwidthx pixwidthy xmin ymin
              pixcountx pixcounty ;;
   itertuples parts)
  = retained_parts x y kernel pixwidthx pixwidthy xmin ymin pixcountx pixcounty
      rows.
Proof.
  intros (Hx & Hy & Hh & Hm & Hrho & Ht).
  unfold build_parts, retained_parts, parts_columns, part_of, pixel_index_min,
    pixel_index_max, retained, term, weight.
  rewrite Hx, Hy, Hh, Hm, Hrho, Ht. rewrite !bind_inr_l.
  change (@nil (string * list (num A)))
    with (realize rows (@nil (string * (Particle A -> num A)))).
  frame_step.
  match goal with
  | |- context [getitem ?c x] => destruct (getitem c x) as [e | cx] eqn:Hcx
  end; [reflexivity |].
  frame_step.
  match goal with
  | |- context [getitem ?c y] => destruct (getitem c y) as [e | cy] eqn:Hcy
  end; [reflexivity |].
  frame_step.
  match goal with
  | |- context [getitem [?a; ?b; ?c; ?d; ?e; ?p; ?q] x] =>
      replace (getitem [a; b; c; d; e; p; q] x) with (@inr exn _ cx)
        by (symmetry; exact (getitem_app_l [a; b; c; d; e] [p; q] x cx Hcx))
  end.
  frame_step.
  match goal with
  | |- context [getitem [?a; ?b; ?c; ?d; ?e; ?p; ?q; ?r] y] =>
      replace (getitem [a; b; c; d; e; p; q; r] y) with (@inr exn _ cy)
        by (symmetry; exact (getitem_app_l [a; b; c; d; e; p] [q; r] y cy Hcy))
  end.
  frame_step.
  unfold itertuples. frame_step.
  rewrite !ap_maps.
  reflexivity.
Qed.

End PartsRows.

Section PartsBounds.
Context {A : Arith}.
Variable data : Frame (num A).
Variables x y target : string.
Variable kernel : BaseKernel A.
Variables pixwidthx pixwidthy xmin ymin : num A.
Variables pixcountx pixcounty : Z.

Lemma In_ap {X Y : Type} (fs : list (X -> Y)) (vs : list X) (p : Y) :
  In p (ap fs vs) -> exists f v, In f fs /\ In v vs /\ p = f v.
Proof. unfold ap; intros H; apply In_zip_with in H; exact H. Qed.

Lemma itertuples_In (parts : Frame (num A)) (rows : list (Part A)) (p : Part A) :
  itertuples parts = inr rows -> In p rows ->
  exists c1 c2 c3 c4,
    getitem parts "ipixmin" = inr c1 /\ getitem parts "jpixmin" = inr c2 /\
    getitem parts "ipixmax" = inr c3 /\ getitem parts "jpixmax" = inr c4 /\
    In (part_ipixmin p) c1 /\ In (part_jpixmin p) c2 /\
    In (part_ipixmax p) c3 /\ In (part_jpixmax p) c4.
Proof.
  unfold itertuples; intros H Hp.
  repeat match type of H with
         | bind ?m _ = inr _ => destruct m; [discriminate | rewrite bind_inr_l in H]
         end.
  unfold ret in H; injection H as <-.
  repeat match goal with
         | H : In _ (ap _ _) |- _ =>
             apply In_ap in H; destruct H as (? & ? & H & ? & ->)
         end.
  apply in_map_iff in Hp; destruct Hp as (? & <- & ?).
  do 4 eexists; repeat split; eauto.
Qed.

Lemma build_parts_bounds (parts : Frame (num A)) :
  build_parts data x y target kernel pixwidthx pixwidthy xmin ymin pixcountx
    pixcounty = inr parts ->
  exists c1 c2 c3 c4,
    getitem parts "ipixmin" = inr (map (clip 0 pixcountx) c1) /\
    getitem parts "jpixmin" = inr (map (clip 0 pixcounty) c2) /\
    getitem parts "ipixmax" = inr (map (clip 0 pixcountx) c3) /\
    getitem parts "jpixmax" = inr (map (clip 0 pixcounty) c4).
Proof.
  unfold build_parts; intros H.
  repeat match type of H with
         | bind ?m _ = inr _ =>
             destruct m; [discriminate | rewrite bind_inr_l in H; cbv beta zeta in H]
         end.
  unfold ret in H; injection H as <-.
  do 4 eexists; repeat split; reflexivity.
Qed.


End PartsBounds.

Lemma normalize_index_in (len idx : Z) :
  0 <= idx < len -> normalize_index len idx = ret (Z.to_nat idx).
Proof.
  intros H; unfold normalize_index.
  replace ((0 <=? idx) && (idx <? len)) with true; [reflexivity |].
  symmetry; apply andb_true_iff; split; [apply Z.leb_le | apply Z.ltb_lt]; lia.
Qed.

Lemma list_set_length {X : Type} (k : nat) (v : X) (l : list X) :
  List.length (list_set k v l) = List.length l.
Proof.
  revert k; induction l as [| a l IH]; intros [| k]; simpl; auto.
Qed.

Lemma nth_list_set {X : Type} (k k' : nat) (v d : X) (l : list X) :
  (k < List.length l)%nat ->
  nth k' (list_set k v l) d = if Nat.eqb k' k then v else nth k' l d.
Proof.
  revert k k'; induction l as [| a l IH]; intros [| k] [| k'] Hk; simpl in *;
    try lia; try reflexivity.
  apply IH; lia.
Qed.

Lemma ndarray_set_in {X : Type} (a : list X) (idx : Z) (v : X) :
  0 <= idx < Z.of_nat (List.length a) ->
  ndarray_set a idx v = ret (list_set (Z.to_nat idx) v a).
Proof.
  intros H; unfold ndarray_set; rewrite normalize_index_in by assumption;
    reflexivity.
Qed.

Lemma ndarray_get_in {X : Type} (a : list X) (idx : Z) (d : X) :
  0 <= idx < Z.of_nat (List.length a) ->
  ndarray_get a idx = ret (nth (Z.to_nat idx) a d).
Proof.
  intros H; unfold ndarray_get; rewrite normalize_index_in by assumption.
  rewrite bind_ret_l.
  destruct (nth_error a (Z.to_nat idx)) as [v |] eqn:E.
  - rewrite (nth_error_nth _ _ d E); reflexivity.
  - apply nth_error_None in E; lia.
Qed.

Lemma In_range (a b i : Z) : In i (range a b) <-> a <= i < b.
Proof.
  unfold range; rewrite in_map_iff; split.
  - intros (k & <- & Hk); apply in_seq in Hk; lia.
  - intros H; exists (Z.to_nat (i - a)); split; [lia | apply in_seq; lia].
Qed.

Lemma NoDup_map_injective {X Y : Type} (f : X -> Y) (l : list X) :
  (forall a b, f a = f b -> a = b) -> NoDup l -> NoDup (map f l).
Proof.
  intros Hf; induction 1 as [| a l Ha Hl IH]; simpl; constructor; auto.
  rewrite in_map_iff; intros (b & Hb & Hin); apply Hf in Hb; subst; auto.
Qed.

Lemma NoDup_range (a b : Z) : NoDup (range a b).
Proof.
  unfold range; apply NoDup_map_injective; [| apply seq_NoDup].
  intros k k' H; lia.
Qed.

Section Bounds.

Context {A : Arith}.
Variable bound : Z.
Hypothesis IC : IntConv A bound.

Lemma clip_int (n : Z) (v : num A) (k : Z) :
  0 <= n <= bound -> py_int (clip 0 n v) = inr k -> 0 <= k <= n.
Proof.
  intros Hn; unfold clip.
  assert (H0 : py_int (of_int 0 : num A) = inr 0) by (apply (int_of_int _ _ IC); lia).
  assert (Hn' : py_int (of_int n : num A) = inr n) by (apply (int_of_int _ _ IC); lia).
  destruct (ltb v (of_int 0)) eqn:E0.
  - rewrite H0; intros [= <-]; lia.
  - destruct (ltb (of_int n) v) eqn:E1.
    + rewrite Hn'; intros [= <-]; lia.
    + intros Hk; split.
      * exact (int_mono _ _ IC _ _ _ _ E0 Hk H0).
      * exact (int_mono _ _ IC _ _ _ _ E1 Hn' Hk).
Qed.

End Bounds.

Section Accumulate.

Context {A : Arith}.
Variable bound : Z.
Hypothesis IC : IntConv A bound.
Variable kernel : BaseKernel A.
Variables pixwidthx pixwidthy xmin ymin : num A.
Variables pixcountx pixcounty : Z.
Hypothesis Hnx : 0 <= pixcountx <= bound.
Hypothesis Hny : 0 <= pixcounty <= bound.

Local Abbreviation clipped := (@clipped A pixcountx pixcounty).
Local Abbreviation image_shape := (@image_shape A pixcountx pixcounty).
Local Abbreviation dx2 := (@dx2 A pixwidthx xmin).
Local Abbreviation dy2 := (@dy2 A pixwidthy ymin).
Local Abbreviation contribution := (@contribution A kernel pixwidthx pixwidthy xmin ymin).
Local Abbreviation dx2_table := (@dx2_table A pixwidthx xmin pixcountx).
Local Abbreviation accumulate_part := (@accumulate_part A kernel pixwidthx pixwidthy xmin ymin).
Local Abbreviation part_cells := (@part_cells A pixwidthx xmin).
Local Abbreviation process_part := (@process_part A kernel pixwidthx pixwidthy xmin ymin pixcountx).

Lemma ipix_range_in (part : Part A) (l : list Z) :
  clipped part -> ipix_range part = inr l ->
  Forall (fun i => 0 <= i < pixcountx) l.
Proof.
  intros (Hlo & _ & Hhi & _); unfold ipix_range; intros H.
  destruct Hlo as (vlo & Elo), Hhi as (vhi & Ehi).
  destruct (py_int (part_ipixmin part)) as [e | lo] eqn:Plo; [discriminate |].
  destruct (py_int (part_ipixmax part)) as [e | hi] eqn:Phi; [discriminate |].
  injection H as <-.
  rewrite Elo in Plo; rewrite Ehi in Phi.
  apply (clip_int _ IC) in Plo; [| assumption].
  apply (clip_int _ IC) in Phi; [| assumption].
  apply Forall_forall; intros i Hi; apply In_range in Hi; lia.
Qed.

Lemma jpix_range_in (part : Part A) (l : list Z) :
  clipped part -> jpix_range part = inr l ->
  Forall (fun j => 0 <= j < pixcounty) l.
Proof.
  intros (_ & Hlo & _ & Hhi); unfold jpix_range; intros H.
  destruct Hlo as (vlo & Elo), Hhi as (vhi & Ehi).
  destruct (py_int (part_jpixmin part)) as [e | lo] eqn:Plo; [discriminate |].
  destruct (py_int (part_jpixmax part)) as [e | hi] eqn:Phi; [discriminate |].
  injection H as <-.
  rewrite Elo in Plo; rewrite Ehi in Phi.
  apply (clip_int _ IC) in Plo; [| assumption].
  apply (clip_int _ IC) in Phi; [| assumption].
  apply Forall_forall; intros i Hi; apply In_range in Hi; lia.
Qed.

Lemma np_zeros_length (n : Z) : List.length (np_zeros (A:=A) n) = Z.to_nat n.
Proof. apply repeat_length. Qed.

Lemma np_zeros2_shape : image_shape (np_zeros2 pixcounty pixcountx).
Proof.
  split; [apply repeat_length |].
  apply Forall_forall; intros row Hrow; apply repeat_spec in Hrow; subst.
  apply np_zeros_length.
Qed.

Lemma precompute_dx2i_table (part : Part A) :
  clipped part ->
  precompute_dx2i pixwidthx xmin pixcountx part
  = (ipixs <- ipix_range part ;;
     _ <- mapM (dx2_check pixwidthx xmin part) ipixs ;;
     ret (dx2_table part ipixs)).
Proof.
  intros Hc; unfold precompute_dx2i.
  destruct (ipix_range part) as [e | ipixs] eqn:E; [reflexivity |].
  rewrite !bind_inr_l.
  apply (foldM_checked _ _ _ (fun t => List.length t = Z.to_nat pixcountx)
           (fun i => 0 <= i < pixcountx)).
  - intros t i Ht Hi.
    unfold dx2_check, inv_h2_check, py_pow2, py_truediv, dx2.
    destruct (pow2_overflows _); [reflexivity |]. rewrite !bind_ret_l.
    destruct (pow2_overflows _); [reflexivity |]. rewrite !bind_ret_l.
    destruct (is_zero _); [reflexivity |]. rewrite !bind_ret_l.
    apply ndarray_set_in; lia.
  - intros t i Ht Hi; rewrite list_set_length; assumption.
  - apply np_zeros_length.
  - exact (ipix_range_in _ _ Hc E).
Qed.

Lemma dx2_table_length (part : Part A) (ipixs : list Z) :
  List.length (dx2_table part ipixs) = Z.to_nat pixcountx.
Proof.
  unfold dx2_table.
  apply (fold_left_invariant _ (fun t => List.length t = Z.to_nat pixcountx)
           (fun _ => True)).
  - intros t i Ht _; rewrite list_set_length; assumption.
  - apply np_zeros_length.
  - apply Forall_forall; trivial.
Qed.

Lemma dx2_table_nth (part : Part A) (ipixs : list Z) (i : Z) :
  Forall (fun i => 0 <= i < pixcountx) ipixs -> In i ipixs ->
  nth (Z.to_nat i) (dx2_table part ipixs) (of_int 0) = dx2 part i.
Proof.
  unfold dx2_table; generalize (np_zeros (A:=A) pixcountx) (np_zeros_length pixcountx).
  induction ipixs as [| k ipixs IH] using rev_ind; intros t0 Ht0 Hall Hin;
    [destruct Hin |].
  rewrite fold_left_app; simpl.
  apply Forall_app in Hall; destruct Hall as (Hall & Hk).
  inversion Hk as [| ? ? Hk' _]; subst.
  assert (Hlen : List.length (fold_left
             (fun t i => list_set (Z.to_nat i) (dx2 part i) t) ipixs t0)
           = Z.to_nat pixcountx).
  { apply (fold_left_invariant _ (fun t => List.length t = Z.to_nat pixcountx)
             (fun _ => True)); auto.
    - intros t j Ht _; rewrite list_set_length; assumption.
    - apply Forall_forall; trivial. }
  rewrite nth_list_set by lia.
  destruct (Nat.eqb (Z.to_nat i) (Z.to_nat k)) eqn:E.
  - apply Nat.eqb_eq in E.
    apply in_app_or in Hin; destruct Hin as [Hin | [<- | []]]; [| reflexivity].
    rewrite Forall_forall in Hall; specialize (Hall _ Hin).
    replace k with i by lia; reflexivity.
  - apply in_app_or in Hin; destruct Hin as [Hin | [<- | []]].
    + apply IH; assumption.
    + rewrite Nat.eqb_refl in E; discriminate.
Qed.


Lemma Forall_list_set {X : Type} (P : X -> Prop) (k : nat) (v : X) (l : list X) :
  Forall P l -> P v -> Forall P (list_set k v l).
Proof.
  intros Hl Hv; revert k; induction Hl as [| a l Ha Hl IH]; intros [| k]; simpl;
    constructor; auto.
Qed.

Lemma image_row_length (image : list (list (num A))) (j : Z) :
  image_shape image -> 0 <= j < pixcounty ->
  List.length (nth (Z.to_nat j) image []) = Z.to_nat pixcountx.
Proof.
  intros (Hlen & Hrows) Hj.
  rewrite Forall_forall in Hrows; apply Hrows, nth_In; lia.
Qed.

Lemma image_iadd_in (image : list (list (num A))) (j i : Z) (v : num A) :
  image_shape image -> 0 <= j < pixcounty -> 0 <= i < pixcountx ->
  image_iadd image j i v = ret (image_add image j i v).
Proof.
  intros Hs Hj Hi; pose proof (image_row_length _ _ Hs Hj) as Hrow.
  destruct Hs as (Hlen & Hrows).
  unfold image_iadd, image_add.
  rewrite (ndarray_get_in image j []) by lia. rewrite bind_ret_l.
  rewrite (ndarray_get_in _ i (of_int 0)) by lia. rewrite bind_ret_l.
  rewrite ndarray_set_in by lia. rewrite bind_ret_l.
  apply ndarray_set_in; lia.
Qed.

Lemma image_add_shape (image : list (list (num A))) (j i : Z) (v : num A) :
  image_shape image -> 0 <= j < pixcounty -> image_shape (image_add image j i v).
Proof.
  intros Hs Hj; pose proof (image_row_length _ _ Hs Hj) as Hrow.
  destruct Hs as (Hlen & Hrows); unfold image_add; split.
  - rewrite list_set_length; assumption.
  - apply Forall_list_set; [assumption |]. rewrite list_set_length; assumption.
Qed.

(** Lines 73-91 for a particle whose bounds were clipped: the checks, then the
    contributions. *)
Lemma process_part_cells (image : list (list (num A))) (part : Part A) :
  clipped part -> image_shape image ->
  process_part image part
  = (cells <- part_cells part ;; ret (accumulate_part image (part, cells)))
  /\ forall cells, part_cells part = inr cells ->
       image_shape (accumulate_part image (part, cells)).
Proof.
  intros Hc Hs; unfold process_part, part_cells.
  rewrite (precompute_dx2i_table _ Hc).
  destruct (ipix_range part) as [e | ipixs] eqn:Ei;
    [split; [reflexivity | discriminate] |].
  rewrite !bind_inr_l.
  pose proof (ipix_range_in _ _ Hc Ei) as Hi.
  destruct (mapM (dx2_check pixwidthx xmin part) ipixs) as [e | us];
    [split; [reflexivity | discriminate] |].
  rewrite !bind_inr_l; cbv beta.
  destruct (jpix_range part) as [e | jpixs] eqn:Ej;
    [split; [reflexivity | discriminate] |].
  rewrite !bind_inr_l.
  pose proof (jpix_range_in _ _ Hc Ej) as Hj.
  assert (Hinner : forall image j, image_shape image -> 0 <= j < pixcounty ->
    foldM (fun image ipix =>
             d <- ndarray_get (dx2_table part ipixs) ipix ;;
             image_iadd image j ipix
               (part_term part * w kernel (sqrt (d + dy2 part j)))%ar)
          ipixs image
    = ret (fold_left (fun image ipix =>
                        image_add image j ipix (contribution part j ipix))
             ipixs image)
    /\ image_shape (fold_left (fun image ipix =>
                        image_add image j ipix (contribution part j ipix))
             ipixs image)).
  { intros im j Him Hjj.
    apply (foldM_pure _ _ image_shape
             (fun i => 0 <= i < pixcountx /\ In i ipixs)); auto.
    - intros im' i Him' (Hii & Hin).
      rewrite (ndarray_get_in _ i (of_int 0))
        by (rewrite dx2_table_length; lia).
      rewrite bind_ret_l, (dx2_table_nth _ _ _ Hi Hin).
      apply image_iadd_in; assumption.
    - intros im' i Him' _; apply image_add_shape; assumption.
    - rewrite Forall_forall in *; auto. }
  assert (Houter :
    foldM (fun image jpix =>
             h2 <- py_pow2 (part_h part) ;;
             inv <- py_truediv (of_int 1) h2 ;;
             ipixs0 <- inr ipixs ;;
             foldM (fun image ipix =>
                      d <- ndarray_get (dx2_table part ipixs) ipix ;;
                      image_iadd image jpix ipix
                        (part_term part
                         * w kernel
                             (sqrt (d + (ymin + (of_int jpix + half) * pixwidthy
                                        - part_y part)
                                       * (ymin + (of_int jpix + half) * pixwidthy
                                          - part_y part) * inv)))%ar)
                   ipixs0 image)
          jpixs image
    = (_ <- mapM (fun _ : Z => inv_h2_check part) jpixs ;;
       ret (accumulate_part image (part, (jpixs, ipixs))))).
  { unfold accumulate_part; cbn [fst snd].
    apply (foldM_checked _ _ _ image_shape (fun j => 0 <= j < pixcounty)); auto.
    - intros im j Him Hjj.
      unfold inv_h2_check, py_pow2, py_truediv.
      destruct (pow2_overflows _); [reflexivity |]. rewrite !bind_ret_l.
      destruct (is_zero _); [reflexivity |]. rewrite !bind_ret_l.
      try rewrite bind_inr_l.
      exact (proj1 (Hinner im j Him Hjj)).
    - intros im j Him Hjj; exact (proj2 (Hinner im j Him Hjj)). }
  split.
  - cbv zeta. rewrite Houter.
    destruct (mapM (fun _ : Z => inv_h2_check part) jpixs); reflexivity.
  - intros cells Hcells.
    destruct (mapM (fun _ : Z => inv_h2_check part) jpixs); [discriminate |].
    injection Hcells as <-.
    unfold accumulate_part; cbn [fst snd].
    apply (fold_left_invariant _ image_shape (fun j => 0 <= j < pixcounty)); auto.
    intros im j Him Hjj; exact (proj2 (Hinner im j Him Hjj)).
Qed.

End Accumulate.

Lemma bind_inl_l {X Y : Type} (e : exn) (f : X -> Result Y) :
  bind (inl e) f = inl e.
Proof. reflexivity. Qed.

Lemma bind_raises {X Y : Type} (P : exn -> Prop) (m : Result X)
  (f : X -> Result Y) (e : exn) :
  (forall e, m = inl e -> P e) -> (forall v e, f v = inl e -> P e) ->
  bind m f = inl e -> P e.
Proof.
  intros Hm Hf; destruct m as [e' | v]; simpl.
  - intros [= <-]; apply Hm; reflexivity.
  - apply Hf.
Qed.

Lemma foldM_raises {X Y : Type} (P : exn -> Prop) (f : X -> Y -> Result X)
  (l : list Y) (a : X) (e : exn) :
  (forall a b e, In b l -> f a b = inl e -> P e) -> foldM f l a = inl e -> P e.
Proof.
  revert a; induction l as [| b l IH]; simpl; intros a Hf H; [discriminate |].
  destruct (f a b) as [e' | a'] eqn:E; simpl in H.
  - injection H as <-; eapply Hf; eauto.
  - eapply IH; eauto.
Qed.

Lemma mapM_raises {X Y : Type} (P : exn -> Prop) (f : X -> Result Y)
  (l : list X) (e : exn) :
  (forall b e, In b l -> f b = inl e -> P e) -> mapM f l = inl e -> P e.
Proof.
  induction l as [| b l IH]; simpl; intros Hf H; [discriminate |].
  destruct (f b) as [e' | v] eqn:E; simpl in H.
  - injection H as <-; eapply Hf; eauto.
  - destruct (mapM f l) as [e' | vs]; simpl in H; [| discriminate].
    injection H as <-; eapply IH; eauto.
Qed.

Lemma getitem_raises {C : Type} (df : list (string * C)) (key : string) (e : exn) :
  getitem df key = inl e -> e = KeyError key.
Proof.
  induction df as [| [k s] df IH]; simpl.
  - intros [= <-]; reflexivity.
  - destruct (String.eqb k key); [discriminate | exact IH].
Qed.

Lemma normalize_index_raises (len idx : Z) (e : exn) :
  normalize_index len idx = inl e -> e = IndexError.
Proof.
  unfold normalize_index.
  destruct ((0 <=? idx) && (idx <? len)); [discriminate |].
  destruct ((- len <=? idx) && (idx <? 0)); [discriminate |].
  intros [= <-]; reflexivity.
Qed.

Lemma ndarray_get_raises {X : Type} (a : list X) (idx : Z) (e : exn) :
  ndarray_get a idx = inl e -> e = IndexError.
Proof.
  unfold ndarray_get.
  destruct (normalize_index _ idx) as [e' | k] eqn:E; simpl.
  - intros [= <-]; exact (normalize_index_raises _ _ _ E).
  - destruct (nth_error a k); [discriminate | intros [= <-]; reflexivity].
Qed.

Lemma ndarray_set_raises {X : Type} (a : list X) (idx : Z) (v : X) (e : exn) :
  ndarray_set a idx v = inl e -> e = IndexError.
Proof.
  unfold ndarray_set.
  destruct (normalize_index _ idx) as [e' | k] eqn:E; simpl; [| discriminate].
  intros [= <-]; exact (normalize_index_raises _ _ _ E).
Qed.


(** ** The grid as a sum of contributions *)

Section Sum.

Context {A : Arith}.
Variable bound : Z.
Hypothesis IC : IntConv A bound.
Variable data : Frame (num A).
Variables x y target : string.
Variable kernel : BaseKernel A.
Variables pixwidthx pixwidthy xmin ymin : num A.
Variables pixcountx pixcounty : Z.
Hypothesis Hnx : 0 <= pixcountx <= bound.
Hypothesis Hny : 0 <= pixcounty <= bound.

Local Abbreviation clipped := (@clipped A pixcountx pixcounty).
Local Abbreviation image_shape := (@image_shape A pixcountx pixcounty).
Local Abbreviation accumulate_part := (@accumulate_part A kernel pixwidthx pixwidthy xmin ymin).
Local Abbreviation part_cells := (@part_cells A pixwidthx xmin).
Local Abbreviation process_part := (@process_part A kernel pixwidthx pixwidthy xmin ymin pixcountx).

Lemma foldM_process_part (rows : list (Part A)) (image : list (list (num A))) :
  Forall clipped rows -> image_shape image ->
  foldM process_part rows image
  = (cells <- mapM part_cells rows ;;
     ret (fold_left accumulate_part (combine rows cells) image)).
Proof.
  intros Hrows; revert image; induction Hrows as [| p rows Hp Hrows IH];
    intros image Hs; [reflexivity |].
  cbn [foldM mapM].
  destruct (process_part_cells bound IC kernel pixwidthx pixwidthy xmin ymin
              pixcountx pixcounty Hnx Hny image p Hp Hs) as (-> & Hs').
  destruct (part_cells p) as [e | c]; [reflexivity |].
  rewrite ?bind_inr_l, ?bind_ret_l.
  rewrite IH by (apply Hs'; reflexivity).
  destruct (mapM part_cells rows); reflexivity.
Qed.

Lemma build_parts_clipped (parts : Frame (num A)) (rows : list (Part A)) :
  build_parts data x y target kernel pixwidthx pixwidthy xmin ymin pixcountx
    pixcounty = inr parts ->
  itertuples parts = inr rows -> Forall clipped rows.
Proof.
  intros Hb Hi; apply Forall_forall; intros p Hp.
  destruct (build_parts_bounds _ _ _ _ _ _ _ _ _ _ _ _ Hb)
    as (c1 & c2 & c3 & c4 & E1 & E2 & E3 & E4).
  destruct (itertuples_In _ _ _ Hi Hp)
    as (d1 & d2 & d3 & d4 & F1 & F2 & F3 & F4 & I1 & I2 & I3 & I4).
  rewrite E1 in F1; rewrite E2 in F2; rewrite E3 in F3; rewrite E4 in F4.
  injection F1 as <-; injection F2 as <-; injection F3 as <-; injection F4 as <-.
  apply in_map_iff in I1, I2, I3, I4.
  destruct I1 as (v1 & G1 & _), I2 as (v2 & G2 & _), I3 as (v3 & G3 & _),
    I4 as (v4 & G4 & _).
  repeat split; eexists; symmetry; eassumption.
Qed.

Lemma invalid_call_false :
  invalid_call kernel pixwidthx pixwidthy pixcountx pixcounty = false ->
  leb pixwidthx (of_int 0) = false /\ leb pixwidthy (of_int 0) = false /\
  0 < pixcountx /\ 0 < pixcounty /\ ndims kernel = 2.
Proof.
  unfold invalid_call; intros H.
  repeat (apply orb_false_iff in H; destruct H as (H & ?)).
  repeat split; auto; try (apply Z.leb_gt; assumption).
  apply Z.eqb_eq; apply negb_false_iff; assumption.
Qed.

Lemma interpolate2D_valid :
  invalid_call kernel pixwidthx pixwidthy pixcountx pixcounty = false ->
  interpolate2D data x y target kernel pixwidthx pixwidthy xmin ymin pixcountx
    pixcounty
  = (parts <- build_parts data x y target kernel pixwidthx pixwidthy xmin ymin
                pixcountx pixcounty ;;
     rows <- itertuples parts ;;
     foldM process_part rows (np_zeros2 pixcounty pixcountx)).
Proof.
  intros H; apply invalid_call_false in H.
  destruct H as (H1 & H2 & H3 & H4 & H5); unfold interpolate2D.
  rewrite H1, H2, H5.
  replace (pixcountx <=? 0) with false by (symmetry; apply Z.leb_gt; lia).
  replace (pixcounty <=? 0) with false by (symmetry; apply Z.leb_gt; lia).
  reflexivity.
Qed.

Lemma interpolate2D_eq_sum :
  invalid_call kernel pixwidthx pixwidthy pixcountx pixcounty = false ->
  interpolate2D data x y target kernel pixwidthx pixwidthy xmin ymin pixcountx
    pixcounty
  = interpolate2D_sum data x y target kernel pixwidthx pixwidthy xmin ymin
      pixcountx pixcounty.
Proof.
  intros H; rewrite (interpolate2D_valid H); unfold interpolate2D_sum.
  destruct (build_parts _ _ _ _ _ _ _ _ _ _ _) as [e | parts] eqn:Eb;
    [reflexivity |].
  rewrite !bind_inr_l.
  destruct (itertuples parts) as [e | rows] eqn:Ei; [reflexivity |].
  rewrite !bind_inr_l.
  apply foldM_process_part.
  - exact (build_parts_clipped _ _ Eb Ei).
  - apply np_zeros2_shape.
Qed.

End Sum.

(** ** Which exceptions a call can raise *)

Section Raises.

Context {A : Arith}.
Variable bound : Z.
Hypothesis IC : IntConv A bound.
Variable data : Frame (num A).
Variables x y target : string.
Variable kernel : BaseKernel A.
Variables pixwidthx pixwidthy xmin ymin : num A.
Variables pixcountx pixcounty : Z.

(** A set of exceptions that holds what lookups and Python's scalar
    arithmetic raise. *)
Variable P : exn -> Prop.
Hypothesis P_key : forall k, P (KeyError k).
Hypothesis P_overflow : P OverflowError.
Hypothesis P_zero_division : P ZeroDivisionError.
Hypothesis P_nan : P (ValueError nan_to_int).

Ltac bind_raises H :=
  apply (bind_raises P) in H; [exact H | clear H | clear H].

Lemma py_int_raises (v : num A) (e : exn) : py_int v = inl e -> P e.
Proof.
  intros H; destruct (int_raises _ _ IC _ _ H) as [-> | ->]; assumption.
Qed.

Lemma py_pow2_raises (v : num A) (e : exn) : py_pow2 v = inl e -> P e.
Proof.
  unfold py_pow2; destruct (pow2_overflows v); [| discriminate].
  intros [= <-]; assumption.
Qed.

Lemma py_truediv_raises (a b : num A) (e : exn) : py_truediv a b = inl e -> P e.
Proof.
  unfold py_truediv; destruct (is_zero b); [| discriminate].
  intros [= <-]; assumption.
Qed.

Lemma ipix_range_raises (part : Part A) (e : exn) :
  ipix_range part = inl e -> P e.
Proof.
  unfold ipix_range; intros H.
  bind_raises H; [apply py_int_raises | intros lo e' H].
  bind_raises H; [apply py_int_raises | discriminate].
Qed.

Lemma jpix_range_raises (part : Part A) (e : exn) :
  jpix_range part = inl e -> P e.
Proof.
  unfold jpix_range; intros H.
  bind_raises H; [apply py_int_raises | intros lo e' H].
  bind_raises H; [apply py_int_raises | discriminate].
Qed.

Lemma inv_h2_raises (part : Part A) (X : Type) (f : num A -> Result X) (e : exn) :
  (forall inv e, f inv = inl e -> P e) ->
  (h2 <- py_pow2 (part_h part) ;; inv <- py_truediv (of_int 1) h2 ;; f inv)
  = inl e -> P e.
Proof.
  intros Hf H.
  bind_raises H; [apply py_pow2_raises | intros h2 e' H].
  bind_raises H; [apply py_truediv_raises | exact Hf].
Qed.

Lemma part_cells_raises (part : Part A) (e : exn) :
  part_cells pixwidthx xmin part = inl e -> P e.
Proof.
  unfold part_cells; intros H.
  bind_raises H; [apply ipix_range_raises | intros ipixs e' H].
  bind_raises H.
  - intros e'' H; apply (mapM_raises P) in H; [exact H | clear H].
    intros i e3 _ H; unfold dx2_check in H.
    bind_raises H; [apply py_pow2_raises | intros d2 e4 H].
    unfold inv_h2_check in H; apply inv_h2_raises in H; [exact H | discriminate].
  - intros us e'' H.
    bind_raises H; [apply jpix_range_raises | intros jpixs e3 H].
    bind_raises H; [| discriminate].
    intros e4 H; apply (mapM_raises P) in H; [exact H | clear H].
    intros j e5 _ H.
    unfold inv_h2_check in H; apply inv_h2_raises in H; [exact H | discriminate].
Qed.

Ltac getitem_chain H :=
  repeat match type of H with
    | bind (inr _) _ = inl _ => rewrite bind_inr_l in H; cbv beta zeta in H
    | bind ?m _ = inl _ =>
        let E := fresh "E" in
        destruct m eqn:E;
        [ rewrite bind_inl_l in H; injection H as <-;
          apply getitem_raises in E; subst; apply P_key
        | rewrite bind_inr_l in H; cbv beta zeta in H; clear E ]
    end.

Lemma build_parts_raises (e : exn) :
  build_parts data x y target kernel pixwidthx pixwidthy xmin ymin pixcountx
    pixcounty = inl e -> P e.
Proof.
  unfold build_parts; intros H. cbv beta zeta in H. getitem_chain H.
  unfold ret in H; discriminate H.
Qed.

Lemma itertuples_raises (parts : Frame (num A)) (e : exn) :
  itertuples parts = inl e -> P e.
Proof.
  unfold itertuples; intros H. getitem_chain H. unfold ret in H; discriminate H.
Qed.

Lemma interpolate2D_sum_raises (e : exn) :
  interpolate2D_sum data x y target kernel pixwidthx pixwidthy xmin ymin
    pixcountx pixcounty = inl e -> P e.
Proof.
  unfold interpolate2D_sum; intros H.
  bind_raises H; [apply build_parts_raises | intros parts e' H].
  bind_raises H; [apply itertuples_raises | intros rows e'' H].
  bind_raises H; [| discriminate].
  intros e3 H; apply (mapM_raises P) in H; [exact H | clear H].
  intros part e4 _; apply part_cells_raises.
Qed.

(** The loops themselves can raise [IndexError] besides. *)
Hypothesis P_index : P IndexError.

Lemma image_iadd_raises (image : list (list (num A))) (j i : Z) (v : num A)
  (e : exn) :
  image_iadd image j i v = inl e -> P e.
Proof.
  unfold image_iadd; intros H.
  bind_raises H; [intros e' H; apply ndarray_get_raises in H; subst; assumption |].
  intros row e' H.
  bind_raises H; [intros e'' H; apply ndarray_get_raises in H; subst; assumption |].
  intros old e'' H.
  bind_raises H; [intros e3 H; apply ndarray_set_raises in H; subst; assumption |].
  intros row' e3 H; apply ndarray_set_raises in H; subst; assumption.
Qed.

Lemma precompute_dx2i_raises (part : Part A) (e : exn) :
  precompute_dx2i pixwidthx xmin pixcountx part = inl e -> P e.
Proof.
  unfold precompute_dx2i; intros H.
  bind_raises H; [apply ipix_range_raises | intros ipixs e' H].
  apply (foldM_raises P) in H; [exact H | clear H].
  intros t i e'' _ H.
  bind_raises H; [apply py_pow2_raises | intros d2 e3 H].
  apply inv_h2_raises in H; [exact H | clear H].
  intros inv e4 H; apply ndarray_set_raises in H; subst; assumption.
Qed.

Lemma process_part_raises (image : list (list (num A))) (part : Part A) (e : exn) :
  process_part kernel pixwidthx pixwidthy xmin ymin pixcountx image part = inl e ->
  P e.
Proof.
  unfold process_part; intros H.
  bind_raises H; [apply precompute_dx2i_raises | intros dx2i e' H].
  bind_raises H; [apply jpix_range_raises | intros jpixs e'' H].
  apply (foldM_raises P) in H; [exact H | clear H].
  intros im j e3 _ H; cbv zeta in H.
  apply inv_h2_raises in H; [exact H | clear H].
  intros inv e4 H.
  bind_raises H; [apply ipix_range_raises | intros ipixs e5 H].
  apply (foldM_raises P) in H; [exact H | clear H].
  intros im' i e6 _ H.
  bind_raises H; [intros e7 H; apply ndarray_get_raises in H; subst; assumption |].
  intros d e7 H; exact (image_iadd_raises _ _ _ _ _ H).
Qed.

Lemma interpolate2D_body_raises (e : exn) :
  (parts <- build_parts data x y target kernel pixwidthx pixwidthy xmin ymin
              pixcountx pixcounty ;;
   rows <- itertuples parts ;;
   foldM (process_part kernel pixwidthx pixwidthy xmin ymin pixcountx) rows
     (np_zeros2 pixcounty pixcountx)) = inl e -> P e.
Proof.
  intros H.
  bind_raises H; [apply build_parts_raises | intros parts e' H].
  bind_raises H; [apply itertuples_raises | intros rows e'' H].
  apply (foldM_raises P) in H; [exact H | clear H].
  intros im part e3 _; apply process_part_raises.
Qed.

End Raises.

(** ** The laws of [int()] hold of binary64 *)

Module B64Laws.

Lemma digits2_pos_bounds (p : positive) :
  2 ^ (Z.pos (digits2_pos p) - 1) <= Z.pos p < 2 ^ Z.pos (digits2_pos p).
Proof.
  induction p as [p IH | p IH |]; cbn [digits2_pos].
  - rewrite Pos2Z.inj_succ.
    replace (Z.succ (Z.pos (digits2_pos p)) - 1) with (Z.succ (Z.pos (digits2_pos p) - 1)) by lia.
    rewrite !Z.pow_succ_r by lia. lia.
  - rewrite Pos2Z.inj_succ.
    replace (Z.succ (Z.pos (digits2_pos p)) - 1) with (Z.succ (Z.pos (digits2_pos p) - 1)) by lia.
    rewrite !Z.pow_succ_r by lia. lia.
  - simpl; lia.
Qed.

Lemma iter_xO_value (p k : positive) :
  Z.pos (Pos.iter xO p k) = Z.pos p * 2 ^ Z.pos k.
Proof.
  induction k as [| k IH] using Pos.peano_ind.
  - simpl; lia.
  - rewrite Pos.iter_succ, Pos2Z.inj_succ, Z.pow_succ_r by lia.
    rewrite Pos2Z.inj_xO, IH; lia.
Qed.

Lemma iter_xO_digits (p k : positive) :
  digits2_pos (Pos.iter xO p k) = (digits2_pos p + k)%positive.
Proof.
  induction k as [| k IH] using Pos.peano_ind.
  - simpl; lia.
  - rewrite Pos.iter_succ; cbn [digits2_pos]; rewrite IH; lia.
Qed.

Lemma digits2_pos_le (p : positive) (d : Z) :
  Z.pos p < 2 ^ d -> 0 <= d -> Z.pos (digits2_pos p) <= d.
Proof.
  intros Hp Hd; pose proof (digits2_pos_bounds p) as (Hlo & _).
  destruct (Z_lt_le_dec d (Z.pos (digits2_pos p))) as [Hlt | ]; [| assumption].
  exfalso.
  assert (2 ^ d <= 2 ^ (Z.pos (digits2_pos p) - 1)) by (apply Z.pow_le_mono_r; lia).
  lia.
Qed.

(** Rounding a mantissa of exactly 53 digits changes nothing. *)
Lemma binary_round_aux_exact (s : bool) (m : positive) (e : Z) :
  digits2_pos m = 53%positive -> -1074 <= e <= 971 ->
  binary_round_aux prec emax s (Z.pos m) e loc_Exact = S754_finite s m e.
Proof.
  intros Hd He.
  unfold binary_round_aux, shr_fexp.
  assert (Hf : fexp prec emax (Zdigits2 (Z.pos m) + e) - e = 0).
  { unfold fexp, SpecFloat.emin, prec, emax, Zdigits2. rewrite Hd. lia. }
  rewrite Hf. cbn [shr shr_record_of_loc loc_of_shr_record shr_m shr_r shr_s
                   round_nearest_even].
  rewrite Hf. cbn [shr shr_m].
  replace (e <=? emax - prec) with true; [reflexivity |].
  symmetry; apply Z.leb_le; unfold emax, prec; lia.
Qed.

(** The float nearest to a small positive integer is that integer. *)
Lemma binary_normalize_small (p : positive) :
  Z.pos p < 2 ^ 53 ->
  exists m e, binary_normalize prec emax (Z.pos p) 0 false = S754_finite false m e
    /\ valid_binary (S754_finite false m e) = true
    /\ Z.shiftl (Z.pos m) e = Z.pos p.
Proof.
  intros Hp.
  pose proof (digits2_pos_le p 53 Hp ltac:(lia)) as Hd.
  unfold binary_normalize, binary_round.
  assert (Hf : fexp prec emax (Z.pos (digits2_pos p) + 0) = Z.pos (digits2_pos p) - 53).
  { unfold fexp, SpecFloat.emin, prec, emax. lia. }
  rewrite Hf; unfold shl_align.
  destruct (Z.pos (digits2_pos p) - 53 - 0) as [| k | k] eqn:Ek; try lia.
  - (* 53 digits already *)
    assert (Hd53 : digits2_pos p = 53%positive) by lia.
    rewrite binary_round_aux_exact by (auto; lia).
    exists p, 0; repeat split.
    unfold valid_binary, bounded, canonical_mantissa, fexp, SpecFloat.emin, prec, emax.
    rewrite Hd53; reflexivity.
  - (* shifted left by k = 53 - digits *)
    assert (Hk : Z.pos k = 53 - Z.pos (digits2_pos p)) by lia.
    assert (Hd53 : digits2_pos (Pos.iter xO p k) = 53%positive)
      by (rewrite iter_xO_digits; lia).
    rewrite binary_round_aux_exact by (auto; lia).
    do 2 eexists; repeat split.
    + unfold valid_binary, bounded, canonical_mantissa, fexp, SpecFloat.emin, prec, emax.
      rewrite Hd53.
      apply andb_true_iff; split; [apply Z.eqb_eq | apply Z.leb_le]; lia.
    + rewrite iter_xO_value.
      replace (Z.pos (digits2_pos p) - 53) with (- Z.pos k) by lia.
      rewrite Z.shiftl_opp_r, Z.shiftr_div_pow2 by lia.
      apply Z.div_mul; lia.
Qed.


Lemma int_of_int (n : Z) :
  0 <= n < 2 ^ 53 -> B64.py_int (B64.of_int n) = inr n.
Proof.
  intros Hn; unfold B64.py_int, B64.of_int.
  destruct n as [| p | p]; [reflexivity | | lia].
  destruct (binary_normalize_small p (proj2 Hn)) as (m & e & -> & Hv & Hs).
  rewrite Prim2SF_SF2Prim by exact Hv.
  simpl cond_Zopp; rewrite Hs; reflexivity.
Qed.

Lemma int_raises (v : float) (e : exn) :
  B64.py_int v = inl e -> e = OverflowError \/ e = ValueError nan_to_int.
Proof.
  unfold B64.py_int; destruct (Prim2SF v); intros [= <-]; auto.
Qed.

(** A valid mantissa has at most 53 digits, and exactly 53 above the least
    exponent. *)
Lemma bounded_digits (m : positive) (e : Z) :
  bounded prec emax m e = true ->
  Z.pos m < 2 ^ 53 /\ -1074 <= e /\ (-1074 < e -> 2 ^ 52 <= Z.pos m).
Proof.
  unfold bounded, canonical_mantissa, fexp, SpecFloat.emin, prec, emax.
  intros H; apply andb_true_iff in H; destruct H as (H & _).
  apply Z.eqb_eq in H.
  pose proof (digits2_pos_bounds m) as (Hlo & Hhi).
  repeat split.
  - assert (2 ^ Z.pos (digits2_pos m) <= 2 ^ 53) by (apply Z.pow_le_mono_r; lia).
    lia.
  - lia.
  - intros He.
    assert (Hd : Z.pos (digits2_pos m) = 53) by lia.
    rewrite Hd in Hlo; exact Hlo.
Qed.

Lemma shiftl_le_mono (a b n : Z) : 0 <= a <= b -> Z.shiftl a n <= Z.shiftl b n.
Proof.
  intros H; destruct (Z_le_gt_dec 0 n).
  - rewrite !Z.shiftl_mul_pow2 by lia.
    apply Z.mul_le_mono_nonneg_r; [apply Z.pow_nonneg |]; lia.
  - rewrite !Z.shiftl_div_pow2 by lia.
    apply Z.div_le_mono; [apply Z.pow_pos_nonneg |]; lia.
Qed.

(** Magnitudes of valid floats compare as their exponents, then mantissas. *)
Lemma magnitude_le (m1 m2 : positive) (e1 e2 : Z) :
  bounded prec emax m1 e1 = true -> bounded prec emax m2 e2 = true ->
  e1 < e2 \/ (e1 = e2 /\ (m1 <= m2)%positive) ->
  Z.shiftl (Z.pos m1) e1 <= Z.shiftl (Z.pos m2) e2.
Proof.
  intros H1 H2 [Hlt | (-> & Hm)].
  - apply bounded_digits in H1, H2.
    destruct H1 as (Hm1 & He1 & _), H2 as (_ & _ & Hm2).
    specialize (Hm2 ltac:(lia)).
    replace e2 with ((e2 - e1) + e1) by lia.
    rewrite <- Z.shiftl_shiftl by lia.
    apply shiftl_le_mono; split; [lia |].
    rewrite Z.shiftl_mul_pow2 by lia.
    assert (2 ^ 1 <= 2 ^ (e2 - e1)) by (apply Z.pow_le_mono_r; lia).
    change (2 ^ 1) with 2 in *. nia.
  - apply shiftl_le_mono; lia.
Qed.

Lemma shiftl_pos_nonneg (m : positive) (e : Z) : 0 <= Z.shiftl (Z.pos m) e.
Proof. apply Z.shiftl_nonneg; lia. Qed.

Lemma int_mono (u v : float) (a b : Z) :
  PrimFloat.ltb u v = false -> B64.py_int u = inr a -> B64.py_int v = inr b ->
  b <= a.
Proof.
  rewrite ltb_spec; unfold SFltb, B64.py_int.
  pose proof (Prim2SF_valid u) as Vu; pose proof (Prim2SF_valid v) as Vv.
  destruct (Prim2SF u) as [su | su | | su mu eu];
    destruct (Prim2SF v) as [sv | sv | | sv mv ev];
    cbn [SFcompare]; intros Hc Ha Hb; try discriminate;
    injection Ha as <-; injection Hb as <-.
  - lia.
  - destruct sv; [| discriminate]. cbn [cond_Zopp].
    pose proof (shiftl_pos_nonneg mv ev); lia.
  - destruct su; [discriminate |]. cbn [cond_Zopp].
    apply shiftl_pos_nonneg.
  - cbn [valid_binary] in Vu, Vv.
    pose proof (shiftl_pos_nonneg mu eu); pose proof (shiftl_pos_nonneg mv ev).
    destruct su, sv; cbn [cond_Zopp]; try discriminate; try lia.
    + (* both negative *)
      assert (Z.shiftl (Z.pos mu) eu <= Z.shiftl (Z.pos mv) ev); [| lia].
      apply magnitude_le; auto.
      destruct (eu ?= ev) eqn:E; try discriminate.
      * apply Z.compare_eq in E; right; split; [assumption |].
        rewrite Pos.compare_cont_spec in Hc. simpl in Hc.
        destruct (mu ?= mv)%positive eqn:Em; try discriminate.
        -- apply Pos.compare_eq in Em; lia.
        -- assert (mu < mv)%positive by exact Em; lia.
      * apply Z.compare_lt_iff in E; left; assumption.
    + (* both positive *)
      apply magnitude_le; auto.
      destruct (eu ?= ev) eqn:E; try discriminate.
      * apply Z.compare_eq in E; right; split; [auto |].
        rewrite Pos.compare_cont_spec in Hc. simpl in Hc.
        destruct (mu ?= mv)%positive eqn:Em; try discriminate.
        -- apply Pos.compare_eq in Em; lia.
        -- assert (mv < mu)%positive by (apply Pos.compare_gt_iff; exact Em); lia.
      * apply Z.compare_gt_iff in E; left; assumption.
Qed.

Lemma binary64_int_conv : IntConv binary64 (2 ^ 53 - 1).
Proof.
  constructor.
  - intros n Hn; apply int_of_int; lia.
  - exact int_mono.
  - exact int_raises.
Qed.

End B64Laws.

Section Retained.

Context {A : Arith}.
Variable data : Frame (num A).
Variables x y target : string.
Variable kernel : BaseKernel A.
Variables pixwidthx pixwidthy xmin ymin : num A.
Variables pixcountx pixcounty : Z.

Local Abbreviation retained_parts :=
  (@retained_parts A x y kernel pixwidthx pixwidthy xmin ymin pixcountx pixcounty).

(** A valid call on a frame holding [rows] loops over the retained particles
    of [rows]. *)
Lemma interpolate2D_retained (rows : list (Particle A)) :
  holds data x y target rows ->
  invalid_call kernel pixwidthx pixwidthy pixcountx pixcounty = false ->
  interpolate2D data x y target kernel pixwidthx pixwidthy xmin ymin pixcountx
    pixcounty
  = (ps <- retained_parts rows ;;
     foldM (process_part kernel pixwidthx pixwidthy xmin ymin pixcountx) ps
       (np_zeros2 pixcounty pixcountx)).
Proof.
  intros Hd Hv.
  rewrite (interpolate2D_valid _ _ _ _ _ _ _ _ _ _ _ Hv).
  rewrite <- (build_parts_rows data x y target kernel pixwidthx pixwidthy xmin
                ymin pixcountx pixcounty rows Hd).
  rewrite bind_assoc; reflexivity.
Qed.

Lemma retained_parts_filter (rows rows' : list (Particle A)) :
  filter retained rows = filter retained rows' ->
  retained_parts rows = retained_parts rows'.
Proof. unfold retained_parts; intros ->; reflexivity. Qed.

End Retained.

(** An invalid call raises the same validation error whatever else it is
    given. *)
Lemma interpolate2D_invalid {A : Arith} (kernel : BaseKernel A)
  (pixwidthx pixwidthy : num A) (pixcountx pixcounty : Z) :
  invalid_call kernel pixwidthx pixwidthy pixcountx pixcounty = true ->
  exists e, In e validation_errors /\
    forall data x y target radkernel' w' xmin ymin,
      interpolate2D data x y target
        (@Build_BaseKernel A (ndims kernel) radkernel' w')
        pixwidthx pixwidthy xmin ymin pixcountx pixcounty = inl e.
Proof.
  unfold invalid_call, interpolate2D, validation_errors; intros H.
  destruct (leb pixwidthx (of_int 0));
    [eexists; split; [| reflexivity]; simpl; tauto |].
  destruct (leb pixwidthy (of_int 0));
    [eexists; split; [| reflexivity]; simpl; tauto |].
  destruct (pixcountx <=? 0);
    [eexists; split; [| reflexivity]; simpl; tauto |].
  destruct (pixcounty <=? 0);
    [eexists; split; [| reflexivity]; simpl; tauto |].
  cbn [ndims].
  destruct (negb (ndims kernel =? 2));
    [eexists; split; [| reflexivity]; simpl; tauto | discriminate].
Qed.

(** The outcome of a call depends on the frame only through its retained
    particles. *)
Lemma interpolate2D_same_retained {A : Arith} (data data' : Frame (num A))
  (x y target : string) (kernel : BaseKernel A)
  (pixwidthx pixwidthy xmin ymin : num A) (pixcountx pixcounty : Z)
  (rows rows' : list (Particle A)) :
  holds data x y target rows -> holds data' x y target rows' ->
  filter retained rows = filter retained rows' ->
  interpolate2D data x y target kernel pixwidthx pixwidthy xmin ymin pixcountx
    pixcounty
  = interpolate2D data' x y target kernel pixwidthx pixwidthy xmin ymin
      pixcountx pixcounty.
Proof.
  intros Hd Hd' Hf.
  destruct (invalid_call kernel pixwidthx pixwidthy pixcountx pixcounty) eqn:Hv.
  - destruct (interpolate2D_invalid _ _ _ _ _ Hv) as (e & _ & He).
    pose proof (He data x y target (radkernel kernel) (w kernel) xmin ymin) as H1.
    pose proof (He data' x y target (radkernel kernel) (w kernel) xmin ymin) as H2.
    destruct kernel as [nd rk wk]; cbn [ndims radkernel w] in H1, H2.
    rewrite H1, H2; reflexivity.
  - rewrite (interpolate2D_retained data x y target kernel _ _ _ _ _ _ rows Hd Hv).
    rewrite (interpolate2D_retained data' x y target kernel _ _ _ _ _ _ rows' Hd' Hv).
    rewrite (retained_parts_filter x y kernel pixwidthx pixwidthy xmin ymin
               pixcountx pixcounty rows rows' Hf).
    reflexivity.
Qed.

Lemma filter_drop {X : Type} (f : X -> bool) (pre post : list X) (r : X) :
  f r = false -> filter f (pre ++ r :: post) = filter f (pre ++ post).
Proof. intros H; rewrite !filter_app; simpl; rewrite H; reflexivity. Qed.

Lemma Forall2_map_r {X Y : Type} (P : X -> Y -> Prop) (f : X -> Y) (l : list X) :
  (forall a, In a l -> P a (f a)) -> Forall2 P l (map f l).
Proof.
  induction l as [| a l IH]; simpl; intros H; constructor; auto.
Qed.

(** With the labels "x" and "y", [parts[x]] and [parts[y]] are the columns
    copied from [data[x]] and [data[y]]. *)
Lemma retained_parts_xy {A : Arith} (kernel : BaseKernel A)
  (pixwidthx pixwidthy xmin ymin : num A) (pixcountx pixcounty : Z)
  (rows : list (Particle A)) :
  retained_parts "x" "y" kernel pixwidthx pixwidthy xmin ymin pixcountx
    pixcounty rows
  = inr (map (part_of kernel pixwidthx pixwidthy xmin ymin pixcountx pixcounty
                r_x r_y)
           (filter retained rows)).
Proof. reflexivity. Qed.

Lemma half_open_range {A : Arith} (bound n : Z) (lo_v hi_v : num A) (l : list Z) :
  IntConv A bound -> 0 <= n <= bound ->
  (lo <- py_int (clip 0 n lo_v) ;; hi <- py_int (clip 0 n hi_v) ;;
   ret (range lo hi)) = inr l ->
  exists lo hi,
    py_int (clip 0 n lo_v) = inr lo /\ py_int (clip 0 n hi_v) = inr hi /\
    0 <= lo <= n /\ 0 <= hi <= n /\ forall i, In i l <-> lo <= i < hi.
Proof.
  intros IC Hn H.
  destruct (py_int (clip 0 n lo_v)) as [e | lo] eqn:Elo; [discriminate H |].
  destruct (py_int (clip 0 n hi_v)) as [e | hi] eqn:Ehi; [discriminate H |].
  unfold bind, ret in H; injection H as <-.
  apply (clip_int bound IC n _ _ Hn) in Elo as Blo.
  apply (clip_int bound IC n _ _ Hn) in Ehi as Bhi.
  exists lo, hi.
  split; [reflexivity |]. split; [reflexivity |].
  split; [exact Blo |]. split; [exact Bhi |].
  intros i; apply In_range.
Qed.

Lemma has_column_getitem {C : Type} (df : list (string * C)) (key : string) :
  has_column df key = true -> exists s, getitem df key = inr s.
Proof.
  unfold has_column; induction df as [| [k s0] df IH]; simpl; [discriminate |].
  rewrite (String.eqb_sym key k).
  destruct (String.eqb k key); simpl; [eexists; reflexivity | exact IH].
Qed.

Lemma has_column_setitem {C : Type} (df : list (string * C)) (key : string) (s : C) :
  has_column (setitem df key s) key = true.
Proof.
  apply (getitem_has_column _ _ s).
  rewrite getitem_setitem, String.eqb_refl; reflexivity.
Qed.

Section DataFrameFacts.

Context {A : Arith}.

Lemma setter_columns (role : ColumnRole) (self : SarracenDataFrame A)
  (new_col : option string) :
  columns (setter role self new_col) = columns self
  /\ _kernel (setter role self new_col) = _kernel self
  /\ _params (setter role self new_col) = _params self
  /\ _dustfracscol (setter role self new_col) = _dustfracscol self.
Proof.
  destruct role; cbn [setter];
    unfold set_xcol, set_ycol, set_zcol, set_hcol, set_mcol, set_rhocol,
      set_vxcol, set_vycol, set_vzcol;
    destruct (contains self new_col || is_None new_col); repeat split.
Qed.

Lemma setter_other (role role' : ColumnRole) (self : SarracenDataFrame A)
  (new_col : option string) :
  role' <> role -> getter role' (setter role self new_col) = getter role' self.
Proof.
  intros Hne; destruct role, role'; try congruence; cbn [setter getter];
    unfold set_xcol, set_ycol, set_zcol, set_hcol, set_mcol, set_rhocol,
      set_vxcol, set_vycol, set_vzcol;
    destruct (contains self new_col || is_None new_col); reflexivity.
Qed.

Lemma setter_accepts (role : ColumnRole) (self : SarracenDataFrame A)
  (new_col : option string) :
  valid_label self new_col = true -> getter role (setter role self new_col) = new_col.
Proof.
  unfold valid_label; intros H; destruct role; cbn [setter getter];
    unfold set_xcol, set_ycol, set_zcol, set_hcol, set_mcol, set_rhocol,
      set_vxcol, set_vycol, set_vzcol;
    rewrite H; reflexivity.
Qed.

Lemma setter_ignores (role : ColumnRole) (self : SarracenDataFrame A)
  (new_col : option string) :
  valid_label self new_col = false -> setter role self new_col = self.
Proof.
  unfold valid_label; intros H; destruct role; cbn [setter];
    unfold set_xcol, set_ycol, set_zcol, set_hcol, set_mcol, set_rhocol,
      set_vxcol, set_vycol, set_vzcol;
    rewrite H; reflexivity.
Qed.

Lemma valid_label_columns (self self' : SarracenDataFrame A) (label : option string) :
  columns self' = columns self -> valid_label self' label = valid_label self label.
Proof. unfold valid_label, contains; intros ->; reflexivity. Qed.

Lemma setter_valid (role : ColumnRole) (self : SarracenDataFrame A)
  (new_col : option string) :
  valid_label self (getter role self) = true ->
  valid_label (setter role self new_col) (getter role (setter role self new_col))
  = true.
Proof.
  intros H.
  rewrite (valid_label_columns self) by apply setter_columns.
  destruct (valid_label self new_col) eqn:E.
  - rewrite setter_accepts by exact E; exact E.
  - rewrite setter_ignores by exact E; exact H.
Qed.

Lemma setter_all_valid (role : ColumnRole) (self : SarracenDataFrame A)
  (new_col : option string) :
  all_valid self -> all_valid (setter role self new_col).
Proof.
  intros H role'.
  destruct (ColumnRole_eq_dec role' role) as [-> | Hne].
  - apply setter_valid, H.
  - rewrite setter_other by exact Hne.
    rewrite (valid_label_columns self) by apply setter_columns.
    apply H.
Qed.

Lemma set_kernel_cases (self : SarracenDataFrame A) (new_kernel : PyObject A) :
  (isinstance_BaseKernel new_kernel = true ->
   _kernel (set_kernel self new_kernel) = new_kernel)
  /\ (isinstance_BaseKernel new_kernel = false -> set_kernel self new_kernel = self)
  /\ (isinstance_BaseKernel (_kernel self) = true ->
      isinstance_BaseKernel (_kernel (set_kernel self new_kernel)) = true).
Proof.
  unfold set_kernel.
  destruct (isinstance_BaseKernel new_kernel) eqn:E; repeat split;
    try discriminate; auto.
Qed.

Lemma identify_special_columns_valid (self : SarracenDataFrame A) :
  all_valid self ->
  all_valid (_identify_special_columns self)
  /\ _kernel (_identify_special_columns self) = _kernel self
  /\ _params (_identify_special_columns self) = _params self
  /\ columns (_identify_special_columns self) = columns self.
Proof.
  set (Q := fun s : SarracenDataFrame A =>
              all_valid s /\ _kernel s = _kernel self
              /\ _params s = _params self /\ columns s = columns self).
  assert (Hset : forall role s c, Q s -> Q (setter role s c)).
  { intros role s c (H1 & H2 & H3 & H4).
    destruct (setter_columns role s c) as (E1 & E2 & E3 & _).
    split; [apply setter_all_valid; exact H1 |].
    rewrite E1, E2, E3; auto. }
  assert (Hx : forall s, Q s -> Q (identify_xcol s)).
  { intros s HQ; unfold identify_xcol.
    repeat match goal with
           | |- Q (if ?b then _ else _) => destruct b
           | |- Q (match ?l with [] => _ | _ :: _ => _ end) => destruct l
           end;
      try exact HQ; exact (Hset xcol _ _ HQ). }
  assert (Hy : forall s, Q s -> Q (identify_ycol s)).
  { intros s HQ; unfold identify_ycol.
    destruct (has_column (columns s) "y"); [exact (Hset ycol _ _ HQ) |].
    destruct (has_column (columns s) "ry"); [exact (Hset ycol _ _ HQ) |].
    destruct (map fst (columns s)) as [| c0 [| c1 l]];
      try exact HQ; exact (Hset ycol _ _ HQ). }
  assert (Hz : forall s, Q s -> Q (identify_zcol s)).
  { intros s HQ; unfold identify_zcol.
    repeat match goal with
           | |- Q (if ?b then _ else _) => destruct b
           end;
      try exact HQ; exact (Hset zcol _ _ HQ). }
  assert (Hh : forall s, Q s -> Q (identify_hcol s)).
  { intros s HQ; unfold identify_hcol.
    destruct (has_column (columns s) "h"); [exact (Hset hcol _ _ HQ) | exact HQ]. }
  assert (Hm : forall s, Q s -> Q (identify_mcol s)).
  { intros s HQ; unfold identify_mcol.
    repeat match goal with
           | |- Q (if ?b then _ else _) => destruct b
           end;
      try exact HQ; exact (Hset mcol _ _ HQ). }
  assert (Hrho : forall s, Q s -> Q (identify_rhocol s)).
  { intros s HQ; unfold identify_rhocol.
    repeat match goal with
           | |- Q (if ?b then _ else _) => destruct b
           end;
      try exact HQ; exact (Hset rhocol _ _ HQ). }
  assert (Hvx : forall s, Q s -> Q (identify_vxcol s)).
  { intros s HQ; unfold identify_vxcol.
    destruct (has_column (columns s) "vx"); [exact (Hset vxcol _ _ HQ) | exact HQ]. }
  assert (Hvy : forall s, Q s -> Q (identify_vycol s)).
  { intros s HQ; unfold identify_vycol.
    destruct (has_column (columns s) "vy"); [exact (Hset vycol _ _ HQ) | exact HQ]. }
  assert (Hvz : forall s, Q s -> Q (identify_vzcol s)).
  { intros s HQ; unfold identify_vzcol.
    destruct (has_column (columns s) "vz"); [exact (Hset vzcol _ _ HQ) | exact HQ]. }
  assert (Hd : forall s, Q s -> Q (identify_dustfracscol s)).
  { intros s (H1 & H2 & H3 & H4).
    split; [intros role; specialize (H1 role); destruct role; exact H1 |].
    repeat split; assumption. }
  intros H0.
  assert (HQ : Q self) by (unfold Q; auto).
  unfold _identify_special_columns.
  apply Hd, Hvz, Hvy, Hvx, Hrho, Hm, Hh, Hz, Hy, Hx, HQ.
Qed.

End DataFrameFacts.


Section CalcDensity.

Context {A : Arith}.
Variable self : SarracenDataFrame A.

Lemma calc_density_no_h :
  contains self (_hcol self) = false ->
  calc_density self
  = inl (KeyError "Missing smoothing length data in this SarracenDataFrame").
Proof. unfold calc_density; intros ->; reflexivity. Qed.

Lemma calc_density_params_None :
  contains self (_hcol self) = true -> _params self = None ->
  calc_density self
  = inl (TypeError "argument of type 'NoneType' is not iterable").
Proof.
  unfold calc_density, params_contains; intros -> ->; reflexivity.
Qed.

Variable d : dict A.
Hypothesis Hh : contains self (_hcol self) = true.
Hypothesis Hd : _params self = Some d.

Lemma calc_density_no_hfact :
  has_column d "hfact" = false ->
  calc_density self
  = inl (KeyError "hfact missing from params in this SarracenDataFrame.").
Proof.
  unfold calc_density, params_contains; rewrite Hh, Hd; intros ->; reflexivity.
Qed.

Lemma calc_density_no_mass :
  has_column d "hfact" = true ->
  contains self (_mcol self) = false -> has_column d "mass" = false ->
  calc_density self
  = inl (KeyError "Missing particle mass data in this SarracenDataFrame.").
Proof.
  unfold calc_density, params_contains; rewrite Hh, Hd; intros -> -> ->.
  reflexivity.
Qed.

Lemma contains_getitem (label : option string) :
  contains self label = true -> exists col, self_getitem self label = inr col.
Proof.
  destruct label as [c |]; simpl; [apply has_column_getitem | discriminate].
Qed.

Lemma calc_density_rho :
  has_column d "hfact" = true ->
  contains self (_mcol self) = true \/ has_column d "mass" = true ->
  exists mass hfact h self',
    (if contains self (_mcol self)
     then exists col, self_getitem self (_mcol self) = inr col
                      /\ mass = PerParticle col
     else exists m, getitem d "mass" = inr m /\ mass = Uniform m)
    /\ getitem d "hfact" = inr hfact
    /\ self_getitem self (_hcol self) = inr h
    /\ calc_density self = inr self'
    /\ getitem (columns self') "rho" = inr (density mass hfact h (get_dim self))
    /\ (forall key, key <> "rho" ->
        getitem (columns self') key = getitem (columns self) key)
    /\ _rhocol self' = Some "rho".
Proof.
  intros Hf Hm.
  destruct (has_column_getitem _ _ Hf) as (hfact & Ehf).
  destruct (contains_getitem _ Hh) as (h & Eh).
  assert (Hrho : forall mass,
             let self' :=
               set_rhocol
                 (with_columns self
                    (setitem (columns self) "rho"
                       (density mass hfact h (get_dim self))))
                 (Some "rho") in
             getitem (columns self') "rho"
             = inr (density mass hfact h (get_dim self))
             /\ (forall key, key <> "rho" ->
                 getitem (columns self') key = getitem (columns self) key)
             /\ _rhocol self' = Some "rho").
  { intros mass; cbv zeta; unfold set_rhocol, contains; cbn [with_columns columns].
    rewrite has_column_setitem; cbn [orb with_rhocol columns _rhocol].
    unfold with_columns; cbn [columns].
    split; [| split; [| reflexivity]].
    - rewrite getitem_setitem, String.eqb_refl; reflexivity.
    - intros key Hk; rewrite getitem_setitem.
      destruct (String.eqb "rho" key) eqn:E; [| reflexivity].
      apply String.eqb_eq in E; congruence. }
  destruct (contains self (_mcol self)) eqn:Em.
  - destruct (contains_getitem _ Em) as (col & Ecol).
    exists (PerParticle col), hfact, h; eexists.
    split; [exists col; auto |]. split; [exact Ehf |]. split; [exact Eh |].
    split; [| exact (Hrho (PerParticle col))].
    unfold calc_density, params_contains, params_getitem.
    rewrite Hh, Hd, Em; cbn [negb bind ret]. rewrite Hf; cbn [negb bind ret].
    rewrite Ecol, Ehf, Eh; reflexivity.
  - destruct Hm as [Hm | Hm]; [discriminate |].
    destruct (has_column_getitem _ _ Hm) as (m & Emass).
    exists (Uniform m), hfact, h; eexists.
    split; [exists m; auto |]. split; [exact Ehf |]. split; [exact Eh |].
    split; [| exact (Hrho (Uniform m))].
    unfold calc_density, params_contains, params_getitem.
    rewrite Hh, Hd, Em; cbn [negb bind ret]. rewrite Hf, Hm; cbn [negb bind ret].
    rewrite Emass, Ehf, Eh; reflexivity.
Qed.

End CalcDensity.

Lemma init_returns {A : Arith} (CubicSplineKernel : BaseKernel A)
  (data : Frame (num A)) :
  (exists self, init CubicSplineKernel data PyNone = inr self
                /\ _params self = Some [] /\ columns self = data)
  /\ (forall d, exists self, init CubicSplineKernel data (PyDict d) = inr self
                            /\ _params self = Some d /\ columns self = data).
Proof.
  assert (H : forall d, exists self,
               init CubicSplineKernel data (PyDict d) = inr self
               /\ _params self = Some d /\ columns self = data).
  { intros d; unfold init, set_params, ret; rewrite bind_inr_l.
    match goal with
    | |- context [_identify_special_columns ?s] =>
        destruct (identify_special_columns_valid s) as (_ & _ & Hp & Hc);
          [intros role; destruct role; reflexivity |];
          generalize dependent (_identify_special_columns s)
    end.
    intros s1 Hp Hc.
    exists (with_kernel s1 (PyKernel CubicSplineKernel)).
    split; [reflexivity |].
    split; [exact Hp | exact Hc]. }
  split; [exact (H []) | exact H].
Qed.

Lemma init_valid {A : Arith} (CubicSplineKernel : BaseKernel A)
  (data : Frame (num A)) (params : PyObject A) (self : SarracenDataFrame A) :
  init CubicSplineKernel data params = inr self ->
  all_valid self /\ isinstance_BaseKernel (_kernel self) = true.
Proof.
  unfold init; intros H.
  apply bind_inr in H; destruct H as (s0 & Hs & H).
  assert (H0 : all_valid s0).
  { unfold set_params in Hs.
    destruct (match params with PyNone => PyDict [] | _ => params end);
      try discriminate Hs; unfold ret in Hs; injection Hs as <-;
      intros role; destruct role; reflexivity. }
  clear Hs.
  destruct (identify_special_columns_valid s0 H0) as (Hv & _).
  revert H Hv; generalize (_identify_special_columns s0); intros s1 H Hv.
  unfold ret in H; injection H as <-.
  split; [| reflexivity].
  intros role; specialize (Hv role); destruct role; exact Hv.
Qed.

Lemma foldM_app {X Y : Type} (f : X -> Y -> Result X) (l1 l2 : list Y) (a : X) :
  foldM f (l1 ++ l2) a = (a' <- foldM f l1 a ;; foldM f l2 a').
Proof.
  revert a; induction l1 as [| b l1 IH]; simpl; intros a; [reflexivity |].
  destruct (f a b) as [e | a']; simpl; [reflexivity | apply IH].
Qed.

Lemma range_empty (lo hi : Z) : hi <= lo -> range lo hi = [].
Proof.
  intros H; unfold range.
  replace (Z.to_nat (hi - lo)) with O by lia; reflexivity.
Qed.

(** A row whose two ranges are empty leaves the image as it is and raises
    nothing. *)
Lemma process_part_empty {A : Arith} (kernel : BaseKernel A)
  (pixwidthx pixwidthy xmin ymin : num A) (pixcountx : Z)
  (image : list (list (num A))) (part : Part A) (ilo ihi jlo jhi : Z) :
  py_int (part_ipixmin part) = inr ilo -> py_int (part_ipixmax part) = inr ihi ->
  py_int (part_jpixmin part) = inr jlo -> py_int (part_jpixmax part) = inr jhi ->
  ihi <= ilo -> jhi <= jlo ->
  process_part kernel pixwidthx pixwidthy xmin ymin pixcountx image part
  = inr image.
Proof.
  intros E1 E2 E3 E4 Hi Hj.
  unfold process_part, precompute_dx2i, ipix_range, jpix_range.
  rewrite E1, E2, E3, E4; cbv zeta; unfold ret; rewrite !bind_inr_l.
  rewrite (range_empty _ _ Hi), (range_empty _ _ Hj); reflexivity.
Qed.

Section NonPositiveH.

Context {A : Arith}.
Variable bound : Z.
Hypothesis IC : IntConv A bound.
Hypothesis ML : MonoLaws A.
Variable kernel : BaseKernel A.
Hypothesis Hrad : leb (of_int 0) (radkernel kernel) = true.

(** With h <= 0 the upper bound of a particle is not above the lower one. *)
Lemma pixel_index_nonpos_h (center h origin cell_width : num A)
  (pixel_count lo hi : Z) :
  leb h (of_int 0) = true -> leb cell_width (of_int 0) = false ->
  0 <= pixel_count ->
  py_int (pixel_index_min kernel center h origin cell_width pixel_count) = inr lo ->
  py_int (pixel_index_max kernel center h origin cell_width pixel_count) = inr hi ->
  hi <= lo.
Proof.
  intros Hh Hw Hn Elo Ehi.
  apply (int_mono A bound IC _ _ lo hi) with (3 := Ehi) (2 := Elo).
  unfold pixel_index_min, pixel_index_max.
  apply (clip_mono A ML); [exact Hn |].
  apply (rint_mono A ML), (div_mono A ML); [exact Hw |].
  apply (sub_mono A ML), (sub_add_nonpos A ML), (mul_nonpos A ML);
    assumption.
Qed.

End NonPositiveH.

Lemma foldM_ext_in {X Y : Type} (f g : X -> Y -> Result X) (l : list Y) (a : X) :
  (forall a' b, In b l -> f a' b = g a' b) -> foldM f l a = foldM g l a.
Proof.
  revert a; induction l as [| b l IH]; simpl; intros a H; [reflexivity |].
  rewrite (H a b) by auto.
  destruct (g a b) as [e | a']; simpl; [reflexivity |].
  apply IH; intros; apply H; auto.
Qed.

Lemma foldM_map {X Y V : Type} (f : X -> Y -> Result X) (g : V -> Y)
  (l : list V) (a : X) :
  foldM f (map g l) a = foldM (fun a' v => f a' (g v)) l a.
Proof.
  revert a; induction l as [| b l IH]; simpl; intros a; [reflexivity |].
  destruct (f a (g b)); simpl; auto.
Qed.

Section Translation.

Context {A : Arith}.
Variable bound : Z.
Hypothesis IC : IntConv A bound.
Variable kernel : BaseKernel A.
Variables pixwidthx pixwidthy xmin ymin xmin' ymin' : num A.
Variables pixcountx pixcounty : Z.
Hypothesis Hnx : 0 <= pixcountx <= bound.
Hypothesis Hny : 0 <= pixcounty <= bound.

(** Two rows with the same h, term and bounds, at the same distances from the
    centres of the cells of their two grids, are processed alike. *)
Lemma process_part_same_offsets (image : list (list (num A))) (p p' : Part A) :
  clipped pixcountx pixcounty p ->
  part_h p' = part_h p -> part_term p' = part_term p ->
  part_ipixmin p' = part_ipixmin p -> part_ipixmax p' = part_ipixmax p ->
  part_jpixmin p' = part_jpixmin p -> part_jpixmax p' = part_jpixmax p ->
  (forall i, 0 <= i < pixcountx ->
     offset xmin' pixwidthx (part_x p') i = offset xmin pixwidthx (part_x p) i) ->
  (forall j, 0 <= j < pixcounty ->
     offset ymin' pixwidthy (part_y p') j = offset ymin pixwidthy (part_y p) j) ->
  process_part kernel pixwidthx pixwidthy xmin' ymin' pixcountx image p'
  = process_part kernel pixwidthx pixwidthy xmin ymin pixcountx image p.
Proof.
  intros Hc Eh Et E1 E2 E3 E4 Hx Hy.
  assert (Ei : ipix_range p' = ipix_range p)
    by (unfold ipix_range; rewrite E1, E2; reflexivity).
  assert (Ej : jpix_range p' = jpix_range p)
    by (unfold jpix_range; rewrite E3, E4; reflexivity).
  assert (Ed : precompute_dx2i pixwidthx xmin' pixcountx p'
               = precompute_dx2i pixwidthx xmin pixcountx p).
  { unfold precompute_dx2i; rewrite Ei.
    destruct (ipix_range p) as [e | ipixs] eqn:Er; [reflexivity |].
    rewrite !bind_inr_l; apply foldM_ext_in; intros dx2i i Hi.
    pose proof (ipix_range_in bound IC _ _ Hnx _ _ Hc Er) as Hin.
    rewrite Forall_forall in Hin; specialize (Hin _ Hi).
    pose proof (Hx i Hin) as Ho; unfold offset in Ho.
    rewrite Ho, Eh; reflexivity. }
  unfold process_part; rewrite Ed, Ej, Ei.
  destruct (precompute_dx2i pixwidthx xmin pixcountx p) as [e | dx2i];
    [reflexivity |].
  destruct (jpix_range p) as [e | jpixs] eqn:Er; [reflexivity |].
  rewrite !bind_inr_l; apply foldM_ext_in; intros im j Hjn.
  pose proof (jpix_range_in bound IC _ _ Hny _ _ Hc Er) as Hin.
  rewrite Forall_forall in Hin; specialize (Hin _ Hjn).
  pose proof (Hy j Hin) as Ho; unfold offset in Ho.
  cbv zeta; rewrite Ho, Eh, Et; reflexivity.
Qed.

End Translation.

Lemma retained_translate {A : Arith} (tx ty : num A) (r : Particle A) :
  retained (translate tx ty r) = retained r.
Proof. reflexivity. Qed.

Lemma filter_map_same {X : Type} (f : X -> bool) (g : X -> X) (l : list X) :
  (forall a, f (g a) = f a) -> filter f (map g l) = map g (filter f l).
Proof.
  intros H; induction l as [| a l IH]; simpl; [reflexivity |].
  rewrite H; destruct (f a); simpl; rewrite IH; reflexivity.
Qed.

Lemma part_of_clipped {A : Arith} (kernel : BaseKernel A)
  (pixwidthx pixwidthy xmin ymin : num A) (pixcountx pixcounty : Z)
  (cx cy : Particle A -> num A) (r : Particle A) :
  clipped pixcountx pixcounty
    (part_of kernel pixwidthx pixwidthy xmin ymin pixcountx pixcounty cx cy r).
Proof. repeat split; eexists; reflexivity. Qed.

Module B64AddLaws.

Import B64Laws.

Lemma shr_1_m (mrs : shr_record) :
  0 <= shr_m mrs -> shr_m (shr_1 mrs) = shr_m mrs / 2.
Proof.
  destruct mrs as [m r s]; cbn [shr_m]; intros Hm.
  destruct m as [| [p | p |] | p]; cbn [shr_1 shr_m]; try lia.
  - reflexivity.
  - rewrite Pos2Z.inj_xI.
    replace (2 * Z.pos p + 1) with (1 + Z.pos p * 2) by lia.
    rewrite Z.div_add by lia. reflexivity.
  - rewrite Pos2Z.inj_xO, Z.mul_comm, Z.div_mul by lia; reflexivity.
  - reflexivity.
Qed.

Lemma pow2_xO (p : positive) : 2 ^ Z.pos p~0 = 2 ^ Z.pos p * 2 ^ Z.pos p.
Proof.
  rewrite <- Z.pow_add_r by lia; f_equal; lia.
Qed.

Lemma pow2_xI (p : positive) : 2 ^ Z.pos p~1 = 2 * (2 ^ Z.pos p * 2 ^ Z.pos p).
Proof.
  rewrite <- Z.pow_add_r by lia.
  replace (Z.pos p~1) with (Z.succ (Z.pos p + Z.pos p)) by lia.
  apply Z.pow_succ_r; lia.
Qed.

Lemma iter_pos_shr_1_m (p : positive) (mrs : shr_record) :
  0 <= shr_m mrs ->
  shr_m (iter_pos shr_1 p mrs) = shr_m mrs / 2 ^ Z.pos p.
Proof.
  revert mrs; induction p as [p IH | p IH |]; intros mrs Hm; cbn [iter_pos].
  - assert (Hp : 0 < 2 ^ Z.pos p) by (apply Z.pow_pos_nonneg; lia).
    assert (H1 : 0 <= shr_m (shr_1 mrs))
      by (rewrite shr_1_m by assumption; apply Z.div_pos; lia).
    assert (H2 : 0 <= shr_m (iter_pos shr_1 p (shr_1 mrs)))
      by (rewrite IH by assumption; apply Z.div_pos; lia).
    rewrite IH, IH, shr_1_m by assumption.
    rewrite !Z.div_div by lia.
    rewrite pow2_xI; f_equal; lia.
  - assert (Hp : 0 < 2 ^ Z.pos p) by (apply Z.pow_pos_nonneg; lia).
    assert (H2 : 0 <= shr_m (iter_pos shr_1 p mrs))
      by (rewrite IH by assumption; apply Z.div_pos; lia).
    rewrite IH, IH by assumption.
    rewrite !Z.div_div by lia.
    rewrite pow2_xO; reflexivity.
  - rewrite shr_1_m by assumption; reflexivity.
Qed.

(** Shifting a positive mantissa to its place leaves it positive. *)
Lemma shr_fexp_pos (m : positive) (e : Z) (l : location) :
  -1074 <= e ->
  0 < shr_m (fst (shr_fexp prec emax (Z.pos m) e l))
  /\ -1074 <= snd (shr_fexp prec emax (Z.pos m) e l).
Proof.
  intros He; unfold shr_fexp, shr.
  assert (Hrec : shr_m (shr_record_of_loc (Z.pos m) l) = Z.pos m)
    by (destruct l as [| []]; reflexivity).
  destruct (fexp prec emax (Zdigits2 (Z.pos m) + e) - e) as [| p | p] eqn:En;
    cbn [fst snd]; try (rewrite Hrec; lia).
  rewrite iter_pos_shr_1_m by (rewrite Hrec; lia); rewrite Hrec.
  unfold fexp, SpecFloat.emin, prec, emax, Zdigits2 in En.
  assert (Hp : Z.pos p = Z.pos (digits2_pos m) - 53) by lia.
  pose proof (digits2_pos_bounds m) as (Hlo & _).
  split; [| lia].
  apply Z.div_str_pos; split; [apply Z.pow_pos_nonneg; lia |].
  assert (2 ^ Z.pos p <= 2 ^ (Z.pos (digits2_pos m) - 1))
    by (apply Z.pow_le_mono_r; lia).
  lia.
Qed.

Lemma round_nearest_even_pos (m : Z) (l : location) :
  0 < m -> 0 < round_nearest_even m l.
Proof.
  intros H; destruct l as [| []]; cbn [round_nearest_even]; try lia.
  destruct (Z.even m); lia.
Qed.

(** Rounding a nonzero mantissa never gives a zero. *)
Lemma binary_round_aux_nonzero (sx : bool) (m : positive) (e : Z) (l : location)
  (s : bool) :
  -1074 <= e -> binary_round_aux prec emax sx (Z.pos m) e l <> S754_zero s.
Proof.
  intros He; unfold binary_round_aux.
  pose proof (shr_fexp_pos m e l He) as (H1 & H2).
  destruct (shr_fexp prec emax (Z.pos m) e l) as [mrs' e']; cbn [fst snd] in H1, H2.
  pose proof (round_nearest_even_pos _ (loc_of_shr_record mrs') H1) as H3.
  destruct (round_nearest_even (shr_m mrs') (loc_of_shr_record mrs'))
    as [| m' | m']; try lia.
  pose proof (shr_fexp_pos m' e' loc_Exact H2) as (H4 & _).
  destruct (shr_fexp prec emax (Z.pos m') e' loc_Exact) as [mrs'' e''];
    cbn [fst] in H4.
  destruct (shr_m mrs'') as [| m'' | m'']; try lia.
  destruct (e'' <=? emax - prec); discriminate.
Qed.

Lemma binary_round_nonzero (sx : bool) (m : positive) (e : Z) (s : bool) :
  -1074 <= e -> binary_round prec emax sx m e <> S754_zero s.
Proof.
  intros He; unfold binary_round, shl_align.
  destruct (fexp prec emax (Z.pos (digits2_pos m) + e) - e) as [| p | p] eqn:En;
    try (apply binary_round_aux_nonzero; exact He).
  apply binary_round_aux_nonzero.
  unfold fexp, SpecFloat.emin, prec, emax; lia.
Qed.

Lemma binary_normalize_negzero (m e : Z) :
  -1074 <= e -> binary_normalize prec emax m e false <> S754_zero true.
Proof.
  intros He; destruct m as [| p | p]; cbn [binary_normalize];
    [discriminate | apply binary_round_nonzero; exact He
     | apply binary_round_nonzero; exact He].
Qed.

Lemma valid_exponent (s : bool) (m : positive) (e : Z) :
  valid_binary (S754_finite s m e) = true -> -1074 <= e.
Proof. intros H; apply bounded_digits in H; lia. Qed.

(** A sum is -0.0 only when both terms are. *)
Lemma SFadd_negzero (x y : spec_float) :
  valid_binary x = true -> valid_binary y = true ->
  SFadd prec emax x y = S754_zero true ->
  x = S754_zero true /\ y = S754_zero true.
Proof.
  intros Vx Vy.
  destruct x as [[|] | [|] | | sx mx ex], y as [[|] | [|] | | sy my ey];
    cbn [SFadd]; try discriminate; auto.
  intros H; exfalso; revert H; apply binary_normalize_negzero.
  apply valid_exponent in Vx, Vy; lia.
Qed.

Lemma SFadd_zero_r (x : spec_float) :
  x <> S754_zero true -> SFadd prec emax x (S754_zero false) = x.
Proof.
  destruct x as [[|] | [|] | | sx mx ex]; cbn [SFadd]; congruence.
Qed.

Lemma Prim2SF_zero : Prim2SF (B64.of_int 0) = S754_zero false.
Proof. reflexivity. Qed.

Lemma absorbs_zero_iff (a : float) :
  @absorbs_zero binary64 a <-> Prim2SF a <> S754_zero true.
Proof.
  unfold absorbs_zero; cbn [add of_int binary64]; split.
  - intros H E; apply (f_equal Prim2SF) in H.
    rewrite add_spec, Prim2SF_zero, E in H; discriminate H.
  - intros H; apply Prim2SF_inj.
    rewrite add_spec, Prim2SF_zero; apply SFadd_zero_r; exact H.
Qed.

Lemma binary64_add_laws : AddLaws binary64.
Proof.
  constructor.
  - apply absorbs_zero_iff; cbn [of_int binary64]; rewrite Prim2SF_zero.
    discriminate.
  - intros a c Ha; apply absorbs_zero_iff in Ha; apply absorbs_zero_iff.
    cbn [add binary64]; rewrite add_spec; intros E.
    apply SFadd_negzero in E; try apply Prim2SF_valid.
    destruct E as (E & _); auto.
  - intros a c Ha; apply absorbs_zero_iff in Ha.
    cbn [add of_int binary64]; apply Prim2SF_inj.
    rewrite !add_spec, Prim2SF_zero.
    destruct (Prim2SF a) as [[|] | [|] | | sa ma ea],
      (Prim2SF c) as [[|] | [|] | | sc mc ec];
      unfold SF64add; cbn [SFadd]; congruence.
Qed.

End B64AddLaws.

Lemma zip_with_length {X Y V : Type} (f : X -> Y -> V) (l1 : list X) (l2 : list Y) :
  List.length (zip_with f l1 l2) = Nat.min (List.length l1) (List.length l2).
Proof.
  revert l2; induction l1 as [| a l1 IH]; intros [| b l2]; simpl; auto.
Qed.

Lemma nth_zip_with {X Y V : Type} (f : X -> Y -> V) (l1 : list X) (l2 : list Y)
  (k : nat) (d : V) (d1 : X) (d2 : Y) :
  (k < List.length l1)%nat -> (k < List.length l2)%nat ->
  nth k (zip_with f l1 l2) d = f (nth k l1 d1) (nth k l2 d2).
Proof.
  revert l2 k; induction l1 as [| a l1 IH]; intros [| b l2] [| k]; simpl;
    intros H1 H2; try lia; [reflexivity | apply IH; lia].
Qed.

Lemma nth_repeat_lt {X : Type} (a d : X) (m k : nat) :
  (k < m)%nat -> nth k (repeat a m) d = a.
Proof.
  revert k; induction m as [| m IH]; intros [| k] H; simpl; try lia;
    [reflexivity | apply IH; lia].
Qed.

Lemma mapM_Forall2_ext {X Y V : Type} (f : X -> Result V) (g : Y -> Result V)
  (l : list X) (l' : list Y) :
  Forall2 (fun a b => f a = g b) l l' -> mapM f l = mapM g l'.
Proof.
  induction 1 as [| a b l l' H _ IH]; simpl; [reflexivity |].
  rewrite H, IH; reflexivity.
Qed.

Section Additive.

Context {A : Arith}.
Variable bound : Z.
Hypothesis IC : IntConv A bound.
Hypothesis AL : AddLaws A.
Variable kernel : BaseKernel A.
Variables pixwidthx pixwidthy xmin ymin : num A.
Variables pixcountx pixcounty : Z.
Hypothesis Hnx : 0 <= pixcountx <= bound.
Hypothesis Hny : 0 <= pixcounty <= bound.

Local Abbreviation zero := (of_int 0 : num A).
Local Abbreviation zeros := (@np_zeros2 A pixcounty pixcountx).
Local Abbreviation clipped := (@clipped A pixcountx pixcounty).
Local Abbreviation image_shape := (@image_shape A pixcountx pixcounty).
Local Abbreviation contribution :=
  (@contribution A kernel pixwidthx pixwidthy xmin ymin).
Local Abbreviation accumulate_part :=
  (@accumulate_part A kernel pixwidthx pixwidthy xmin ymin).
Local Abbreviation part_cells := (@part_cells A pixwidthx xmin).
Local Abbreviation process_part :=
  (@process_part A kernel pixwidthx pixwidthy xmin ymin pixcountx).

Local Abbreviation image_nz := (@image_nz A pixcountx pixcounty).
Local Abbreviation single_grid := (@single_grid A pixcountx pixcounty).
Local Abbreviation alone :=
  (@single A kernel pixwidthx pixwidthy xmin ymin pixcountx pixcounty).

Lemma image_sum_shape (a b : list (list (num A))) :
  image_shape a -> image_shape b -> image_shape (image_sum a b).
Proof.
  intros (La & Ra) (Lb & Rb); unfold image_sum; split.
  - rewrite zip_with_length, La, Lb; apply Nat.min_id.
  - apply Forall_forall; intros row Hrow.
    apply In_zip_with in Hrow; destruct Hrow as (ra & rb & Ha & Hb & ->).
    rewrite Forall_forall in Ra, Rb.
    rewrite zip_with_length, (Ra _ Ha), (Rb _ Hb); apply Nat.min_id.
Qed.

Lemma cell_image_sum (a b : list (list (num A))) (j i : Z) :
  image_shape a -> image_shape b -> 0 <= j < pixcounty -> 0 <= i < pixcountx ->
  cell (image_sum a b) j i = add (cell a j i) (cell b j i).
Proof.
  intros Sa Sb Hj Hi; unfold cell, image_sum.
  pose proof (image_row_length _ _ _ _ Sa Hj) as Ra.
  pose proof (image_row_length _ _ _ _ Sb Hj) as Rb.
  destruct Sa as (La & _), Sb as (Lb & _).
  rewrite (nth_zip_with _ _ _ _ _ [] []) by lia.
  apply nth_zip_with; lia.
Qed.

Lemma image_ext (a b : list (list (num A))) :
  image_shape a -> image_shape b ->
  (forall j i, 0 <= j < pixcounty -> 0 <= i < pixcountx ->
     cell a j i = cell b j i) ->
  a = b.
Proof.
  intros Sa Sb H.
  apply (nth_ext _ _ [] []); [destruct Sa, Sb; congruence |].
  intros n Hn.
  assert (Hj : 0 <= Z.of_nat n < pixcounty) by (destruct Sa; lia).
  pose proof (image_row_length _ _ _ _ Sa Hj) as Ra.
  pose proof (image_row_length _ _ _ _ Sb Hj) as Rb.
  rewrite Nat2Z.id in Ra, Rb.
  apply (nth_ext _ _ zero zero); [congruence |].
  intros k Hk.
  assert (Hi : 0 <= Z.of_nat k < pixcountx) by lia.
  specialize (H _ _ Hj Hi); unfold cell in H.
  rewrite !Nat2Z.id in H; exact H.
Qed.

Lemma cell_zeros (j i : Z) :
  0 <= j < pixcounty -> 0 <= i < pixcountx -> cell zeros j i = zero.
Proof.
  intros Hj Hi; unfold cell, np_zeros2, np_zeros.
  rewrite nth_repeat_lt by lia. apply nth_repeat_lt; lia.
Qed.

Lemma to_nat_eqb (a b : Z) :
  0 <= a -> 0 <= b -> Nat.eqb (Z.to_nat a) (Z.to_nat b) = (a =? b).
Proof.
  intros Ha Hb; destruct (Z.eqb_spec a b) as [-> | Hne].
  - apply Nat.eqb_refl.
  - apply Nat.eqb_neq; lia.
Qed.

Lemma cell_image_add (image : list (list (num A))) (j i j' i' : Z) (v : num A) :
  image_shape image -> 0 <= j < pixcounty -> 0 <= i < pixcountx ->
  0 <= j' -> 0 <= i' ->
  cell (image_add image j i v) j' i'
  = if (j' =? j) && (i' =? i) then add (cell image j i) v else cell image j' i'.
Proof.
  intros Hs Hj Hi Hj' Hi'.
  pose proof (image_row_length _ _ _ _ Hs Hj) as Hrow.
  destruct Hs as (Hlen & _); unfold cell, image_add.
  rewrite nth_list_set by lia.
  rewrite to_nat_eqb by lia.
  destruct (j' =? j) eqn:Ej; cbn [andb]; [| reflexivity].
  rewrite nth_list_set by lia.
  rewrite to_nat_eqb by lia.
  apply Z.eqb_eq in Ej; subst j'.
  destruct (i' =? i); reflexivity.
Qed.

(** The cells of an image after the inner loop of a row. *)
Lemma fold_row_cells (c : Z -> num A) (j : Z) (ipixs : list Z)
  (image : list (list (num A))) :
  image_shape image -> 0 <= j < pixcounty ->
  Forall (fun i => 0 <= i < pixcountx) ipixs -> NoDup ipixs ->
  forall j' i', 0 <= j' -> 0 <= i' ->
    cell (fold_left (fun im i => image_add im j i (c i)) ipixs image) j' i'
    = if (j' =? j) && existsb (Z.eqb i') ipixs
      then add (cell image j' i') (c i')
      else cell image j' i'.
Proof.
  intros Hs Hj Hin Hnd; revert image Hs.
  induction ipixs as [| i0 rest IH]; intros image Hs j' i' Hj' Hi'.
  - cbn [fold_left existsb]; rewrite andb_false_r; reflexivity.
  - inversion Hin as [| ? ? Hi0 Hrest]; subst.
    inversion Hnd as [| ? ? Hnot Hnd']; subst.
    cbn [fold_left existsb].
    rewrite (IH Hrest Hnd' _ (image_add_shape _ _ _ _ _ _ Hs Hj) j' i' Hj' Hi').
    rewrite !cell_image_add by (try assumption; lia).
    destruct (j' =? j) eqn:Ej; cbn [andb]; [| reflexivity].
    apply Z.eqb_eq in Ej; subst j'.
    destruct (Z.eqb_spec i' i0) as [-> | Hne]; cbn [orb].
    + replace (existsb (Z.eqb i0) rest) with false; [reflexivity |].
      symmetry; apply not_true_is_false; intros He.
      apply existsb_exists in He; destruct He as (k & Hk & Ek).
      apply Z.eqb_eq in Ek; subst k; contradiction.
    + reflexivity.
Qed.

Lemma fold_row_shape (c : Z -> num A) (j : Z) (ipixs : list Z)
  (image : list (list (num A))) :
  image_shape image -> 0 <= j < pixcounty ->
  image_shape (fold_left (fun im i => image_add im j i (c i)) ipixs image).
Proof.
  intros Hs Hj; revert image Hs; induction ipixs as [| i0 rest IH];
    intros image Hs; cbn [fold_left]; [exact Hs |].
  apply IH, image_add_shape; assumption.
Qed.

(** The cells of an image after a particle's turn: the cells of its two
    ranges have received its contribution, the others are as they were. *)
Lemma accumulate_part_cell (part : Part A) (jpixs ipixs : list Z)
  (image : list (list (num A))) :
  image_shape image ->
  Forall (fun j => 0 <= j < pixcounty) jpixs -> NoDup jpixs ->
  Forall (fun i => 0 <= i < pixcountx) ipixs -> NoDup ipixs ->
  image_shape (accumulate_part image (part, (jpixs, ipixs)))
  /\ forall j' i', 0 <= j' -> 0 <= i' ->
       cell (accumulate_part image (part, (jpixs, ipixs))) j' i'
       = if covers jpixs ipixs j' i'
         then add (cell image j' i') (contribution part j' i')
         else cell image j' i'.
Proof.
  intros Hs Hjn Hjd Hin Hid; unfold accumulate_part, covers;
    cbn [fst snd].
  revert image Hs; induction jpixs as [| j0 rest IH]; intros image Hs.
  - split; [exact Hs | reflexivity].
  - inversion Hjn as [| ? ? Hj0 Hrest]; subst.
    inversion Hjd as [| ? ? Hnot Hjd']; subst.
    cbn [fold_left existsb].
    pose proof (fold_row_shape (contribution part j0) j0 ipixs image Hs Hj0)
      as Hs1.
    destruct (IH Hrest Hjd' _ Hs1) as (Hs2 & Hc).
    split; [exact Hs2 |].
    intros j' i' Hj' Hi'.
    rewrite (Hc j' i' Hj' Hi').
    rewrite !(fold_row_cells (contribution part j0) j0 ipixs image Hs Hj0 Hin
                Hid j' i' Hj' Hi').
    destruct (Z.eqb_spec j' j0) as [-> | Hne]; cbn [orb andb].
    + replace (existsb (Z.eqb j0) rest) with false; [reflexivity |].
      symmetry; apply not_true_is_false; intros He.
      apply existsb_exists in He; destruct He as (k & Hk & Ek).
      apply Z.eqb_eq in Ek; subst k; contradiction.
    + reflexivity.
Qed.

(** Accumulating into an image is adding the particle's own grid to it. *)
Lemma accumulate_part_sum (part : Part A) (jpixs ipixs : list Z)
  (image : list (list (num A))) :
  image_shape image -> image_nz image ->
  Forall (fun j => 0 <= j < pixcounty) jpixs -> NoDup jpixs ->
  Forall (fun i => 0 <= i < pixcountx) ipixs -> NoDup ipixs ->
  accumulate_part image (part, (jpixs, ipixs))
  = image_sum image (accumulate_part zeros (part, (jpixs, ipixs)))
  /\ image_nz (accumulate_part image (part, (jpixs, ipixs))).
Proof.
  intros Hs Hz Hjn Hjd Hin Hid.
  destruct (accumulate_part_cell part jpixs ipixs image Hs Hjn Hjd Hin Hid)
    as (Hs1 & Hc1).
  destruct (accumulate_part_cell part jpixs ipixs zeros
              (np_zeros2_shape _ _) Hjn Hjd Hin Hid) as (Hs0 & Hc0).
  split.
  - apply image_ext; [exact Hs1 | apply image_sum_shape; assumption |].
    intros j i Hj Hi.
    rewrite cell_image_sum by assumption.
    rewrite Hc1, Hc0 by lia.
    rewrite cell_zeros by assumption.
    destruct (covers jpixs ipixs j i).
    + symmetry; apply (add_zero_inner A AL), Hz; assumption.
    + symmetry; apply Hz; assumption.
  - intros j i Hj Hi; rewrite Hc1 by lia.
    destruct (covers jpixs ipixs j i).
    + apply (add_keeps A AL), Hz; assumption.
    + apply Hz; assumption.
Qed.

Lemma zeros_nz : image_nz zeros.
Proof.
  intros j i Hj Hi; rewrite cell_zeros by assumption.
  apply (add_zero_zero A AL).
Qed.

Lemma image_sum_zeros (image : list (list (num A))) :
  image_shape image -> image_nz image -> image_sum image zeros = image.
Proof.
  intros Hs Hz; apply image_ext;
    [apply image_sum_shape; [exact Hs | apply np_zeros2_shape] | exact Hs |].
  intros j i Hj Hi.
  rewrite cell_image_sum by (try assumption; apply np_zeros2_shape).
  rewrite cell_zeros by assumption; apply Hz; assumption.
Qed.

(** The ranges of a clipped row are within the grid and without repeats. *)
Lemma part_cells_ranges (part : Part A) (jpixs ipixs : list Z) :
  clipped part -> part_cells part = inr (jpixs, ipixs) ->
  jpix_range part = inr jpixs /\ ipix_range part = inr ipixs
  /\ Forall (fun j => 0 <= j < pixcounty) jpixs /\ NoDup jpixs
  /\ Forall (fun i => 0 <= i < pixcountx) ipixs /\ NoDup ipixs.
Proof.
  intros Hc H; unfold part_cells in H.
  destruct (ipix_range part) as [e | ips] eqn:Ei; [discriminate H |].
  rewrite bind_inr_l in H.
  destruct (mapM _ ips) as [e | us]; [discriminate H |].
  rewrite bind_inr_l in H.
  destruct (jpix_range part) as [e | jps] eqn:Ej; [discriminate H |].
  rewrite bind_inr_l in H.
  destruct (mapM _ jps) as [e | vs]; [discriminate H |].
  rewrite bind_inr_l in H; unfold ret in H; injection H as <- <-.
  pose proof (ipix_range_in bound IC _ _ Hnx _ _ Hc Ei) as Hi.
  pose proof (jpix_range_in bound IC _ _ Hny _ _ Hc Ej) as Hj.
  unfold ipix_range in Ei; unfold jpix_range in Ej.
  destruct (py_int (part_ipixmin part)); [discriminate Ei |].
  destruct (py_int (part_ipixmax part)); [discriminate Ei |].
  destruct (py_int (part_jpixmin part)); [discriminate Ej |].
  destruct (py_int (part_jpixmax part)); [discriminate Ej |].
  rewrite !bind_inr_l in Ei, Ej; unfold ret in Ei, Ej.
  injection Ei as <-; injection Ej as <-.
  repeat split; auto using NoDup_range.
Qed.

(** One particle's turn, on any image and on a fresh one. *)
Lemma process_part_sum (part : Part A) (image image' : list (list (num A))) :
  clipped part -> image_shape image -> image_nz image ->
  process_part image part = inr image' ->
  exists g,
    process_part zeros part = inr g
    /\ image' = image_sum image g
    /\ image_shape image' /\ image_nz image'
    /\ exists jpixs ipixs,
         jpix_range part = inr jpixs /\ ipix_range part = inr ipixs
         /\ forall j i, 0 <= j < pixcounty -> 0 <= i < pixcountx ->
              cell g j i
              = if covers jpixs ipixs j i
                then add zero (contribution part j i)
                else zero.
Proof.
  intros Hc Hs Hz H.
  destruct (process_part_cells bound IC kernel pixwidthx pixwidthy xmin ymin
              pixcountx pixcounty Hnx Hny image part Hc Hs) as (E & Hs').
  destruct (process_part_cells bound IC kernel pixwidthx pixwidthy xmin ymin
              pixcountx pixcounty Hnx Hny zeros part Hc (np_zeros2_shape _ _))
    as (E0 & _).
  rewrite E in H.
  destruct (part_cells part) as [e | [jpixs ipixs]] eqn:Ec; [discriminate H |].
  rewrite bind_inr_l in H; unfold ret in H; injection H as <-.
  destruct (part_cells_ranges part jpixs ipixs Hc Ec)
    as (Ej & Ei & Hjn & Hjd & Hin & Hid).
  destruct (accumulate_part_sum part jpixs ipixs image Hs Hz Hjn Hjd Hin Hid)
    as (Esum & Hz').
  destruct (accumulate_part_cell part jpixs ipixs zeros (np_zeros2_shape _ _)
              Hjn Hjd Hin Hid) as (_ & Hc0).
  exists (accumulate_part zeros (part, (jpixs, ipixs))).
  split; [rewrite E0, bind_inr_l; reflexivity |].
  split; [exact Esum |].
  split; [apply Hs'; reflexivity |].
  split; [exact Hz' |].
  exists jpixs, ipixs; split; [exact Ej |]. split; [exact Ei |].
  intros j i Hj Hi; rewrite Hc0 by lia.
  rewrite cell_zeros by assumption; reflexivity.
Qed.

Lemma zeros_single_grid : single_grid zeros.
Proof.
  split; [apply np_zeros2_shape |].
  intros j i Hj Hi; rewrite cell_zeros by assumption.
  split; apply (add_zero_zero A AL).
Qed.

Lemma process_part_single_grid (part : Part A) (g : list (list (num A))) :
  clipped part -> process_part zeros part = inr g -> single_grid g.
Proof.
  intros Hc H.
  destruct (process_part_sum part zeros g Hc (np_zeros2_shape _ _) zeros_nz H)
    as (g' & Eg & _ & Hs & _ & jpixs & ipixs & _ & _ & Hcell).
  rewrite H in Eg; injection Eg as <-.
  split; [exact Hs |].
  intros j i Hj Hi; rewrite (Hcell j i Hj Hi).
  destruct (covers jpixs ipixs j i).
  - split; [apply (add_zero_inner A AL) | apply (add_keeps A AL)];
      apply (add_zero_zero A AL).
  - split; apply (add_zero_zero A AL).
Qed.

(** The loop over the retained particles of [rows], from any image, against
    the grids of the particles taken one at a time. *)
Lemma foldM_additive (cx cy : Particle A -> num A) (rows : list (Particle A)) :
  forall image image',
    image_shape image -> image_nz image ->
    foldM process_part
      (map (part_of kernel pixwidthx pixwidthy xmin ymin pixcountx pixcounty
              cx cy)
         (filter retained rows))
      image
    = inr image' ->
    exists images,
      mapM (alone cx cy) rows = inr images
      /\ image' = fold_left image_sum images image
      /\ Forall single_grid images.
Proof.
  induction rows as [| r rows IH]; intros image image' Hs Hz H.
  - cbn [filter map foldM] in H; unfold ret in H; injection H as <-.
    exists []; repeat split; constructor.
  - cbn [filter] in H; cbn [mapM].
    assert (Esingle : alone cx cy r
                      = if retained r
                        then process_part zeros
                               (part_of kernel pixwidthx pixwidthy xmin ymin
                                  pixcountx pixcounty cx cy r)
                        else inr zeros).
    { unfold single; cbn [filter]; destruct (retained r); cbn [map foldM];
        [| reflexivity].
      destruct (process_part zeros _); reflexivity. }
    rewrite Esingle; clear Esingle.
    destruct (retained r) eqn:Er.
    + cbn [map foldM] in H.
      destruct (process_part image _) as [e | image1] eqn:E1; [discriminate H |].
      rewrite bind_inr_l in H.
      destruct (process_part_sum _ image image1
                  (part_of_clipped _ _ _ _ _ _ _ _ _ r) Hs Hz E1)
        as (g & Eg & -> & Hs1 & Hz1 & _).
      destruct (IH _ _ Hs1 Hz1 H) as (images & Em & -> & Hsh).
      exists (g :: images).
      rewrite Eg, Em, !bind_inr_l.
      split; [reflexivity |]. split; [reflexivity |].
      constructor; [| exact Hsh].
      apply (process_part_single_grid _ _ (part_of_clipped _ _ _ _ _ _ _ _ _ r) Eg).
    + destruct (IH _ _ Hs Hz H) as (images & Em & -> & Hsh).
      exists (zeros :: images).
      rewrite Em, !bind_inr_l.
      split; [reflexivity |].
      split; [cbn [fold_left]; rewrite image_sum_zeros by assumption;
              reflexivity |].
      constructor; [apply zeros_single_grid | exact Hsh].
Qed.

(** A sum of two grids at a cell where one of them is zero. *)
Lemma fold_left_two (g1 g2 : list (list (num A))) (j i : Z) :
  single_grid g1 -> single_grid g2 ->
  0 <= j < pixcounty -> 0 <= i < pixcountx ->
  (cell g2 j i = zero ->
   cell (fold_left image_sum [g1; g2] zeros) j i = cell g1 j i)
  /\ (cell g1 j i = zero ->
      cell (fold_left image_sum [g1; g2] zeros) j i = cell g2 j i).
Proof.
  intros (S1 & H1) (S2 & H2) Hj Hi; cbn [fold_left].
  pose proof (np_zeros2_shape (A:=A) pixcountx pixcounty) as S0.
  rewrite !cell_image_sum by (try assumption; apply image_sum_shape; assumption).
  rewrite cell_zeros by assumption.
  destruct (H1 j i Hj Hi) as (L1 & R1), (H2 j i Hj Hi) as (L2 & R2).
  split; intros E.
  - rewrite L1, E; exact R1.
  - rewrite E, (add_zero_zero A AL); exact L2.
Qed.

End Additive.


(** The lookups [parts[x]] and [parts[y]] do not depend on the particles. *)
Lemma retained_parts_lookup {A : Arith} (x y : string) (kernel : BaseKernel A)
  (pixwidthx pixwidthy xmin ymin : num A) (pixcountx pixcounty : Z)
  (rows : list (Particle A)) (ps : list (Part A)) :
  retained_parts x y kernel pixwidthx pixwidthy xmin ymin pixcountx pixcounty rows
  = inr ps ->
  exists cx cy, forall rows',
    retained_parts x y kernel pixwidthx pixwidthy xmin ymin pixcountx pixcounty
      rows'
    = inr (map (part_of kernel pixwidthx pixwidthy xmin ymin pixcountx pixcounty
                  cx cy)
             (filter retained rows')).
Proof.
  unfold retained_parts; intros H.
  destruct (getitem parts_columns x) as [e | cx]; [discriminate H |].
  rewrite bind_inr_l in H.
  exists cx.
  destruct (getitem _ y) as [e | cy] eqn:Ey; [discriminate H |].
  exists cy; intros rows'; rewrite bind_inr_l, Ey, bind_inr_l; reflexivity.
Qed.

Section AdditiveCalls.

Context {A : Arith}.
Variable bound : Z.
Hypothesis IC : IntConv A bound.
Hypothesis AL : AddLaws A.
Variables x y target : string.
Variable kernel : BaseKernel A.
Variables pixwidthx pixwidthy xmin ymin : num A.
Variables pixcountx pixcounty : Z.
Hypothesis Hnx : pixcountx <= bound.
Hypothesis Hny : pixcounty <= bound.
Hypothesis Hv :
  invalid_call kernel pixwidthx pixwidthy pixcountx pixcounty = false.

Local Abbreviation call :=
  (fun d => interpolate2D d x y target kernel pixwidthx pixwidthy xmin ymin
              pixcountx pixcounty).

(** The grid of a call whose loop has one row: the cells of the row's two
    ranges hold [0 + contribution], the others 0. *)
Lemma single_call_cells (d : Frame (num A)) (g : list (list (num A)))
  (part : Part A) (jpixs ipixs : list Z) :
  call d = inr g ->
  (parts <- build_parts d x y target kernel pixwidthx pixwidthy xmin ymin
              pixcountx pixcounty ;;
   itertuples parts) = inr [part] ->
  jpix_range part = inr jpixs -> ipix_range part = inr ipixs ->
  forall j i, 0 <= j < pixcounty -> 0 <= i < pixcountx ->
    cell g j i
    = if covers jpixs ipixs j i
      then add (of_int 0)
             (contribution kernel pixwidthx pixwidthy xmin ymin part j i)
      else of_int 0.
Proof.
  intros Hg Hp Ej Ei.
  destruct (invalid_call_false _ _ _ _ _ Hv) as (_ & _ & Hx & Hy & _).
  assert (Hnx' : 0 <= pixcountx <= bound) by lia.
  assert (Hny' : 0 <= pixcounty <= bound) by lia.
  cbv beta in Hg; rewrite (interpolate2D_valid _ _ _ _ _ _ _ _ _ _ _ Hv) in Hg.
  apply bind_inr in Hp; destruct Hp as (parts & Hb & Hi).
  assert (Hc : clipped pixcountx pixcounty part).
  { pose proof (build_parts_clipped _ _ _ _ _ _ _ _ _ _ _ _ _ Hb Hi) as Hc.
    inversion Hc; assumption. }
  rewrite Hb, bind_inr_l, Hi, bind_inr_l in Hg; cbn [foldM] in Hg.
  destruct (process_part _ _ _ _ _ _ _ part) as [e | g'] eqn:Eg;
    [discriminate Hg |].
  rewrite bind_inr_l in Hg; unfold ret in Hg; injection Hg as <-.
  destruct (process_part_sum bound IC AL kernel pixwidthx pixwidthy xmin ymin
              pixcountx pixcounty Hnx' Hny' part _ _ Hc (np_zeros2_shape _ _)
              (zeros_nz AL pixcountx pixcounty) Eg)
    as (g & Eg' & _ & _ & _ & jpixs' & ipixs' & Ej' & Ei' & Hcell).
  rewrite Eg in Eg'; injection Eg' as <-.
  rewrite Ej in Ej'; injection Ej' as <-.
  rewrite Ei in Ei'; injection Ei' as <-.
  exact Hcell.
Qed.

Lemma empty_call_zeros (d : Frame (num A)) (g : list (list (num A))) :
  call d = inr g ->
  (parts <- build_parts d x y target kernel pixwidthx pixwidthy xmin ymin
              pixcountx pixcounty ;;
   itertuples parts) = inr [] ->
  g = np_zeros2 pixcounty pixcountx.
Proof.
  intros Hg Hp.
  cbv beta in Hg; rewrite (interpolate2D_valid _ _ _ _ _ _ _ _ _ _ _ Hv) in Hg.
  apply bind_inr in Hp; destruct Hp as (parts & Hb & Hi).
  rewrite Hb, bind_inr_l, Hi, bind_inr_l in Hg; cbn [foldM] in Hg.
  unfold ret in Hg; injection Hg as <-; reflexivity.
Qed.

(** The grid of a frame is the sum, in the order of the rows, of the grids of
    its particles taken one at a time. *)
Lemma interpolate2D_sum_of_singles (data : Frame (num A))
  (singles : list (Frame (num A))) (rows : list (Particle A))
  (image : list (list (num A))) :
  holds data x y target rows ->
  Forall2 (fun d r => holds d x y target [r]) singles rows ->
  call data = inr image ->
  exists images,
    mapM call singles = inr images
    /\ image = fold_left image_sum images (np_zeros2 pixcounty pixcountx)
    /\ Forall (single_grid pixcountx pixcounty) images.
Proof.
  intros Hd Hs Hg.
  destruct (invalid_call_false _ _ _ _ _ Hv) as (_ & _ & Hx & Hy & _).
  assert (Hnx' : 0 <= pixcountx <= bound) by lia.
  assert (Hny' : 0 <= pixcounty <= bound) by lia.
  cbv beta in Hg.
  rewrite (interpolate2D_retained data x y target kernel _ _ _ _ _ _ _ Hd Hv)
    in Hg.
  destruct (retained_parts _ _ _ _ _ _ _ _ _ rows) as [e | ps] eqn:Ep;
    [discriminate Hg |].
  destruct (retained_parts_lookup _ _ _ _ _ _ _ _ _ _ _ Ep) as (cx & cy & Hl).
  rewrite Hl in Ep; injection Ep as <-.
  rewrite bind_inr_l in Hg.
  destruct (foldM_additive bound IC AL kernel pixwidthx pixwidthy xmin ymin
              pixcountx pixcounty Hnx' Hny' cx cy rows _ _
              (np_zeros2_shape _ _) (zeros_nz AL pixcountx pixcounty) Hg)
    as (images & Em & Ei & Hsg).
  exists images; split; [| split; assumption].
  rewrite <- Em; apply mapM_Forall2_ext.
  eapply Forall2_impl; [| exact Hs].
  intros d r Hdr; cbv beta.
  rewrite (interpolate2D_retained d x y target kernel _ _ _ _ _ _ _ Hdr Hv).
  rewrite Hl, bind_inr_l; reflexivity.
Qed.

End AdditiveCalls.

(** ** Missing columns, and the loop of a call that returns *)

Lemma getitem_missing {C : Type} (df : list (string * C)) (key : string) :
  has_column df key = false -> getitem df key = inl (KeyError key).
Proof.
  unfold has_column; induction df as [| [k s] df IH]; simpl; [reflexivity |].
  rewrite (String.eqb_sym key k).
  destruct (String.eqb k key); simpl; [discriminate | exact IH].
Qed.

Lemma has_column_In {C : Type} (df : list (string * C)) (key : string) :
  has_column df key = true <-> In key (map fst df).
Proof.
  unfold has_column; rewrite existsb_exists; split.
  - intros (k & Hin & E); apply String.eqb_eq in E; subst; exact Hin.
  - intros Hin; exists key; split; [exact Hin | apply String.eqb_refl].
Qed.

Lemma has_column_not_In {C : Type} (df : list (string * C)) (key : string) :
  ~ In key (map fst df) -> has_column df key = false.
Proof.
  intros H; destruct (has_column df key) eqn:E; [| reflexivity].
  apply has_column_In in E; contradiction.
Qed.

Lemma Forall2_combine {X Y : Type} (R : X -> Y -> Prop) (l1 : list X)
  (l2 : list Y) :
  Forall2 R l1 l2 -> Forall (fun p => R (fst p) (snd p)) (combine l1 l2).
Proof. induction 1; simpl; constructor; auto. Qed.

Lemma Forall_combine_l {X Y : Type} (P : X -> Prop) (l1 : list X) (l2 : list Y) :
  Forall P l1 -> Forall (fun p => P (fst p)) (combine l1 l2).
Proof.
  intros H; revert l2; induction H as [| a l1 Ha H IH]; intros [| b l2]; simpl;
    constructor; auto.
Qed.

(** An invalid call returns nothing. *)
Lemma interpolate2D_returns_valid {A : Arith} (data : Frame (num A))
  (x y target : string) (kernel : BaseKernel A)
  (pixwidthx pixwidthy xmin ymin : num A) (pixcountx pixcounty : Z)
  (g : list (list (num A))) :
  interpolate2D data x y target kernel pixwidthx pixwidthy xmin ymin pixcountx
    pixcounty = inr g ->
  invalid_call kernel pixwidthx pixwidthy pixcountx pixcounty = false.
Proof.
  intros H.
  destruct (invalid_call kernel pixwidthx pixwidthy pixcountx pixcounty) eqn:Hv;
    [| reflexivity].
  destruct (interpolate2D_invalid _ _ _ _ _ Hv) as (e & _ & He).
  specialize (He data x y target (radkernel kernel) (w kernel) xmin ymin).
  destruct kernel as [nd rk wk]; cbn [ndims radkernel w] in He.
  rewrite He in H; discriminate H.
Qed.

Section Loop.

Context {A : Arith}.
Variable bound : Z.
Hypothesis IC : IntConv A bound.
Variable kernel : BaseKernel A.
Variables pixwidthx pixwidthy xmin ymin : num A.
Variables pixcountx pixcounty : Z.
Hypothesis Hnx : 0 <= pixcountx <= bound.
Hypothesis Hny : 0 <= pixcounty <= bound.

(** The image after the turns of some rows: its shape is kept, and each cell
    has received the contributions of the rows that cover it, in order. *)
Lemma fold_accumulate_cells (pcs : list (Part A * (list Z * list Z)))
  (image : list (list (num A))) :
  image_shape pixcountx pixcounty image ->
  Forall (fun pc => clipped pixcountx pixcounty (fst pc)
                    /\ part_cells pixwidthx xmin (fst pc) = inr (snd pc)) pcs ->
  image_shape pixcountx pixcounty
    (fold_left (accumulate_part kernel pixwidthx pixwidthy xmin ymin) pcs image)
  /\ forall j i, 0 <= j -> 0 <= i ->
       cell (fold_left (accumulate_part kernel pixwidthx pixwidthy xmin ymin)
               pcs image) j i
       = fold_left
           (fun acc pc =>
              if covers (fst (snd pc)) (snd (snd pc)) j i
              then add acc (contribution kernel pixwidthx pixwidthy xmin ymin
                              (fst pc) j i)
              else acc)
           pcs (cell image j i).
Proof.
  intros Hs Hp; revert image Hs.
  induction Hp as [| [part [jpixs ipixs]] pcs (Hc & Hcells) Hp IH];
    intros image Hs; cbn [fold_left]; [split; [exact Hs | reflexivity] |].
  cbn [fst snd] in Hc, Hcells.
  destruct (part_cells_ranges bound IC pixwidthx xmin pixcountx pixcounty Hnx Hny
              part jpixs ipixs Hc Hcells) as (_ & _ & Hjn & Hjd & Hin & Hid).
  destruct (accumulate_part_cell kernel pixwidthx pixwidthy xmin ymin pixcountx
              pixcounty part jpixs ipixs image Hs Hjn Hjd Hin Hid) as (Hs' & Hcell).
  destruct (IH _ Hs') as (Hs'' & Hcell'').
  split; [exact Hs'' |].
  intros j i Hj Hi; rewrite Hcell'' by assumption.
  rewrite Hcell by assumption; reflexivity.
Qed.

(** A call that returns has run the loop over rows with clipped bounds, each
    over its two ranges. *)
Lemma interpolate2D_loop (data : Frame (num A)) (x y target : string)
  (g : list (list (num A))) :
  interpolate2D data x y target kernel pixwidthx pixwidthy xmin ymin pixcountx
    pixcounty = inr g ->
  exists rows cells,
    (parts <- build_parts data x y target kernel pixwidthx pixwidthy xmin ymin
                pixcountx pixcounty ;;
     itertuples parts) = inr rows
    /\ mapM (part_cells pixwidthx xmin) rows = inr cells
    /\ Forall (fun pc => clipped pixcountx pixcounty (fst pc)
                         /\ part_cells pixwidthx xmin (fst pc) = inr (snd pc))
         (combine rows cells)
    /\ g = fold_left (accumulate_part kernel pixwidthx pixwidthy xmin ymin)
             (combine rows cells) (np_zeros2 pixcounty pixcountx).
Proof.
  intros H.
  pose proof (interpolate2D_returns_valid _ _ _ _ _ _ _ _ _ _ _ _ H) as Hv.
  rewrite (interpolate2D_eq_sum bound IC _ _ _ _ _ _ _ _ _ _ _ Hnx Hny Hv) in H.
  unfold interpolate2D_sum in H.
  apply bind_inr in H; destruct H as (parts & Hb & H).
  apply bind_inr in H; destruct H as (rows & Hi & H).
  apply bind_inr in H; destruct H as (cells & Hm & H).
  unfold ret in H; injection H as <-.
  exists rows, cells.
  split; [rewrite Hb, bind_inr_l; exact Hi |].
  split; [exact Hm |].
  split; [| reflexivity].
  pose proof (build_parts_clipped _ _ _ _ _ _ _ _ _ _ _ _ _ Hb Hi) as Hc.
  pose proof (Forall2_combine _ _ _ (mapM_inr_Forall2 _ _ _ Hm)) as H1.
  pose proof (Forall_combine_l _ _ cells Hc) as H2.
  rewrite Forall_forall in H1, H2 |- *.
  intros pc Hpc; split; [apply H2 | apply H1]; exact Hpc.
Qed.

End Loop.

(** ** The columns the constructor identifies *)

Section Identify.

Context {A : Arith}.

Lemma setter_keeps (role : ColumnRole) (s : SarracenDataFrame A)
  (c : option string) : keeps role s (setter role s c).
Proof.
  destruct (setter_columns role s c) as (E1 & _ & E3 & E4).
  repeat split; auto.
  intros role' Hne; apply setter_other; exact Hne.
Qed.

Lemma keeps_refl (role : ColumnRole) (s : SarracenDataFrame A) : keeps role s s.
Proof. repeat split. Qed.

Lemma setter_column (role : ColumnRole) (s : SarracenDataFrame A) (c : string) :
  has_column (columns s) c = true -> getter role (setter role s (Some c)) = Some c.
Proof.
  intros H; apply setter_accepts; unfold valid_label, contains; rewrite H.
  reflexivity.
Qed.

Lemma has_column_head {C : Type} (df : list (string * C)) (c : string)
  (l : list string) :
  map fst df = c :: l -> has_column df c = true.
Proof.
  unfold has_column; intros ->; simpl; rewrite String.eqb_refl; reflexivity.
Qed.

Lemma has_column_second {C : Type} (df : list (string * C)) (c0 c : string)
  (l : list string) :
  map fst df = c0 :: c :: l -> has_column df c = true.
Proof.
  unfold has_column; intros ->; simpl; rewrite String.eqb_refl.
  apply orb_true_r.
Qed.

Lemma identify_xcol_spec (s : SarracenDataFrame A) :
  keeps xcol s (identify_xcol s)
  /\ _xcol (identify_xcol s)
     = if has_column (columns s) "x" then Some "x"
       else if has_column (columns s) "rx" then Some "rx"
       else match map fst (columns s) with
            | c :: _ => Some c
            | [] => _xcol s
            end.
Proof.
  unfold identify_xcol.
  destruct (has_column (columns s) "x") eqn:E1;
    [split; [apply (setter_keeps xcol) | apply (setter_column xcol); exact E1] |].
  destruct (has_column (columns s) "rx") eqn:E2;
    [split; [apply (setter_keeps xcol) | apply (setter_column xcol); exact E2] |].
  destruct (map fst (columns s)) as [| c l] eqn:E3;
    [split; [apply keeps_refl | reflexivity] |].
  split; [apply (setter_keeps xcol) |].
  apply (setter_column xcol); exact (has_column_head _ _ _ E3).
Qed.

Lemma identify_ycol_spec (s : SarracenDataFrame A) :
  keeps ycol s (identify_ycol s)
  /\ _ycol (identify_ycol s)
     = if has_column (columns s) "y" then Some "y"
       else if has_column (columns s) "ry" then Some "ry"
       else match map fst (columns s) with
            | _ :: c :: _ => Some c
            | _ => _ycol s
            end.
Proof.
  unfold identify_ycol.
  destruct (has_column (columns s) "y") eqn:E1;
    [split; [apply (setter_keeps ycol) | apply (setter_column ycol); exact E1] |].
  destruct (has_column (columns s) "ry") eqn:E2;
    [split; [apply (setter_keeps ycol) | apply (setter_column ycol); exact E2] |].
  destruct (map fst (columns s)) as [| c0 [| c l]] eqn:E3;
    try (split; [apply keeps_refl | reflexivity]).
  split; [apply (setter_keeps ycol) |].
  apply (setter_column ycol); exact (has_column_second _ _ _ _ E3).
Qed.

Lemma identify_zcol_spec (s : SarracenDataFrame A) :
  keeps zcol s (identify_zcol s)
  /\ _zcol (identify_zcol s)
     = if has_column (columns s) "z" then Some "z"
       else if has_column (columns s) "rz" then Some "rz"
       else _zcol s.
Proof.
  unfold identify_zcol.
  destruct (has_column (columns s) "z") eqn:E1;
    [split; [apply (setter_keeps zcol) | apply (setter_column zcol); exact E1] |].
  destruct (has_column (columns s) "rz") eqn:E2;
    [split; [apply (setter_keeps zcol) | apply (setter_column zcol); exact E2] |].
  split; [apply keeps_refl | reflexivity].
Qed.

Lemma identify_hcol_spec (s : SarracenDataFrame A) :
  keeps hcol s (identify_hcol s)
  /\ _hcol (identify_hcol s)
     = if has_column (columns s) "h" then Some "h" else _hcol s.
Proof.
  unfold identify_hcol.
  destruct (has_column (columns s) "h") eqn:E1;
    [split; [apply (setter_keeps hcol) | apply (setter_column hcol); exact E1] |].
  split; [apply keeps_refl | reflexivity].
Qed.

Lemma identify_mcol_spec (s : SarracenDataFrame A) :
  keeps mcol s (identify_mcol s)
  /\ _mcol (identify_mcol s)
     = if has_column (columns s) "m" then Some "m"
       else if has_column (columns s) "mass" then Some "mass"
       else _mcol s.
Proof.
  unfold identify_mcol.
  destruct (has_column (columns s) "m") eqn:E1;
    [split; [apply (setter_keeps mcol) | apply (setter_column mcol); exact E1] |].
  destruct (has_column (columns s) "mass") eqn:E2;
    [split; [apply (setter_keeps mcol) | apply (setter_column mcol); exact E2] |].
  split; [apply keeps_refl | reflexivity].
Qed.

Lemma identify_rhocol_spec (s : SarracenDataFrame A) :
  keeps rhocol s (identify_rhocol s)
  /\ _rhocol (identify_rhocol s)
     = if has_column (columns s) "rho" then Some "rho"
       else if has_column (columns s) "density" then Some "density"
       else _rhocol s.
Proof.
  unfold identify_rhocol.
  destruct (has_column (columns s) "rho") eqn:E1;
    [split; [apply (setter_keeps rhocol) | apply (setter_column rhocol); exact E1] |].
  destruct (has_column (columns s) "density") eqn:E2;
    [split; [apply (setter_keeps rhocol) | apply (setter_column rhocol); exact E2] |].
  split; [apply keeps_refl | reflexivity].
Qed.

Lemma identify_vxcol_spec (s : SarracenDataFrame A) :
  keeps vxcol s (identify_vxcol s)
  /\ _vxcol (identify_vxcol s)
     = if has_column (columns s) "vx" then Some "vx" else _vxcol s.
Proof.
  unfold identify_vxcol.
  destruct (has_column (columns s) "vx") eqn:E1;
    [split; [apply (setter_keeps vxcol) | apply (setter_column vxcol); exact E1] |].
  split; [apply keeps_refl | reflexivity].
Qed.

Lemma identify_vycol_spec (s : SarracenDataFrame A) :
  keeps vycol s (identify_vycol s)
  /\ _vycol (identify_vycol s)
     = if has_column (columns s) "vy" then Some "vy" else _vycol s.
Proof.
  unfold identify_vycol.
  destruct (has_column (columns s) "vy") eqn:E1;
    [split; [apply (setter_keeps vycol) | apply (setter_column vycol); exact E1] |].
  split; [apply keeps_refl | reflexivity].
Qed.

Lemma identify_vzcol_spec (s : SarracenDataFrame A) :
  keeps vzcol s (identify_vzcol s)
  /\ _vzcol (identify_vzcol s)
     = if has_column (columns s) "vz" then Some "vz" else _vzcol s.
Proof.
  unfold identify_vzcol.
  destruct (has_column (columns s) "vz") eqn:E1;
    [split; [apply (setter_keeps vzcol) | apply (setter_column vzcol); exact E1] |].
  split; [apply keeps_refl | reflexivity].
Qed.

(** The labels that [_identify_special_columns] gives the nine roles and the
    list of dust columns, from the labels of the frame. *)
Lemma identify_special_columns_roles (s : SarracenDataFrame A) :
  let s' := _identify_special_columns s in
  let has := has_column (columns s) in
  columns s' = columns s
  /\ _xcol s' = (if has "x" then Some "x" else if has "rx" then Some "rx"
                 else match map fst (columns s) with
                      | c :: _ => Some c
                      | [] => _xcol s
                      end)
  /\ _ycol s' = (if has "y" then Some "y" else if has "ry" then Some "ry"
                 else match map fst (columns s) with
                      | _ :: c :: _ => Some c
                      | _ => _ycol s
                      end)
  /\ _zcol s' = (if has "z" then Some "z" else if has "rz" then Some "rz"
                 else _zcol s)
  /\ _hcol s' = (if has "h" then Some "h" else _hcol s)
  /\ _mcol s' = (if has "m" then Some "m" else if has "mass" then Some "mass"
                 else _mcol s)
  /\ _rhocol s' = (if has "rho" then Some "rho"
                   else if has "density" then Some "density" else _rhocol s)
  /\ _vxcol s' = (if has "vx" then Some "vx" else _vxcol s)
  /\ _vycol s' = (if has "vy" then Some "vy" else _vycol s)
  /\ _vzcol s' = (if has "vz" then Some "vz" else _vzcol s)
  /\ _dustfracscol s'
     = _dustfracscol s ++ filter (String.prefix "dustfrac") (map fst (columns s)).
Proof.
  cbv zeta; unfold _identify_special_columns.
  destruct (identify_xcol_spec s) as ((C1 & D1 & _ & O1) & V1).
  revert C1 D1 O1 V1; generalize (identify_xcol s); intros s1 C1 D1 O1 V1.
  destruct (identify_ycol_spec s1) as ((C2 & D2 & _ & O2) & V2).
  revert C2 D2 O2 V2; generalize (identify_ycol s1); intros s2 C2 D2 O2 V2.
  destruct (identify_zcol_spec s2) as ((C3 & D3 & _ & O3) & V3).
  revert C3 D3 O3 V3; generalize (identify_zcol s2); intros s3 C3 D3 O3 V3.
  destruct (identify_hcol_spec s3) as ((C4 & D4 & _ & O4) & V4).
  revert C4 D4 O4 V4; generalize (identify_hcol s3); intros s4 C4 D4 O4 V4.
  destruct (identify_mcol_spec s4) as ((C5 & D5 & _ & O5) & V5).
  revert C5 D5 O5 V5; generalize (identify_mcol s4); intros s5 C5 D5 O5 V5.
  destruct (identify_rhocol_spec s5) as ((C6 & D6 & _ & O6) & V6).
  revert C6 D6 O6 V6; generalize (identify_rhocol s5); intros s6 C6 D6 O6 V6.
  destruct (identify_vxcol_spec s6) as ((C7 & D7 & _ & O7) & V7).
  revert C7 D7 O7 V7; generalize (identify_vxcol s6); intros s7 C7 D7 O7 V7.
  destruct (identify_vycol_spec s7) as ((C8 & D8 & _ & O8) & V8).
  revert C8 D8 O8 V8; generalize (identify_vycol s7); intros s8 C8 D8 O8 V8.
  destruct (identify_vzcol_spec s8) as ((C9 & D9 & _ & O9) & V9).
  revert C9 D9 O9 V9; generalize (identify_vzcol s8); intros s9 C9 D9 O9 V9.
  assert (E9 : columns s9 = columns s) by congruence.
  assert (E8 : columns s8 = columns s) by congruence.
  assert (E7 : columns s7 = columns s) by congruence.
  assert (E6 : columns s6 = columns s) by congruence.
  assert (E5 : columns s5 = columns s) by congruence.
  assert (E4 : columns s4 = columns s) by congruence.
  assert (E3 : columns s3 = columns s) by congruence.
  assert (E2 : columns s2 = columns s) by congruence.
  unfold identify_dustfracscol;
    cbn [with_dustfracscol columns _xcol _ycol _zcol _hcol _mcol _rhocol _vxcol
           _vycol _vzcol _dustfracscol].
  split; [exact E9 |].
  split.
  { change (getter xcol s9 = getter xcol s1) with (_xcol s9 = _xcol s1) in *.
    rewrite <- V1.
    transitivity (getter xcol s9); [reflexivity |].
    rewrite (O9 xcol), (O8 xcol), (O7 xcol), (O6 xcol), (O5 xcol), (O4 xcol),
      (O3 xcol), (O2 xcol) by discriminate; reflexivity. }
  split.
  { change (_ycol s) with (getter ycol s).
    rewrite <- (O1 ycol), <- C1 by discriminate.
    change (getter ycol s1) with (_ycol s1); rewrite <- V2.
    transitivity (getter ycol s9); [reflexivity |].
    rewrite (O9 ycol), (O8 ycol), (O7 ycol), (O6 ycol), (O5 ycol), (O4 ycol),
      (O3 ycol) by discriminate; reflexivity. }
  split.
  { change (_zcol s) with (getter zcol s).
    rewrite <- (O1 zcol), <- (O2 zcol), <- E2 by discriminate.
    change (getter zcol s2) with (_zcol s2); rewrite <- V3.
    transitivity (getter zcol s9); [reflexivity |].
    rewrite (O9 zcol), (O8 zcol), (O7 zcol), (O6 zcol), (O5 zcol), (O4 zcol)
      by discriminate; reflexivity. }
  split.
  { change (_hcol s) with (getter hcol s).
    rewrite <- (O1 hcol), <- (O2 hcol), <- (O3 hcol), <- E3 by discriminate.
    change (getter hcol s3) with (_hcol s3); rewrite <- V4.
    transitivity (getter hcol s9); [reflexivity |].
    rewrite (O9 hcol), (O8 hcol), (O7 hcol), (O6 hcol), (O5 hcol)
      by discriminate; reflexivity. }
  split.
  { change (_mcol s) with (getter mcol s).
    rewrite <- (O1 mcol), <- (O2 mcol), <- (O3 mcol), <- (O4 mcol), <- E4
      by discriminate.
    change (getter mcol s4) with (_mcol s4); rewrite <- V5.
    transitivity (getter mcol s9); [reflexivity |].
    rewrite (O9 mcol), (O8 mcol), (O7 mcol), (O6 mcol) by discriminate;
      reflexivity. }
  split.
  { change (_rhocol s) with (getter rhocol s).
    rewrite <- (O1 rhocol), <- (O2 rhocol), <- (O3 rhocol), <- (O4 rhocol),
      <- (O5 rhocol), <- E5 by discriminate.
    change (getter rhocol s5) with (_rhocol s5); rewrite <- V6.
    transitivity (getter rhocol s9); [reflexivity |].
    rewrite (O9 rhocol), (O8 rhocol), (O7 rhocol) by discriminate;
      reflexivity. }
  split.
  { change (_vxcol s) with (getter vxcol s).
    rewrite <- (O1 vxcol), <- (O2 vxcol), <- (O3 vxcol), <- (O4 vxcol),
      <- (O5 vxcol), <- (O6 vxcol), <- E6 by discriminate.
    change (getter vxcol s6) with (_vxcol s6); rewrite <- V7.
    transitivity (getter vxcol s9); [reflexivity |].
    rewrite (O9 vxcol), (O8 vxcol) by discriminate; reflexivity. }
  split.
  { change (_vycol s) with (getter vycol s).
    rewrite <- (O1 vycol), <- (O2 vycol), <- (O3 vycol), <- (O4 vycol),
      <- (O5 vycol), <- (O6 vycol), <- (O7 vycol), <- E7 by discriminate.
    change (getter vycol s7) with (_vycol s7); rewrite <- V8.
    transitivity (getter vycol s9); [reflexivity |].
    rewrite (O9 vycol) by discriminate; reflexivity. }
  split.
  { change (_vzcol s) with (getter vzcol s).
    rewrite <- (O1 vzcol), <- (O2 vzcol), <- (O3 vzcol), <- (O4 vzcol),
      <- (O5 vzcol), <- (O6 vzcol), <- (O7 vzcol), <- (O8 vzcol), <- E8
      by discriminate.
    change (getter vzcol s8) with (_vzcol s8); rewrite <- V9; reflexivity. }
  rewrite E9; congruence.
Qed.

End Identify.

(** A dataframe as the constructor returns it. *)
Lemma init_inr {A : Arith} (CubicSplineKernel : BaseKernel A)
  (data : Frame (num A)) (params : PyObject A) (self : SarracenDataFrame A) :
  init CubicSplineKernel data params = inr self ->
  exists s0,
    columns s0 = data /\ (forall role, getter role s0 = None)
    /\ _dustfracscol s0 = []
    /\ _params s0 = match params with PyDict d => Some d | _ => Some [] end
    /\ self = with_kernel (_identify_special_columns s0)
                (PyKernel CubicSplineKernel).
Proof.
  unfold init; intros H.
  apply bind_inr in H; destruct H as (s0 & Hs & H).
  exists s0.
  unfold ret in H; injection H as <-.
  unfold set_params in Hs.
  destruct params; try discriminate Hs; unfold ret in Hs; injection Hs as <-;
    (split; [reflexivity |]; split; [intros role; destruct role; reflexivity |];
     split; [reflexivity |]; split; reflexivity).
Qed.

(** The roles of a dataframe as the constructor returns it. *)
Lemma init_roles {A : Arith} (CubicSplineKernel : BaseKernel A)
  (data : Frame (num A)) (params : PyObject A) (self : SarracenDataFrame A) :
  init CubicSplineKernel data params = inr self ->
  columns self = data
  /\ _xcol self = (if has_column data "x" then Some "x"
                   else if has_column data "rx" then Some "rx"
                   else hd_error (map fst data))
  /\ _ycol self = (if has_column data "y" then Some "y"
                   else if has_column data "ry" then Some "ry"
                   else nth_error (map fst data) 1)
  /\ _zcol self = (if has_column data "z" then Some "z"
                   else if has_column data "rz" then Some "rz"
                   else None)
  /\ _hcol self = (if has_column data "h" then Some "h" else None)
  /\ _mcol self = (if has_column data "m" then Some "m"
                   else if has_column data "mass" then Some "mass" else None)
  /\ _rhocol self = (if has_column data "rho" then Some "rho"
                     else if has_column data "density" then Some "density"
                     else None)
  /\ _vxcol self = (if has_column data "vx" then Some "vx" else None)
  /\ _vycol self = (if has_column data "vy" then Some "vy" else None)
  /\ _vzcol self = (if has_column data "vz" then Some "vz" else None)
  /\ _dustfracscol self = filter (String.prefix "dustfrac") (map fst data).
Proof.
  intros H.
  destruct (init_inr _ _ _ _ H) as (s0 & Hc & Hr & Hd & _ & ->).
  destruct (identify_special_columns_roles s0)
    as (Vc & Vx & Vy & Vz & Vh & Vm & Vrho & Vvx & Vvy & Vvz & Vd).
  revert Vc Vx Vy Vz Vh Vm Vrho Vvx Vvy Vvz Vd.
  generalize (_identify_special_columns s0); intros s1.
  rewrite Hc, Hd.
  change (_xcol s0) with (getter xcol s0); change (_ycol s0) with (getter ycol s0).
  change (_zcol s0) with (getter zcol s0).
  change (_hcol s0) with (getter hcol s0); change (_mcol s0) with (getter mcol s0).
  change (_rhocol s0) with (getter rhocol s0).
  change (_vxcol s0) with (getter vxcol s0).
  change (_vycol s0) with (getter vycol s0).
  change (_vzcol s0) with (getter vzcol s0); rewrite !Hr.
  intros Vc Vx Vy Vz Vh Vm Vrho Vvx Vvy Vvz Vd.
  cbn [with_kernel columns _xcol _ycol _zcol _hcol _mcol _rhocol _vxcol _vycol
         _vzcol _dustfracscol].
  split; [exact Vc |].
  split; [rewrite Vx; destruct (map fst data); reflexivity |].
  split; [rewrite Vy; destruct (map fst data) as [| c0 [| c1 l]]; reflexivity |].
  repeat split; assumption.
Qed.

(** ** Methods that assign a column *)

Lemma has_column_setitem_eq {C : Type} (df : list (string * C)) (k key : string)
  (s : C) :
  has_column (setitem df k s) key = has_column df key || String.eqb k key.
Proof.
  unfold has_column; induction df as [| [k0 s0] df IH]; simpl.
  - rewrite orb_false_r; apply String.eqb_sym.
  - destruct (String.eqb k0 k) eqn:E; simpl.
    + apply String.eqb_eq in E; subst k0.
      destruct (String.eqb key k) eqn:E'; simpl; [reflexivity |].
      rewrite (String.eqb_sym k key), E', orb_false_r; reflexivity.
    + rewrite IH; destruct (String.eqb key k0); reflexivity.
Qed.

Lemma zip_with_repeat_l {X Y V : Type} (f : X -> Y -> V) (a : X) (l : list Y) :
  zip_with f (repeat a (List.length l)) l = map (f a) l.
Proof. induction l as [| b l IH]; simpl; [| rewrite IH]; reflexivity. Qed.

Section ColumnCreators.

Context {A : Arith}.

Lemma assign_column_facts (role : ColumnRole) (self : SarracenDataFrame A)
  (key : string) (col : list (num A)) :
  let self' := assign_column role self key col in
  columns self' = setitem (columns self) key col
  /\ _params self' = _params self /\ _kernel self' = _kernel self
  /\ _dustfracscol self' = _dustfracscol self
  /\ getter role self' = Some key
  /\ (forall role', role' <> role -> getter role' self' = getter role' self)
  /\ (all_valid self -> all_valid self').
Proof.
  cbv zeta; unfold assign_column.
  set (s1 := with_columns self (setitem (columns self) key col)).
  assert (Hk : has_column (columns s1) key = true) by apply has_column_setitem.
  destruct (setter_columns role s1 (Some key)) as (E1 & E2 & E3 & E4).
  assert (Hg : forall role', getter role' s1 = getter role' self)
    by (intros role'; destruct role'; reflexivity).
  split; [exact E1 |]. split; [exact E3 |]. split; [exact E2 |].
  split; [exact E4 |].
  assert (Hacc : getter role (setter role s1 (Some key)) = Some key).
  { apply setter_accepts; unfold valid_label, contains; rewrite Hk; reflexivity. }
  split; [exact Hacc |].
  split; [intros role' Hne; rewrite setter_other by exact Hne; apply Hg |].
  intros Hv; apply setter_all_valid.
  intros role'; rewrite Hg; specialize (Hv role').
  unfold valid_label, contains in Hv |- *.
  destruct (getter role' self) as [c |]; [| reflexivity].
  cbn [is_None] in Hv |- *; rewrite orb_false_r in Hv |- *.
  subst s1; cbn [columns with_columns].
  rewrite has_column_setitem_eq, Hv; reflexivity.
Qed.

Lemma calc_density_inr (self self' : SarracenDataFrame A) :
  calc_density self = inr self' ->
  exists rho, self' = assign_column rhocol self "rho" rho.
Proof.
  unfold calc_density; intros H.
  destruct (negb (contains self (_hcol self))); [discriminate H |].
  apply bind_inr in H; destruct H as (has_hfact & _ & H).
  destruct (negb has_hfact); [discriminate H |].
  apply bind_inr in H; destruct H as (no_mass & _ & H).
  destruct no_mass; [discriminate H |].
  apply bind_inr in H; destruct H as (mass & _ & H).
  apply bind_inr in H; destruct H as (hfact & _ & H).
  apply bind_inr in H; destruct H as (h & _ & H).
  cbv zeta in H; unfold ret in H; injection H as <-.
  eexists; reflexivity.
Qed.

Lemma create_mass_column_inr (self self' : SarracenDataFrame A) :
  create_mass_column self = inr self' ->
  exists m, params_getitem self "mass" = inr m
            /\ self' = assign_column mcol self "m" (repeat m (len self)).
Proof.
  unfold create_mass_column; intros H.
  apply bind_inr in H; destruct H as (has_mass & _ & H).
  destruct (negb has_mass); [discriminate H |].
  apply bind_inr in H; destruct H as (m & Hm & H).
  cbv zeta in H; unfold ret in H; injection H as <-.
  exists m; split; [exact Hm | reflexivity].
Qed.

Lemma create_mass_column_some (self : SarracenDataFrame A) (d : dict A)
  (m : num A) :
  _params self = Some d -> getitem d "mass" = inr m ->
  create_mass_column self
  = inr (assign_column mcol self "m" (repeat m (len self))).
Proof.
  intros Hd Hm; unfold create_mass_column, params_contains, params_getitem.
  rewrite Hd, bind_inr_l, (getitem_has_column _ _ _ Hm); cbn [negb].
  rewrite Hm, bind_inr_l; reflexivity.
Qed.

Lemma rectangular_getitem (self : SarracenDataFrame A) (label : option string)
  (col : list (num A)) :
  rectangular self -> self_getitem self label = inr col ->
  List.length col = len self.
Proof.
  unfold rectangular; destruct label as [c |]; [| discriminate].
  cbn [self_getitem]; generalize (len self) (columns self); intros n df.
  induction df as [| [k s] df IH]; simpl; [discriminate |].
  intros Hrect; inversion Hrect as [| ? ? Hs Hdf]; subst.
  destruct (String.eqb k c); [intros [= <-]; reflexivity | auto].
Qed.

End ColumnCreators.

(** ** NaN in binary64 *)

Lemma Prim2SF_nan : Prim2SF nan = S754_nan.
Proof. reflexivity. Qed.

Lemma div_nan_r (a : float) : PrimFloat.div a nan = nan.
Proof.
  apply Prim2SF_inj; rewrite div_spec, Prim2SF_nan.
  unfold SF64div; destruct (Prim2SF a) as [[|] | [|] | | [|] m e]; reflexivity.
Qed.

Lemma ltb_nan_l (b : float) : PrimFloat.ltb nan b = false.
Proof. rewrite ltb_spec, Prim2SF_nan; reflexivity. Qed.

Lemma ltb_nan_r (a : float) : PrimFloat.ltb a nan = false.
Proof.
  rewrite ltb_spec, Prim2SF_nan.
  destruct (Prim2SF a) as [[|] | [|] | | [|] m e]; reflexivity.
Qed.

Lemma pixel_index_nan (kernel : BaseKernel binary64)
  (center h origin : num binary64) (pixel_count : Z) :
  pixel_index_min kernel center h origin nan pixel_count = nan
  /\ pixel_index_max kernel center h origin nan pixel_count = nan.
Proof.
  unfold pixel_index_min, pixel_index_max, clip; cbn [div rint ltb binary64].
  rewrite !div_nan_r.
  change (B64.rint nan) with nan.
  rewrite !ltb_nan_l, !ltb_nan_r; split; reflexivity.
Qed.

Lemma process_part_nan_width (kernel : BaseKernel binary64)
  (pixwidthy xmin ymin : num binary64) (pixcountx pixcounty : Z)
  (cx cy : Particle binary64 -> num binary64) (r : Particle binary64)
  (image : list (list (num binary64))) :
  process_part kernel nan pixwidthy xmin ymin pixcountx image
    (part_of kernel nan pixwidthy xmin ymin pixcountx pixcounty cx cy r)
  = inl (ValueError nan_to_int).
Proof.
  unfold process_part, precompute_dx2i, ipix_range; cbn [part_ipixmin part_of].
  rewrite (proj1 (pixel_index_nan kernel (cx r) (r_h r) xmin pixcountx)).
  reflexivity.
Qed.

(** ** Steps of a method *)

Lemma mbind_inr {A : Arith} {X Y : Type} (m : Method A X) (f : X -> Method A Y)
  (self self' : SarracenDataFrame A) (v : X) :
  m self = (self', inr v) -> mbind m f self = f v self'.
Proof. unfold mbind; intros ->; reflexivity. Qed.

Lemma mbind_inl {A : Arith} {X Y : Type} (m : Method A X) (f : X -> Method A Y)
  (self self' : SarracenDataFrame A) (e : exn) :
  m self = (self', inl e) -> mbind m f self = (self', inl e).
Proof. unfold mbind; intros ->; reflexivity. Qed.

Lemma mbind_read {A : Arith} {X Y : Type} (g : SarracenDataFrame A -> Result X)
  (f : X -> Method A Y) (self : SarracenDataFrame A) :
  mbind (read g) f self
  = match g self with
    | inl e => (self, inl e)
    | inr v => f v self
    end.
Proof. unfold mbind, read; destruct (g self); reflexivity. Qed.

Lemma mbind_assign {A : Arith} {Y : Type} (key : string) (col : list (num A))
  (f : unit -> Method A Y) (self : SarracenDataFrame A) :
  mbind (assign key col) f self
  = f tt (with_columns self (setitem (columns self) key col)).
Proof. reflexivity. Qed.

(** ** The cells between the bounds of a row *)

Lemma existsb_range (lo hi i : Z) :
  existsb (Z.eqb i) (range lo hi) = within lo hi i.
Proof.
  unfold within; destruct ((lo <=? i) && (i <? hi)) eqn:E.
  - apply existsb_exists; exists i; split; [| apply Z.eqb_refl].
    apply In_range; lia.
  - destruct (existsb (Z.eqb i) (range lo hi)) eqn:E'; [| reflexivity].
    apply existsb_exists in E'; destruct E' as (k & Hk & Hik).
    apply Z.eqb_eq in Hik; subst k; apply In_range in Hk; lia.
Qed.

Lemma pix_ranges_bounds {A : Arith} (part : Part A) (jpixs ipixs : list Z) :
  jpix_range part = inr jpixs -> ipix_range part = inr ipixs ->
  exists b, int_bounds part b
            /\ forall j i, covers jpixs ipixs j i = inside b j i.
Proof.
  unfold jpix_range, ipix_range; intros Hj Hi.
  destruct (py_int (part_ipixmin part)) as [e | ilo] eqn:E1; [discriminate Hi |].
  destruct (py_int (part_ipixmax part)) as [e | ihi] eqn:E2; [discriminate Hi |].
  destruct (py_int (part_jpixmin part)) as [e | jlo] eqn:E3; [discriminate Hj |].
  destruct (py_int (part_jpixmax part)) as [e | jhi] eqn:E4; [discriminate Hj |].
  rewrite !bind_inr_l in Hi, Hj; unfold ret in Hi, Hj.
  injection Hi as <-; injection Hj as <-.
  exists (ilo, ihi, jlo, jhi); split; [repeat split; assumption |].
  intros j i; unfold covers, inside; rewrite !existsb_range; reflexivity.
Qed.

Lemma combine_map_l {X Y V : Type} (f : X -> Y) (l : list X) (l' : list V) :
  combine (map f l) l' = map (fun p => (f (fst p), snd p)) (combine l l').
Proof.
  revert l'; induction l as [| a l IH]; intros [| b l']; simpl;
    [reflexivity | reflexivity | reflexivity | rewrite IH; reflexivity].
Qed.

Lemma fold_left_map {X Y V : Type} (g : V -> Y -> V) (f : X -> Y) (l : list X)
  (a : V) :
  fold_left g (map f l) a = fold_left (fun acc x => g acc (f x)) l a.
Proof. revert a; induction l as [| b l IH]; simpl; auto. Qed.

Lemma Forall2_map_l {X Y V : Type} (P : Y -> V -> Prop) (f : X -> Y)
  (l : list X) (l' : list V) :
  Forall2 P (map f l) l' -> Forall2 (fun a b => P (f a) b) l l'.
Proof.
  revert l'; induction l as [| a l IH]; intros l' H; inversion H; subst;
    constructor; auto.
Qed.

Section CellValues.

Context {A : Arith}.
Variable bound : Z.
Hypothesis IC : IntConv A bound.
Variable kernel : BaseKernel A.
Variables pixwidthx pixwidthy xmin ymin : num A.
Variables pixcountx pixcounty : Z.
Hypothesis Hnx : 0 <= pixcountx <= bound.
Hypothesis Hny : 0 <= pixcounty <= bound.

(** The rows of a loop that ran to its end, with their integer bounds. *)
Lemma rows_bounds (pcs : list (Part A * (list Z * list Z))) :
  Forall (fun pc => clipped pixcountx pixcounty (fst pc)
                    /\ part_cells pixwidthx xmin (fst pc) = inr (snd pc)) pcs ->
  exists bs,
    Forall2 int_bounds (map fst pcs) bs
    /\ forall j i (a : num A),
         fold_left
           (fun acc pc =>
              if covers (fst (snd pc)) (snd (snd pc)) j i
              then add acc (contribution kernel pixwidthx pixwidthy xmin ymin
                              (fst pc) j i)
              else acc)
           pcs a
         = fold_left
             (fun acc pb =>
                if inside (snd pb) j i
                then add acc (contribution kernel pixwidthx pixwidthy xmin ymin
                                (fst pb) j i)
                else acc)
             (combine (map fst pcs) bs) a.
Proof.
  induction 1 as [| [part [jpixs ipixs]] pcs (Hc & Hcells) Hp (bs & Hb & Hf)].
  - exists []; split; [constructor | reflexivity].
  - cbn [fst snd] in Hc, Hcells.
    destruct (part_cells_ranges bound IC pixwidthx xmin pixcountx pixcounty Hnx
                Hny part jpixs ipixs Hc Hcells) as (Ej & Ei & _).
    destruct (pix_ranges_bounds part jpixs ipixs Ej Ei) as (b & Hib & Hcov).
    exists (b :: bs); split; [constructor; assumption |].
    intros j i a; cbn [map combine fold_left fst snd].
    rewrite Hcov; apply Hf.
Qed.

(** The value of each cell of the grid a call returns. *)
Lemma interpolate2D_cells (data : Frame (num A)) (x y target : string)
  (g : list (list (num A))) :
  interpolate2D data x y target kernel pixwidthx pixwidthy xmin ymin pixcountx
    pixcounty = inr g ->
  exists rows bs,
    (parts <- build_parts data x y target kernel pixwidthx pixwidthy xmin ymin
                pixcountx pixcounty ;;
     itertuples parts) = inr rows
    /\ Forall2 int_bounds rows bs
    /\ forall j i, 0 <= j < pixcounty -> 0 <= i < pixcountx ->
         cell g j i
         = cell_total kernel pixwidthx pixwidthy xmin ymin j i (combine rows bs).
Proof.
  intros H.
  destruct (interpolate2D_loop bound IC kernel pixwidthx pixwidthy xmin ymin
              pixcountx pixcounty Hnx Hny data x y target g H)
    as (rows & cells & Hrows & Hm & Hpcs & ->).
  destruct (rows_bounds _ Hpcs) as (bs & Hb & Hf).
  assert (Hfst : map fst (combine rows cells) = rows).
  { apply mapM_inr_length in Hm; clear - Hm; revert cells Hm.
    induction rows as [| r rows IH]; intros [| c cells] Hm; simpl in *;
      try reflexivity; try discriminate Hm.
    rewrite IH by congruence; reflexivity. }
  rewrite Hfst in Hb, Hf.
  exists rows, bs; split; [exact Hrows |]. split; [exact Hb |].
  intros j i Hj Hi.
  destruct (fold_accumulate_cells bound IC kernel pixwidthx pixwidthy xmin ymin
              pixcountx pixcounty Hnx Hny _ _ (np_zeros2_shape _ _) Hpcs)
    as (_ & Hcell).
  rewrite Hcell by lia.
  rewrite cell_zeros by assumption; apply Hf.
Qed.

(** The table [dx2i] of a row: the entries between the bounds along x hold
    the squared distances. *)
Lemma precompute_dx2i_entries (part : Part A) (table : list (num A))
  (ilo ihi i : Z) :
  clipped pixcountx pixcounty part ->
  py_int (part_ipixmin part) = inr ilo -> py_int (part_ipixmax part) = inr ihi ->
  precompute_dx2i pixwidthx xmin pixcountx part = inr table ->
  ilo <= i < ihi ->
  nth (Z.to_nat i) table (of_int 0) = dx2 pixwidthx xmin part i.
Proof.
  intros Hc Elo Ehi Ht Hi.
  assert (Er : ipix_range part = inr (range ilo ihi))
    by (unfold ipix_range; rewrite Elo, Ehi; reflexivity).
  rewrite (precompute_dx2i_table bound IC _ _ _ pixcounty Hnx _ Hc), Er in Ht.
  rewrite bind_inr_l in Ht.
  destruct (mapM _ _) as [e | u]; [discriminate Ht |].
  rewrite bind_inr_l in Ht; unfold ret in Ht; injection Ht as <-.
  apply dx2_table_nth; [| apply In_range; exact Hi].
  exact (ipix_range_in bound IC _ _ Hnx _ _ Hc Er).
Qed.

End CellValues.

Module B64MonoLaws.

Import B64Laws B64AddLaws B64Round.

(** *** Brackets *)

Lemma mul_cancel_lt (a b c : Z) : 0 < c -> a * c < b * c -> a < b.
Proof. intros Hc H; apply Z.mul_lt_mono_pos_r in H; assumption. Qed.

Lemma mul_cancel_le (a b c : Z) : 0 < c -> a * c <= b * c -> a <= b.
Proof. intros Hc H; apply Z.mul_le_mono_pos_r in H; assumption. Qed.

(** From X1 / Y1 <= X2 / Y2 and X2 < c * Y2: X1 < c * Y1; and so on. *)
Lemma cross_lt (X1 Y1 X2 Y2 c : Z) :
  0 < Y1 -> 0 < Y2 -> X1 * Y2 <= X2 * Y1 -> X2 < c * Y2 -> X1 < c * Y1.
Proof.
  intros H1 H2 H Hc.
  apply (mul_cancel_lt _ _ Y2 H2).
  assert (X2 * Y1 < c * Y2 * Y1) by (apply Z.mul_lt_mono_pos_r; assumption).
  lia.
Qed.

Lemma cross_le (X1 Y1 X2 Y2 c : Z) :
  0 < Y1 -> 0 < Y2 -> X1 * Y2 <= X2 * Y1 -> X2 <= c * Y2 -> X1 <= c * Y1.
Proof.
  intros H1 H2 H Hc.
  apply (mul_cancel_le _ _ Y2 H2).
  assert (X2 * Y1 <= c * Y2 * Y1) by (apply Z.mul_le_mono_nonneg_r; lia).
  lia.
Qed.

Lemma cross_ge (X1 Y1 X2 Y2 c : Z) :
  0 < Y1 -> 0 < Y2 -> X1 * Y2 <= X2 * Y1 -> c * Y1 <= X1 -> c * Y2 <= X2.
Proof.
  intros H1 H2 H Hc.
  apply (mul_cancel_le _ _ Y1 H1).
  assert (c * Y1 * Y2 <= X1 * Y2) by (apply Z.mul_le_mono_nonneg_r; lia).
  lia.
Qed.

Lemma position_cases (X Y m : Z) :
  (X = m * Y /\ position X Y m = loc_Exact)
  \/ (X <> m * Y /\ 2 * X < (2 * m + 1) * Y /\ position X Y m = loc_Inexact Lt)
  \/ (X <> m * Y /\ 2 * X = (2 * m + 1) * Y /\ position X Y m = loc_Inexact Eq)
  \/ (X <> m * Y /\ 2 * X > (2 * m + 1) * Y /\ position X Y m = loc_Inexact Gt).
Proof.
  unfold position; destruct (Z.eqb_spec X (m * Y)) as [E | E]; [left; auto |].
  right; destruct (Z.compare_spec (2 * X) ((2 * m + 1) * Y)) as [H | H | H].
  - right; left; auto.
  - left; auto.
  - right; right; repeat split; auto; lia.
Qed.

(** Brackets are ordered as the values are. *)
Lemma bracket_mono (X1 Y1 X2 Y2 m1 m2 : Z) (l1 l2 : location) :
  0 < Y1 -> 0 < Y2 -> bracket X1 Y1 m1 l1 -> bracket X2 Y2 m2 l2 ->
  X1 * Y2 <= X2 * Y1 ->
  m1 < m2 \/ (m1 = m2 /\ loc_rank l1 <= loc_rank l2).
Proof.
  intros H1 H2 ((Hlo1 & Hhi1) & ->) ((Hlo2 & Hhi2) & ->) H.
  pose proof (cross_lt _ _ _ _ _ H1 H2 H Hhi2) as Hlt.
  assert (Hm : m1 < m2 + 1).
  { apply (mul_cancel_lt _ _ Y1 H1); lia. }
  destruct (Z.eq_dec m1 m2) as [<- | Hne]; [right; split; [reflexivity |] | lia].
  destruct (position_cases X2 Y2 m1) as [(E2 & ->) | [(N2 & E2 & ->) |
    [(N2 & E2 & ->) | (N2 & E2 & ->)]]];
  destruct (position_cases X1 Y1 m1) as [(E1 & ->) | [(N1 & E1 & ->) |
    [(N1 & E1 & ->) | (N1 & E1 & ->)]]]; cbn [loc_rank]; try lia; exfalso.
  - assert (X1 <= m1 * Y1) by (apply (cross_le _ _ _ _ _ H1 H2 H); lia); lia.
  - assert (X1 <= m1 * Y1) by (apply (cross_le _ _ _ _ _ H1 H2 H); lia); lia.
  - assert (X1 <= m1 * Y1) by (apply (cross_le _ _ _ _ _ H1 H2 H); lia); lia.
  - assert (2 * X1 < (2 * m1 + 1) * Y1)
      by (apply (cross_lt (2 * X1) Y1 (2 * X2) Y2); lia); lia.
  - assert (2 * X1 < (2 * m1 + 1) * Y1)
      by (apply (cross_lt (2 * X1) Y1 (2 * X2) Y2); lia); lia.
  - assert (2 * X1 <= (2 * m1 + 1) * Y1)
      by (apply (cross_le (2 * X1) Y1 (2 * X2) Y2); lia); lia.
Qed.

Lemma cross_compare (X Y X' Y' c : Z) :
  0 < Y -> 0 < Y' -> X * Y' = X' * Y -> (X ?= c * Y) = (X' ?= c * Y').
Proof.
  intros H1 H2 E.
  destruct (Z.compare_spec X (c * Y)) as [H | H | H];
    destruct (Z.compare_spec X' (c * Y')) as [H' | H' | H'];
    try reflexivity; exfalso.
  - assert (X < c * Y) by (apply (cross_lt X Y X' Y'); lia); lia.
  - assert (X' <= c * Y') by (apply (cross_le X' Y' X Y); lia); lia.
  - assert (X' < c * Y') by (apply (cross_lt X' Y' X Y); lia); lia.
  - assert (X' < c * Y') by (apply (cross_lt X' Y' X Y); lia); lia.
  - assert (X <= c * Y) by (apply (cross_le X Y X' Y'); lia); lia.
  - assert (X < c * Y) by (apply (cross_lt X Y X' Y'); lia); lia.
Qed.

(** A bracket depends on the ratio alone. *)
Lemma bracket_scale (X Y X' Y' m : Z) (l : location) :
  0 < Y -> 0 < Y' -> X * Y' = X' * Y -> bracket X Y m l -> bracket X' Y' m l.
Proof.
  intros H1 H2 E ((Hlo & Hhi) & ->).
  assert (Hlo' : m * Y' <= X') by (apply (cross_ge X Y X' Y'); lia).
  assert (Hhi' : X' < (m + 1) * Y') by (apply (cross_lt X' Y' X Y); lia).
  split; [split; assumption |].
  unfold position; rewrite !Z.eqb_compare.
  rewrite (cross_compare X Y X' Y' m H1 H2 E).
  rewrite (cross_compare (2 * X) Y (2 * X') Y' (2 * m + 1) H1 H2) by lia.
  reflexivity.
Qed.

Lemma round_nearest_even_mono (m1 m2 : Z) (l1 l2 : location) :
  m1 < m2 \/ (m1 = m2 /\ loc_rank l1 <= loc_rank l2) ->
  round_nearest_even m1 l1 <= round_nearest_even m2 l2.
Proof.
  assert (Hb : forall m l, m <= round_nearest_even m l <= m + 1).
  { intros m [| []]; cbn [round_nearest_even]; try lia.
    destruct (Z.even m); lia. }
  intros [H | (<- & H)].
  - pose proof (Hb m1 l1); pose proof (Hb m2 l2); lia.
  - destruct l1 as [| []], l2 as [| []]; cbn [loc_rank] in H;
      cbn [round_nearest_even]; try lia; destruct (Z.even m1); lia.
Qed.


(** *** Ordinals *)

Lemma pow2_pos (k : Z) : 0 <= k -> 0 < 2 ^ k.
Proof. intros H; apply Z.pow_pos_nonneg; lia. Qed.

Lemma pow2_split (a b : Z) : 0 <= a -> 0 <= b -> 2 ^ (a + b) = 2 ^ a * 2 ^ b.
Proof. intros; apply Z.pow_add_r; assumption. Qed.

Lemma pow2_double_le (a b : Z) : 0 <= a < b -> 2 * 2 ^ a <= 2 ^ b.
Proof.
  intros H; rewrite <- Z.pow_succ_r by lia.
  apply Z.pow_le_mono_r; lia.
Qed.

Lemma ordinal_lt (e1 m1 e2 m2 : Z) :
  canonical e1 m1 -> canonical e2 m2 -> e1 < e2 ->
  ordinal e1 m1 < ordinal e2 m2.
Proof.
  intros (He1 & Hm1 & _) (He2 & _ & Hm2) H; unfold ordinal.
  specialize (Hm2 ltac:(lia)).
  assert ((e1 + 1075) * 2 ^ 52 <= (e2 + 1074) * 2 ^ 52)
    by (apply Z.mul_le_mono_nonneg_r; lia).
  lia.
Qed.

Lemma ordinal_nonneg (e m : Z) : canonical e m -> 0 <= ordinal e m.
Proof.
  intros (He & Hm & _); unfold ordinal.
  assert (0 <= (e + 1074) * 2 ^ 52) by (apply Z.mul_nonneg_nonneg; lia).
  lia.
Qed.

Lemma ordinal_even (e m : Z) : Z.even (ordinal e m) = Z.even m.
Proof.
  unfold ordinal.
  replace ((e + 1074) * 2 ^ 52 + m) with (m + 2 * ((e + 1074) * 2 ^ 51)) by lia.
  apply Z.even_add_mul_2.
Qed.

Lemma ordinal_round (e m : Z) (l : location) :
  round_nearest_even (ordinal e m) l = ordinal e (round_nearest_even m l).
Proof.
  destruct l as [| []]; cbn [round_nearest_even]; try reflexivity.
  - rewrite ordinal_even; destruct (Z.even m); unfold ordinal; lia.
  - unfold ordinal; lia.
Qed.

(** Canonical brackets are ordered as the values are. *)
Lemma canonical_mono (P1 Q1 P2 Q2 e1 m1 e2 m2 : Z) (l1 l2 : location) :
  0 < Q1 -> 0 < Q2 -> canonical e1 m1 -> canonical e2 m2 ->
  bracket P1 (Q1 * 2 ^ (e1 + 1074)) m1 l1 ->
  bracket P2 (Q2 * 2 ^ (e2 + 1074)) m2 l2 ->
  P1 * Q2 <= P2 * Q1 ->
  ordinal e1 m1 < ordinal e2 m2
  \/ (ordinal e1 m1 = ordinal e2 m2 /\ loc_rank l1 <= loc_rank l2).
Proof.
  intros HQ1 HQ2 C1 C2 B1 B2 H.
  destruct (Z.lt_trichotomy e1 e2) as [Hlt | [<- | Hgt]].
  - left; apply ordinal_lt; assumption.
  - destruct C1 as (He & _).
    pose proof (pow2_pos (e1 + 1074) ltac:(lia)) as Hp.
    destruct (bracket_mono P1 (Q1 * 2 ^ (e1 + 1074)) P2 (Q2 * 2 ^ (e1 + 1074))
                m1 m2 l1 l2) as [Hm | (-> & Hl)]; try assumption;
      try (apply Z.mul_pos_pos; assumption).
    + rewrite !Z.mul_assoc.
      apply Z.mul_le_mono_nonneg_r; lia.
    + left; unfold ordinal; lia.
    + right; split; [reflexivity | assumption].
  - exfalso.
    destruct C1 as (He1 & Hm1 & Hn1), C2 as (He2 & Hm2 & _).
    specialize (Hn1 ltac:(lia)).
    destruct B1 as ((Hlo1 & _) & _), B2 as ((_ & Hhi2) & _).
    pose proof (pow2_pos (e2 + 1074) ltac:(lia)) as Ha.
    set (a := 2 ^ (e2 + 1074)) in *.
    assert (Hb : 2 * a <= 2 ^ (e1 + 1074))
      by (apply pow2_double_le; lia).
    set (b := 2 ^ (e1 + 1074)) in *.
    assert (T : 0 < Q1 * Q2 * a) by (repeat apply Z.mul_pos_pos; assumption).
    assert (L1 : 2 ^ 52 * (Q1 * (2 * a)) <= m1 * (Q1 * b)).
    { apply Z.mul_le_mono_nonneg;
        [lia | lia | apply Z.mul_nonneg_nonneg; lia
         | apply Z.mul_le_mono_nonneg_l; lia]. }
    assert (L2 : 2 ^ 52 * (Q1 * (2 * a)) * Q2 <= P1 * Q2).
    { apply Z.mul_le_mono_nonneg_r; lia. }
    assert (U1 : (m2 + 1) * (Q2 * a) <= 2 ^ 53 * (Q2 * a)).
    { apply Z.mul_le_mono_nonneg_r; [apply Z.mul_nonneg_nonneg |]; lia. }
    assert (U2 : P2 * Q1 < 2 ^ 53 * (Q2 * a) * Q1).
    { apply Z.mul_lt_mono_pos_r; lia. }
    change (2 ^ 53) with (2 * 2 ^ 52) in U2.
    lia.
Qed.

Lemma rounds_to_nonneg (P Q a : Z) : rounds_to P Q a -> 0 <= a.
Proof.
  intros (e & m & l & C & _ & ->).
  pose proof (ordinal_nonneg e m C).
  assert (ordinal e m <= round_nearest_even (ordinal e m) l)
    by (destruct l as [| []]; cbn [round_nearest_even]; try lia;
        destruct (Z.even _); lia).
  unfold top; lia.
Qed.

Lemma rounds_to_mono (P1 Q1 a1 P2 Q2 a2 : Z) :
  0 < Q1 -> 0 < Q2 -> rounds_to P1 Q1 a1 -> rounds_to P2 Q2 a2 ->
  P1 * Q2 <= P2 * Q1 -> a1 <= a2.
Proof.
  intros HQ1 HQ2 (e1 & m1 & l1 & C1 & B1 & ->) (e2 & m2 & l2 & C2 & B2 & ->) H.
  pose proof (canonical_mono _ _ _ _ _ _ _ _ _ _ HQ1 HQ2 C1 C2 B1 B2 H) as Hc.
  apply round_nearest_even_mono in Hc; lia.
Qed.

(** Rounding is monotone. *)
Lemma rounds_mono (P1 Q1 o1 P2 Q2 o2 : Z) :
  0 < Q1 -> 0 < Q2 -> rounds P1 Q1 o1 -> rounds P2 Q2 o2 ->
  P1 * Q2 <= P2 * Q1 -> o1 <= o2.
Proof.
  intros HQ1 HQ2 (a1 & R1 & ->) (a2 & R2 & ->) H.
  pose proof (rounds_to_nonneg _ _ _ R1) as N1.
  pose proof (rounds_to_nonneg _ _ _ R2) as N2.
  destruct P1 as [| p1 | p1], P2 as [| p2 | p2]; cbn [Z.abs Z.sgn] in *;
    try lia.
  - pose proof (rounds_to_mono _ _ _ _ _ _ HQ1 HQ2 R1 R2 H); lia.
  - assert (a2 <= a1); [| lia].
    apply (rounds_to_mono _ _ _ _ _ _ HQ2 HQ1 R2 R1).
    change (Z.neg p1) with (- Z.pos p1) in H.
    change (Z.neg p2) with (- Z.pos p2) in H. lia.
Qed.


(** *** Shifting right keeps the bracket *)

Lemma shr_1_r (mrs : shr_record) :
  0 <= shr_m mrs -> shr_r (shr_1 mrs) = Z.odd (shr_m mrs).
Proof.
  destruct mrs as [m r s]; cbn [shr_m]; intros Hm.
  destruct m as [| [p | p |] | p]; cbn [shr_1 shr_r]; try reflexivity; lia.
Qed.

Lemma shr_1_s (mrs : shr_record) :
  shr_s (shr_1 mrs) = shr_r mrs || shr_s mrs.
Proof.
  destruct mrs as [m r s]; destruct m as [| [p | p |] | [p | p |]]; reflexivity.
Qed.

Lemma fexp_eq (e : Z) : fexp prec emax e = Z.max (e - 53) (-1074).
Proof. reflexivity. Qed.

Lemma shr_1_bracket (X Y : Z) (mrs : shr_record) :
  0 < Y -> 0 <= shr_m mrs ->
  bracket X Y (shr_m mrs) (loc_of_shr_record mrs) ->
  bracket X (2 * Y) (shr_m (shr_1 mrs)) (loc_of_shr_record (shr_1 mrs)).
Proof.
  intros HY Hm ((Hlo & Hhi) & Hl).
  pose proof (shr_1_m mrs Hm) as Em.
  pose proof (shr_1_r mrs Hm) as Er.
  pose proof (shr_1_s mrs) as Es.
  destruct (shr_1 mrs) as [m' r' s']; destruct mrs as [m r s].
  cbn [shr_m shr_r shr_s] in *; subst m' r' s'.
  assert (Hdm : m = 2 * (m / 2) + (if Z.odd m then 1 else 0))
    by (rewrite <- Zmod_odd; apply Z.div_mod; lia).
  set (q := m / 2) in *; clearbody q.
  destruct (position_cases X Y m) as [(E1 & P1) | [(N1 & E1 & P1) |
    [(N1 & E1 & P1) | (N1 & E1 & P1)]]]; rewrite P1 in Hl; clear P1;
  destruct (position_cases X (2 * Y) q) as [(E2 & P2) | [(N2 & E2 & P2) |
    [(N2 & E2 & P2) | (N2 & E2 & P2)]]];
  (split; [destruct (Z.odd m); lia |]); rewrite P2; clear P2;
  destruct r, s; try discriminate Hl; destruct (Z.odd m);
  cbn [loc_of_shr_record orb]; try reflexivity; exfalso; lia.
Qed.

Lemma iter_shr_1_bracket (p : positive) (X Y : Z) (mrs : shr_record) :
  0 < Y -> 0 <= shr_m mrs ->
  bracket X Y (shr_m mrs) (loc_of_shr_record mrs) ->
  bracket X (Y * 2 ^ Z.pos p) (shr_m (iter_pos shr_1 p mrs))
    (loc_of_shr_record (iter_pos shr_1 p mrs)).
Proof.
  revert Y mrs; induction p as [p IH | p IH |]; intros Y mrs HY Hm Hb;
    cbn [iter_pos].
  - assert (Hp : 0 < 2 ^ Z.pos p) by (apply pow2_pos; lia).
    assert (H1 : 0 <= shr_m (shr_1 mrs))
      by (rewrite shr_1_m by assumption; apply Z.div_pos; lia).
    assert (H2 : 0 <= shr_m (iter_pos shr_1 p (shr_1 mrs)))
      by (rewrite iter_pos_shr_1_m by assumption; apply Z.div_pos; lia).
    replace (Y * 2 ^ Z.pos p~1) with (2 * Y * 2 ^ Z.pos p * 2 ^ Z.pos p)
      by (rewrite pow2_xI; lia).
    apply IH; [lia | assumption |].
    apply IH; [lia | assumption |].
    apply shr_1_bracket; assumption.
  - assert (Hp : 0 < 2 ^ Z.pos p) by (apply pow2_pos; lia).
    assert (H2 : 0 <= shr_m (iter_pos shr_1 p mrs))
      by (rewrite iter_pos_shr_1_m by assumption; apply Z.div_pos; lia).
    replace (Y * 2 ^ Z.pos p~0) with (Y * 2 ^ Z.pos p * 2 ^ Z.pos p)
      by (rewrite pow2_xO; lia).
    apply IH; [lia | assumption |].
    apply IH; assumption.
  - replace (Y * 2 ^ 1) with (2 * Y) by lia.
    apply shr_1_bracket; assumption.
Qed.

Lemma shr_bracket (X Y : Z) (mrs : shr_record) (e n : Z) :
  0 < Y -> 0 <= shr_m mrs -> 0 <= n ->
  bracket X Y (shr_m mrs) (loc_of_shr_record mrs) ->
  snd (shr mrs e n) = e + n
  /\ shr_m (fst (shr mrs e n)) = shr_m mrs / 2 ^ n
  /\ bracket X (Y * 2 ^ n) (shr_m (fst (shr mrs e n)))
       (loc_of_shr_record (fst (shr mrs e n))).
Proof.
  intros HY Hm Hn Hb; destruct n as [| p | p]; cbn [shr fst snd]; [| | lia].
  - rewrite Z.add_0_r, Z.div_1_r, Z.mul_1_r; auto.
  - split; [reflexivity |]. split; [apply iter_pos_shr_1_m; assumption |].
    apply iter_shr_1_bracket; assumption.
Qed.

Lemma shr_record_of_loc_m (m : Z) (l : location) :
  shr_m (shr_record_of_loc m l) = m.
Proof. destruct l as [| []]; reflexivity. Qed.

Lemma loc_of_shr_record_of_loc (m : Z) (l : location) :
  loc_of_shr_record (shr_record_of_loc m l) = l.
Proof. destruct l as [| []]; reflexivity. Qed.

Lemma Zdigits2_bounds (m : Z) :
  0 < m -> 2 ^ (Zdigits2 m - 1) <= m < 2 ^ Zdigits2 m /\ 0 < Zdigits2 m.
Proof.
  destruct m as [| p | p]; try lia; intros _; cbn [Zdigits2].
  split; [apply digits2_pos_bounds | lia].
Qed.

(** The first shift puts the mantissa in its place. *)
Lemma shr_fexp_canonical (mx ex : Z) (lx : location) (X Y : Z) :
  0 <= mx -> 0 < Y -> bracket X Y mx lx ->
  ex <= fexp prec emax (Zdigits2 mx + ex) ->
  let e' := snd (shr_fexp prec emax mx ex lx) in
  let mrs' := fst (shr_fexp prec emax mx ex lx) in
  ex <= e' /\ canonical e' (shr_m mrs')
  /\ bracket X (Y * 2 ^ (e' - ex)) (shr_m mrs') (loc_of_shr_record mrs').
Proof.
  intros Hm HY Hb He; cbv zeta; unfold shr_fexp.
  set (n := fexp prec emax (Zdigits2 mx + ex) - ex).
  assert (Hn : 0 <= n) by (unfold n; lia).
  destruct (shr_bracket X Y (shr_record_of_loc mx lx) ex n HY) as (E1 & E2 & B);
    [rewrite shr_record_of_loc_m; exact Hm | exact Hn
     | rewrite shr_record_of_loc_m, loc_of_shr_record_of_loc; exact Hb |].
  rewrite shr_record_of_loc_m in E2.
  rewrite E1, E2 in *.
  replace (ex + n - ex) with n by lia.
  split; [lia |]. split; [| exact B].
  assert (Hpn : 0 < 2 ^ n) by (apply pow2_pos; exact Hn).
  unfold canonical.
  destruct (Z.eq_dec mx 0) as [-> | Hne].
  - cbn [Zdigits2] in *. rewrite Z.div_0_l by lia.
    unfold n in *; rewrite fexp_eq in *. lia.
  - destruct (Zdigits2_bounds mx ltac:(lia)) as ((Hlo & Hhi) & Hd).
    set (d := Zdigits2 mx) in *.
    unfold n in *; rewrite fexp_eq in *.
    split; [lia |]. split; [split |].
    + apply Z.div_pos; lia.
    + apply Z.div_lt_upper_bound; [lia |].
      rewrite <- pow2_split by lia.
      assert (2 ^ d <= 2 ^ (Z.max (d + ex - 53) (-1074) - ex + 53))
        by (apply Z.pow_le_mono_r; lia).
      lia.
    + intros He'.
      assert (En : Z.max (d + ex - 53) (-1074) - ex = d - 53) by lia.
      rewrite En in *.
      apply Z.div_le_lower_bound; [lia |].
      rewrite <- pow2_split by lia.
      replace (d - 53 + 52) with (d - 1) by lia; lia.
Qed.

(** The second shift takes 2^53 to 2^52 and leaves the others. *)
Lemma shr_fexp_renormalize (m e : Z) :
  -1074 <= e -> 0 <= m <= 2 ^ 53 -> (-1074 < e -> 2 ^ 52 <= m) ->
  let e' := snd (shr_fexp prec emax m e loc_Exact) in
  let m' := shr_m (fst (shr_fexp prec emax m e loc_Exact)) in
  canonical e' m' /\ ordinal e' m' = ordinal e m /\ (m' = 0 -> m = 0).
Proof.
  intros He Hm Hn; cbv zeta.
  destruct (Z.eq_dec m (2 ^ 53)) as [-> | Hne].
  - unfold shr_fexp.
    change (Zdigits2 (2 ^ 53)) with 54.
    rewrite fexp_eq.
    replace (Z.max (54 + e - 53) (-1074) - e) with 1 by lia.
    cbn [shr shr_record_of_loc iter_pos fst snd].
    change (shr_m (shr_1 {| shr_m := 2 ^ 53; shr_r := false; shr_s := false |}))
      with (2 ^ 52).
    unfold canonical, ordinal; lia.
  - unfold shr_fexp.
    assert (Hs : fexp prec emax (Zdigits2 m + e) - e <= 0).
    { rewrite fexp_eq.
      destruct (Z.eq_dec m 0) as [-> | Hz]; [cbn [Zdigits2]; lia |].
      destruct (Zdigits2_bounds m ltac:(lia)) as ((Hlo & _) & Hd).
      assert (Zdigits2 m <= 53); [| lia].
      destruct (Z_le_gt_dec (Zdigits2 m) 53) as [| Hgt]; [assumption |].
      assert (2 ^ 53 <= 2 ^ (Zdigits2 m - 1)) by (apply Z.pow_le_mono_r; lia).
      lia. }
    destruct (fexp prec emax (Zdigits2 m + e) - e) as [| p | p]; [| lia |];
      cbn [shr shr_record_of_loc fst snd shr_m];
      unfold canonical; repeat split; try lia; auto.
Qed.


(** *** [binary_round_aux] rounds to the nearest, ties to even *)

Lemma canonical_digits (e : Z) (p : positive) :
  canonical e (Z.pos p) -> fexp prec emax (Z.pos (digits2_pos p) + e) = e.
Proof.
  intros (He & (_ & Hhi) & Hn); rewrite fexp_eq.
  pose proof (digits2_pos_le p 53 Hhi ltac:(lia)) as Hd.
  destruct (Z.eq_dec e (-1074)) as [-> | Hne]; [lia |].
  specialize (Hn ltac:(lia)).
  pose proof (digits2_pos_bounds p) as (_ & Hp).
  destruct (Z_le_gt_dec (Z.pos (digits2_pos p)) 52) as [Hle | Hgt]; [| lia].
  assert (2 ^ Z.pos (digits2_pos p) <= 2 ^ 52) by (apply Z.pow_le_mono_r; lia).
  lia.
Qed.

Lemma round_nearest_even_bounds (m : Z) (l : location) :
  m <= round_nearest_even m l <= m + 1.
Proof.
  destruct l as [| []]; cbn [round_nearest_even]; try lia.
  destruct (Z.even m); lia.
Qed.

Lemma binary_round_aux_rounds (sx : bool) (mx ex : Z) (lx : location)
  (X Y P Q B : Z) :
  0 <= mx -> 0 < Y -> 0 < Q -> bracket X Y mx lx ->
  ex <= fexp prec emax (Zdigits2 mx + ex) ->
  0 <= ex + B -> 1074 <= B ->
  X * Q * 2 ^ (ex + B) = P * Y * 2 ^ (B - 1074) ->
  let f := binary_round_aux prec emax sx mx ex lx in
  valid_binary f = true /\ is_nan f = false /\ sign_of f = sx
  /\ rounds_to P Q (magnitude f).
Proof.
  intros Hm HY HQ Hb He HB1 HB2 E; cbv zeta; unfold binary_round_aux.
  pose proof (shr_fexp_canonical mx ex lx X Y Hm HY Hb He) as (He' & C & Bk).
  cbv zeta in He', C, Bk.
  destruct (shr_fexp prec emax mx ex lx) as [mrs' e']; cbn [fst snd] in *.
  set (m' := shr_m mrs') in *; set (l' := loc_of_shr_record mrs') in *.
  assert (Bk' : bracket P (Q * 2 ^ (e' + 1074)) m' l').
  { destruct C as (Ce & _).
    pose proof (pow2_pos (e' + 1074) ltac:(lia)) as Ha.
    pose proof (pow2_pos (B - 1074) ltac:(lia)) as Hb'.
    pose proof (pow2_pos (e' - ex) ltac:(lia)) as Hc.
    apply (bracket_scale X (Y * 2 ^ (e' - ex))); try assumption;
      try (apply Z.mul_pos_pos; assumption).
    apply (Z.mul_reg_r _ _ (2 ^ (B - 1074))); [lia |].
    assert (Hp : 2 ^ (e' + 1074) * 2 ^ (B - 1074) = 2 ^ (e' - ex) * 2 ^ (ex + B)).
    { rewrite <- !pow2_split by lia; f_equal; lia. }
    set (a := 2 ^ (e' + 1074)) in *; set (b := 2 ^ (B - 1074)) in *.
    set (c := 2 ^ (e' - ex)) in *; set (d := 2 ^ (ex + B)) in *.
    replace (X * (Q * a) * b) with (X * Q * (a * b)) by ring.
    rewrite Hp.
    replace (X * Q * (c * d)) with (X * Q * d * c) by ring.
    rewrite E; ring. }
  pose proof (round_nearest_even_bounds m' l') as Hr.
  set (m'' := round_nearest_even m' l') in *.
  destruct (shr_fexp_renormalize m'' e') as (C2 & Eo & Hz);
    [destruct C; lia | destruct C as (_ & ? & _); lia
     | destruct C as (_ & _ & Hn); intros H; specialize (Hn H); lia |].
  cbv zeta in C2, Eo, Hz.
  destruct (shr_fexp prec emax m'' e' loc_Exact) as [mrs'' e''];
    cbn [fst snd] in *.
  assert (R : forall a, a = Z.min (ordinal e'' (shr_m mrs'')) top ->
                        rounds_to P Q a).
  { intros a ->; exists e', m', l'; repeat split; try apply C; try apply Bk'.
    rewrite ordinal_round; fold m''; rewrite Eo; reflexivity. }
  destruct (shr_m mrs'') as [| p | p] eqn:Ef.
  - repeat split; cbn [magnitude]; apply R.
    specialize (Hz eq_refl).
    assert (m' = 0) by (destruct C as (_ & ? & _); lia).
    assert (e' = -1074) by (destruct C as (? & _ & Hn); lia).
    rewrite Eo, Hz; subst e'; unfold ordinal, top; reflexivity.
  - change (emax - prec) with 971.
    destruct (Z.leb_spec e'' 971) as [Hle | Hgt].
    + unfold valid_binary; cbn [SpecFloat.valid_binary is_nan sign_of magnitude].
      unfold bounded.
      split; [| split; [reflexivity | split; [reflexivity |]]].
      * apply andb_true_iff; split; [| apply Z.leb_le; exact Hle].
        unfold canonical_mantissa; apply Z.eqb_eq, canonical_digits; exact C2.
      * apply R; destruct C2 as (? & ? & _); unfold ordinal, top.
        assert ((e'' + 1074) * 2 ^ 52 <= 2045 * 2 ^ 52)
          by (apply Z.mul_le_mono_nonneg_r; lia).
        lia.
    + unfold valid_binary; cbn [SpecFloat.valid_binary is_nan sign_of magnitude].
      repeat split.
      apply R; destruct C2 as (? & ? & Hn); specialize (Hn ltac:(lia)).
      unfold ordinal, top.
      assert (2046 * 2 ^ 52 <= (e'' + 1074) * 2 ^ 52)
        by (apply Z.mul_le_mono_nonneg_r; lia).
      lia.
  - destruct C2 as (_ & ? & _); lia.
Qed.


(** *** Finite floats and their order *)

Lemma rounds_zero (Q : Z) : 0 < Q -> rounds 0 Q 0.
Proof.
  intros HQ; exists 0; split; [| reflexivity].
  exists (-1074), 0, loc_Exact; repeat split; unfold canonical; lia.
Qed.

Lemma valid_canonical (s : bool) (m : positive) (e : Z) :
  valid_binary (S754_finite s m e) = true ->
  canonical e (Z.pos m) /\ e <= 971.
Proof.
  intros V; pose proof (bounded_digits m e V) as (H1 & H2 & H3).
  split; [unfold canonical; repeat split; try lia; exact H3 |].
  unfold valid_binary in V; cbn [SpecFloat.valid_binary] in V.
  unfold bounded in V; apply andb_true_iff in V; destruct V as (_ & V).
  apply Z.leb_le in V; exact V.
Qed.

Lemma ordinal_below_top (e m : Z) :
  canonical e m -> e <= 971 -> ordinal e m < top.
Proof.
  intros (He & Hm & _) Hle; unfold ordinal, top.
  assert ((e + 1074) * 2 ^ 52 <= 2045 * 2 ^ 52)
    by (apply Z.mul_le_mono_nonneg_r; lia).
  lia.
Qed.

Lemma ordinal_pos (e : Z) (m : positive) :
  canonical e (Z.pos m) -> 0 < ordinal e (Z.pos m).
Proof.
  intros (He & _ & _); unfold ordinal.
  assert (0 <= (e + 1074) * 2 ^ 52) by (apply Z.mul_nonneg_nonneg; lia).
  lia.
Qed.

Lemma rounds_to_exact (e m : Z) :
  canonical e m -> e <= 971 ->
  rounds_to (m * 2 ^ (e + 1074)) 1 (ordinal e m).
Proof.
  intros C Hle; exists e, m, loc_Exact; split; [exact C |].
  split.
  - pose proof (pow2_pos (e + 1074) ltac:(destruct C; lia)).
    split; [lia |].
    unfold position; rewrite Z.mul_1_l, Z.eqb_refl; reflexivity.
  - cbn [round_nearest_even].
    pose proof (ordinal_below_top e m C Hle); lia.
Qed.

Lemma rounds_signed (s : bool) (P Q a : Z) :
  0 < P -> rounds_to P Q a -> rounds (cond_Zopp s P) Q (cond_Zopp s a).
Proof.
  intros HP R; exists a; destruct s; cbn [cond_Zopp].
  - rewrite Z.abs_opp, Z.abs_eq by lia; split; [exact R |].
    rewrite Z.sgn_neg by lia; lia.
  - rewrite Z.abs_eq by lia; split; [exact R |].
    rewrite Z.sgn_pos by lia; lia.
Qed.

(** A finite float is the rounding of its own value. *)
Lemma finite_rounds (f : spec_float) :
  valid_binary f = true -> is_fin f = true -> rounds (zval f) 1 (ord f).
Proof.
  destruct f as [s | s | | s m e]; try discriminate; intros V _.
  - unfold ord; cbn [zval sign_of magnitude]; destruct s; apply rounds_zero; lia.
  - apply valid_canonical in V; destruct V as (C & Hle).
    unfold ord; cbn [zval sign_of magnitude].
    apply rounds_signed; [| apply rounds_to_exact; assumption].
    apply Z.mul_pos_pos; [lia | apply pow2_pos; destruct C; lia].
Qed.

Lemma magnitude_bounds (f : spec_float) :
  valid_binary f = true -> 0 <= magnitude f <= top.
Proof.
  destruct f as [s | s | | s m e]; intros V; cbn [magnitude]; unfold top;
    try lia.
  apply valid_canonical in V; destruct V as (C & Hle).
  pose proof (ordinal_pos e m C); pose proof (ordinal_below_top _ _ C Hle).
  unfold top in *; lia.
Qed.

Lemma compare_cont_Eq (m1 m2 : positive) :
  Pos.compare_cont Eq m1 m2 = (Z.pos m1 ?= Z.pos m2).
Proof.
  rewrite Pos.compare_cont_spec; cbn [Z.compare].
  destruct (m1 ?= m2)%positive; reflexivity.
Qed.

(** The comparison of floats is that of their ordinals. *)
Lemma SFcompare_ord (f g : spec_float) :
  valid_binary f = true -> valid_binary g = true ->
  is_nan f = false -> is_nan g = false ->
  SFcompare f g = Some (ord f ?= ord g).
Proof.
  intros Vf Vg Nf Ng.
  assert (T : 0 < top) by (unfold top; lia).
  destruct f as [sf | sf | | sf mf ef]; try discriminate Nf;
    destruct g as [sg | sg | | sg mg eg]; try discriminate Ng;
    try (apply valid_canonical in Vf; destruct Vf as (Cf & Hf);
         pose proof (ordinal_pos _ _ Cf);
         pose proof (ordinal_below_top _ _ Cf Hf));
    try (apply valid_canonical in Vg; destruct Vg as (Cg & Hg);
         pose proof (ordinal_pos _ _ Cg);
         pose proof (ordinal_below_top _ _ Cg Hg));
    unfold ord; cbn [SFcompare sign_of magnitude];
    try (destruct sf, sg; cbn [cond_Zopp]; f_equal; symmetry;
         first [apply Z.compare_eq_iff | apply Z.compare_lt_iff
                | apply Z.compare_gt_iff]; lia).
  destruct sf, sg; cbn [cond_Zopp]; f_equal;
    try (symmetry; first [apply Z.compare_lt_iff | apply Z.compare_gt_iff];
         lia).
  - rewrite Z.compare_opp.
    destruct (Z.compare_spec ef eg) as [-> | Hlt | Hgt].
    + rewrite compare_cont_Eq.
      unfold ordinal; rewrite Z.add_compare_mono_l.
      rewrite (Z.compare_antisym (Z.pos mf) (Z.pos mg)); reflexivity.
    + symmetry; apply Z.compare_gt_iff, ordinal_lt; assumption.
    + symmetry; apply Z.compare_lt_iff, ordinal_lt; assumption.
  - destruct (Z.compare_spec ef eg) as [-> | Hlt | Hgt].
    + rewrite compare_cont_Eq.
      unfold ordinal; rewrite Z.add_compare_mono_l; reflexivity.
    + symmetry; apply Z.compare_lt_iff, ordinal_lt; assumption.
    + symmetry; apply Z.compare_gt_iff, ordinal_lt; assumption.
Qed.

Lemma ordinal_le_value (e1 m1 e2 m2 : Z) :
  canonical e1 m1 -> canonical e2 m2 -> ordinal e1 m1 <= ordinal e2 m2 ->
  m1 * 2 ^ (e1 + 1074) <= m2 * 2 ^ (e2 + 1074).
Proof.
  intros C1 C2 H.
  destruct (Z.lt_trichotomy e1 e2) as [Hlt | [<- | Hgt]].
  - destruct C1 as (He1 & Hm1 & _), C2 as (He2 & Hm2 & Hn2).
    specialize (Hn2 ltac:(lia)).
    pose proof (pow2_pos (e1 + 1074) ltac:(lia)) as Ha.
    assert (Hb : 2 * 2 ^ (e1 + 1074) <= 2 ^ (e2 + 1074))
      by (apply pow2_double_le; lia).
    set (a := 2 ^ (e1 + 1074)) in *; set (b := 2 ^ (e2 + 1074)) in *.
    assert (m1 * a <= 2 ^ 53 * a) by (apply Z.mul_le_mono_nonneg_r; lia).
    assert (2 ^ 52 * (2 * a) <= m2 * b)
      by (apply Z.mul_le_mono_nonneg; lia).
    change (2 ^ 53) with (2 * 2 ^ 52) in *; lia.
  - apply Z.mul_le_mono_nonneg_r;
      [apply Z.lt_le_incl, pow2_pos; destruct C1; lia | unfold ordinal in H; lia].
  - pose proof (ordinal_lt _ _ _ _ C2 C1 Hgt); lia.
Qed.

(** Finite floats are ordered as their values are. *)
Lemma ord_le_zval (f g : spec_float) :
  valid_binary f = true -> valid_binary g = true ->
  is_fin f = true -> is_fin g = true ->
  ord f <= ord g -> zval f <= zval g.
Proof.
  intros Vf Vg Ff Fg.
  assert (P : forall s m e, valid_binary (S754_finite s m e) = true ->
                0 < Z.pos m * 2 ^ (e + 1074)).
  { intros s m e V; apply valid_canonical in V; destruct V as ((? & _) & _).
    apply Z.mul_pos_pos; [lia | apply pow2_pos; lia]. }
  destruct f as [sf | sf | | sf mf ef]; try discriminate Ff;
    destruct g as [sg | sg | | sg mg eg]; try discriminate Fg;
    try pose proof (P _ _ _ Vf); try pose proof (P _ _ _ Vg);
    try (apply valid_canonical in Vf; destruct Vf as (Cf & Hf);
         pose proof (ordinal_pos _ _ Cf));
    try (apply valid_canonical in Vg; destruct Vg as (Cg & Hg);
         pose proof (ordinal_pos _ _ Cg));
    unfold ord; cbn [zval sign_of magnitude];
    try (destruct sf, sg; cbn [cond_Zopp]; lia).
  destruct sf, sg; cbn [cond_Zopp]; intros Hord; try lia.
  - pose proof (ordinal_le_value _ _ _ _ Cg Cf ltac:(lia)); lia.
  - apply ordinal_le_value; assumption.
Qed.


(** *** Sums, differences and quotients of finite floats *)

Lemma bracket_exact (m : Z) : bracket m 1 m loc_Exact.
Proof.
  split; [lia |]. unfold position; rewrite Z.mul_1_r, Z.eqb_refl; reflexivity.
Qed.

Lemma shl_align_value (m : positive) (ex ez : Z) :
  ez <= ex -> Z.pos (fst (shl_align m ex ez)) = Z.pos m * 2 ^ (ex - ez).
Proof.
  intros H; unfold shl_align.
  destruct (ez - ex) as [| d | d] eqn:E; cbn [fst].
  - replace (ex - ez) with 0 by lia; lia.
  - lia.
  - rewrite iter_xO_value; f_equal; f_equal; lia.
Qed.

Lemma binary_round_rounds (sx : bool) (p : positive) (ez : Z) :
  -1074 <= ez ->
  let f := binary_round prec emax sx p ez in
  valid_binary f = true /\ is_nan f = false /\ sign_of f = sx
  /\ rounds_to (Z.pos p * 2 ^ (ez + 1074)) 1 (magnitude f).
Proof.
  intros He; cbv zeta; unfold binary_round.
  set (fe := fexp prec emax (Z.pos (digits2_pos p) + ez)).
  assert (Hfe : -1074 <= fe) by (unfold fe; rewrite fexp_eq; lia).
  unfold shl_align.
  destruct (fe - ez) as [| d | d] eqn:E.
  - apply (binary_round_aux_rounds sx (Z.pos p) ez loc_Exact (Z.pos p) 1 _ 1
             1074); try lia.
    + apply bracket_exact.
    + cbn [Zdigits2]; fold fe; lia.
  - apply (binary_round_aux_rounds sx (Z.pos p) ez loc_Exact (Z.pos p) 1 _ 1
             1074); try lia.
    + apply bracket_exact.
    + cbn [Zdigits2]; fold fe; lia.
  - apply (binary_round_aux_rounds sx (Z.pos (Pos.iter xO p d)) fe loc_Exact
             (Z.pos (Pos.iter xO p d)) 1 _ 1 1074); try lia.
    + apply bracket_exact.
    + cbn [Zdigits2]; rewrite iter_xO_digits, Pos2Z.inj_add.
      replace (Z.pos (digits2_pos p) + Z.pos d + fe)
        with (Z.pos (digits2_pos p) + ez) by lia.
      fold fe; lia.
    + rewrite iter_xO_value.
      replace (ez + 1074) with (Z.pos d + (fe + 1074)) by lia.
      rewrite (pow2_split (Z.pos d) (fe + 1074)) by lia.
      change (2 ^ (1074 - 1074)) with 1; ring.
Qed.

Lemma binary_normalize_rounds (n ez : Z) :
  -1074 <= ez ->
  let f := binary_normalize prec emax n ez false in
  valid_binary f = true /\ is_nan f = false
  /\ rounds (n * 2 ^ (ez + 1074)) 1 (ord f).
Proof.
  intros He; cbv zeta.
  pose proof (pow2_pos (ez + 1074) ltac:(lia)) as Hp.
  destruct n as [| p | p]; cbn [binary_normalize].
  - repeat split; apply rounds_zero; lia.
  - destruct (binary_round_rounds false p ez He) as (V & N & Sg & R).
    split; [exact V |]. split; [exact N |].
    unfold ord; rewrite Sg.
    apply (rounds_signed false (Z.pos p * 2 ^ (ez + 1074)) 1 _);
      [apply Z.mul_pos_pos; lia | exact R].
  - destruct (binary_round_rounds true p ez He) as (V & N & Sg & R).
    split; [exact V |]. split; [exact N |].
    unfold ord; rewrite Sg.
    change (Z.neg p) with (- Z.pos p); rewrite Z.mul_opp_l.
    apply (rounds_signed true (Z.pos p * 2 ^ (ez + 1074)) 1 _);
      [apply Z.mul_pos_pos; lia | exact R].
Qed.

Lemma aligned_value (s : bool) (m : positive) (ex ez : Z) :
  -1074 <= ez <= ex ->
  cond_Zopp s (Z.pos (fst (shl_align m ex ez))) * 2 ^ (ez + 1074)
  = zval (S754_finite s m ex).
Proof.
  intros H; rewrite shl_align_value by lia; cbn [zval].
  replace (ex + 1074) with ((ex - ez) + (ez + 1074)) by lia.
  rewrite (pow2_split (ex - ez) (ez + 1074)) by lia.
  destruct s; cbn [cond_Zopp]; ring.
Qed.

Lemma SFadd_rounds (x y : spec_float) :
  valid_binary x = true -> valid_binary y = true ->
  is_fin x = true -> is_fin y = true ->
  is_nan (SFadd prec emax x y) = false
  /\ rounds (zval x + zval y) 1 (ord (SFadd prec emax x y)).
Proof.
  intros Vx Vy Fx Fy.
  destruct x as [sx | sx | | sx mx ex]; try discriminate Fx;
    destruct y as [sy | sy | | sy my ey]; try discriminate Fy;
    cbn [SFadd].
  - split; [destruct sx, sy; reflexivity |].
    destruct sx, sy; apply rounds_zero; lia.
  - split; [reflexivity |]. apply (finite_rounds _ Vy); reflexivity.
  - split; [reflexivity |]. rewrite Z.add_0_r.
    apply (finite_rounds _ Vx); reflexivity.
  - pose proof (valid_exponent _ _ _ Vx); pose proof (valid_exponent _ _ _ Vy).
    cbv zeta.
    destruct (binary_normalize_rounds
                (cond_Zopp sx (Z.pos (fst (shl_align mx ex (Z.min ex ey))))
                 + cond_Zopp sy (Z.pos (fst (shl_align my ey (Z.min ex ey)))))
                (Z.min ex ey) ltac:(lia)) as (_ & N & R).
    split; [exact N |].
    rewrite Z.mul_add_distr_r, !aligned_value in R by lia; exact R.
Qed.

Lemma SFsub_rounds (x y : spec_float) :
  valid_binary x = true -> valid_binary y = true ->
  is_fin x = true -> is_fin y = true ->
  is_nan (SFsub prec emax x y) = false
  /\ rounds (zval x - zval y) 1 (ord (SFsub prec emax x y)).
Proof.
  intros Vx Vy Fx Fy.
  destruct x as [sx | sx | | sx mx ex]; try discriminate Fx;
    destruct y as [sy | sy | | sy my ey]; try discriminate Fy;
    cbn [SFsub].
  - split; [destruct sx, sy; reflexivity |].
    destruct sx, sy; apply rounds_zero; lia.
  - split; [reflexivity |].
    assert (V' : valid_binary (S754_finite (negb sy) my ey) = true) by exact Vy.
    pose proof (finite_rounds _ V' eq_refl) as R.
    replace (zval (S754_zero sx) - zval (S754_finite sy my ey))
      with (zval (S754_finite (negb sy) my ey)); [exact R |].
    cbn [zval]; destruct sy; cbn [negb cond_Zopp]; lia.
  - split; [reflexivity |]. rewrite Z.sub_0_r.
    apply (finite_rounds _ Vx); reflexivity.
  - pose proof (valid_exponent _ _ _ Vx); pose proof (valid_exponent _ _ _ Vy).
    cbv zeta.
    destruct (binary_normalize_rounds
                (cond_Zopp sx (Z.pos (fst (shl_align mx ex (Z.min ex ey))))
                 - cond_Zopp sy (Z.pos (fst (shl_align my ey (Z.min ex ey)))))
                (Z.min ex ey) ltac:(lia)) as (_ & N & R).
    split; [exact N |].
    rewrite Z.mul_sub_distr_r, !aligned_value in R by lia; exact R.
Qed.

Lemma new_location_spec (nb k : Z) :
  new_location nb k
  = if k =? 0 then loc_Exact else loc_Inexact (2 * k ?= nb).
Proof.
  unfold new_location, new_location_even, new_location_odd.
  destruct (Z.even nb) eqn:Ev; [reflexivity |].
  destruct (k =? 0); [reflexivity |]. f_equal.
  destruct (Z.compare_spec (2 * k + 1) nb) as [H | H | H];
    symmetry; [apply Z.compare_lt_iff; lia | apply Z.compare_lt_iff; lia |].
  apply Z.compare_gt_iff.
  destruct (Z.eq_dec (2 * k) nb) as [E | E]; [| lia].
  rewrite <- E, Z.even_mul in Ev; discriminate Ev.
Qed.

Lemma div_eucl_bracket (a b : Z) :
  0 <= a -> 0 < b ->
  bracket a b (fst (Z.div_eucl a b)) (new_location b (snd (Z.div_eucl a b))).
Proof.
  intros Ha Hb.
  pose proof (Z.div_mod a b ltac:(lia)) as E.
  pose proof (Z.mod_pos_bound a b Hb) as Hr.
  unfold Z.div, Z.modulo in *.
  destruct (Z.div_eucl a b) as [q r]; cbn [fst snd] in *.
  rewrite new_location_spec; clear Ha; subst a.
  split; [lia |]. unfold position.
  replace (b * q + r =? q * b) with (r =? 0)
    by (destruct (Z.eqb_spec r 0), (Z.eqb_spec (b * q + r) (q * b)); lia).
  destruct (r =? 0); [reflexivity |]. f_equal.
  replace (2 * (b * q + r)) with (2 * b * q + 2 * r) by ring.
  replace ((2 * q + 1) * b) with (2 * b * q + b) by ring.
  rewrite Z.add_compare_mono_l; reflexivity.
Qed.

Lemma Zdigits2_lower (q t : Z) : 0 <= t -> 2 ^ t <= q -> t < Zdigits2 q.
Proof.
  intros Ht Hq.
  pose proof (pow2_pos t Ht).
  destruct (Zdigits2_bounds q ltac:(lia)) as ((_ & Hhi) & Hd).
  destruct (Z_lt_le_dec t (Zdigits2 q)) as [| Hle]; [assumption |].
  assert (2 ^ Zdigits2 q <= 2 ^ t) by (apply Z.pow_le_mono_r; lia).
  lia.
Qed.

Lemma SFdiv_rounds (x : spec_float) (my : positive) (ey : Z) :
  valid_binary x = true -> valid_binary (S754_finite false my ey) = true ->
  is_fin x = true ->
  is_nan (SFdiv prec emax x (S754_finite false my ey)) = false
  /\ rounds (zval x * 2 ^ 1074) (zval (S754_finite false my ey))
       (ord (SFdiv prec emax x (S754_finite false my ey))).
Proof.
  intros Vx Vy Fx.
  destruct (valid_canonical _ _ _ Vy) as ((Hey & _ & _) & Hey').
  pose proof (pow2_pos (ey + 1074) ltac:(lia)) as Hpy.
  assert (HQ : 0 < zval (S754_finite false my ey))
    by (cbn [zval cond_Zopp]; apply Z.mul_pos_pos; lia).
  destruct x as [sx | sx | | sx mx ex]; try discriminate Fx; cbn [SFdiv].
  - split; [reflexivity |]. destruct sx; apply rounds_zero; exact HQ.
  - destruct (valid_canonical _ _ _ Vx) as ((Hex & _ & _) & Hex').
    pose proof (pow2_pos (ex + 1074) ltac:(lia)) as Hpx.
    unfold SFdiv_core_binary.
    set (d1 := Zdigits2 (Z.pos mx)); set (d2 := Zdigits2 (Z.pos my)).
    set (e' := Z.min (fexp prec emax (d1 + ex - (d2 + ey))) (ex - ey)).
    set (s := ex - ey - e').
    assert (Hs : 0 <= s) by (unfold s, e'; lia).
    set (m' := match s with
               | 0 => Z.pos mx
               | Z.pos _ => Z.shiftl (Z.pos mx) s
               | Z.neg _ => 0
               end).
    assert (Em : m' = Z.pos mx * 2 ^ s).
    { unfold m'; destruct s as [| p | p]; [lia | | lia].
      apply Z.shiftl_mul_pow2; lia. }
    pose proof (pow2_pos s Hs) as Hps.
    assert (Hm' : 0 < m') by (rewrite Em; apply Z.mul_pos_pos; lia).
    pose proof (div_eucl_bracket m' (Z.pos my) ltac:(lia) ltac:(lia)) as Bk.
    assert (Eq : fst (Z.div_eucl m' (Z.pos my)) = m' / Z.pos my) by reflexivity.
    destruct (Z.div_eucl m' (Z.pos my)) as [q r]; cbn [fst snd] in Bk, Eq.
    assert (Hq : 0 <= q) by (rewrite Eq; apply Z.div_pos; lia).
    assert (He' : -2045 <= e') by (unfold e'; rewrite fexp_eq; lia).
    assert (Hdig : e' <= fexp prec emax (Zdigits2 q + e')).
    { rewrite fexp_eq.
      destruct (Z_le_gt_dec e' (-1074)) as [| Hgt]; [lia |].
      assert (Ht : 53 <= d1 - d2 + s)
        by (unfold s, e' in *; rewrite fexp_eq in *; lia).
      assert (52 < Zdigits2 q); [| lia].
      apply Zdigits2_lower; [lia |].
      rewrite Eq; apply Z.div_le_lower_bound; [lia |].
      pose proof (digits2_pos_bounds mx) as (Hlo1 & _).
      pose proof (digits2_pos_bounds my) as (_ & Hhi2).
      fold (Zdigits2 (Z.pos mx)) in Hlo1; fold d1 in Hlo1.
      fold (Zdigits2 (Z.pos my)) in Hhi2; fold d2 in Hhi2.
      assert (0 < d1 /\ 0 < d2) as (Hd1 & Hd2) by (unfold d1, d2; cbn; lia).
      assert (Hle : 2 ^ (d2 + 52) <= 2 ^ (d1 - 1 + s))
        by (apply Z.pow_le_mono_r; lia).
      rewrite (pow2_split d2 52), (pow2_split (d1 - 1) s) in Hle by lia.
      rewrite Em.
      assert (2 ^ (d1 - 1) * 2 ^ s <= Z.pos mx * 2 ^ s)
        by (apply Z.mul_le_mono_nonneg_r; lia).
      assert (Z.pos my * 2 ^ 52 <= 2 ^ d2 * 2 ^ 52)
        by (apply Z.mul_le_mono_nonneg_r; lia).
      lia. }
    assert (EE : m' * (Z.pos my * 2 ^ (ey + 1074)) * 2 ^ (e' + 2148)
                 = Z.pos mx * 2 ^ (ex + 1074) * 2 ^ 1074 * Z.pos my
                   * 2 ^ (2148 - 1074)).
    { rewrite Em.
      replace (Z.pos mx * 2 ^ s * (Z.pos my * 2 ^ (ey + 1074)) * 2 ^ (e' + 2148))
        with (Z.pos mx * Z.pos my
              * (2 ^ s * 2 ^ (ey + 1074) * 2 ^ (e' + 2148))) by ring.
      replace (Z.pos mx * 2 ^ (ex + 1074) * 2 ^ 1074 * Z.pos my
               * 2 ^ (2148 - 1074))
        with (Z.pos mx * Z.pos my
              * (2 ^ (ex + 1074) * 2 ^ 1074 * 2 ^ (2148 - 1074))) by ring.
      f_equal.
      rewrite <- (pow2_split s), <- (pow2_split (s + (ey + 1074))) by lia.
      rewrite <- (pow2_split (ex + 1074)),
        <- (pow2_split (ex + 1074 + 1074)) by lia.
      f_equal; unfold s; lia. }
    destruct (binary_round_aux_rounds (xorb sx false) q e'
                (new_location (Z.pos my) r) m' (Z.pos my)
                (Z.pos mx * 2 ^ (ex + 1074) * 2 ^ 1074)
                (Z.pos my * 2 ^ (ey + 1074)) 2148 Hq ltac:(lia) HQ Bk Hdig
                ltac:(lia) ltac:(lia) EE)
      as (_ & N & Sg & R).
    rewrite xorb_false_r in *.
    split; [exact N |].
    unfold ord; rewrite Sg.
    change (zval (S754_finite false my ey)) with (Z.pos my * 2 ^ (ey + 1074)).
    change (zval (S754_finite sx mx ex))
      with (cond_Zopp sx (Z.pos mx * 2 ^ (ex + 1074))).
    replace (cond_Zopp sx (Z.pos mx * 2 ^ (ex + 1074)) * 2 ^ 1074)
      with (cond_Zopp sx (Z.pos mx * 2 ^ (ex + 1074) * 2 ^ 1074))
      by (destruct sx; cbn [cond_Zopp]; ring).
    apply rounds_signed; [| exact R].
    repeat apply Z.mul_pos_pos; lia.
Qed.


(** *** Comparisons through ordinals *)

Lemma ord_bounds (f : spec_float) :
  valid_binary f = true -> - top <= ord f <= top.
Proof.
  intros V; pose proof (magnitude_bounds f V); unfold ord.
  destruct (sign_of f); cbn [cond_Zopp]; lia.
Qed.

Lemma fin_ord (f : spec_float) :
  valid_binary f = true -> is_fin f = true -> - top < ord f < top.
Proof.
  assert (T : 0 < top) by (unfold top; lia).
  destruct f as [s | s | | s m e]; try discriminate; intros V _; unfold ord;
    cbn [sign_of magnitude].
  - destruct s; cbn [cond_Zopp]; lia.
  - apply valid_canonical in V; destruct V as (C & Hle).
    pose proof (ordinal_pos _ _ C); pose proof (ordinal_below_top _ _ C Hle).
    destruct s; cbn [cond_Zopp]; lia.
Qed.

Lemma classify (f : spec_float) :
  is_nan f = true \/ f = S754_infinity false \/ f = S754_infinity true
  \/ is_fin f = true.
Proof. destruct f as [s | [|] | | s m e]; auto. Qed.

Lemma not_nan (f : spec_float) :
  f = S754_infinity false \/ f = S754_infinity true \/ is_fin f = true ->
  is_nan f = false.
Proof.
  destruct f as [? | ? | | ? ? ?]; intros [H | [H | H]]; try discriminate H;
    reflexivity.
Qed.

Lemma ltb_ord (a b : float) :
  is_nan (Prim2SF a) = false -> is_nan (Prim2SF b) = false ->
  PrimFloat.ltb a b = (ord (Prim2SF a) <? ord (Prim2SF b)).
Proof.
  intros Na Nb; rewrite ltb_spec; unfold SFltb.
  rewrite (SFcompare_ord _ _ (Prim2SF_valid a) (Prim2SF_valid b) Na Nb).
  destruct (Z.compare_spec (ord (Prim2SF a)) (ord (Prim2SF b)));
    symmetry; [apply Z.ltb_ge | apply Z.ltb_lt | apply Z.ltb_ge]; lia.
Qed.

Lemma leb_ord (a b : float) :
  is_nan (Prim2SF a) = false -> is_nan (Prim2SF b) = false ->
  PrimFloat.leb a b = (ord (Prim2SF a) <=? ord (Prim2SF b)).
Proof.
  intros Na Nb; rewrite leb_spec; unfold SFleb.
  rewrite (SFcompare_ord _ _ (Prim2SF_valid a) (Prim2SF_valid b) Na Nb).
  destruct (Z.compare_spec (ord (Prim2SF a)) (ord (Prim2SF b)));
    symmetry; [apply Z.leb_le | apply Z.leb_le | apply Z.leb_gt]; lia.
Qed.

Lemma ltb_nan (a b : float) :
  is_nan (Prim2SF a) = true \/ is_nan (Prim2SF b) = true ->
  PrimFloat.ltb a b = false.
Proof.
  rewrite ltb_spec; unfold SFltb.
  destruct (Prim2SF a) as [? | ? | | ? ? ?], (Prim2SF b) as [? | ? | | ? ? ?];
    cbn [is_nan SFcompare]; intros [H | H]; try discriminate H; reflexivity.
Qed.

Lemma leb_nan (a b : float) :
  is_nan (Prim2SF a) = true \/ is_nan (Prim2SF b) = true ->
  PrimFloat.leb a b = false.
Proof.
  rewrite leb_spec; unfold SFleb.
  destruct (Prim2SF a) as [? | ? | | ? ? ?], (Prim2SF b) as [? | ? | | ? ? ?];
    cbn [is_nan SFcompare]; intros [H | H]; try discriminate H; reflexivity.
Qed.

(** [a < b] is false when one is NaN or [b <= a]. *)
Lemma ltb_false_intro (a b : float) :
  is_nan (Prim2SF a) = true \/ is_nan (Prim2SF b) = true
  \/ ord (Prim2SF b) <= ord (Prim2SF a) ->
  PrimFloat.ltb a b = false.
Proof.
  intros H.
  destruct (is_nan (Prim2SF a)) eqn:Na; [apply ltb_nan; auto |].
  destruct (is_nan (Prim2SF b)) eqn:Nb; [apply ltb_nan; auto |].
  rewrite ltb_ord by assumption; apply Z.ltb_ge.
  destruct H as [H | [H | H]]; try discriminate H; exact H.
Qed.

Lemma ltb_false_elim (a b : float) :
  PrimFloat.ltb a b = false ->
  is_nan (Prim2SF a) = false -> is_nan (Prim2SF b) = false ->
  ord (Prim2SF b) <= ord (Prim2SF a).
Proof.
  intros H Na Nb; rewrite ltb_ord in H by assumption.
  apply Z.ltb_ge in H; exact H.
Qed.

Lemma leb_true_elim (a b : float) :
  PrimFloat.leb a b = true ->
  is_nan (Prim2SF a) = false /\ is_nan (Prim2SF b) = false
  /\ ord (Prim2SF a) <= ord (Prim2SF b).
Proof.
  intros H.
  destruct (is_nan (Prim2SF a)) eqn:Na;
    [rewrite leb_nan in H by auto; discriminate H |].
  destruct (is_nan (Prim2SF b)) eqn:Nb;
    [rewrite leb_nan in H by auto; discriminate H |].
  rewrite leb_ord in H by assumption; apply Z.leb_le in H; auto.
Qed.

Lemma Prim2SF_of_int (n : Z) :
  is_nan (Prim2SF (B64.of_int n)) = false
  /\ rounds (n * 2 ^ 1074) 1 (ord (Prim2SF (B64.of_int n))).
Proof.
  unfold B64.of_int.
  destruct (binary_normalize_rounds n 0 ltac:(lia)) as (V & N & R).
  rewrite Prim2SF_SF2Prim by exact V; auto.
Qed.


(** *** The product of a number >= 0 and a number <= 0 *)

Lemma binary_round_aux_sign (sx : bool) (mx ex : Z) (lx : location) :
  is_nan (binary_round_aux prec emax sx mx ex lx) = true
  \/ sign_of (binary_round_aux prec emax sx mx ex lx) = sx.
Proof.
  unfold binary_round_aux.
  destruct (shr_fexp prec emax mx ex lx) as [mrs' e'].
  destruct (shr_fexp prec emax _ e' loc_Exact) as [mrs'' e''].
  destruct (shr_m mrs''); [right; reflexivity | | left; reflexivity].
  destruct (e'' <=? emax - prec); right; reflexivity.
Qed.

Lemma sign_of_ord (f : spec_float) :
  valid_binary f = true -> is_nan f = false ->
  (0 < ord f -> sign_of f = false) /\ (ord f < 0 -> sign_of f = true).
Proof.
  intros V N; pose proof (magnitude_bounds f V) as M; unfold ord in *.
  destruct (sign_of f); cbn [cond_Zopp]; split; intros; auto; lia.
Qed.

Lemma ord_zero_fin (f : spec_float) :
  valid_binary f = true -> is_nan f = false -> ord f = 0 ->
  exists s, f = S754_zero s.
Proof.
  assert (T : 0 < top) by (unfold top; lia).
  destruct f as [s | s | | s m e]; try discriminate; intros V _; unfold ord;
    cbn [sign_of magnitude]; [eauto | destruct s; cbn [cond_Zopp]; lia |].
  apply valid_canonical in V; destruct V as (C & _).
  pose proof (ordinal_pos _ _ C); destruct s; cbn [cond_Zopp]; lia.
Qed.

Lemma SFmul_nonpos (x y : spec_float) :
  valid_binary x = true -> valid_binary y = true ->
  valid_binary (SFmul prec emax x y) = true ->
  is_nan x = false -> is_nan y = false -> 0 <= ord x -> ord y <= 0 ->
  is_nan (SFmul prec emax x y) = true \/ ord (SFmul prec emax x y) <= 0.
Proof.
  intros Vx Vy V Nx Ny Ox Oy.
  assert (T : 0 < top) by (unfold top; lia).
  assert (Sx : (exists s, x = S754_zero s) \/ sign_of x = false).
  { destruct (Z.eq_dec (ord x) 0) as [E | E];
      [left; apply ord_zero_fin; assumption |].
    right; apply (sign_of_ord x Vx Nx); lia. }
  assert (Sy : (exists s, y = S754_zero s) \/ sign_of y = true).
  { destruct (Z.eq_dec (ord y) 0) as [E | E];
      [left; apply ord_zero_fin; assumption |].
    right; apply (sign_of_ord y Vy Ny); lia. }
  destruct x as [sx | sx | | sx mx ex]; try discriminate Nx;
    destruct y as [sy | sy | | sy my ey]; try discriminate Ny;
    cbn [SFmul] in *; auto;
    try (right; unfold ord; cbn [sign_of magnitude];
         destruct (xorb _ _); cbn [cond_Zopp]; lia);
    destruct Sx as [(s & Ex) | Sx]; try discriminate Ex;
    destruct Sy as [(s' & Ey) | Sy]; try discriminate Ey;
    cbn [sign_of] in Sx, Sy; subst sx sy; cbn [xorb] in *;
    try (right; unfold ord; cbn [sign_of magnitude cond_Zopp]; lia).
  destruct (binary_round_aux_sign true (Z.pos (mx * my)) (ex + ey) loc_Exact)
    as [H | H]; [left; exact H | right].
  pose proof (magnitude_bounds _ V) as M.
  unfold ord; rewrite H; cbn [cond_Zopp]; lia.
Qed.

Lemma b64_mul_nonpos (r h : float) :
  PrimFloat.leb (B64.of_int 0) r = true ->
  PrimFloat.leb h (B64.of_int 0) = true ->
  PrimFloat.ltb (B64.of_int 0) (PrimFloat.mul r h) = false.
Proof.
  intros Hr Hh; apply leb_true_elim in Hr, Hh.
  rewrite Prim2SF_zero in Hr, Hh.
  destruct Hr as (_ & Nr & Or), Hh as (Nh & _ & Oh).
  change (ord (S754_zero false)) with 0 in *.
  apply ltb_false_intro; rewrite Prim2SF_zero.
  change (ord (S754_zero false)) with 0.
  right. pose proof (Prim2SF_valid (PrimFloat.mul r h)) as V.
  rewrite mul_spec in *; unfold SF64mul in *.
  apply SFmul_nonpos; auto using Prim2SF_valid.
Qed.


(** *** Monotone operations *)

(** An operation that keeps NaN and the infinities and is monotone on the
    finite numbers is monotone for the comparison [<]. *)
Lemma monotone_operation (F : float -> float) (a b : float) :
  (forall x, is_nan (Prim2SF x) = true -> is_nan (Prim2SF (F x)) = true) ->
  (forall x s, Prim2SF x = S754_infinity s ->
               Prim2SF (F x) = S754_infinity s) ->
  (forall x y, is_fin (Prim2SF x) = true -> is_fin (Prim2SF y) = true ->
               zval (Prim2SF y) <= zval (Prim2SF x) ->
               ord (Prim2SF (F y)) <= ord (Prim2SF (F x))) ->
  PrimFloat.ltb a b = false -> PrimFloat.ltb (F a) (F b) = false.
Proof.
  intros Hnan Hinf Hfin H.
  assert (T : 0 < top) by (unfold top; lia).
  apply ltb_false_intro.
  pose proof (Prim2SF_valid a) as Va; pose proof (Prim2SF_valid b) as Vb.
  pose proof (ord_bounds _ (Prim2SF_valid (F a))) as Ba.
  pose proof (ord_bounds _ (Prim2SF_valid (F b))) as Bb.
  destruct (classify (Prim2SF a)) as [Na | Ca]; [left; apply Hnan; exact Na |].
  destruct (classify (Prim2SF b)) as [Nb | Cb];
    [right; left; apply Hnan; exact Nb |].
  right; right.
  assert (O : ord (Prim2SF b) <= ord (Prim2SF a)).
  { apply ltb_false_elim; [exact H | |]; apply not_nan; assumption. }
  destruct Ca as [Ea | [Ea | Fa]], Cb as [Eb | [Eb | Fb]];
    try rewrite (Hinf _ _ Ea); try rewrite (Hinf _ _ Eb);
    try (pose proof (fin_ord _ Va Fa)); try (pose proof (fin_ord _ Vb Fb));
    try rewrite Ea in *; try rewrite Eb in *;
    unfold ord in O |- *; cbn [sign_of magnitude cond_Zopp] in O |- *;
    fold (ord (Prim2SF a)) in *; fold (ord (Prim2SF b)) in *;
    fold (ord (Prim2SF (F a))) in *; fold (ord (Prim2SF (F b))) in *;
    try lia.
  apply Hfin; try assumption.
  apply ord_le_zval; assumption.
Qed.

Lemma SFsub_nan_l (y : spec_float) : SFsub prec emax S754_nan y = S754_nan.
Proof. reflexivity. Qed.

Lemma SFsub_nan_r (x : spec_float) : SFsub prec emax x S754_nan = S754_nan.
Proof. destruct x as [? | ? | | ? ? ?]; reflexivity. Qed.

Lemma SFadd_nan_r (x : spec_float) : SFadd prec emax x S754_nan = S754_nan.
Proof. destruct x as [? | ? | | ? ? ?]; reflexivity. Qed.

Lemma SFdiv_nan_r (x : spec_float) : SFdiv prec emax x S754_nan = S754_nan.
Proof. destruct x as [? | ? | | ? ? ?]; reflexivity. Qed.

Lemma is_nan_eq (f : spec_float) : is_nan f = true -> f = S754_nan.
Proof. destruct f; try discriminate; reflexivity. Qed.

Lemma b64_sub_mono (a b c : float) :
  PrimFloat.ltb a b = false ->
  PrimFloat.ltb (PrimFloat.sub a c) (PrimFloat.sub b c) = false.
Proof.
  intros H.
  pose proof (Prim2SF_valid c) as Vc.
  destruct (classify (Prim2SF c)) as [Nc | [Ec | [Ec | Fc]]].
  - apply ltb_nan; left; rewrite sub_spec, (is_nan_eq _ Nc).
    unfold SF64sub; rewrite SFsub_nan_r; reflexivity.
  - apply ltb_false_intro; rewrite !sub_spec, Ec; unfold SF64sub.
    destruct (Prim2SF a) as [? | [|] | | ? ? ?],
      (Prim2SF b) as [? | [|] | | ? ? ?]; cbn [SFsub is_nan]; auto;
      right; right; reflexivity.
  - apply ltb_false_intro; rewrite !sub_spec, Ec; unfold SF64sub.
    destruct (Prim2SF a) as [? | [|] | | ? ? ?],
      (Prim2SF b) as [? | [|] | | ? ? ?]; cbn [SFsub is_nan]; auto;
      right; right; reflexivity.
  - apply (monotone_operation (fun x => PrimFloat.sub x c)); [| | | exact H].
    + intros x N; rewrite sub_spec, (is_nan_eq _ N); reflexivity.
    + intros x s E; rewrite sub_spec, E; unfold SF64sub.
      destruct (Prim2SF c) as [? | ? | | ? ? ?]; try discriminate Fc;
        reflexivity.
    + intros x y Fx Fy Hz; rewrite !sub_spec; unfold SF64sub.
      destruct (SFsub_rounds _ _ (Prim2SF_valid x) Vc Fx Fc) as (_ & Rx).
      destruct (SFsub_rounds _ _ (Prim2SF_valid y) Vc Fy Fc) as (_ & Ry).
      apply (rounds_mono _ 1 _ _ 1 _ ltac:(lia) ltac:(lia) Ry Rx); lia.
Qed.

Lemma b64_div_mono (a b c : float) :
  PrimFloat.leb c (B64.of_int 0) = false -> PrimFloat.ltb a b = false ->
  PrimFloat.ltb (PrimFloat.div a c) (PrimFloat.div b c) = false.
Proof.
  intros Hc H.
  pose proof (Prim2SF_valid c) as Vc.
  destruct (is_nan (Prim2SF c)) eqn:Nc.
  { apply ltb_nan; left; rewrite div_spec, (is_nan_eq _ Nc).
    unfold SF64div; rewrite SFdiv_nan_r; reflexivity. }
  rewrite leb_ord in Hc by (rewrite ?Prim2SF_zero; auto).
  rewrite Prim2SF_zero in Hc; change (ord (S754_zero false)) with 0 in Hc.
  apply Z.leb_gt in Hc.
  pose proof (proj1 (sign_of_ord _ Vc Nc) Hc) as Sc.
  destruct (Prim2SF c) as [sc | sc | | sc mc ec] eqn:Ec; try discriminate Nc;
    cbn [sign_of] in Sc; subst sc.
  - unfold ord in Hc; cbn in Hc; lia.
  - apply ltb_false_intro; rewrite !div_spec, Ec; unfold SF64div.
    destruct (Prim2SF a) as [? | ? | | ? ? ?],
      (Prim2SF b) as [? | ? | | ? ? ?]; cbn [SFdiv is_nan]; auto;
      right; right; unfold ord; cbn [sign_of magnitude];
      repeat match goal with |- context [cond_Zopp ?s 0] =>
               destruct s; cbn [cond_Zopp xorb] end; lia.
  - apply (monotone_operation (fun x => PrimFloat.div x c)); [| | | exact H].
    + intros x N; rewrite div_spec, (is_nan_eq _ N); reflexivity.
    + intros x s E; rewrite div_spec, E, Ec; unfold SF64div; cbn [SFdiv].
      rewrite xorb_false_r; reflexivity.
    + intros x y Fx Fy Hz; rewrite !div_spec, Ec; unfold SF64div.
      destruct (SFdiv_rounds _ mc ec (Prim2SF_valid x) Vc Fx) as (_ & Rx).
      destruct (SFdiv_rounds _ mc ec (Prim2SF_valid y) Vc Fy) as (_ & Ry).
      assert (HQ : 0 < zval (S754_finite false mc ec)).
      { destruct (valid_canonical _ _ _ Vc) as ((? & _) & _).
        cbn [zval cond_Zopp]; apply Z.mul_pos_pos; [lia | apply pow2_pos; lia]. }
      apply (rounds_mono _ _ _ _ _ _ HQ HQ Ry Rx).
      apply Z.mul_le_mono_nonneg_r; [lia |].
      apply Z.mul_le_mono_nonneg_r; [apply Z.lt_le_incl, pow2_pos; lia | lia].
Qed.

Lemma b64_sub_add_nonpos (c t : float) :
  PrimFloat.ltb (B64.of_int 0) t = false ->
  PrimFloat.ltb (PrimFloat.sub c t) (PrimFloat.add c t) = false.
Proof.
  intros Ht.
  assert (T : 0 < top) by (unfold top; lia).
  pose proof (Prim2SF_valid c) as Vc; pose proof (Prim2SF_valid t) as Vt.
  apply ltb_false_intro; rewrite sub_spec, add_spec.
  unfold SF64sub, SF64add.
  destruct (classify (Prim2SF t)) as [Nt | Ct].
  { left; rewrite (is_nan_eq _ Nt), SFsub_nan_r; reflexivity. }
  pose proof (not_nan _ Ct) as Nt.
  apply ltb_false_elim in Ht; [| rewrite Prim2SF_zero; reflexivity | exact Nt].
  rewrite Prim2SF_zero in Ht; change (ord (S754_zero false)) with 0 in Ht.
  destruct Ct as [Et | [Et | Ft]].
  - rewrite Et in Ht; unfold ord in Ht; cbn in Ht; lia.
  - rewrite Et.
    destruct (Prim2SF c) as [? | [|] | | ? ? ?]; cbn [SFsub SFadd is_nan negb];
      auto; right; right; unfold ord; cbn [sign_of magnitude cond_Zopp]; lia.
  - destruct (classify (Prim2SF c)) as [Nc | [Ec | [Ec | Fc]]].
    + left; rewrite (is_nan_eq _ Nc); reflexivity.
    + rewrite Ec; right; right.
      destruct (Prim2SF t) as [? | ? | | ? ? ?]; try discriminate Ft;
        cbn [SFsub SFadd]; lia.
    + rewrite Ec; right; right.
      destruct (Prim2SF t) as [? | ? | | ? ? ?]; try discriminate Ft;
        cbn [SFsub SFadd]; lia.
    + right; right.
      destruct (SFsub_rounds _ _ Vc Vt Fc Ft) as (_ & Rs).
      destruct (SFadd_rounds _ _ Vc Vt Fc Ft) as (_ & Ra).
      apply (rounds_mono _ 1 _ _ 1 _ ltac:(lia) ltac:(lia) Ra Rs).
      assert (zval (Prim2SF t) <= zval (S754_zero false)); [| cbn [zval] in *; lia].
      apply ord_le_zval; auto.
Qed.


(** *** Rounding to an integer, and clipping *)

Lemma signed_round_mono (z1 z2 Y q1 q2 : Z) (l1 l2 : location) :
  0 < Y -> z1 <= z2 -> 0 <= q1 -> 0 <= q2 ->
  bracket (Z.abs z1) Y q1 l1 -> bracket (Z.abs z2) Y q2 l2 ->
  Z.sgn z1 * round_nearest_even q1 l1 <= Z.sgn z2 * round_nearest_even q2 l2.
Proof.
  intros HY Hz H1 H2 B1 B2.
  pose proof (round_nearest_even_bounds q1 l1).
  pose proof (round_nearest_even_bounds q2 l2).
  destruct z1 as [| p1 | p1], z2 as [| p2 | p2]; cbn [Z.abs Z.sgn] in *;
    try lia.
  - assert (round_nearest_even q1 l1 <= round_nearest_even q2 l2); [| lia].
    apply round_nearest_even_mono.
    apply (bracket_mono _ _ _ _ _ _ _ _ HY HY B1 B2).
    apply Z.mul_le_mono_nonneg_r; lia.
  - assert (round_nearest_even q2 l2 <= round_nearest_even q1 l1); [| lia].
    apply round_nearest_even_mono.
    apply (bracket_mono _ _ _ _ _ _ _ _ HY HY B2 B1).
    apply Z.mul_le_mono_nonneg_r; lia.
Qed.

(** [rint] on a finite number: the nearest integer, ties to even. *)
Lemma rint_fin (a : float) :
  is_fin (Prim2SF a) = true ->
  exists q l,
    0 <= q /\ bracket (Z.abs (zval (Prim2SF a))) (2 ^ 1074) q l
    /\ rounds (Z.sgn (zval (Prim2SF a)) * round_nearest_even q l * 2 ^ 1074) 1
         (ord (Prim2SF (B64.rint a))).
Proof.
  intros Fa; pose proof (Prim2SF_valid a) as Va; unfold B64.rint.
  destruct (Prim2SF a) as [s | s | | s m e] eqn:Ea; try discriminate Fa.
  - exists 0, loc_Exact; split; [lia |]. split.
    + cbn [zval Z.abs]; split; [lia | reflexivity].
    + rewrite Ea; cbn [zval Z.sgn]; unfold ord; cbn [sign_of magnitude].
      destruct s; apply rounds_zero; lia.
  - destruct (valid_canonical _ _ _ Va) as ((He & _ & _) & _).
    pose proof (pow2_pos (e + 1074) ltac:(lia)) as Hp.
    assert (Hz : 0 < Z.pos m * 2 ^ (e + 1074)) by (apply Z.mul_pos_pos; lia).
    assert (Habs : Z.abs (zval (S754_finite s m e)) = Z.pos m * 2 ^ (e + 1074))
      by (cbn [zval]; destruct s; cbn [cond_Zopp]; lia).
    assert (Hsgn : forall k, Z.sgn (zval (S754_finite s m e)) * k
                            = cond_Zopp s k).
    { intros k; cbn [zval]; destruct s; cbn [cond_Zopp].
      - rewrite Z.sgn_neg by lia; lia.
      - rewrite Z.sgn_pos by lia; lia. }
    rewrite Habs.
    destruct (Z.leb_spec 0 e) as [Hge | Hlt].
    + pose proof (pow2_pos e Hge) as Hpe.
      exists (Z.pos m * 2 ^ e), loc_Exact.
      split; [apply Z.mul_nonneg_nonneg; lia |].
      assert (E : Z.pos m * 2 ^ (e + 1074) = Z.pos m * 2 ^ e * 2 ^ 1074)
        by (rewrite (pow2_split e 1074) by lia; ring).
      split.
      * split; [rewrite E; lia |].
        unfold position; rewrite E, Z.eqb_refl; reflexivity.
      * cbn [round_nearest_even]; rewrite Hsgn, Ea.
        replace (cond_Zopp s (Z.pos m * 2 ^ e) * 2 ^ 1074)
          with (zval (S754_finite s m e))
          by (cbn [zval]; rewrite E; destruct s; cbn [cond_Zopp]; ring).
        apply finite_rounds; [exact Va | reflexivity].
    + pose proof (pow2_pos (- e) ltac:(lia)) as Hd.
      set (d := 2 ^ (- e)) in *.
      pose proof (Z.div_mod (Z.pos m) d ltac:(lia)) as Edm.
      pose proof (Z.mod_pos_bound (Z.pos m) d Hd) as Hr.
      set (q := Z.pos m / d) in *; set (r := Z.pos m mod d) in *.
      assert (Hq : 0 <= q) by (apply Z.div_pos; lia).
      exists q, (position (Z.pos m) d q).
      split; [exact Hq |].
      assert (Bk : bracket (Z.pos m) d q (position (Z.pos m) d q))
        by (split; [lia | reflexivity]).
      split.
      * apply (bracket_scale (Z.pos m) d); try assumption; [lia |].
        unfold d; rewrite <- Z.mul_assoc, <- (pow2_split (e + 1074) (- e)) by lia.
        replace (e + 1074 + - e) with 1074 by lia; reflexivity.
      * assert (En : match 2 * r ?= d with
                     | Eq => if Z.even q then q else q + 1
                     | Lt => q
                     | Gt => q + 1
                     end = round_nearest_even q (position (Z.pos m) d q)).
        { unfold position.
          replace (Z.pos m =? q * d) with (r =? 0)
            by (destruct (Z.eqb_spec r 0), (Z.eqb_spec (Z.pos m) (q * d)); lia).
          replace (2 * Z.pos m ?= (2 * q + 1) * d) with (2 * r ?= d).
          2:{ rewrite Edm at 1.
              replace (2 * (d * q + r)) with (2 * d * q + 2 * r) by ring.
              replace ((2 * q + 1) * d) with (2 * d * q + d) by ring.
              rewrite Z.add_compare_mono_l; reflexivity. }
          destruct (Z.eqb_spec r 0) as [Hz0 | Hz0]; cbn [round_nearest_even];
            [| reflexivity].
          rewrite Hz0; cbn [round_nearest_even].
          replace (2 * 0 ?= d) with Lt
            by (symmetry; apply Z.compare_lt_iff; lia).
          reflexivity. }
        rewrite En; clear En.
        set (n := round_nearest_even q (position (Z.pos m) d q)).
        rewrite Hsgn.
        destruct (Z.eqb_spec n 0) as [Hn | Hn].
        -- rewrite Prim2SF_SF2Prim by reflexivity.
           rewrite Hn; unfold ord; cbn [sign_of magnitude].
           destruct s; cbn [cond_Zopp]; apply rounds_zero; lia.
        -- apply Prim2SF_of_int.
Qed.

Lemma b64_rint_mono (a b : float) :
  PrimFloat.ltb a b = false ->
  PrimFloat.ltb (B64.rint a) (B64.rint b) = false.
Proof.
  apply (monotone_operation B64.rint).
  - intros x N; unfold B64.rint.
    destruct (Prim2SF x) as [? | ? | | ? ? ?] eqn:E; try discriminate N.
    rewrite E; reflexivity.
  - intros x s E; unfold B64.rint; rewrite E; exact E.
  - intros x y Fx Fy Hz.
    destruct (rint_fin x Fx) as (qx & lx & Hqx & Bx & Rx).
    destruct (rint_fin y Fy) as (qy & ly & Hqy & By & Ry).
    pose proof (pow2_pos 1074 ltac:(lia)) as Hp.
    apply (rounds_mono _ 1 _ _ 1 _ ltac:(lia) ltac:(lia) Ry Rx).
    rewrite !Z.mul_1_r.
    apply Z.mul_le_mono_nonneg_r; [lia |].
    apply (signed_round_mono _ _ (2 ^ 1074)); assumption.
Qed.

Lemma b64_clip_mono (n : Z) (a b : float) :
  0 <= n -> PrimFloat.ltb a b = false ->
  PrimFloat.ltb (@clip binary64 0 n a) (@clip binary64 0 n b) = false.
Proof.
  intros Hn H; unfold clip; cbn [ltb of_int binary64].
  destruct (Prim2SF_of_int 0) as (Nz & _).
  destruct (Prim2SF_of_int n) as (Nu & Ru).
  assert (Oz : ord (Prim2SF (B64.of_int 0)) = 0)
    by (rewrite Prim2SF_zero; reflexivity).
  assert (Ou : 0 <= ord (Prim2SF (B64.of_int n))).
  { apply (rounds_mono 0 1 _ _ 1 _ ltac:(lia) ltac:(lia) (rounds_zero 1 ltac:(lia))
             Ru).
    pose proof (pow2_pos 1074 ltac:(lia)).
    assert (0 <= n * 2 ^ 1074) by (apply Z.mul_nonneg_nonneg; lia).
    lia. }
  set (z := B64.of_int 0) in *; set (u := B64.of_int n) in *.
  destruct (is_nan (Prim2SF a)) eqn:Na.
  { rewrite (ltb_nan a z), (ltb_nan u a) by auto; apply ltb_nan; auto. }
  destruct (is_nan (Prim2SF b)) eqn:Nb.
  { rewrite (ltb_nan b z), (ltb_nan u b) by auto; apply ltb_nan; auto. }
  pose proof (ltb_false_elim a b H Na Nb) as O.
  rewrite (ltb_ord a z), (ltb_ord u a), (ltb_ord b z), (ltb_ord u b)
    by assumption.
  destruct (Z.ltb_spec (ord (Prim2SF a)) (ord (Prim2SF z)));
    destruct (Z.ltb_spec (ord (Prim2SF u)) (ord (Prim2SF a)));
    destruct (Z.ltb_spec (ord (Prim2SF b)) (ord (Prim2SF z)));
    destruct (Z.ltb_spec (ord (Prim2SF u)) (ord (Prim2SF b)));
    apply ltb_false_intro; right; right; lia.
Qed.

(** The operations behind the pixel bounds are monotone in binary64. *)
Lemma binary64_mono_laws : MonoLaws binary64.
Proof.
  constructor; cbn [of_int ltb leb mul sub add div rint binary64 num].
  - exact b64_mul_nonpos.
  - exact b64_sub_add_nonpos.
  - exact b64_sub_mono.
  - exact b64_div_mono.
  - exact b64_rint_mono.
  - exact b64_clip_mono.
Qed.

End B64MonoLaws.

(** * The claims *)

(** C1: in a call that returns, on a frame holding particles, the loop has
    one row for each retained particle, with integer bounds ilo, ihi, jlo, jhi
    (the [int()] of the four clamped bounds of the particle); each cell
    (jpix, ipix) of the grid holds, added to 0.0 in the order of the
    particles, the value term * w(sqrt(q2)) of every retained particle with
    jlo <= jpix < jhi and ilo <= ipix < ihi, where q2 is the sum over the two
    axes of the squared distance from the cell centre
    origin + (index + 0.5) * width to the particle, over h^2 (the source
    multiplies by the reciprocal of h^2), and nothing else; and the table
    [dx2i] that each row computes before its loops over cells holds the x-axis
    term of every column ilo <= ipix < ihi. *)
Theorem interpolate2D_accumulates_contributions
  (A : Arith) (bound : Z) (data : Frame (num A)) (x y target : string)
  (kernel : BaseKernel A) (pixwidthx pixwidthy xmin ymin : num A)
  (pixcountx pixcounty : Z) (rows : list (Particle A))
  (g : list (list (num A))) :
  IntConv A bound -> pixcountx <= bound -> pixcounty <= bound ->
  holds data x y target rows ->
  interpolate2D data x y target kernel pixwidthx pixwidthy xmin ymin pixcountx
    pixcounty = inr g ->
  exists cx cy bs,
    getitem parts_columns x = inr cx
    /\ getitem
         (setitem parts_columns "ipixmin"
            (fun r => pixel_index_min kernel (cx r) (r_h r) xmin pixwidthx
                        pixcountx))
         y = inr cy
    /\ Forall2
         (fun r b =>
            let '(ilo, ihi, jlo, jhi) := b in
            py_int (pixel_index_min kernel (cx r) (r_h r) xmin pixwidthx
                      pixcountx) = inr ilo
            /\ py_int (pixel_index_max kernel (cx r) (r_h r) xmin pixwidthx
                         pixcountx) = inr ihi
            /\ py_int (pixel_index_min kernel (cy r) (r_h r) ymin pixwidthy
                         pixcounty) = inr jlo
            /\ py_int (pixel_index_max kernel (cy r) (r_h r) ymin pixwidthy
                         pixcounty) = inr jhi
            /\ forall table ipix,
                 precompute_dx2i pixwidthx xmin pixcountx
                   (part_of kernel pixwidthx pixwidthy xmin ymin pixcountx
                      pixcounty cx cy r) = inr table ->
                 ilo <= ipix < ihi ->
                 nth (Z.to_nat ipix) table (of_int 0)
                 = x_term pixwidthx xmin r ipix)
         (filter retained rows) bs
    /\ forall jpix ipix, 0 <= jpix < pixcounty -> 0 <= ipix < pixcountx ->
         cell g jpix ipix
         = particle_total kernel pixwidthx pixwidthy xmin ymin jpix ipix
             (combine (filter retained rows) bs).
Proof.
  intros IC Hnx Hny Hd H.
  pose proof (interpolate2D_returns_valid _ _ _ _ _ _ _ _ _ _ _ _ H) as Hv.
  destruct (invalid_call_false _ _ _ _ _ Hv) as (_ & _ & Hx & Hy & _).
  assert (Hnx' : 0 <= pixcountx <= bound) by lia.
  assert (Hny' : 0 <= pixcounty <= bound) by lia.
  destruct (interpolate2D_cells bound IC kernel pixwidthx pixwidthy xmin ymin
              pixcountx pixcounty Hnx' Hny' data x y target g H)
    as (ps & bs & Hps & Hb & Hcell).
  rewrite (build_parts_rows data x y target kernel pixwidthx pixwidthy xmin ymin
             pixcountx pixcounty rows Hd) in Hps.
  unfold retained_parts in Hps.
  destruct (getitem parts_columns x) as [e | cx] eqn:Ex; [discriminate Hps |].
  rewrite bind_inr_l in Hps.
  destruct (getitem _ y) as [e | cy] eqn:Ey; [discriminate Hps |].
  rewrite bind_inr_l in Hps; unfold ret in Hps; injection Hps as <-.
  exists cx, cy, bs.
  split; [reflexivity |]. split; [exact Ey |].
  split.
  - apply Forall2_map_l in Hb.
    eapply Forall2_impl; [| exact Hb].
    intros r [[[ilo ihi] jlo] jhi] (E1 & E2 & E3 & E4); cbv beta.
    split; [exact E1 |]. split; [exact E2 |]. split; [exact E3 |].
    split; [exact E4 |].
    intros table ipix Ht Hi.
    exact (precompute_dx2i_entries bound IC pixwidthx xmin pixcountx pixcounty
             Hnx' _ table ilo ihi ipix (part_of_clipped _ _ _ _ _ _ _ _ _ r)
             E1 E2 Ht Hi).
  - intros jpix ipix Hj Hi; rewrite (Hcell jpix ipix Hj Hi).
    unfold cell_total, particle_total.
    rewrite combine_map_l, fold_left_map; reflexivity.
Qed.

Lemma interpolate2D_accumulates_contributions_witness :
  exists bs,
    Forall2
      (fun r b =>
         let '(ilo, ihi, jlo, jhi) := b in
         py_int (pixel_index_min tent_kernel (r_x r) (r_h r) (-2)%float 1%float
                   4) = inr ilo
         /\ py_int (pixel_index_max tent_kernel (r_x r) (r_h r) (-2)%float
                      1%float 4) = inr ihi)
      [particle (-1) (-1) 0.5 1 1 1; particle 1 1 0.5 1 1 1] bs
    /\ forall jpix ipix, 0 <= jpix < 4 -> 0 <= ipix < 4 ->
         cell two_apart_grid jpix ipix
         = particle_total tent_kernel 1%float 1%float (-2)%float (-2)%float
             jpix ipix
             (combine [particle (-1) (-1) 0.5 1 1 1; particle 1 1 0.5 1 1 1]
                bs).
Proof.
  assert (Hd : holds two_apart "x" "y" "A"
                 [particle (-1) (-1) 0.5 1 1 1; particle 1 1 0.5 1 1 1])
    by (repeat split; reflexivity).
  destruct (interpolate2D_accumulates_contributions binary64 (2 ^ 53 - 1)
              two_apart "x" "y" "A" tent_kernel 1%float 1%float (-2)%float
              (-2)%float 4 4 _ two_apart_grid B64Laws.binary64_int_conv
              ltac:(lia) ltac:(lia) Hd ltac:(vm_compute; reflexivity))
    as (cx & cy & bs & Ex & Ey & Hb & Hcell).
  injection Ex as <-; injection Ey as <-.
  exists bs; split; [| exact Hcell].
  eapply Forall2_impl; [| exact Hb].
  intros r [[[ilo ihi] jlo] jhi] (E1 & E2 & _); split; assumption.
Defined.

(** C4: [interpolate2D] raises a [ValueError] whenever pixwidthx <= 0,
    pixwidthy <= 0, pixcountx <= 0, pixcounty <= 0 or the kernel is not
    two-dimensional ([invalid_call]); the error is raised whatever the frame,
    the labels, the origin and the kernel's function are, so before the output
    array exists or anything is accumulated, and the call returns no array;
    when the five conditions hold none of these errors is raised. *)
Theorem interpolate2D_validation
  (A : Arith) (bound : Z) (kernel : BaseKernel A) (pixwidthx pixwidthy : num A)
  (pixcountx pixcounty : Z) :
  IntConv A bound ->
  (invalid_call kernel pixwidthx pixwidthy pixcountx pixcounty = true ->
   exists e, In e validation_errors /\
     forall data x y target radkernel' w' xmin ymin,
       interpolate2D data x y target
         (@Build_BaseKernel A (ndims kernel) radkernel' w')
         pixwidthx pixwidthy xmin ymin pixcountx pixcounty = inl e)
  /\ (invalid_call kernel pixwidthx pixwidthy pixcountx pixcounty = false ->
      forall data x y target xmin ymin e,
        In e validation_errors ->
        interpolate2D data x y target kernel pixwidthx pixwidthy xmin ymin
          pixcountx pixcounty <> inl e).
Proof.
  intros IC; split.
  - apply interpolate2D_invalid.
  - intros Hv data x y target xmin ymin e He H.
    rewrite (interpolate2D_valid _ _ _ _ _ _ _ _ _ _ _ Hv) in H.
    revert He.
    apply (interpolate2D_body_raises bound IC data x y target kernel pixwidthx
             pixwidthy xmin ymin pixcountx pixcounty
             (fun e => ~ In e validation_errors)) in H; auto;
      unfold validation_errors; simpl; intuition discriminate.
Qed.

Lemma interpolate2D_validation_witness :
  IntConv binary64 (2 ^ 53 - 1) /\
  (@invalid_call binary64 tent_kernel 1%float 1%float 0 4 = true /\
   @interpolate2D binary64 one_particle "x" "y" "A" tent_kernel 1%float 1%float
     (-2)%float (-2)%float 0 4
   = inl (ValueError "pixcountx must be greater than zero!")) /\
  (@invalid_call binary64 tent_kernel 1%float 1%float 4 4 = false /\
   @interpolate2D binary64 one_particle "x" "y" "A" tent_kernel 1%float 1%float
     (-2)%float (-2)%float 4 4
   <> inl (ValueError "pixcountx must be greater than zero!")).
Proof.
  split; [exact B64Laws.binary64_int_conv |].
  split; split; try reflexivity.
  apply (proj2 (interpolate2D_validation binary64 (2 ^ 53 - 1) tent_kernel
                  1%float 1%float 4 4 B64Laws.binary64_int_conv));
    [reflexivity | simpl; tauto].
Defined.






(** C2 (claim): the cells visited along an axis would be the inclusive range
    [i_min, i_max].  For one particle at the origin with h = 1, a kernel of
    radius 2 and cells of width 1 from -2, the bounds along x are 0 and 4, the
    loop visits the columns 0, 1, 2, 3 and not column 4: with a kernel that
    weighs 1 everywhere, the 8 x 8 grid is 1 in columns 0 to 3 of rows 0 to 3
    and 0 elsewhere, column 4 and row 4 included. *)
Lemma pixel_range_not_inclusive :
  let part := @Build_Part binary64 0%float 0%float 1%float 1%float 0%float 0%float
                4%float 4%float in
  (parts <- build_parts one_particle "x" "y" "A" flat_kernel 1%float 1%float
              (-2)%float (-2)%float 8 8 ;;
   itertuples parts) = inr [part]
  /\ py_int (part_ipixmin part) = inr 0
  /\ py_int (part_ipixmax part) = inr 4
  /\ ipix_range part = inr [0; 1; 2; 3]
  /\ ipix_range part <> inr (inclusive_range 0 4)
  /\ interpolate2D one_particle "x" "y" "A" flat_kernel 1%float 1%float
       (-2)%float (-2)%float 8 8
     = inr (repeat [1%float; 1%float; 1%float; 1%float;
                    0%float; 0%float; 0%float; 0%float] 4
            ++ repeat (repeat 0%float 8) 4).
Proof.
  intros part; unfold part.
  split; [reflexivity |].
  split; [vm_compute; reflexivity |].
  split; [vm_compute; reflexivity |].
  split; [vm_compute; reflexivity |].
  split; [vm_compute; discriminate |].
  vm_compute; reflexivity.
Qed.

(** C2 (amended): in a call that passes validation, with the axis labels "x"
    and "y", on a frame holding particles, the particle loop has one row per
    retained particle; the row's bounds along each axis are
    round((center - radkernel * h - origin) / cell_width) and
    round((center + radkernel * h - origin) / cell_width), clamped to
    [0, pixel_count]; and the indices the loops visit along the axis are
    those of the half-open range: lo <= i < hi for the integers lo and hi of
    the two bounds, both within [0, pixel_count]. *)
Theorem pixel_ranges_half_open
  (A : Arith) (bound : Z) (data : Frame (num A)) (target : string)
  (kernel : BaseKernel A) (pixwidthx pixwidthy xmin ymin : num A)
  (pixcountx pixcounty : Z) (rows : list (Particle A)) :
  IntConv A bound -> pixcountx <= bound -> pixcounty <= bound ->
  invalid_call kernel pixwidthx pixwidthy pixcountx pixcounty = false ->
  holds data "x" "y" target rows ->
  exists parts,
    (p <- build_parts data "x" "y" target kernel pixwidthx pixwidthy xmin ymin
            pixcountx pixcounty ;;
     itertuples p) = inr parts
    /\ Forall2
         (fun r part =>
            part_ipixmin part
            = clip 0 pixcountx
                (rint (div (sub (sub (r_x r) (mul (radkernel kernel) (r_h r)))
                              xmin) pixwidthx))
            /\ part_ipixmax part
               = clip 0 pixcountx
                   (rint (div (sub (add (r_x r) (mul (radkernel kernel) (r_h r)))
                                 xmin) pixwidthx))
            /\ part_jpixmin part
               = clip 0 pixcounty
                   (rint (div (sub (sub (r_y r) (mul (radkernel kernel) (r_h r)))
                                 ymin) pixwidthy))
            /\ part_jpixmax part
               = clip 0 pixcounty
                   (rint (div (sub (add (r_y r) (mul (radkernel kernel) (r_h r)))
                                 ymin) pixwidthy))
            /\ (forall l, ipix_range part = inr l ->
                exists lo hi,
                  py_int (part_ipixmin part) = inr lo
                  /\ py_int (part_ipixmax part) = inr hi
                  /\ 0 <= lo <= pixcountx /\ 0 <= hi <= pixcountx
                  /\ forall i, In i l <-> lo <= i < hi)
            /\ (forall l, jpix_range part = inr l ->
                exists lo hi,
                  py_int (part_jpixmin part) = inr lo
                  /\ py_int (part_jpixmax part) = inr hi
                  /\ 0 <= lo <= pixcounty /\ 0 <= hi <= pixcounty
                  /\ forall j, In j l <-> lo <= j < hi))
         (filter retained rows) parts.
Proof.
  intros IC Hnx Hny Hv Hd.
  destruct (invalid_call_false _ _ _ _ _ Hv) as (_ & _ & Hx & Hy & _).
  eexists; split.
  - rewrite (build_parts_rows data "x" "y" target kernel pixwidthx pixwidthy
               xmin ymin pixcountx pixcounty rows Hd).
    apply retained_parts_xy.
  - apply Forall2_map_r; intros r _.
    split; [reflexivity |]. split; [reflexivity |].
    split; [reflexivity |]. split; [reflexivity |].
    split; intros l Hl.
    + apply (half_open_range bound pixcountx _ _ l IC); [lia | exact Hl].
    + apply (half_open_range bound pixcounty _ _ l IC); [lia | exact Hl].
Qed.

Lemma pixel_ranges_half_open_witness :
  IntConv binary64 (2 ^ 53 - 1) /\ 8 <= 2 ^ 53 - 1 /\
  invalid_call tent_kernel 1%float 1%float 8 8 = false /\
  holds one_particle "x" "y" "A" [@Build_Particle binary64 0%float 0%float 1%float 1%float 1%float 1%float] /\
  exists parts,
    (p <- build_parts one_particle "x" "y" "A" tent_kernel 1%float 1%float
            (-2)%float (-2)%float 8 8 ;;
     itertuples p) = inr parts.
Proof.
  assert (Hd : holds one_particle "x" "y" "A" [@Build_Particle binary64 0%float 0%float 1%float 1%float 1%float 1%float])
    by (repeat split; reflexivity).
  split; [exact B64Laws.binary64_int_conv |].
  split; [lia |].
  split; [reflexivity |].
  split; [exact Hd |].
  destruct (pixel_ranges_half_open binary64 (2 ^ 53 - 1) one_particle "A"
              tent_kernel 1%float 1%float (-2)%float (-2)%float 8 8 _
              B64Laws.binary64_int_conv ltac:(lia) ltac:(lia) eq_refl Hd)
    as (parts & Hp & _).
  exists parts; exact Hp.
Defined.

(** C9: the outcomes of [calc_density].  It raises [KeyError] when the
    smoothing-length column is missing; when that column exists and [params]
    is a dictionary, it raises [KeyError] when 'hfact' is not in [params] or
    when there is neither a mass column nor 'mass' in [params], and otherwise
    returns the dataframe with a column 'rho' equal to
    mass * (hfact / h) ** dim, the mass taken from the mass column when there
    is one and from params['mass'] otherwise, and with [rhocol] set to 'rho'.
    When the column exists and [params] is [None] it raises [TypeError], not
    the [KeyError] of a missing 'hfact'.  Constructing a dataframe from any
    frame, with [params] left out or a dictionary, raises nothing. *)
Theorem calc_density_outcomes (A : Arith) (self : SarracenDataFrame A) :
  (contains self (_hcol self) = false ->
   calc_density self
   = inl (KeyError "Missing smoothing length data in this SarracenDataFrame"))
  /\ (contains self (_hcol self) = true -> _params self = None ->
      calc_density self
      = inl (TypeError "argument of type 'NoneType' is not iterable"))
  /\ (forall d,
        contains self (_hcol self) = true -> _params self = Some d ->
        (has_column d "hfact" = false ->
         calc_density self
         = inl (KeyError "hfact missing from params in this SarracenDataFrame."))
        /\ (has_column d "hfact" = true ->
            contains self (_mcol self) = false -> has_column d "mass" = false ->
            calc_density self
            = inl (KeyError
                     "Missing particle mass data in this SarracenDataFrame."))
        /\ (has_column d "hfact" = true ->
            contains self (_mcol self) = true \/ has_column d "mass" = true ->
            exists mass hfact h self',
              (if contains self (_mcol self)
               then exists col, self_getitem self (_mcol self) = inr col
                                /\ mass = PerParticle col
               else exists m, getitem d "mass" = inr m /\ mass = Uniform m)
              /\ getitem d "hfact" = inr hfact
              /\ self_getitem self (_hcol self) = inr h
              /\ calc_density self = inr self'
              /\ getitem (columns self') "rho"
                 = inr (density mass hfact h (get_dim self))
              /\ (forall key, key <> "rho" ->
                  getitem (columns self') key = getitem (columns self) key)
              /\ _rhocol self' = Some "rho"))
  /\ (forall (CubicSplineKernel : BaseKernel A) (data : Frame (num A)),
        (exists self0, init CubicSplineKernel data PyNone = inr self0
                       /\ _params self0 = Some [] /\ columns self0 = data)
        /\ (forall d, exists self0,
               init CubicSplineKernel data (PyDict d) = inr self0
               /\ _params self0 = Some d /\ columns self0 = data)).
Proof.
  split; [apply calc_density_no_h |].
  split; [apply calc_density_params_None |].
  split; [| intros K data; apply init_returns].
  intros d Hh Hd.
  split; [apply (calc_density_no_hfact self d Hh Hd) |].
  split; [apply (calc_density_no_mass self d Hh Hd) |].
  apply (calc_density_rho self d Hh Hd).
Qed.

(** C9 (failing input): a dataframe with a column 'h' whose [params] is set
    to [None]: 'hfact' is missing, and [calc_density] raises [TypeError]. *)
Lemma calc_density_params_none_raises_TypeError :
  (self <- only_h_params_none ;; calc_density self)
  = inl (TypeError "argument of type 'NoneType' is not iterable").
Proof. reflexivity. Qed.

(** C10: each of the nine column setters leaves the frame, [params], the
    kernel and the other eight roles alone; it stores the new label when that
    label is [None] or names a column, and otherwise changes nothing, raising
    nothing; so a role that held [None] or the label of a column still does.
    The kernel setter stores a [BaseKernel] and ignores any other object, so a
    kernel that was a [BaseKernel] still is.  A dataframe as the constructor
    returns it has every role [None] or the label of a column, and a
    [BaseKernel] for kernel. *)
Theorem column_setters_preserve_invariant
  (A : Arith) (self : SarracenDataFrame A) :
  (forall role new_col,
     let self' := setter role self new_col in
     columns self' = columns self
     /\ _params self' = _params self
     /\ _kernel self' = _kernel self
     /\ (forall role', role' <> role -> getter role' self' = getter role' self)
     /\ (valid_label self new_col = true -> getter role self' = new_col)
     /\ (valid_label self new_col = false -> self' = self)
     /\ (valid_label self (getter role self) = true ->
         valid_label self' (getter role self') = true)
     /\ (all_valid self -> all_valid self'))
  /\ (forall new_kernel,
        (isinstance_BaseKernel new_kernel = true ->
         _kernel (set_kernel self new_kernel) = new_kernel)
        /\ (isinstance_BaseKernel new_kernel = false ->
            set_kernel self new_kernel = self)
        /\ (isinstance_BaseKernel (_kernel self) = true ->
            isinstance_BaseKernel (_kernel (set_kernel self new_kernel)) = true))
  /\ (forall (CubicSplineKernel : BaseKernel A) data params,
        init CubicSplineKernel data params = inr self ->
        all_valid self /\ isinstance_BaseKernel (_kernel self) = true).
Proof.
  split; [| split].
  - intros role new_col self'; subst self'.
    destruct (setter_columns role self new_col) as (E1 & E2 & E3 & _).
    split; [exact E1 |]. split; [exact E3 |]. split; [exact E2 |].
    split; [intros role' Hne; apply setter_other; exact Hne |].
    split; [apply setter_accepts |].
    split; [apply setter_ignores |].
    split; [apply setter_valid | apply setter_all_valid].
  - intros new_kernel; apply set_kernel_cases.
  - intros K data params; apply init_valid.
Qed.







(** C7: in a call that passes validation and returns a grid, on a frame
    holding particles, each particle taken alone in a frame of its own also
    gives a grid, and the grid of the call is the element-wise sum of these,
    added to a zero array in the order of the rows (the addition is that of
    the arithmetic: [AddLaws] holds of binary64, where the sums are exact
    equalities).  For two particles, a cell where the grid of one particle is
    zero, as it is outside the particle's footprint, holds the value of the
    other particle's own grid, and zero if both are zero.  The grid of a
    particle alone is zero outside the two ranges of its row, and
    [0 + contribution] inside; it is the zero array when the particle is not
    retained. *)
Theorem interpolate2D_additive
  (A : Arith) (bound : Z) (data : Frame (num A))
  (singles : list (Frame (num A))) (x y target : string)
  (kernel : BaseKernel A) (pixwidthx pixwidthy xmin ymin : num A)
  (pixcountx pixcounty : Z) (rows : list (Particle A))
  (image : list (list (num A))) :
  IntConv A bound -> AddLaws A -> pixcountx <= bound -> pixcounty <= bound ->
  invalid_call kernel pixwidthx pixwidthy pixcountx pixcounty = false ->
  holds data x y target rows ->
  Forall2 (fun d r => holds d x y target [r]) singles rows ->
  interpolate2D data x y target kernel pixwidthx pixwidthy xmin ymin pixcountx
    pixcounty = inr image ->
  exists images,
    mapM (fun d => interpolate2D d x y target kernel pixwidthx pixwidthy xmin
                     ymin pixcountx pixcounty)
      singles = inr images
    /\ image = fold_left image_sum images (np_zeros2 pixcounty pixcountx)
    /\ (forall g1 g2, images = [g1; g2] ->
        forall j i, 0 <= j < pixcounty -> 0 <= i < pixcountx ->
          (cell g2 j i = of_int 0 -> cell image j i = cell g1 j i)
          /\ (cell g1 j i = of_int 0 -> cell image j i = cell g2 j i))
    /\ Forall2
         (fun d g =>
            ((parts <- build_parts d x y target kernel pixwidthx pixwidthy xmin
                         ymin pixcountx pixcounty ;;
              itertuples parts) = inr [] ->
             g = np_zeros2 pixcounty pixcountx)
            /\ forall part jpixs ipixs,
                 (parts <- build_parts d x y target kernel pixwidthx pixwidthy
                             xmin ymin pixcountx pixcounty ;;
                  itertuples parts) = inr [part] ->
                 jpix_range part = inr jpixs -> ipix_range part = inr ipixs ->
                 forall j i, 0 <= j < pixcounty -> 0 <= i < pixcountx ->
                   cell g j i
                   = if covers jpixs ipixs j i
                     then add (of_int 0)
                            (contribution kernel pixwidthx pixwidthy xmin ymin
                               part j i)
                     else of_int 0)
         singles images.
Proof.
  intros IC AL Hnx Hny Hv Hd Hs Hg.
  destruct (interpolate2D_sum_of_singles bound IC AL x y target kernel pixwidthx
              pixwidthy xmin ymin pixcountx pixcounty Hnx Hny Hv data singles
              rows image Hd Hs Hg) as (images & Em & Ei & Hsg).
  exists images.
  split; [exact Em |]. split; [exact Ei |]. split.
  - intros g1 g2 ->; inversion Hsg as [| ? ? S1 Hsg']; subst.
    inversion Hsg' as [| ? ? S2 _]; subst.
    intros j i Hj Hi.
    exact (fold_left_two AL pixcountx pixcounty g1 g2 j i S1 S2 Hj Hi).
  - apply mapM_inr_Forall2 in Em.
    eapply Forall2_impl; [| exact Em].
    intros d g Hdg; split.
    + exact (empty_call_zeros x y target kernel pixwidthx pixwidthy xmin ymin
               pixcountx pixcounty Hv d g Hdg).
    + intros part jpixs ipixs.
      exact (single_call_cells bound IC AL x y target kernel pixwidthx pixwidthy
               xmin ymin pixcountx pixcounty Hnx Hny Hv d g part jpixs ipixs
               Hdg).
Qed.

Lemma interpolate2D_additive_witness :
  exists images,
    mapM (fun d => interpolate2D d "x" "y" "A" tent_kernel 1%float 1%float
                     (-2)%float (-2)%float 4 4)
      [lower_left; upper_right] = inr images
    /\ two_apart_grid = fold_left image_sum images (np_zeros2 4 4).
Proof.
  assert (Hd : holds two_apart "x" "y" "A"
                 [particle (-1) (-1) 0.5 1 1 1; particle 1 1 0.5 1 1 1])
    by (repeat split; reflexivity).
  assert (Hs : Forall2 (fun d r => holds d "x" "y" "A" [r])
                 [lower_left; upper_right]
                 [particle (-1) (-1) 0.5 1 1 1; particle 1 1 0.5 1 1 1])
    by (repeat constructor; reflexivity).
  assert (Hg : interpolate2D two_apart "x" "y" "A" tent_kernel 1%float 1%float
                 (-2)%float (-2)%float 4 4 = inr two_apart_grid)
    by (vm_compute; reflexivity).
  destruct (interpolate2D_additive binary64 (2 ^ 53 - 1) two_apart
              [lower_left; upper_right] "x" "y" "A" tent_kernel 1%float 1%float
              (-2)%float (-2)%float 4 4
              [particle (-1) (-1) 0.5 1 1 1; particle 1 1 0.5 1 1 1]
              two_apart_grid B64Laws.binary64_int_conv
              B64AddLaws.binary64_add_laws ltac:(lia) ltac:(lia) eq_refl Hd Hs
              Hg) as (images & H1 & H2 & _).
  exists images; split; assumption.
Defined.

(** * Further properties of [interpolate2D] *)

(** X1: a call that returns, returns an array of [pixcounty] rows of
    [pixcountx] cells each, and its arguments passed the five checks. *)
Theorem interpolate2D_returns_grid_shape
  (A : Arith) (bound : Z) (data : Frame (num A)) (x y target : string)
  (kernel : BaseKernel A) (pixwidthx pixwidthy xmin ymin : num A)
  (pixcountx pixcounty : Z) (g : list (list (num A))) :
  IntConv A bound -> pixcountx <= bound -> pixcounty <= bound ->
  interpolate2D data x y target kernel pixwidthx pixwidthy xmin ymin pixcountx
    pixcounty = inr g ->
  invalid_call kernel pixwidthx pixwidthy pixcountx pixcounty = false
  /\ List.length g = Z.to_nat pixcounty
  /\ Forall (fun row => List.length row = Z.to_nat pixcountx) g.
Proof.
  intros IC Hnx Hny H.
  pose proof (interpolate2D_returns_valid _ _ _ _ _ _ _ _ _ _ _ _ H) as Hv.
  split; [exact Hv |].
  destruct (invalid_call_false _ _ _ _ _ Hv) as (_ & _ & Hx & Hy & _).
  assert (Hnx' : 0 <= pixcountx <= bound) by lia.
  assert (Hny' : 0 <= pixcounty <= bound) by lia.
  destruct (interpolate2D_loop bound IC kernel pixwidthx pixwidthy xmin ymin
              pixcountx pixcounty Hnx' Hny' data x y target g H)
    as (rows & cells & _ & _ & Hpcs & ->).
  exact (proj1 (fold_accumulate_cells bound IC kernel pixwidthx pixwidthy xmin
                  ymin pixcountx pixcounty Hnx' Hny' _ _ (np_zeros2_shape _ _)
                  Hpcs)).
Qed.

Lemma interpolate2D_returns_grid_shape_witness :
  List.length two_apart_grid = 4%nat
  /\ Forall (fun row => List.length row = 4%nat) two_apart_grid.
Proof.
  exact (proj2 (interpolate2D_returns_grid_shape binary64 (2 ^ 53 - 1)
                  two_apart "x" "y" "A" tent_kernel 1%float 1%float (-2)%float
                  (-2)%float 4 4 two_apart_grid B64Laws.binary64_int_conv
                  ltac:(lia) ltac:(lia) ltac:(reflexivity))).
Defined.

(** X2: in a call that passes validation, a frame that lacks one of the
    columns x, y, 'h', 'm', 'rho' and target makes the call raise [KeyError]
    with the first missing label, in that order. *)
Theorem interpolate2D_missing_column
  (A : Arith) (data : Frame (num A)) (x y target : string)
  (kernel : BaseKernel A) (pixwidthx pixwidthy xmin ymin : num A)
  (pixcountx pixcounty : Z) (c : string) :
  invalid_call kernel pixwidthx pixwidthy pixcountx pixcounty = false ->
  first_missing data x y target = Some c ->
  interpolate2D data x y target kernel pixwidthx pixwidthy xmin ymin pixcountx
    pixcounty = inl (KeyError c).
Proof.
  intros Hv Hc; rewrite (interpolate2D_valid _ _ _ _ _ _ _ _ _ _ _ Hv).
  unfold first_missing, columns_read in Hc; cbn [find] in Hc.
  unfold build_parts.
  repeat match type of Hc with
         | (if negb (has_column data ?k) then _ else _) = _ =>
             let E := fresh "E" in
             destruct (has_column data k) eqn:E; cbn [negb] in Hc;
             [ let s := fresh "s" in
               let Es := fresh "Es" in
               destruct (has_column_getitem _ _ E) as (s & Es);
               rewrite ?Es, ?bind_inr_l
             | injection Hc as <-;
               rewrite (getitem_missing _ _ E); reflexivity ]
         end.
  discriminate Hc.
Qed.

Lemma interpolate2D_missing_column_witness :
  @interpolate2D binary64 only_h "x" "y" "A" tent_kernel 1%float 1%float
    0%float 0%float 4 4 = inl (KeyError "x").
Proof.
  apply (interpolate2D_missing_column binary64 only_h "x" "y" "A" tent_kernel
           1%float 1%float 0%float 0%float 4 4 "x"); reflexivity.
Defined.

(** X3: line 62 reads [parts[x]] and line 64 [parts[y]] with the caller's
    labels, while [parts] names its columns 'x', 'y', 'h', 'weight' and
    'term'.  So on a frame that holds every column, a call that passes
    validation raises [KeyError] when x is none of these five labels, and
    when x is one of them but y is none of them nor 'ipixmin'. *)
Theorem interpolate2D_axis_label_KeyError
  (A : Arith) (data : Frame (num A)) (x y target : string)
  (kernel : BaseKernel A) (pixwidthx pixwidthy xmin ymin : num A)
  (pixcountx pixcounty : Z) (rows : list (Particle A)) :
  holds data x y target rows ->
  invalid_call kernel pixwidthx pixwidthy pixcountx pixcounty = false ->
  (~ In x parts_labels ->
   interpolate2D data x y target kernel pixwidthx pixwidthy xmin ymin pixcountx
     pixcounty = inl (KeyError x))
  /\ (In x parts_labels -> ~ In y parts_labels_y ->
      interpolate2D data x y target kernel pixwidthx pixwidthy xmin ymin
        pixcountx pixcounty = inl (KeyError y)).
Proof.
  intros Hd Hv.
  rewrite (interpolate2D_retained data x y target kernel _ _ _ _ _ _ rows Hd Hv).
  unfold retained_parts; split.
  - intros Hx.
    rewrite (getitem_missing (@parts_columns A) x
               (has_column_not_In (@parts_columns A) x Hx)).
    reflexivity.
  - intros Hx Hy.
    destruct (has_column_getitem (@parts_columns A) x
                (proj2 (has_column_In (@parts_columns A) x) Hx)) as (cx & ->).
    rewrite bind_inr_l.
    rewrite getitem_missing; [reflexivity |].
    apply has_column_not_In; exact Hy.
Qed.

Lemma interpolate2D_axis_label_KeyError_witness :
  @interpolate2D binary64
    [("rx", [0%float]); ("ry", [0%float]); ("h", [1%float]); ("m", [1%float]);
     ("rho", [1%float]); ("A", [1%float])]
    "rx" "ry" "A" tent_kernel 1%float 1%float (-2)%float (-2)%float 4 4
  = inl (KeyError "rx").
Proof.
  apply (interpolate2D_axis_label_KeyError binary64 _ "rx" "ry" "A" tent_kernel
           1%float 1%float (-2)%float (-2)%float 4 4 [particle 0 0 1 1 1 1]).
  - repeat split; reflexivity.
  - reflexivity.
  - simpl; intuition discriminate.
Defined.

(** X4: the exceptions of a call.  Whatever it is given, a call raises
    nothing but one of the five validation errors, a [KeyError], an
    [OverflowError], a [ZeroDivisionError] or the [ValueError] of [int(nan)];
    and on a frame that holds every column, read with the labels 'x' and 'y',
    it raises no [KeyError] either. *)
Theorem interpolate2D_exceptions
  (A : Arith) (bound : Z) (data : Frame (num A)) (x y target : string)
  (kernel : BaseKernel A) (pixwidthx pixwidthy xmin ymin : num A)
  (pixcountx pixcounty : Z) (e : exn) :
  IntConv A bound -> pixcountx <= bound -> pixcounty <= bound ->
  interpolate2D data x y target kernel pixwidthx pixwidthy xmin ymin pixcountx
    pixcounty = inl e ->
  (In e validation_errors \/ (exists k, e = KeyError k) \/ e = OverflowError
   \/ e = ZeroDivisionError \/ e = ValueError nan_to_int)
  /\ (forall rows, x = "x" -> y = "y" -> holds data x y target rows ->
      In e validation_errors \/ e = OverflowError \/ e = ZeroDivisionError
      \/ e = ValueError nan_to_int).
Proof.
  intros IC Hnx Hny H.
  destruct (invalid_call kernel pixwidthx pixwidthy pixcountx pixcounty) eqn:Hv.
  - destruct (interpolate2D_invalid _ _ _ _ _ Hv) as (e' & Hin & He).
    specialize (He data x y target (radkernel kernel) (w kernel) xmin ymin).
    destruct kernel as [nd rk wk]; cbn [ndims radkernel w] in He.
    rewrite He in H; injection H as <-; auto.
  - destruct (invalid_call_false _ _ _ _ _ Hv) as (_ & _ & Hx & Hy & _).
    assert (Hnx' : 0 <= pixcountx <= bound) by lia.
    assert (Hny' : 0 <= pixcounty <= bound) by lia.
    split.
    + rewrite (interpolate2D_eq_sum bound IC _ _ _ _ _ _ _ _ _ _ _ Hnx' Hny' Hv)
        in H.
      apply (interpolate2D_sum_raises bound IC data x y target kernel pixwidthx
               pixwidthy xmin ymin pixcountx pixcounty
               (fun e => In e validation_errors \/ (exists k, e = KeyError k)
                         \/ e = OverflowError \/ e = ZeroDivisionError
                         \/ e = ValueError nan_to_int)) in H; eauto 6.
    + intros rows -> -> Hd.
      rewrite (interpolate2D_retained _ _ _ _ kernel _ _ _ _ _ _ rows Hd Hv),
        retained_parts_xy, bind_inr_l in H.
      rewrite (foldM_process_part bound IC kernel pixwidthx pixwidthy xmin ymin
                 pixcountx pixcounty Hnx' Hny') in H;
        [| apply Forall_forall; intros p Hp; apply in_map_iff in Hp;
           destruct Hp as (r & <- & _); apply part_of_clipped
         | apply np_zeros2_shape].
      destruct (mapM _ _) as [e' | cells] eqn:Em; [| discriminate H].
      injection H as <-.
      apply (mapM_raises
               (fun e => In e validation_errors \/ e = OverflowError
                         \/ e = ZeroDivisionError \/ e = ValueError nan_to_int))
        in Em; [exact Em |].
      intros p e'' _ Hp.
      refine (part_cells_raises bound IC pixwidthx xmin
                (fun e => In e validation_errors \/ e = OverflowError
                          \/ e = ZeroDivisionError \/ e = ValueError nan_to_int)
                _ _ _ p e'' Hp); cbv beta; auto.
Qed.

Lemma interpolate2D_exceptions_witness :
  @interpolate2D binary64 nan_position "x" "y" "A" tent_kernel 1%float 1%float
    (-2)%float (-2)%float 4 4 = inl (ValueError nan_to_int)
  /\ (In (ValueError nan_to_int) validation_errors
      \/ (exists k, ValueError nan_to_int = KeyError k)
      \/ ValueError nan_to_int = OverflowError
      \/ ValueError nan_to_int = ZeroDivisionError
      \/ ValueError nan_to_int = ValueError nan_to_int).
Proof.
  assert (H : @interpolate2D binary64 nan_position "x" "y" "A" tent_kernel
                1%float 1%float (-2)%float (-2)%float 4 4
              = inl (ValueError nan_to_int)) by (vm_compute; reflexivity).
  split; [exact H |].
  exact (proj1 (interpolate2D_exceptions binary64 (2 ^ 53 - 1) nan_position
                  "x" "y" "A" tent_kernel 1%float 1%float (-2)%float (-2)%float
                  4 4 (ValueError nan_to_int) B64Laws.binary64_int_conv
                  ltac:(lia) ltac:(lia) H)).
Defined.

(** X5: on a frame none of whose particles has a weight above zero (a frame
    without rows, say), a call with the labels 'x' and 'y' that passes
    validation raises nothing and returns the array of zeros. *)
Theorem interpolate2D_nothing_retained
  (A : Arith) (data : Frame (num A)) (target : string)
  (kernel : BaseKernel A) (pixwidthx pixwidthy xmin ymin : num A)
  (pixcountx pixcounty : Z) (rows : list (Particle A)) :
  holds data "x" "y" target rows ->
  invalid_call kernel pixwidthx pixwidthy pixcountx pixcounty = false ->
  Forall (fun r => retained r = false) rows ->
  interpolate2D data "x" "y" target kernel pixwidthx pixwidthy xmin ymin
    pixcountx pixcounty
  = inr (np_zeros2 pixcounty pixcountx).
Proof.
  intros Hd Hv Hr.
  rewrite (interpolate2D_retained _ _ _ _ kernel _ _ _ _ _ _ rows Hd Hv),
    retained_parts_xy, bind_inr_l.
  replace (filter retained rows) with (@nil (Particle A)); [reflexivity |].
  clear Hd; symmetry.
  induction Hr as [| r rows Hr Hrows IH]; simpl; [reflexivity |].
  rewrite Hr; exact IH.
Qed.

Lemma interpolate2D_nothing_retained_witness :
  @interpolate2D binary64
    (frame_of [0%float] [0%float] [1%float] [0%float] [1%float] [1%float])
    "x" "y" "A" tent_kernel 1%float 1%float (-2)%float (-2)%float 4 4
  = inr (np_zeros2 4 4).
Proof.
  apply (interpolate2D_nothing_retained binary64 _ "A" tent_kernel 1%float
           1%float (-2)%float (-2)%float 4 4 [particle 0 0 1 0 1 1]).
  - repeat split; reflexivity.
  - reflexivity.
  - repeat constructor.
Defined.

(** X6: the value of each cell.  In a call that returns, the loop ran over
    the rows of [parts], each with integer bounds ilo = int(part.ipixmin),
    ihi = int(part.ipixmax), jlo = int(part.jpixmin), jhi = int(part.jpixmax);
    a cell (jpix, ipix) of the grid holds the contributions of the rows with
    jlo <= jpix < jhi and ilo <= ipix < ihi, added to 0.0 in the order of the
    rows, and a cell that lies between the bounds of no row holds 0.0. *)
Theorem interpolate2D_cell_value
  (A : Arith) (bound : Z) (data : Frame (num A)) (x y target : string)
  (kernel : BaseKernel A) (pixwidthx pixwidthy xmin ymin : num A)
  (pixcountx pixcounty : Z) (g : list (list (num A))) :
  IntConv A bound -> pixcountx <= bound -> pixcounty <= bound ->
  interpolate2D data x y target kernel pixwidthx pixwidthy xmin ymin pixcountx
    pixcounty = inr g ->
  exists rows bs,
    (parts <- build_parts data x y target kernel pixwidthx pixwidthy xmin ymin
                pixcountx pixcounty ;;
     itertuples parts) = inr rows
    /\ Forall2
         (fun part b =>
            let '(ilo, ihi, jlo, jhi) := b in
            py_int (part_ipixmin part) = inr ilo
            /\ py_int (part_ipixmax part) = inr ihi
            /\ py_int (part_jpixmin part) = inr jlo
            /\ py_int (part_jpixmax part) = inr jhi)
         rows bs
    /\ forall jpix ipix, 0 <= jpix < pixcounty -> 0 <= ipix < pixcountx ->
         cell g jpix ipix
         = fold_left
             (fun acc pb =>
                let '(ilo, ihi, jlo, jhi) := snd pb in
                if (jlo <=? jpix) && (jpix <? jhi)
                   && ((ilo <=? ipix) && (ipix <? ihi))
                then add acc
                       (contribution kernel pixwidthx pixwidthy xmin ymin
                          (fst pb) jpix ipix)
                else acc)
             (combine rows bs) (of_int 0)
         /\ (Forall (fun b => inside b jpix ipix = false) bs ->
             cell g jpix ipix = of_int 0).
Proof.
  intros IC Hnx Hny H.
  pose proof (interpolate2D_returns_valid _ _ _ _ _ _ _ _ _ _ _ _ H) as Hv.
  destruct (invalid_call_false _ _ _ _ _ Hv) as (_ & _ & Hx & Hy & _).
  assert (Hnx' : 0 <= pixcountx <= bound) by lia.
  assert (Hny' : 0 <= pixcounty <= bound) by lia.
  destruct (interpolate2D_cells bound IC kernel pixwidthx pixwidthy xmin ymin
              pixcountx pixcounty Hnx' Hny' data x y target g H)
    as (rows & bs & Hrows & Hb & Hcell).
  exists rows, bs; split; [exact Hrows |].
  split.
  { eapply Forall2_impl; [| exact Hb].
    intros part [[[ilo ihi] jlo] jhi] Hi; exact Hi. }
  intros jpix ipix Hj Hi; rewrite (Hcell jpix ipix Hj Hi); unfold cell_total.
  split.
  - generalize (of_int 0 : num A) as a; clear Hcell.
    induction (combine rows bs) as [| [part [[[ilo ihi] jlo] jhi]] l IH];
      intros a; [reflexivity |].
    cbn [fold_left]; rewrite IH; reflexivity.
  - intros Hout; apply Forall2_length in Hb.
    generalize (of_int 0 : num A) as a.
    clear Hcell Hrows H; revert rows Hb.
    induction Hout as [| b bs Hb' Hout IH]; intros [| part rows] Hlen a;
      try reflexivity; try discriminate Hlen.
    cbn [combine fold_left fst snd]; rewrite Hb'.
    apply IH; simpl in Hlen; congruence.
Qed.

Lemma interpolate2D_cell_value_witness :
  exists rows bs,
    (parts <- @build_parts binary64 two_apart "x" "y" "A" tent_kernel 1%float
                1%float (-2)%float (-2)%float 4 4 ;;
     itertuples parts) = inr rows
    /\ Forall2
         (fun part b =>
            let '(ilo, ihi, jlo, jhi) := b in
            py_int (part_ipixmin part) = inr ilo
            /\ py_int (part_ipixmax part) = inr ihi
            /\ py_int (part_jpixmin part) = inr jlo
            /\ py_int (part_jpixmax part) = inr jhi)
         rows bs
    /\ forall jpix ipix, 0 <= jpix < 4 -> 0 <= ipix < 4 ->
         cell two_apart_grid jpix ipix
         = fold_left
             (fun acc pb =>
                let '(ilo, ihi, jlo, jhi) := snd pb in
                if (jlo <=? jpix) && (jpix <? jhi)
                   && ((ilo <=? ipix) && (ipix <? ihi))
                then add acc
                       (contribution tent_kernel 1%float 1%float (-2)%float
                          (-2)%float (fst pb) jpix ipix)
                else acc)
             (combine rows bs) (of_int 0)
         /\ (Forall (fun b => inside b jpix ipix = false) bs ->
             cell two_apart_grid jpix ipix = of_int 0).
Proof.
  exact (interpolate2D_cell_value binary64 (2 ^ 53 - 1) two_apart "x" "y" "A"
           tent_kernel 1%float 1%float (-2)%float (-2)%float 4 4 two_apart_grid
           B64Laws.binary64_int_conv ltac:(lia) ltac:(lia)
           ltac:(vm_compute; reflexivity)).
Defined.

(** X7: a NaN pixel width is not rejected.  No comparison with NaN holds,
    so [pixwidthx <= 0] is false of it and the call goes on; then the bounds
    of every particle along x are NaN, and the call raises the [ValueError]
    of [int(nan)] at the first retained particle.  It returns, an array of
    zeros, only when no particle is retained. *)
Theorem interpolate2D_nan_pixel_width
  (data : Frame (num binary64)) (target : string) (kernel : BaseKernel binary64)
  (pixwidthy xmin ymin : num binary64) (pixcountx pixcounty : Z)
  (rows : list (Particle binary64)) :
  PrimFloat.leb pixwidthy 0 = false -> 0 < pixcountx -> 0 < pixcounty ->
  ndims kernel = 2 ->
  holds data "x" "y" target rows ->
  @interpolate2D binary64 data "x" "y" target kernel nan pixwidthy xmin ymin
    pixcountx pixcounty
  = if existsb retained rows then inl (ValueError nan_to_int)
    else inr (np_zeros2 pixcounty pixcountx).
Proof.
  intros Hwy Hnx Hny Hk Hd.
  assert (Hv : @invalid_call binary64 kernel nan pixwidthy pixcountx pixcounty
               = false).
  { unfold invalid_call; rewrite Hk.
    replace (pixcountx <=? 0) with false by (symmetry; apply Z.leb_gt; lia).
    replace (pixcounty <=? 0) with false by (symmetry; apply Z.leb_gt; lia).
    change (@leb binary64 pixwidthy (of_int 0)) with (PrimFloat.leb pixwidthy 0).
    rewrite Hwy; reflexivity. }
  rewrite (interpolate2D_retained _ _ _ _ kernel _ _ _ _ _ _ rows Hd Hv),
    retained_parts_xy, bind_inr_l.
  clear Hd; induction rows as [| r rows IH]; [reflexivity |].
  cbn [filter existsb].
  destruct (retained r); [| exact IH].
  cbn [map foldM orb]; rewrite process_part_nan_width; reflexivity.
Qed.

Lemma interpolate2D_nan_pixel_width_witness :
  @interpolate2D binary64 one_particle "x" "y" "A" tent_kernel nan 1%float
    (-2)%float (-2)%float 4 4
  = inl (ValueError nan_to_int).
Proof.
  apply (interpolate2D_nan_pixel_width one_particle "A" tent_kernel 1%float
           (-2)%float (-2)%float 4 4 [particle 0 0 1 1 1 1]);
    try reflexivity; try lia.
  repeat split; reflexivity.
Defined.

(** * Further properties of [SarracenDataFrame] *)

(** X8: the position columns the constructor identifies.  [xcol] is 'x' when
    the frame has a column 'x', else 'rx' when it has one, else the label of
    the first column, and [None] for a frame without columns; [ycol] is 'y',
    else 'ry', else the label of the second column, else [None]; [zcol] is
    'z', else 'rz', else [None]; and [get_dim] is 3 when the frame has a
    column 'z' or 'rz' and 2 otherwise. *)
Theorem constructor_identifies_positions
  (A : Arith) (CubicSplineKernel : BaseKernel A) (data : Frame (num A))
  (params : PyObject A) (self : SarracenDataFrame A) :
  init CubicSplineKernel data params = inr self ->
  _xcol self = (if has_column data "x" then Some "x"
                else if has_column data "rx" then Some "rx"
                else hd_error (map fst data))
  /\ _ycol self = (if has_column data "y" then Some "y"
                   else if has_column data "ry" then Some "ry"
                   else nth_error (map fst data) 1)
  /\ _zcol self = (if has_column data "z" then Some "z"
                   else if has_column data "rz" then Some "rz"
                   else None)
  /\ get_dim self = (if has_column data "z" || has_column data "rz" then 3
                     else 2).
Proof.
  intros H.
  destruct (init_roles _ _ _ _ H) as (_ & Vx & Vy & Vz & _).
  split; [exact Vx |]. split; [exact Vy |]. split; [exact Vz |].
  unfold get_dim; rewrite Vz.
  destruct (has_column data "z"); [reflexivity |].
  destruct (has_column data "rz"); reflexivity.
Qed.

Lemma constructor_identifies_positions_witness :
  exists self,
    init tent_kernel one_particle PyNone = inr self
    /\ _xcol self = Some "x" /\ _ycol self = Some "y" /\ _zcol self = None
    /\ get_dim self = 2.
Proof.
  destruct (init_returns tent_kernel one_particle) as ((self & H & _) & _).
  exists self; split; [exact H |].
  exact (constructor_identifies_positions binary64 tent_kernel one_particle
           PyNone self H).
Defined.

(** X9: the other columns the constructor identifies.  [hcol] is 'h' when
    the frame has that column and [None] otherwise; [mcol] is 'm', else
    'mass', else [None]; [rhocol] is 'rho', else 'density', else [None];
    [vxcol], [vycol] and [vzcol] are 'vx', 'vy' and 'vz' when the frame has
    them; and [dustfracscol] lists, in the order of the frame, the labels
    that start with 'dustfrac'. *)
Theorem constructor_identifies_quantities
  (A : Arith) (CubicSplineKernel : BaseKernel A) (data : Frame (num A))
  (params : PyObject A) (self : SarracenDataFrame A) :
  init CubicSplineKernel data params = inr self ->
  _hcol self = (if has_column data "h" then Some "h" else None)
  /\ _mcol self = (if has_column data "m" then Some "m"
                   else if has_column data "mass" then Some "mass" else None)
  /\ _rhocol self = (if has_column data "rho" then Some "rho"
                     else if has_column data "density" then Some "density"
                     else None)
  /\ _vxcol self = (if has_column data "vx" then Some "vx" else None)
  /\ _vycol self = (if has_column data "vy" then Some "vy" else None)
  /\ _vzcol self = (if has_column data "vz" then Some "vz" else None)
  /\ _dustfracscol self = filter (String.prefix "dustfrac") (map fst data).
Proof.
  intros H.
  destruct (init_roles _ _ _ _ H) as (_ & _ & _ & _ & V).
  exact V.
Qed.

Lemma constructor_identifies_quantities_witness :
  exists self,
    init tent_kernel one_particle PyNone = inr self
    /\ _hcol self = Some "h" /\ _mcol self = Some "m"
    /\ _rhocol self = Some "rho" /\ _vxcol self = None /\ _vycol self = None
    /\ _vzcol self = None /\ _dustfracscol self = [].
Proof.
  destruct (init_returns tent_kernel one_particle) as ((self & H & _) & _).
  exists self; split; [exact H |].
  exact (constructor_identifies_quantities binary64 tent_kernel one_particle
           PyNone self H).
Defined.

(** X10: the outcomes of [create_mass_column].  With [params] a dictionary
    that has no 'mass' it raises [KeyError]; with [params] set to [None] it
    raises [TypeError]; and with a 'mass' in [params] it returns the
    dataframe with a column 'm' that holds that mass in each of the
    [len(self)] rows, [mcol] set to 'm', and every other column, [params] and
    the other eight roles as they were. *)
Theorem create_mass_column_outcomes (A : Arith) (self : SarracenDataFrame A) :
  (_params self = None ->
   create_mass_column self
   = inl (TypeError "argument of type 'NoneType' is not iterable"))
  /\ (forall d, _params self = Some d ->
        (has_column d "mass" = false ->
         create_mass_column self
         = inl (KeyError
                  "'mass' value does not exist in this SarracenDataFrame."))
        /\ (forall m, getitem d "mass" = inr m ->
            exists self',
              create_mass_column self = inr self'
              /\ getitem (columns self') "m" = inr (repeat m (len self))
              /\ _mcol self' = Some "m"
              /\ (forall key, key <> "m" ->
                  getitem (columns self') key = getitem (columns self) key)
              /\ _params self' = _params self
              /\ (forall role, role <> mcol ->
                  getter role self' = getter role self))).
Proof.
  split.
  - intros Hp; unfold create_mass_column, params_contains; rewrite Hp.
    reflexivity.
  - intros d Hd; split.
    + intros Hm; unfold create_mass_column, params_contains.
      rewrite Hd, bind_inr_l, Hm; reflexivity.
    + intros m Hm; eexists.
      split; [exact (create_mass_column_some self d m Hd Hm) |].
      destruct (assign_column_facts mcol self "m" (repeat m (len self)))
        as (E1 & E2 & _ & _ & E5 & E6 & _).
      split; [rewrite E1, getitem_setitem, String.eqb_refl; reflexivity |].
      split; [exact E5 |].
      split; [| split; [exact E2 | exact E6]].
      intros key Hk; rewrite E1, getitem_setitem.
      destruct (String.eqb "m" key) eqn:E; [| reflexivity].
      apply String.eqb_eq in E; congruence.
Qed.

(** X11: [calc_density] and [create_mass_column] keep what the setters
    keep.  When either returns, every role of the dataframe that held [None]
    or the label of a column still does, [params], the kernel and the list of
    dust columns are as they were, no role but the one assigned ([rhocol],
    [mcol]) has changed, and every column the frame had it still has. *)
Theorem column_creators_keep_invariant
  (A : Arith) (self self' : SarracenDataFrame A) :
  (calc_density self = inr self' \/ create_mass_column self = inr self') ->
  (all_valid self -> all_valid self')
  /\ _params self' = _params self /\ _kernel self' = _kernel self
  /\ _dustfracscol self' = _dustfracscol self
  /\ (forall role, role <> rhocol -> role <> mcol ->
      getter role self' = getter role self)
  /\ (forall c, has_column (columns self) c = true ->
      has_column (columns self') c = true).
Proof.
  intros H.
  assert (Hs : exists role key col, self' = assign_column role self key col
                                    /\ (role = rhocol \/ role = mcol)).
  { destruct H as [H | H].
    - destruct (calc_density_inr _ _ H) as (rho & ->); eauto 6.
    - destruct (create_mass_column_inr _ _ H) as (m & _ & ->); eauto 6. }
  destruct Hs as (role & key & col & -> & Hrole).
  destruct (assign_column_facts role self key col)
    as (E1 & E2 & E3 & E4 & _ & E6 & E7).
  split; [exact E7 |]. split; [exact E2 |]. split; [exact E3 |].
  split; [exact E4 |].
  split.
  - intros role' H1 H2; apply E6; destruct Hrole; congruence.
  - intros c Hc; rewrite E1, has_column_setitem_eq, Hc; reflexivity.
Qed.

Lemma column_creators_keep_invariant_witness :
  exists self self',
    init tent_kernel uniform_mass_frame (PyDict uniform_mass_params) = inr self
    /\ create_mass_column self = inr self'
    /\ all_valid self' /\ _params self' = Some uniform_mass_params.
Proof.
  destruct (init_returns tent_kernel uniform_mass_frame)
    as (_ & H); destruct (H uniform_mass_params) as (self & Hi & Hp & Hc).
  exists self, (assign_column mcol self "m" (repeat 0.5%float (len self))).
  assert (Hm : create_mass_column self
               = inr (assign_column mcol self "m"
                        (repeat 0.5%float (len self))))
    by (apply (create_mass_column_some self uniform_mass_params); auto).
  destruct (column_creators_keep_invariant binary64 self _ (or_intror Hm))
    as (Hv & Hp' & _).
  split; [exact Hi |]. split; [exact Hm |].
  split; [apply Hv; exact (proj1 (init_valid _ _ _ _ Hi)) |].
  rewrite Hp'; exact Hp.
Defined.

(** X12: [calc_density] after [create_mass_column].  On a dataframe
    without a mass column whose [params] has a 'mass', and whose smoothing
    lengths are not in a column 'm', creating the mass column first changes
    nothing to the densities: when [calc_density] returns, so does
    [create_mass_column] followed by [calc_density], with the same column
    'rho'. *)
Theorem create_mass_column_then_calc_density
  (A : Arith) (self self' : SarracenDataFrame A) (d : dict A) :
  rectangular self ->
  _params self = Some d -> has_column d "mass" = true ->
  contains self (_mcol self) = false -> _hcol self <> Some "m" ->
  calc_density self = inr self' ->
  exists self1 self1',
    create_mass_column self = inr self1
    /\ calc_density self1 = inr self1'
    /\ getitem (columns self1') "rho" = getitem (columns self') "rho".
Proof.
  intros Hrect Hd Hmass Hnom Hhm H.
  (* the call on [self] *)
  destruct (contains self (_hcol self)) eqn:Hh;
    [| rewrite (calc_density_no_h self Hh) in H; discriminate H].
  destruct (has_column d "hfact") eqn:Hf;
    [| rewrite (calc_density_no_hfact self d Hh Hd Hf) in H; discriminate H].
  destruct (calc_density_rho self d Hh Hd Hf (or_intror Hmass))
    as (mass & hfact & h & s' & Hsel & Ehf & Eh & Ecd & Erho & _).
  rewrite Hnom in Hsel; destruct Hsel as (m & Em & ->).
  rewrite H in Ecd; injection Ecd as <-.
  (* the mass column *)
  pose proof (create_mass_column_some self d m Hd Em) as Hc.
  destruct (assign_column_facts mcol self "m" (repeat m (len self)))
    as (E1 & E2 & _ & _ & E5 & E6 & _).
  revert Hc E1 E2 E5 E6.
  generalize (assign_column mcol self "m" (repeat m (len self))).
  intros self1 Hc E1 E2 E5 E6.
  assert (Hh1 : _hcol self1 = _hcol self) by (apply (E6 hcol); discriminate).
  assert (Hz1 : get_dim self1 = get_dim self).
  { unfold get_dim; change (_zcol self1) with (getter zcol self1).
    rewrite (E6 zcol) by discriminate; reflexivity. }
  assert (Eh1 : self_getitem self1 (_hcol self1) = inr h).
  { rewrite Hh1; destruct (_hcol self) as [c |]; [| discriminate Eh].
    cbn [self_getitem] in Eh |- *; rewrite E1, getitem_setitem.
    destruct (String.eqb "m" c) eqn:E; [| exact Eh].
    apply String.eqb_eq in E; congruence. }
  assert (Em1 : self_getitem self1 (_mcol self1) = inr (repeat m (len self))).
  { change (_mcol self1) with (getter mcol self1); rewrite E5.
    cbn [self_getitem].
    rewrite E1, getitem_setitem, String.eqb_refl; reflexivity. }
  assert (Hc1 : forall label col, self_getitem self1 label = inr col ->
                                  contains self1 label = true).
  { intros [c |] col Hg; [| discriminate Hg].
    exact (getitem_has_column _ _ _ Hg). }
  pose proof (rectangular_getitem self _ _ Hrect Eh) as Hlen.
  (* the call on [self1] *)
  destruct (calc_density_rho self1 d (Hc1 _ _ Eh1) (eq_trans E2 Hd) Hf
              (or_introl (Hc1 _ _ Em1)))
    as (mass1 & hfact1 & h1 & s1' & Hsel1 & Ehf1 & Eh1' & Ecd1 & Erho1 & _).
  rewrite (Hc1 _ _ Em1) in Hsel1; destruct Hsel1 as (col & Ecol & ->).
  rewrite Em1 in Ecol; injection Ecol as <-.
  rewrite Ehf in Ehf1; injection Ehf1 as <-.
  rewrite Eh1 in Eh1'; injection Eh1' as <-.
  exists self1, s1'.
  split; [exact Hc |]. split; [exact Ecd1 |].
  rewrite Erho, Erho1, Hz1; f_equal.
  unfold density; rewrite <- Hlen.
  rewrite <- (length_map (fun hv => power (div hfact hv) (get_dim self)) h).
  apply zip_with_repeat_l.
Qed.

Lemma create_mass_column_then_calc_density_witness :
  exists self self' self1 self1',
    init tent_kernel uniform_mass_frame (PyDict uniform_mass_params) = inr self
    /\ calc_density self = inr self'
    /\ create_mass_column self = inr self1
    /\ calc_density self1 = inr self1'
    /\ getitem (columns self1') "rho" = getitem (columns self') "rho".
Proof.
  destruct (init_returns tent_kernel uniform_mass_frame)
    as (_ & H); destruct (H uniform_mass_params) as (self & Hi & Hp & Hc).
  destruct (init_roles tent_kernel uniform_mass_frame
              (PyDict uniform_mass_params) self Hi)
    as (_ & _ & _ & _ & Vh & Vm & _).
  assert (Hh : contains self (_hcol self) = true)
    by (rewrite Vh; unfold contains; rewrite Hc; reflexivity).
  assert (Hm : contains self (_mcol self) = false) by (rewrite Vm; reflexivity).
  destruct (calc_density_rho self uniform_mass_params Hh Hp eq_refl
              (or_intror eq_refl))
    as (_ & _ & _ & self' & _ & _ & _ & Hcd & _).
  assert (Hrect : rectangular self).
  { unfold rectangular, len; rewrite Hc; repeat constructor. }
  destruct (create_mass_column_then_calc_density binary64 self self'
              uniform_mass_params Hrect Hp eq_refl Hm
              ltac:(rewrite Vh; discriminate) Hcd)
    as (self1 & self1' & H1 & H2 & H3).
  exists self, self', self1, self1'; auto.
Defined.

(** X13: [centre_of_mass] reads three position columns.  On a dataframe
    of dimension 2, whose [zcol] is [None], it never returns: it raises the
    [TypeError] or [KeyError] of a mass that is not found or the [KeyError]
    of a position column that is not found, and when the mass and the x and
    y columns are found it raises [KeyError] for the label [None]. *)
Theorem centre_of_mass_needs_zcol
  (A : Arith) (series_sum : list (num A) -> num A) (self : SarracenDataFrame A) :
  get_dim self = 2 ->
  (exists e, centre_of_mass series_sum self = inl e
             /\ ((exists k, e = KeyError k) \/ exists msg, e = TypeError msg))
  /\ (forall xs ys,
        contains self (_mcol self) = true
        \/ (exists m, params_getitem self "mass" = inr m) ->
        self_getitem self (_xcol self) = inr xs ->
        self_getitem self (_ycol self) = inr ys ->
        centre_of_mass series_sum self = inl (KeyError "None")).
Proof.
  unfold get_dim; intros Hz.
  destruct (_zcol self) as [c |] eqn:Ez; [discriminate Hz |]; clear Hz.
  assert (Hself : forall label e, self_getitem self label = inl e ->
                                  exists k, e = KeyError k).
  { intros [c |] e; cbn [self_getitem].
    - intros H; apply getitem_raises in H; eauto.
    - intros [= <-]; eauto. }
  assert (Hpar : forall key e, params_getitem self key = inl e ->
                               (exists k, e = KeyError k)
                               \/ exists msg, e = TypeError msg).
  { intros key e; unfold params_getitem; destruct (_params self) as [d |].
    - intros H; apply getitem_raises in H; eauto.
    - intros [= <-]; eauto. }
  unfold centre_of_mass; rewrite Ez; cbn [self_getitem]; split.
  - destruct (contains self (_mcol self)).
    + destruct (self_getitem self (_mcol self)) as [e | col] eqn:Em;
        [exists e; split; [reflexivity | left; eapply Hself; eassumption] |].
      rewrite !bind_inr_l.
      destruct (self_getitem self (_xcol self)) as [e | xs] eqn:Ex;
        [exists e; split; [reflexivity | left; eapply Hself; eassumption] |].
      rewrite !bind_inr_l.
      destruct (self_getitem self (_ycol self)) as [e | ys] eqn:Ey;
        [exists e; split; [reflexivity | left; eapply Hself; eassumption] |].
      rewrite !bind_inr_l.
      eexists; split; [reflexivity | left; eauto].
    + destruct (params_getitem self "mass") as [e | m] eqn:Em;
        [exists e; split; [reflexivity | eapply Hpar; eassumption] |].
      rewrite !bind_inr_l.
      destruct (self_getitem self (_xcol self)) as [e | xs] eqn:Ex;
        [exists e; split; [reflexivity | left; eapply Hself; eassumption] |].
      rewrite !bind_inr_l.
      destruct (self_getitem self (_ycol self)) as [e | ys] eqn:Ey;
        [exists e; split; [reflexivity | left; eapply Hself; eassumption] |].
      rewrite !bind_inr_l.
      eexists; split; [reflexivity | left; eauto].
  - intros xs ys Hm Hx Hy; rewrite Hx, Hy.
    destruct (contains self (_mcol self)) eqn:Ec.
    + destruct (self_getitem self (_mcol self)) as [e | col] eqn:Em;
        [| reflexivity].
      destruct (_mcol self) as [c |]; [| discriminate Ec].
      cbn [contains] in Ec; destruct (has_column_getitem _ _ Ec) as (col & E).
      cbn [self_getitem] in Em; rewrite E in Em; discriminate Em.
    + destruct Hm as [Hm | (m & ->)]; [discriminate Hm | reflexivity].
Qed.

Lemma centre_of_mass_needs_zcol_witness :
  exists self,
    init tent_kernel one_particle PyNone = inr self
    /\ @centre_of_mass binary64 (fun _ => 0%float) self
       = inl (KeyError "None").
Proof.
  destruct (init_returns tent_kernel one_particle) as ((self & H & Hp & Hc) & _).
  destruct (init_roles tent_kernel one_particle PyNone self H)
    as (_ & Vx & Vy & Vz & _ & Vm & _).
  exists self; split; [exact H |].
  assert (Hd : get_dim self = 2) by (unfold get_dim; rewrite Vz; reflexivity).
  apply (proj2 (centre_of_mass_needs_zcol binary64 (fun _ => 0%float) self Hd)
           [0%float] [0%float]).
  - left; rewrite Vm; change (contains self (Some "m") = true).
    unfold contains; rewrite Hc; reflexivity.
  - rewrite Vx; change (self_getitem self (Some "x") = inr [0%float]).
    cbn [self_getitem]; rewrite Hc; reflexivity.
  - rewrite Vy; change (self_getitem self (Some "y") = inr [0%float]).
    cbn [self_getitem]; rewrite Hc; reflexivity.
Defined.

(** X14: [calc_one_fluid_quantities] on a dataframe without dust columns.
    The first line reads [self.dustfracscol[0]]; the constructor leaves that
    list empty when no label of the frame starts with 'dustfrac', and the
    method then raises [IndexError], with the dataframe as it was, whatever
    [params] holds. *)
Theorem calc_one_fluid_quantities_no_dust_columns
  (A : Arith) (sum_axis1 : Frame (num A) -> list string -> Result (list (num A)))
  (CubicSplineKernel : BaseKernel A) (data : Frame (num A))
  (params : PyObject A) (self : SarracenDataFrame A) :
  init CubicSplineKernel data params = inr self ->
  forallb (fun c => negb (String.prefix "dustfrac" c)) (map fst data) = true ->
  calc_one_fluid_quantities sum_axis1 self = (self, inl IndexError).
Proof.
  intros H Hn.
  destruct (init_roles _ _ _ _ H)
    as (_ & _ & _ & _ & _ & _ & _ & _ & _ & _ & Vd).
  assert (E : _dustfracscol self = []).
  { rewrite Vd; clear Vd H; induction (map fst data) as [| c l IH];
      [reflexivity |].
    cbn [forallb filter] in Hn |- *; apply andb_true_iff in Hn.
    destruct Hn as (Hc & Hl); apply negb_true_iff in Hc; rewrite Hc; auto. }
  unfold calc_one_fluid_quantities, dustfracscol_at.
  rewrite mbind_read, E; reflexivity.
Qed.

Lemma calc_one_fluid_quantities_no_dust_columns_witness :
  exists self,
    init tent_kernel one_particle PyNone = inr self
    /\ @calc_one_fluid_quantities binary64 (fun _ _ => inr []) self
       = (self, inl IndexError).
Proof.
  destruct (init_returns tent_kernel one_particle) as ((self & H & _) & _).
  exists self; split; [exact H |].
  apply (calc_one_fluid_quantities_no_dust_columns binary64 (fun _ _ => inr [])
           tent_kernel one_particle PyNone self H); reflexivity.
Defined.

(** X15: a call that fails may have changed the dataframe.  On a dataframe
    with a dust column and no density column, [calc_one_fluid_quantities]
    calls [calc_density] before it reads [params]; when 'ndustsmall' is then
    0, or 'ndustlarge' is not, it raises
    [ValueError('Not a one-fluid-only dump.')] and leaves the dataframe with
    the column 'rho' and the [rhocol] that [calc_density] assigned. *)
Theorem calc_one_fluid_quantities_raises_after_calc_density
  (A : Arith) (sum_axis1 : Frame (num A) -> list string -> Result (list (num A)))
  (self self1 : SarracenDataFrame A) (c0 : string) (l : list string)
  (small : num A) (nsmall : Z) :
  _dustfracscol self = c0 :: l -> has_column (columns self) c0 = true ->
  contains self (_rhocol self) = false ->
  calc_density self = inr self1 ->
  params_getitem self "ndustsmall" = inr small -> py_int small = inr nsmall ->
  nsmall = 0
  \/ (exists large nlarge, params_getitem self "ndustlarge" = inr large
                           /\ py_int large = inr nlarge /\ nlarge <> 0) ->
  calc_one_fluid_quantities sum_axis1 self
  = (self1, inl (ValueError "Not a one-fluid-only dump."))
  /\ has_column (columns self1) "rho" = true /\ _rhocol self1 = Some "rho".
Proof.
  intros Hd Hc0 Hrho Hcd Hs Hns Hn.
  destruct (calc_density_inr _ _ Hcd) as (rho & E).
  destruct (assign_column_facts rhocol self "rho" rho)
    as (E1 & E2 & _ & _ & E5 & _).
  rewrite <- E in E1, E2, E5; clear E.
  assert (Hp : forall key, params_getitem self1 key = params_getitem self key)
    by (intros key; unfold params_getitem; rewrite E2; reflexivity).
  split; [| split; [rewrite E1; apply has_column_setitem | exact E5]].
  unfold calc_one_fluid_quantities, dustfracscol_at, int_param.
  rewrite mbind_read, Hd; cbn [nth_error Z.to_nat ret].
  rewrite mbind_read; cbn [ret]; rewrite Hc0; cbn [negb].
  rewrite mbind_read; cbn [ret]; rewrite Hrho; cbn [negb].
  rewrite (mbind_inr call_calc_density _ self self1 tt)
    by (unfold call_calc_density; rewrite Hcd; reflexivity).
  rewrite mbind_read, Hp, Hs, bind_inr_l, Hns.
  destruct Hn as [-> | (large & nlarge & Hl & Hnl & Hne)].
  - reflexivity.
  - destruct (nsmall =? 0); [reflexivity |].
    rewrite (mbind_inr _ _ self1 self1 (negb (nlarge =? 0)));
      [| rewrite mbind_read, Hp, Hl, bind_inr_l, Hnl; reflexivity].
    replace (nlarge =? 0) with false by (symmetry; apply Z.eqb_neq; exact Hne).
    reflexivity.
Qed.

Lemma calc_one_fluid_quantities_raises_after_calc_density_witness :
  exists self self1,
    init tent_kernel no_small_dust_frame (PyDict no_small_dust_params)
    = inr self
    /\ has_column (columns self) "rho" = false
    /\ @calc_one_fluid_quantities binary64 (fun _ _ => inr []) self
       = (self1, inl (ValueError "Not a one-fluid-only dump."))
    /\ has_column (columns self1) "rho" = true.
Proof.
  destruct (init_returns tent_kernel no_small_dust_frame)
    as (_ & H); destruct (H no_small_dust_params) as (self & Hi & Hp & Hc).
  destruct (init_roles tent_kernel no_small_dust_frame
              (PyDict no_small_dust_params) self Hi)
    as (_ & _ & _ & _ & Vh & Vm & Vrho & _ & _ & _ & Vd).
  assert (Hh : contains self (_hcol self) = true)
    by (rewrite Vh; change (contains self (Some "h") = true);
        unfold contains; rewrite Hc; reflexivity).
  destruct (calc_density_rho self no_small_dust_params Hh Hp eq_refl
              (or_intror eq_refl))
    as (_ & _ & _ & self1 & _ & _ & _ & Hcd & _).
  exists self, self1.
  split; [exact Hi |].
  split; [rewrite Hc; reflexivity |].
  destruct (calc_one_fluid_quantities_raises_after_calc_density binary64
              (fun _ _ => inr []) self self1 "dustfrac" [] 0%float 0)
    as (H1 & H2 & _); auto.
  - rewrite Hc; reflexivity.
  - rewrite Vrho; reflexivity.
  - unfold params_getitem; rewrite Hp; reflexivity.
Defined.

(** X16: [calc_one_fluid_quantities] for one dust species.  On a dataframe
    with a dust column and a density column whose [params] has 'ndustsmall'
    equal to 1 and 'ndustlarge' to 0, the method reads the columns labelled
    'rho' and 'dustfrac', whatever [rhocol] and [dustfracscol] name: without
    a column 'rho' it raises [KeyError('rho')] and without a column
    'dustfrac' [KeyError('dustfrac')], the dataframe unchanged; with both it
    returns with rho_g = rho * dustfrac, rho_d = rho * (1 - dustfrac) and
    dtg = rho_d / rho_g, and every other column, [params] and the roles as
    they were. *)
Theorem calc_one_fluid_quantities_one_species
  (A : Arith) (sum_axis1 : Frame (num A) -> list string -> Result (list (num A)))
  (self : SarracenDataFrame A) (c0 : string) (l : list string)
  (small large : num A) :
  _dustfracscol self = c0 :: l -> has_column (columns self) c0 = true ->
  contains self (_rhocol self) = true ->
  params_getitem self "ndustsmall" = inr small -> py_int small = inr 1 ->
  params_getitem self "ndustlarge" = inr large -> py_int large = inr 0 ->
  (has_column (columns self) "rho" = false ->
   calc_one_fluid_quantities sum_axis1 self = (self, inl (KeyError "rho")))
  /\ (has_column (columns self) "rho" = true ->
      has_column (columns self) "dustfrac" = false ->
      calc_one_fluid_quantities sum_axis1 self
      = (self, inl (KeyError "dustfrac")))
  /\ (forall rho dustfrac,
        getitem (columns self) "rho" = inr rho ->
        getitem (columns self) "dustfrac" = inr dustfrac ->
        exists self',
          calc_one_fluid_quantities sum_axis1 self = (self', inr tt)
          /\ getitem (columns self') "rho_g" = inr (zip_with mul rho dustfrac)
          /\ getitem (columns self') "rho_d"
             = inr (zip_with mul rho (one_minus dustfrac))
          /\ getitem (columns self') "dtg"
             = inr (zip_with div (zip_with mul rho (one_minus dustfrac))
                      (zip_with mul rho dustfrac))
          /\ (forall key, key <> "rho_g" -> key <> "rho_d" -> key <> "dtg" ->
              getitem (columns self') key = getitem (columns self) key)
          /\ _params self' = _params self
          /\ _dustfracscol self' = _dustfracscol self
          /\ forall role, getter role self' = getter role self).
Proof.
  intros Hd Hc0 Hrho Hs Hns Hl Hnl.
  assert (Hhead :
             calc_one_fluid_quantities sum_axis1 self
             = (rho <~ column "rho" ;; dustfrac <~ column "dustfrac" ;;
                _ <~ assign "rho_g" (zip_with mul rho dustfrac) ;;
                rho <~ column "rho" ;;
                dustfrac <~ column "dustfrac" ;;
                _ <~ assign "rho_d" (zip_with mul rho (one_minus dustfrac)) ;;
                rho_d <~ column "rho_d" ;;
                rho_g <~ column "rho_g" ;;
                assign "dtg" (zip_with div rho_d rho_g)) self).
  { unfold calc_one_fluid_quantities, dustfracscol_at, int_param.
    rewrite mbind_read, Hd; cbn [nth_error Z.to_nat ret].
    rewrite mbind_read; cbn [ret]; rewrite Hc0; cbn [negb].
    rewrite mbind_read; cbn [ret]; rewrite Hrho; cbn [negb].
    rewrite (mbind_inr (mret tt) _ self self tt) by reflexivity.
    rewrite mbind_read, Hs, bind_inr_l, Hns; cbn [Z.eqb].
    rewrite (mbind_inr _ _ self self false)
      by (rewrite mbind_read, Hl, bind_inr_l, Hnl; reflexivity).
    rewrite mbind_read, Hs, bind_inr_l, Hns; reflexivity. }
  rewrite Hhead; clear Hhead; unfold column.
  split; [| split].
  - intros H; rewrite mbind_read, (getitem_missing _ _ H); reflexivity.
  - intros H H'; destruct (has_column_getitem _ _ H) as (rho & Er).
    rewrite mbind_read, Er, mbind_read, (getitem_missing _ _ H'); reflexivity.
  - intros rho dustfrac Er Ed.
    rewrite mbind_read, Er, mbind_read, Ed, mbind_assign.
    set (s1 := with_columns self
                 (setitem (columns self) "rho_g" (zip_with mul rho dustfrac))).
    assert (Er1 : getitem (columns s1) "rho" = inr rho)
      by (subst s1; cbn [columns with_columns]; rewrite getitem_setitem;
          exact Er).
    assert (Ed1 : getitem (columns s1) "dustfrac" = inr dustfrac)
      by (subst s1; cbn [columns with_columns]; rewrite getitem_setitem;
          exact Ed).
    rewrite mbind_read, Er1, mbind_read, Ed1, mbind_assign.
    set (s2 := with_columns s1
                 (setitem (columns s1) "rho_d"
                    (zip_with mul rho (one_minus dustfrac)))).
    assert (Ed2 : getitem (columns s2) "rho_d"
                  = inr (zip_with mul rho (one_minus dustfrac)))
      by (subst s2; cbn [columns with_columns]; rewrite getitem_setitem;
          reflexivity).
    assert (Eg2 : getitem (columns s2) "rho_g"
                  = inr (zip_with mul rho dustfrac))
      by (subst s2 s1; cbn [columns with_columns]; rewrite !getitem_setitem;
          reflexivity).
    rewrite mbind_read, Ed2, mbind_read, Eg2.
    eexists; split; [reflexivity |].
    unfold assign; cbn [fst columns with_columns].
    split; [rewrite getitem_setitem; exact Eg2 |].
    split; [rewrite getitem_setitem; exact Ed2 |].
    split; [rewrite getitem_setitem; reflexivity |].
    split; [| split; [reflexivity | split; [reflexivity |]]].
    + intros key K1 K2 K3; subst s2 s1; cbn [columns with_columns].
      rewrite !getitem_setitem.
      destruct (String.eqb "dtg" key) eqn:F3;
        [apply String.eqb_eq in F3; congruence |].
      destruct (String.eqb "rho_d" key) eqn:F2;
        [apply String.eqb_eq in F2; congruence |].
      destruct (String.eqb "rho_g" key) eqn:F1;
        [apply String.eqb_eq in F1; congruence |].
      reflexivity.
    + intros role; destruct role; reflexivity.
Qed.

Lemma calc_one_fluid_quantities_one_species_witness :
  exists self self',
    init tent_kernel one_dust_frame (PyDict one_dust_params) = inr self
    /\ @calc_one_fluid_quantities binary64 (fun _ _ => inr []) self
       = (self', inr tt)
    /\ getitem (columns self') "rho_g" = inr [0.5%float; 2%float]
    /\ getitem (columns self') "rho_d" = inr [1.5%float; 2%float]
    /\ getitem (columns self') "dtg" = inr [3%float; 1%float].
Proof.
  destruct (init_returns tent_kernel one_dust_frame)
    as (_ & H); destruct (H one_dust_params) as (self & Hi & Hp & Hc).
  destruct (init_roles tent_kernel one_dust_frame (PyDict one_dust_params)
              self Hi)
    as (_ & _ & _ & _ & _ & _ & Vrho & _ & _ & _ & Vd).
  destruct (calc_one_fluid_quantities_one_species binary64 (fun _ _ => inr [])
              self "dustfrac" [] 1%float 0%float)
    as (_ & _ & H3).
  - exact Vd.
  - rewrite Hc; reflexivity.
  - rewrite Vrho; change (contains self (Some "rho") = true).
    unfold contains; rewrite Hc; reflexivity.
  - unfold params_getitem; rewrite Hp; reflexivity.
  - reflexivity.
  - unfold params_getitem; rewrite Hp; reflexivity.
  - reflexivity.
  - destruct (H3 [2%float; 4%float] [0.25%float; 0.5%float])
      as (self' & E & G1 & G2 & G3 & _);
      [rewrite Hc; reflexivity | rewrite Hc; reflexivity |].
    exists self, self'; split; [exact Hi |]. split; [exact E |].
    split; [exact G1 |]. split; [exact G2 | exact G3].
Defined.
